(** * binarymap: the substitution <-> index registry of [BinaryMap]

    A shallow embedding of [src/binarymap/binarymap.py].  The class
    [BinaryMap] parses substitution tokens such as [M1A], assigns every
    substitution an index of a binary (one-hot) representation, and converts
    variants between their space-delimited substitution string and their
    binary vector.

    Modelling conventions.
    - A Python [str] is a [string]; the characters are the ASCII ones, so
      [str.isalpha], [str.split] and the regex classes [\d] and [.] are the
      ASCII versions of the Python predicates.
    - The alphabet is a list of single characters ("Allowed characters" in
      the class docstring).
    - A Python [dict] keeps its insertion order, and that order is read by
      [wts.items()]; dicts are association lists with Python's update
      discipline (module [PyDict]).
    - The iteration order of a Python [set] of strings is unspecified; the
      model is parametric in it (class [SetOrder]).
    - Every [raise] of the source is a [ValueError]; the messages tell the
      raise sites apart (type [message]).  The failing [assert]s and the
      failing builtins are exceptions of their own, among them the
      [OverflowError] of the array of the sites.
    - [int(s)] is read on ASCII numerals of a length within the limit of the
      interpreter (4300 digits by default), where it is the decimal value.
    - The data frame handling at the head of [__init__] (the optional score
      and count columns) is outside the model: [init] starts from the list of
      substitution strings read from the substitutions column. *)

From Stdlib Require Import List String Ascii ZArith Lia Bool Arith PeanoNat.
From Stdlib Require Import Sorted Permutation DecimalString DecimalZ DecimalPos.
Import ListNotations.

Local Open Scope list_scope.

(** ** Exceptions and the error monad *)

(** A site is an [int] (the default) or a [str] (option [sites_as_str]). *)
Inductive site : Type :=
| IntSite (z : Z)
| StrSite (s : string).

(** The messages of the [ValueError]s raised in the source, one constructor
    per [raise] statement, one for the builtin [min] on an empty sequence
    and one for a coordinate outside the shape of a sparse array. *)
Inductive message : Type :=
| MsgInvalidAlphabetChar (char : ascii)
| MsgNotInAllowedSubs (extra_subs : list string)
| MsgDifferentWildtypes (s : site) (wt wt' : ascii)
| MsgExpandSitesAsStr
| MsgExpandAllowedSubs
| MsgWtseqNotStr
| MsgWtseqNotInAlphabet
| MsgMinEmptySequence
| MsgSitesStartAt1
| MsgWtseqTooShort
| MsgWtseqDiffers (s : site)
| MsgWtseqNotNone
| MsgMultipleSubsAtSite (sub_str : string)
| MsgInvalidSub (sub : string)
| MsgSameWtMut (sub : string)
| MsgBinaryLength
| MsgBinaryNot01
| MsgBinaryMultipleSubs (subs : string)
| MsgInvalidIndex (i : nat)
| MsgUnexpectedIndex (i : nat)
| MsgSubNotInMap (sub : string)
| MsgCsrIndexOutOfBounds.

Inductive exn : Type :=
| ValueError (m : message)
| AssertionError
| KeyError
| IndexError
| OverflowError.

Inductive result (A : Type) : Type :=
| OK (a : A)
| Err (e : exn).

Arguments OK {A} a.
Arguments Err {A} e.

Definition bind {A B : Type} (r : result A) (k : A -> result B) : result B :=
  match r with
  | OK a => k a
  | Err e => Err e
  end.

Notation "x <- r ;; k" := (bind r (fun x => k))
  (at level 61, r at next level, right associativity).
Notation "' p <- r ;; k" := (bind r (fun x => let p := x in k))
  (at level 61, p pattern, r at next level, right associativity).

Definition raise {A : Type} (m : message) : result A := Err (ValueError m).

(** A loop whose body may raise: the first exception ends it. *)
Fixpoint foldM {A S : Type} (f : S -> A -> result S) (l : list A) (s : S)
  : result S :=
  match l with
  | [] => OK s
  | a :: l' => s' <- f s a ;; foldM f l' s'
  end.

Fixpoint mapM {A B : Type} (f : A -> result B) (l : list A) : result (list B) :=
  match l with
  | [] => OK []
  | a :: l' => b <- f a ;; bs <- mapM f l' ;; OK (b :: bs)
  end.

(** ** Characters and strings *)

(** [str.isalpha] and the regex class [\d] on an ASCII character; on the
    other characters of Unicode the predicates of Python hold of more
    letters and decimal digits. *)
Definition isalpha (c : ascii) : bool :=
  let n := nat_of_ascii c in
  ((65 <=? n) && (n <=? 90)) || ((97 <=? n) && (n <=? 122)).

Definition isdigit (c : ascii) : bool :=
  let n := nat_of_ascii c in (48 <=? n) && (n <=? 57).

(** The ASCII characters on which [str.split()] splits. *)
Definition isspace (c : ascii) : bool :=
  let n := nat_of_ascii c in
  ((9 <=? n) && (n <=? 13)) || ((28 <=? n) && (n <=? 32)).

Definition newline : ascii := ascii_of_nat 10.

Definition char_in (c : ascii) (l : list ascii) : bool :=
  existsb (Ascii.eqb c) l.

Definition str1 (c : ascii) : string := String c EmptyString.

Definition is_empty (s : string) : bool :=
  match s with
  | EmptyString => true
  | String _ _ => false
  end.

Fixpoint string_forall (p : ascii -> bool) (s : string) : bool :=
  match s with
  | EmptyString => true
  | String c r => p c && string_forall p r
  end.

(** [sub_str.split()]: the maximal runs of characters that are not
    whitespace. [cur] is the run being read. *)
Fixpoint split_from (cur : string) (s : string) : list string :=
  match s with
  | EmptyString => if is_empty cur then [] else [cur]
  | String c r =>
      if isspace c
      then (if is_empty cur then split_from EmptyString r
            else cur :: split_from EmptyString r)
      else split_from (cur ++ str1 c)%string r
  end.

Definition split (s : string) : list string := split_from EmptyString s.

(** [" ".join(subs)] *)
Definition join (subs : list string) : string := String.concat " " subs.

(** The string without its last character, and that character. *)
Fixpoint unsnoc (s : string) : option (string * ascii) :=
  match s with
  | EmptyString => None
  | String c r =>
      match unsnoc r with
      | None => Some (EmptyString, c)
      | Some (r', l) => Some (String c r', l)
      end
  end.

(** [str(n)] and [int(s)] for decimal numerals of ASCII digits. [int]
    is read on the matches of [\-?\d+], which are numerals; the interpreter
    refuses with a [ValueError] a numeral of more digits than its limit
    (4300 by default), a case that [int_of_str] leaves out. *)
Definition str_of_int (z : Z) : string := NilZero.string_of_int (Z.to_int z).

Definition int_of_str (s : string) : Z :=
  match NilZero.int_of_string s with
  | Some d => Z.of_int d
  | None => 0%Z
  end.

Definition site_eqb (a b : site) : bool :=
  match a, b with
  | IntSite x, IntSite y => Z.eqb x y
  | StrSite x, StrSite y => String.eqb x y
  | _, _ => false
  end.

(** [f"{site}"] *)
Definition site_str (s : site) : string :=
  match s with
  | IntSite z => str_of_int z
  | StrSite t => t
  end.

(** ** The substitution grammar

    [_sub_regex] is [(?P<wt>c1|...|cn)(?P<site>SITE)(?P<mut>c1|...|cn)] with
    [SITE] either [\-?\d+] or [.+], matched with [re.fullmatch]. The
    alternatives are single characters, escaped when they are [*] or [-]. *)

(** [re.fullmatch(r"\-?\d+", s)] on an ASCII string *)
Definition match_site_int (s : string) : bool :=
  match s with
  | String "-" r => negb (is_empty r) && string_forall isdigit r
  | _ => negb (is_empty s) && string_forall isdigit s
  end.

(** [re.fullmatch(r".+", s)]: the dot matches every character but a
    newline. *)
Definition match_site_str (s : string) : bool :=
  negb (is_empty s) && string_forall (fun c => negb (Ascii.eqb c newline)) s.

Definition match_site (sites_as_str : bool) (s : string) : bool :=
  if sites_as_str then match_site_str s else match_site_int s.

Definition site_of_group (sites_as_str : bool) (s : string) : site :=
  if sites_as_str then StrSite s else IntSite (int_of_str s).

(** [re.fullmatch(self._sub_regex, sub)] for a non-empty alphabet: the
    groups [wt], [site] and [mut] of the match. *)
Definition sub_regex_fullmatch (alphabet : list ascii) (sites_as_str : bool)
    (sub : string) : option (ascii * string * ascii) :=
  match sub with
  | EmptyString => None
  | String wt rest =>
      match unsnoc rest with
      | None => None
      | Some (mid, mut) =>
          if char_in wt alphabet && char_in mut alphabet
             && match_site sites_as_str mid
          then Some (wt, mid, mut)
          else None
      end
  end.

(** [BinaryMap._parse_sub_str]. With an empty alphabet the groups [wt] and
    [mut] of the regex are empty alternations, which match the empty string:
    a string that is a site then matches, with [wt] and [mut] both empty. *)
Definition _parse_sub_str (alphabet : list ascii) (sites_as_str : bool)
    (sub : string) : result (ascii * site * ascii) :=
  match alphabet with
  | [] =>
      if match_site sites_as_str sub
      then raise (MsgSameWtMut sub)
      else raise (MsgInvalidSub sub)
  | _ :: _ =>
      match sub_regex_fullmatch alphabet sites_as_str sub with
      | None => raise (MsgInvalidSub sub)
      | Some (wt, mid, mut) =>
          if Ascii.eqb wt mut
          then raise (MsgSameWtMut sub)
          else OK (wt, site_of_group sites_as_str mid, mut)
      end
  end.

(** [f"{wt}{site}{mut}"] *)
Definition sub_string (wt : ascii) (s : site) (mut : ascii) : string :=
  (String wt (site_str s ++ str1 mut))%string.

(** ** Python containers *)

(** A [dict]: an association list in insertion order. Assigning to a key
    that is present replaces its value in place; a new key goes to the
    end. *)
Module PyDict.
Section Dict.
Context {K V : Type} (eqb : K -> K -> bool).

Definition t : Type := list (K * V).

Fixpoint get (d : t) (k : K) : option V :=
match d with
| [] => None
| (k', v) :: r => if eqb k' k then Some v else get r k
end.

Fixpoint set (d : t) (k : K) (v : V) : t :=
match d with
| [] => [(k, v)]
| (k', v') :: r =>
    if eqb k' k then (k', v) :: r else (k', v') :: set r k v
end.

Definition contains (d : t) (k : K) : bool :=
match get d k with
| Some _ => true
| None => false
end.

Definition keys (d : t) : list K := map fst d.
Definition values (d : t) : list V := map snd d.
Definition items (d : t) : list (K * V) := d.
End Dict.
End PyDict.

(** [x in l] for a set or a list *)
Definition mem {A : Type} (eqb : A -> A -> bool) (x : A) (l : list A) : bool :=
  existsb (eqb x) l.

(** [s.add(x)] for a set kept as a list without repetition *)
Definition set_add {A : Type} (eqb : A -> A -> bool) (x : A) (l : list A)
  : list A :=
  if mem eqb x l then l else l ++ [x].

(** The number of distinct elements: [len(set(l))] *)
Fixpoint distinct {A : Type} (eqb : A -> A -> bool) (l : list A) : list A :=
  match l with
  | [] => []
  | x :: r => if mem eqb x r then distinct eqb r else x :: distinct eqb r
  end.

(** [sorted(l, key=key)]: Python's sort is stable, and so is this insertion
    sort: an element goes before the first element whose key is not
    smaller. *)
Section Sorting.
Context {A K : Type} (key : A -> K) (leb : K -> K -> bool).

Fixpoint insert_sorted (x : A) (l : list A) : list A :=
  match l with
  | [] => [x]
  | y :: r =>
      if leb (key x) (key y) then x :: l else y :: insert_sorted x r
  end.

Definition sorted (l : list A) : list A := fold_right insert_sorted [] l.
End Sorting.

(** The order in which a [set] of strings is iterated. Python leaves it
    unspecified (it follows the hashes); [set_iter l] is the iteration order
    of the set built from the elements [l]. *)
Class SetOrder : Type := {
  set_iter : list string -> list string;
  set_iter_NoDup : forall l, NoDup (set_iter l);
  set_iter_In : forall l x, In x (set_iter l) <-> In x l
}.

(** ** natsort *)

Inductive chunk : Type :=
| Txt (s : string)
| Num (z : Z).

(** The value of a numeral with an optional sign [+] or [-]. *)
Definition signed_int_of_str (s : string) : Z :=
  match s with
  | String "+" r => int_of_str r
  | _ => int_of_str s
  end.

Definition is_sign (c : ascii) : bool :=
  Ascii.eqb c "+" || Ascii.eqb c "-".

Definition starts_with_digit (s : string) : bool :=
  match s with
  | String d _ => isdigit d
  | EmptyString => false
  end.

(** Modelled from the spec: [natsort.natsorted] with [alg=natsort.ns.SIGNED]
    is a function of the third-party library natsort, which [src/] does not
    hold. The spec asks for "a natural (numeric-aware) ascending sort so that
    string sites with numeric prefixes sort sensibly (e.g., "9" before "10a"
    before "10b"); numeric sites sort numerically including negative sites".
    natsort obtains it by sorting on a key: a string is cut at its numerals
    [[-+]?\d+] into an alternation of text and numbers that starts with a
    text (the empty one before a leading numeral and between two numerals),
    and the keys are compared as Python tuples. [cur] is the text being read
    and [num] the numeral being read. *)
Fixpoint natsort_chunks (cur : string) (num : option string) (s : string)
  : list chunk :=
  match s with
  | EmptyString =>
      match num with
      | Some lit => [Num (signed_int_of_str lit)]
      | None => if is_empty cur then [] else [Txt cur]
      end
  | String c r =>
      match num with
      | Some lit =>
          if isdigit c then natsort_chunks cur (Some (lit ++ str1 c)%string) r
          else if is_sign c && starts_with_digit r
          then Num (signed_int_of_str lit) :: Txt EmptyString
                 :: natsort_chunks EmptyString (Some (str1 c)) r
          else Num (signed_int_of_str lit)
                 :: natsort_chunks (str1 c) None r
      | None =>
          if isdigit c || (is_sign c && starts_with_digit r)
          then Txt cur :: natsort_chunks EmptyString (Some (str1 c)) r
          else natsort_chunks (cur ++ str1 c)%string None r
      end
  end.

Definition natsort_key (s : string) : list chunk :=
  natsort_chunks EmptyString None s.

(** The key of a number is the pair of the empty string and the number. *)
Definition site_key (s : site) : list chunk :=
  match s with
  | IntSite z => [Txt EmptyString; Num z]
  | StrSite t => natsort_key t
  end.

(** Python compares the items of two keys pairwise. Keys alternate text and
    number from a text on, so a text only meets a text and a number a
    number; the order between a text and a number is never consulted. *)
Definition chunk_compare (a b : chunk) : comparison :=
  match a, b with
  | Txt x, Txt y => String.compare x y
  | Num x, Num y => Z.compare x y
  | Txt _, Num _ => Lt
  | Num _, Txt _ => Gt
  end.

Definition key_compare (a b : list chunk) : comparison :=
  list_compare chunk_compare a b.

Definition key_leb (a b : list chunk) : bool :=
  match key_compare a b with
  | Gt => false
  | _ => true
  end.

(** The key of an item [(site, wt)] of [wts] is the pair of the keys. *)
Definition item_key (it : site * ascii) : list chunk * list chunk :=
  (site_key (fst it), natsort_key (str1 (snd it))).

Definition item_key_leb (a b : list chunk * list chunk) : bool :=
  match key_compare (fst a) (fst b) with
  | Lt => true
  | Gt => false
  | Eq => key_leb (snd a) (snd b)
  end.

(** [natsort.natsorted(wts.items(), alg=natsort.ns.SIGNED)] *)
Definition natsorted (items : list (site * ascii)) : list (site * ascii) :=
  sorted item_key item_key_leb items.

(** The natural order of the sites. *)
Definition site_le (a b : site) : Prop :=
  key_leb (site_key a) (site_key b) = true.

Definition site_lt (a b : site) : Prop :=
  key_compare (site_key a) (site_key b) = Lt.

(** ** The sparse matrix

    [scipy.sparse.csr_array((ones, (row_ind, col_ind)), shape=...)]: an entry
    of the array is the number of coordinates that name it. *)
Record csr_array : Type := {
  shape : nat * nat;
  coords : list (nat * nat)
}.

Definition coord_eqb (a b : nat * nat) : bool :=
  Nat.eqb (fst a) (fst b) && Nat.eqb (snd a) (snd b).

Definition csr_get (m : csr_array) (r c : nat) : Z :=
  Z.of_nat (List.length (filter (coord_eqb (r, c)) (coords m))).

(** [m.toarray()] *)
Definition toarray (m : csr_array) : list (list Z) :=
  map (fun r => map (csr_get m r) (seq 0 (snd (shape m)))) (seq 0 (fst (shape m))).

Definition zsum (l : list Z) : Z := fold_right Z.add 0%Z l.

(** ** The class *)

Record BinaryMap : Type := {
  alphabet : list ascii;
  sites_as_str : bool;
  substitution_variants : list string;
  nvariants : nat;
  _i_to_sub : PyDict.t (K := nat) (V := string);
  _wt_indices : PyDict.t (K := site) (V := nat);
  binary_sites : list site;
  binarylength : nat;
  _sub_to_i : PyDict.t (K := string) (V := nat);
  _wt_index_set : list nat;
  binary_variants : csr_array
}.

(** [BinaryMap.i_to_sub]; an index is a [nat], so the test [i < 0] of the
    handler is left out. *)
Definition i_to_sub (self : BinaryMap) (i : nat) : result string :=
  if mem Nat.eqb i (_wt_index_set self) then OK EmptyString
  else
    match PyDict.get Nat.eqb (_i_to_sub self) i with
    | Some sub => OK sub
    | None =>
        if binarylength self <=? i
        then raise (MsgInvalidIndex i)
        else raise (MsgUnexpectedIndex i)
    end.

(** [BinaryMap.sub_to_i] *)
Definition sub_to_i (self : BinaryMap) (sub : string) : result nat :=
  match PyDict.get String.eqb (_sub_to_i self) sub with
  | Some i => OK i
  | None => raise (MsgSubNotInMap sub)
  end.

(** The first loop of [sub_str_to_indices]: [st] is [(sites, indices)]. *)
Definition indices_step (self : BinaryMap) (sub_str : string)
    (st : list site * list nat) (sub : string)
  : result (list site * list nat) :=
  let '(sites, indices) := st in
  '(_, s, _) <- _parse_sub_str (alphabet self) (sites_as_str self) sub ;;
  if mem site_eqb s sites
  then raise (MsgMultipleSubsAtSite sub_str)
  else
    i <- sub_to_i self sub ;;
    OK (set_add site_eqb s sites, indices ++ [i]).

(** [BinaryMap.sub_str_to_indices] *)
Definition sub_str_to_indices (self : BinaryMap) (sub_str : string)
  : result (list nat) :=
  '(sites, indices) <- foldM (indices_step self sub_str) (split sub_str) ([], []) ;;
  let indices :=
    fold_left
      (fun acc '(s, i) => if mem site_eqb s sites then acc else acc ++ [i])
      (PyDict.items (_wt_indices self)) indices in
  OK (sorted (fun i => i) Nat.leb indices).

(** [BinaryMap.sub_str_to_binary]: [binrep[indices] = 1] raises
    [IndexError] on an index that is out of range. *)
Definition sub_str_to_binary (self : BinaryMap) (sub_str : string)
  : result (list Z) :=
  indices <- sub_str_to_indices self sub_str ;;
  if forallb (fun i => i <? binarylength self) indices
  then OK (map (fun i => if mem Nat.eqb i indices then 1%Z else 0%Z)
             (seq 0 (binarylength self)))
  else Err IndexError.

(** [numpy.flatnonzero(binary)] *)
Fixpoint flatnonzero_from (i : nat) (binary : list Z) : list nat :=
  match binary with
  | [] => []
  | b :: r =>
      if Z.eqb b 0 then flatnonzero_from (S i) r
      else i :: flatnonzero_from (S i) r
  end.

Definition flatnonzero (binary : list Z) : list nat := flatnonzero_from 0 binary.

Definition is_0_or_1 (b : Z) : bool := Z.eqb b 0 || Z.eqb b 1.

(** [BinaryMap.binary_to_sub_str] *)
Definition binary_to_sub_str (self : BinaryMap) (binary : list Z)
  : result string :=
  if negb (List.length binary =? binarylength self)
  then raise MsgBinaryLength
  else if negb (forallb is_0_or_1 binary)
  then raise MsgBinaryNot01
  else
    all <- mapM (i_to_sub self) (flatnonzero binary) ;;
    let subs := filter (fun s => negb (is_empty s)) all in
    sites <- mapM (fun sub =>
                     '(_, s, _) <- _parse_sub_str (alphabet self)
                                     (sites_as_str self) sub ;;
                     OK s) subs ;;
    if negb (List.length sites =? List.length (distinct site_eqb sites))
    then raise (MsgBinaryMultipleSubs (join subs))
    else OK (join subs).

(** [BinaryMap.all_subs] *)
Definition all_subs (self : BinaryMap) : result (list string) :=
  all <- mapM (i_to_sub self) (seq 0 (binarylength self)) ;;
  OK (filter (fun s => negb (is_empty s)) all).

(** ** Construction *)

(** The loop over the alphabet that builds the regex. *)
Fixpoint check_alphabet (alphabet : list ascii) : result unit :=
  match alphabet with
  | [] => OK tt
  | char :: r =>
      if isalpha char || Ascii.eqb char "*" || Ascii.eqb char "-"
      then check_alphabet r
      else raise (MsgInvalidAlphabetChar char)
  end.

Definition wts_dict : Type := PyDict.t (K := site) (V := ascii).
Definition muts_dict : Type := PyDict.t (K := site) (V := list ascii).

(** [muts[site]] of a [defaultdict(set)] *)
Definition muts_at (muts : muts_dict) (s : site) : list ascii :=
  match PyDict.get site_eqb muts s with
  | Some l => l
  | None => []
  end.

(** The body of [for sub in subs_in_variants] *)
Definition collect_step (alphabet : list ascii) (sites_as_str : bool)
    (st : wts_dict * muts_dict) (sub : string) : result (wts_dict * muts_dict) :=
  let '(wts, muts) := st in
  '(wt, s, mut) <- _parse_sub_str alphabet sites_as_str sub ;;
  wts' <- match PyDict.get site_eqb wts s with
          | None => OK (PyDict.set site_eqb wts s wt)
          | Some wt0 =>
              if Ascii.eqb wt wt0 then OK wts
              else raise (MsgDifferentWildtypes s wt wt0)
          end ;;
  OK (wts', PyDict.set site_eqb muts s (set_add Ascii.eqb mut (muts_at muts s))).

(** The registry under construction: the counter [i] and the three
    containers filled by the assignment loops. *)
Record registry : Type := {
  next_i : nat;
  r_i_to_sub : PyDict.t (K := nat) (V := string);
  r_wt_indices : PyDict.t (K := site) (V := nat);
  r_binary_sites : list site
}.

Definition empty_registry : registry :=
  {| next_i := 0; r_i_to_sub := []; r_wt_indices := []; r_binary_sites := [] |}.

(** One index for the substitution [sub] at site [s]. *)
Definition assign_index (s : site) (sub : string) (r : registry) : registry :=
  {| next_i := next_i r;
     r_i_to_sub := PyDict.set Nat.eqb (r_i_to_sub r) (next_i r) sub;
     r_wt_indices := r_wt_indices r;
     r_binary_sites := r_binary_sites r ++ [s] |}.

Definition incr_i (r : registry) : registry :=
  {| next_i := S (next_i r);
     r_i_to_sub := r_i_to_sub r;
     r_wt_indices := r_wt_indices r;
     r_binary_sites := r_binary_sites r |}.

Definition set_wt_index (s : site) (r : registry) : registry :=
  {| next_i := next_i r;
     r_i_to_sub := r_i_to_sub r;
     r_wt_indices := PyDict.set site_eqb (r_wt_indices r) s (next_i r);
     r_binary_sites := r_binary_sites r |}.

(** The body of [for char in self.alphabet] of the expansion. *)
Definition expand_char_step (s : site) (wt : ascii) (r : registry)
    (char : ascii) : result registry :=
  let r1 := assign_index s (sub_string wt s char) r in
  r2 <- (if Ascii.eqb char wt
         then if PyDict.contains site_eqb (r_wt_indices r1) s
              then Err AssertionError
              else OK (set_wt_index s r1)
         else OK r1) ;;
  OK (incr_i r2).

(** The body of [for site, wt in enumerate(wtseq, start=1)] *)
Definition expand_site_step (alphabet : list ascii) (wts : wts_dict)
    (r : registry) (it : site * ascii) : result registry :=
  let '(s, wt) := it in
  match PyDict.get site_eqb wts s with
  | Some wt0 =>
      if Ascii.eqb wt0 wt then foldM (expand_char_step s wt) alphabet r
      else Err AssertionError
  | None => foldM (expand_char_step s wt) alphabet r
  end.

(** [enumerate(wtseq, start=1)] *)
Definition enumerate1 (wtseq : list ascii) : list (site * ascii) :=
  combine (map (fun k => IntSite (Z.of_nat k)) (seq 1 (List.length wtseq))) wtseq.

(** The integer of a site; the sites are all [int] where this is used. *)
Definition site_int (s : site) : Z :=
  match s with
  | IntSite z => z
  | StrSite _ => 0%Z
  end.

(** The body of [for site, wt in wts.items()]: [wtseq[site - 1] != wt] *)
Definition wtseq_check (w : list ascii) (_ : unit) (it : site * ascii)
  : result unit :=
  let '(s, wt) := it in
  match nth_error w (Z.to_nat (site_int s - 1)) with
  | Some c => if Ascii.eqb c wt then OK tt else raise (MsgWtseqDiffers s)
  | None => Err IndexError
  end.

(** The branch [if expand:] *)
Definition assign_expand (alphabet : list ascii) (sites_as_str : bool)
    (allowed_subs : option (list string)) (wtseq : option string)
    (wts : wts_dict) : result registry :=
  if sites_as_str then raise MsgExpandSitesAsStr
  else
    match allowed_subs with
    | Some _ => raise MsgExpandAllowedSubs
    | None =>
        match wtseq with
        | None => raise MsgWtseqNotStr
        | Some wtseq =>
            let w := list_ascii_of_string wtseq in
            if negb (forallb (fun c => char_in c alphabet) w)
            then raise MsgWtseqNotInAlphabet
            else
              match map site_int (PyDict.keys wts) with
              | [] => raise MsgMinEmptySequence
              | k :: ks =>
                  if (fold_right Z.min k ks <? 1)%Z
                  then raise MsgSitesStartAt1
                  else if (Z.of_nat (List.length w) <? fold_right Z.max k ks)%Z
                  then raise MsgWtseqTooShort
                  else
                    _ <- foldM (wtseq_check w) (PyDict.items wts) tt ;;
                    foldM (expand_site_step alphabet wts) (enumerate1 w)
                      empty_registry
              end
        end
    end.

(** [{c: i for i, c in enumerate(self.alphabet)}] *)
Definition char_order (alphabet : list ascii) : PyDict.t (K := ascii) (V := nat) :=
  fold_left (fun d '(i, c) => PyDict.set Ascii.eqb d c i)
    (combine (seq 0 (List.length alphabet)) alphabet) [].

(** [sorted(muts[site], key=lambda m: char_order[m[-1]])]: the keys are
    computed first, and a character without a key raises [KeyError]. *)
Definition sorted_muts (alphabet : list ascii) (muts : list ascii)
  : result (list ascii) :=
  keyed <- mapM (fun m =>
                   match PyDict.get Ascii.eqb (char_order alphabet) m with
                   | Some k => OK (m, k)
                   | None => Err KeyError
                   end) muts ;;
  OK (map fst (sorted snd Nat.leb keyed)).

(** The body of [for site, wt in natsort.natsorted(...)] *)
Definition observed_site_step (alphabet : list ascii) (muts : muts_dict)
    (r : registry) (it : site * ascii) : result registry :=
  let '(s, wt) := it in
  ms <- sorted_muts alphabet (muts_at muts s) ;;
  OK (fold_left (fun r mut => incr_i (assign_index s (sub_string wt s mut) r))
        ms r).

(** The branch [else:] of [if expand:] *)
Definition assign_observed (alphabet : list ascii) (wtseq : option string)
    (wts : wts_dict) (muts : muts_dict) : result registry :=
  match wtseq with
  | Some _ => raise MsgWtseqNotNone
  | None =>
      foldM (observed_site_step alphabet muts) (natsorted (PyDict.items wts))
        empty_registry
  end.

(** [{sub: i for i, sub in self._i_to_sub.items()}] *)
Definition invert (i_to_sub : PyDict.t (K := nat) (V := string))
  : PyDict.t (K := string) (V := nat) :=
  fold_left (fun d '(i, sub) => PyDict.set String.eqb d sub i)
    (PyDict.items i_to_sub) [].

(** The coordinates of the ones: [row_ind] and [col_ind] zipped. *)
Fixpoint coords_from (ivariant : nat) (rows : list (list nat))
  : list (nat * nat) :=
  match rows with
  | [] => []
  | row :: rest =>
      map (fun isub => (ivariant, isub)) row ++ coords_from (S ivariant) rest
  end.

(** The constructor of [csr_array] refuses a column outside the shape. *)
Definition make_csr (nrows ncols : nat) (cs : list (nat * nat))
  : result csr_array :=
  if forallb (fun c => (fst c <? nrows) && (snd c <? ncols)) cs
  then OK {| shape := (nrows, ncols); coords := cs |}
  else raise MsgCsrIndexOutOfBounds.

(** The object at the end of [__init__], with the matrix [m]. The set
    [_wt_index_set] is only ever asked for membership. *)
Definition object_of (substitutions : list string) (alphabet : list ascii)
    (sites_as_str : bool) (r : registry) (m : csr_array) : BinaryMap :=
  {| alphabet := alphabet;
     sites_as_str := sites_as_str;
     substitution_variants := substitutions;
     nvariants := List.length substitutions;
     _i_to_sub := r_i_to_sub r;
     _wt_indices := r_wt_indices r;
     binary_sites := r_binary_sites r;
     binarylength := List.length (r_i_to_sub r);
     _sub_to_i := invert (r_i_to_sub r);
     _wt_index_set := PyDict.values (r_wt_indices r);
     binary_variants := m |}.

Definition empty_csr : csr_array := {| shape := (0, 0); coords := [] |}.

(** The end of [__init__] but for the conversion of [binary_sites] into an
    array, which [array_finish] adds: the lengths, the inverse dict, the
    assertion and the matrix. [sub_str_to_indices] is called on the object
    whose matrix is not set yet. The object returned keeps in [binary_sites]
    the list that the loops have filled. *)
Definition finish (substitutions : list string) (alphabet : list ascii)
    (sites_as_str : bool) (r : registry) : result BinaryMap :=
  if negb (List.length (invert (r_i_to_sub r)) =? List.length (r_i_to_sub r))
  then Err AssertionError
  else
    rows <- mapM (sub_str_to_indices
                    (object_of substitutions alphabet sites_as_str r empty_csr))
              substitutions ;;
    m <- make_csr (List.length substitutions) (List.length (r_i_to_sub r))
           (coords_from 0 rows) ;;
    OK (object_of substitutions alphabet sites_as_str r m).

(** *** The array of the sites

    [numpy.array(self.binary_sites, dtype=str if self.sites_as_str else int)]:
    with [dtype=int] the entries are C longs, of 64 bits, and an [int] outside
    their range raises [OverflowError]; with [dtype=str] the entries have a
    fixed width and are read back without their trailing NUL characters. *)
Definition c_long_min : Z := (- 2 ^ 63)%Z.
Definition c_long_max : Z := (2 ^ 63 - 1)%Z.

Definition fits_c_long (z : Z) : bool :=
  ((c_long_min <=? z) && (z <=? c_long_max))%Z.

(** A string without its trailing NUL characters. *)
Fixpoint strip_nul (s : string) : string :=
  match s with
  | EmptyString => EmptyString
  | String c r =>
      let r' := strip_nul r in
      if Ascii.eqb c zero && is_empty r' then EmptyString else String c r'
  end.

(** An entry of the array, read back. *)
Definition np_site (s : site) : site :=
  match s with
  | IntSite z => IntSite z
  | StrSite t => StrSite (strip_nul t)
  end.

Definition site_fits (s : site) : bool :=
  match s with
  | IntSite z => fits_c_long z
  | StrSite _ => true
  end.

Definition np_array (sites_as_str : bool) (sites : list site)
  : result (list site) :=
  if sites_as_str then OK (map np_site sites)
  else if forallb site_fits sites then OK (map np_site sites)
  else Err OverflowError.

(** The object with the array [sites] for [binary_sites]. *)
Definition with_binary_sites (bm : BinaryMap) (sites : list site) : BinaryMap :=
  {| alphabet := alphabet bm;
     sites_as_str := sites_as_str bm;
     substitution_variants := substitution_variants bm;
     nvariants := nvariants bm;
     _i_to_sub := _i_to_sub bm;
     _wt_indices := _wt_indices bm;
     binary_sites := sites;
     binarylength := binarylength bm;
     _sub_to_i := _sub_to_i bm;
     _wt_index_set := _wt_index_set bm;
     binary_variants := binary_variants bm |}.

(** The end of [__init__]: the array of the sites is made first, so its
    [OverflowError] comes before the assertion and before the exceptions of
    the encoding of the variants, none of which reads [binary_sites]. *)
Definition array_finish (substitutions : list string) (alphabet : list ascii)
    (sites_as_str : bool) (r : registry) : result BinaryMap :=
  sites <- np_array sites_as_str (r_binary_sites r) ;;
  bm <- finish substitutions alphabet sites_as_str r ;;
  OK (with_binary_sites bm sites).

Section Init.
Context {SO : SetOrder}.

(** [subs_in_variants], after the test against [allowed_subs] *)
Definition subs_in_variants (substitutions : list string)
    (allowed_subs : option (list string)) : result (list string) :=
  let used := set_iter (flat_map split substitutions) in
  match allowed_subs with
  | None => OK used
  | Some allowed =>
      let extra_subs :=
        sorted (fun s => s) String.leb
          (filter (fun s => negb (mem String.eqb s allowed)) used) in
      match extra_subs with
      | [] => OK (set_iter allowed)
      | _ :: _ => raise (MsgNotInAllowedSubs extra_subs)
      end
  end.

(** [BinaryMap.__init__], from the regex on, with [binary_sites] left as
    the list that the loops fill; [__init__] below is the whole of it. The
    maps, the matrix and the methods do not read [binary_sites], and the
    properties that are about them are stated on [init]. *)
Definition init (substitutions : list string) (alphabet : list ascii)
    (allowed_subs : option (list string)) (sites_as_str expand : bool)
    (wtseq : option string) : result BinaryMap :=
  _ <- check_alphabet alphabet ;;
  subs <- subs_in_variants substitutions allowed_subs ;;
  '(wts, muts) <- foldM (collect_step alphabet sites_as_str) subs ([], []) ;;
  r <- (if expand
        then assign_expand alphabet sites_as_str allowed_subs wtseq wts
        else assign_observed alphabet wtseq wts muts) ;;
  finish substitutions alphabet sites_as_str r.

(** [BinaryMap.__init__], from the regex on. *)
Definition __init__ (substitutions : list string) (alphabet : list ascii)
    (allowed_subs : option (list string)) (sites_as_str expand : bool)
    (wtseq : option string) : result BinaryMap :=
  _ <- check_alphabet alphabet ;;
  subs <- subs_in_variants substitutions allowed_subs ;;
  '(wts, muts) <- foldM (collect_step alphabet sites_as_str) subs ([], []) ;;
  r <- (if expand
        then assign_expand alphabet sites_as_str allowed_subs wtseq wts
        else assign_observed alphabet wtseq wts muts) ;;
  array_finish substitutions alphabet sites_as_str r.
End Init.

(** An iteration order for the examples: the order of first occurrence. *)
Fixpoint first_seen (seen : list string) (l : list string) : list string :=
  match l with
  | [] => []
  | x :: r =>
      if mem String.eqb x seen then first_seen seen r
      else x :: first_seen (x :: seen) r
  end.


(** ** The statements of the specification *)

(** A numeral [[0-9]+], and a site in numeric mode [-?[0-9]+]. *)
Definition numeral (s : string) : Prop :=
  is_empty s = false /\ string_forall isdigit s = true.

Definition numeric_site (mid : string) : Prop :=
  numeral mid \/ exists d, mid = String "-" d /\ numeral d.

(** The sites the source accepts: in string mode the remainder is not empty
    and holds no newline. *)
Definition site_form (sites_as_str : bool) (mid : string) : Prop :=
  if sites_as_str
  then mid <> EmptyString
       /\ string_forall (fun c => negb (Ascii.eqb c newline)) mid = true
  else numeric_site mid.

(** The sites of the statement in the specification: in string mode "any
    non-empty remainder". *)
Definition site_form_any (sites_as_str : bool) (mid : string) : Prop :=
  if sites_as_str then mid <> EmptyString else numeric_site mid.

(** [sub] has the form [wt + site + mut], with [wt] and [mut] drawn from the
    alphabet and the site of the kind [site_ok]. *)
Definition token_form (site_ok : string -> Prop) (alphabet : list ascii)
    (sub : string) (wt : ascii) (mid : string) (mut : ascii) : Prop :=
  sub = String wt (mid ++ str1 mut) /\ In wt alphabet /\ In mut alphabet
  /\ site_ok mid.

Definition parse_fails (alphabet : list ascii) (sites_as_str : bool)
    (sub : string) : Prop :=
  exists m, _parse_sub_str alphabet sites_as_str sub = Err (ValueError m).

(** "Token parsing fails exactly when the token does not match the form, or
    when wt equals mut", for a given reading of the site pattern. *)
Definition parse_fails_exactly (site_ok : bool -> string -> Prop)
    (alphabet : list ascii) (sites_as_str : bool) (sub : string) : Prop :=
  parse_fails alphabet sites_as_str sub <->
  (~ (exists wt mid mut,
         token_form (site_ok sites_as_str) alphabet sub wt mid mut))
  \/ (exists wt mid mut,
         token_form (site_ok sites_as_str) alphabet sub wt mid mut /\ wt = mut).

(** A site that is printed and parsed back unchanged. *)
Definition good_site (sites_as_str : bool) (s : site) : Prop :=
  match_site sites_as_str (site_str s) = true
  /\ site_of_group sites_as_str (site_str s) = s.

(** ** The contents of a registry

    An entry [(site, wt, mut)] stands for the index given to the string
    [f"{wt}{site}{mut}"]; the entries of a registry are listed in the order
    of their indices. *)
Definition entry : Type := site * ascii * ascii.

Definition entry_site (t : entry) : site := fst (fst t).
Definition entry_wt (t : entry) : ascii := snd (fst t).
Definition entry_mut (t : entry) : ascii := snd t.

Definition entry_sub (t : entry) : string :=
  sub_string (entry_wt t) (entry_site t) (entry_mut t).

(** An entry of the wildtype character of its site. *)
Definition is_wt_entry (t : entry) : bool := Ascii.eqb (entry_wt t) (entry_mut t).

(** The registry that holds the entries [ts], with the wildtype indices
    [wt_indices]. *)
Definition registry_of (ts : list entry)
    (wt_indices : PyDict.t (K := site) (V := nat)) : registry :=
  {| next_i := List.length ts;
     r_i_to_sub := combine (seq 0 (List.length ts)) (map entry_sub ts);
     r_wt_indices := wt_indices;
     r_binary_sites := map entry_site ts |}.

(** The wildtype indices are the indices of the wildtype entries. *)
Definition wt_indices_ok (ts : list entry)
    (wt_indices : PyDict.t (K := site) (V := nat)) : Prop :=
  NoDup (PyDict.keys wt_indices)
  /\ (forall s i, PyDict.get site_eqb wt_indices s = Some i ->
                  exists wt, nth_error ts i = Some (s, wt, wt))
  /\ (forall i s wt, nth_error ts i = Some (s, wt, wt) ->
                     PyDict.get site_eqb wt_indices s = Some i).

(** The mutant characters of a site, in the order of their indices. *)
Definition muts_sorted_at (alphabet : list ascii) (muts : muts_dict) (s : site)
  : list ascii :=
  match sorted_muts alphabet (muts_at muts s) with
  | OK l => l
  | Err _ => []
  end.

Definition site_entries (ms : site -> list ascii) (it : site * ascii)
  : list entry :=
  map (fun m => (fst it, snd it, m)) (ms (fst it)).

(** The entries of the observed-only mode and of the expansion. *)
Definition observed_entries (alphabet : list ascii) (wts : wts_dict)
    (muts : muts_dict) : list entry :=
  flat_map (site_entries (muts_sorted_at alphabet muts))
    (natsorted (PyDict.items wts)).

Definition expand_entries (alphabet : list ascii) (w : list ascii)
  : list entry :=
  flat_map (site_entries (fun _ => alphabet)) (enumerate1 w).

(** The position of a character in the alphabet ([char_order]). *)
Definition alphabet_pos (alphabet : list ascii) (c : ascii) : option nat :=
  PyDict.get Ascii.eqb (char_order alphabet) c.

(** What the construction establishes: the object [bm] holds the entries
    [ts]. *)
Record registry_holds (bm : BinaryMap) (ts : list entry) : Prop := {
  rh_i_to_sub :
    _i_to_sub bm = combine (seq 0 (List.length ts)) (map entry_sub ts);
  rh_sites : binary_sites bm = map entry_site ts;
  rh_length : binarylength bm = List.length ts;
  rh_sub_to_i : _sub_to_i bm = invert (_i_to_sub bm);
  rh_wt_set : _wt_index_set bm = PyDict.values (_wt_indices bm);
  rh_nodup : NoDup (map entry_sub ts);
  rh_good : forall t, In t ts ->
                      good_site (sites_as_str bm) (entry_site t)
                      /\ In (entry_wt t) (alphabet bm)
                      /\ In (entry_mut t) (alphabet bm);
  rh_wt : wt_indices_ok ts (_wt_indices bm)
}.

(** [a] comes before [b] in the alphabet. *)
Definition pos_lt (alphabet : list ascii) (a b : ascii) : Prop :=
  exists ka kb, alphabet_pos alphabet a = Some ka
                /\ alphabet_pos alphabet b = Some kb /\ ka < kb.

(** What the loop over [subs_in_variants] establishes, after the
    substitutions [subs]. *)
Record collected (alphabet : list ascii) (sites_as_str : bool)
    (subs : list string) (wts : wts_dict) (muts : muts_dict) : Prop := {
  col_keys : NoDup (PyDict.keys wts);
  col_subs : forall sub, In sub subs ->
      exists wt s mut,
        _parse_sub_str alphabet sites_as_str sub = OK (wt, s, mut)
        /\ PyDict.get site_eqb wts s = Some wt /\ In mut (muts_at muts s);
  col_wts : forall s wt, PyDict.get site_eqb wts s = Some wt ->
      exists sub mut,
        In sub subs /\ _parse_sub_str alphabet sites_as_str sub = OK (wt, s, mut);
  col_muts : forall s mut, In mut (muts_at muts s) ->
      exists sub wt,
        In sub subs /\ _parse_sub_str alphabet sites_as_str sub = OK (wt, s, mut);
  col_nodup : forall s, NoDup (muts_at muts s)
}.

(** The wildtype of a site is the same in every substitution at it. *)
Definition consistent_wts (alphabet : list ascii) (sites_as_str : bool)
    (subs : list string) : Prop :=
  forall sub1 sub2 wt1 wt2 s mut1 mut2,
    In sub1 subs -> In sub2 subs ->
    _parse_sub_str alphabet sites_as_str sub1 = OK (wt1, s, mut1) ->
    _parse_sub_str alphabet sites_as_str sub2 = OK (wt2, s, mut2) ->
    wt1 = wt2.

(** A token and the pair of its site and its index. *)
Definition token_at (bm : BinaryMap) (tok : string) (p : site * nat) : Prop :=
  (exists wt mut,
      _parse_sub_str (alphabet bm) (sites_as_str bm) tok = OK (wt, fst p, mut))
  /\ sub_to_i bm tok = OK (snd p).

(** The wildtype indices of the sites that [sites] does not mention. *)
Definition unmentioned_wt (bm : BinaryMap) (sites : list site) : list nat :=
  map snd (filter (fun p => negb (mem site_eqb (fst p) sites))
             (PyDict.items (_wt_indices bm))).

(** The entries are printed and parsed back unchanged. *)
Definition good_entries (alphabet0 : list ascii) (sas : bool) (ts : list entry)
  : Prop :=
  forall t, In t ts ->
            good_site sas (entry_site t) /\ In (entry_wt t) alphabet0
            /\ In (entry_mut t) alphabet0.

(** What [__init__] establishes: the object [bm] built from the
    substitution strings [substitutions] holds the entries [ts], and the
    rows of its matrix are the encodings of the strings. *)
Record built (substitutions : list string) (alphabet0 : list ascii)
    (sites_as_str0 : bool) (ts : list entry) (bm : BinaryMap) : Prop := {
  b_alphabet : alphabet bm = alphabet0;
  b_sites_as_str : sites_as_str bm = sites_as_str0;
  b_variants : substitution_variants bm = substitutions;
  b_holds : registry_holds bm ts;
  b_rows : exists rows,
      Forall2 (fun s row => sub_str_to_indices bm s = OK row) substitutions rows
      /\ binary_variants bm
         = {| shape := (List.length substitutions, List.length ts);
              coords := coords_from 0 rows |}
}.

(** The order of the observed entries: by site, then by the position of the
    mutant character in the alphabet. *)
Definition entry_before (alphabet0 : list ascii) (t u : entry) : Prop :=
  site_le (entry_site t) (entry_site u)
  /\ (entry_site t = entry_site u ->
      pos_lt alphabet0 (entry_mut t) (entry_mut u)).


(** The exception is a [ValueError]. *)
Definition is_ValueError (e : exn) : Prop := exists m, e = ValueError m.

(** The tokens [toks] parse, to the triples [ps]. *)
Definition tokens_parse (bm : BinaryMap) (toks : list string)
    (ps : list (ascii * site * ascii)) : Prop :=
  Forall2 (fun tok p =>
             _parse_sub_str (alphabet bm) (sites_as_str bm) tok = OK p)
    toks ps.

Definition parsed_site (p : ascii * site * ascii) : site := snd (fst p).

(** ** Decoding *)

(** The index [i] is active in the vector [b]. *)
Definition active (b : list Z) (i : nat) : Prop :=
  exists v, nth_error b i = Some v /\ v <> 0%Z.


Definition not_wt_index (bm : BinaryMap) (i : nat) : Prop :=
  mem Nat.eqb i (_wt_index_set bm) = false.




(** What [i_to_sub] returns on an index of a registry with the entries
    [ts]. *)
Definition sub_at (ts : list entry) (i : nat) : string :=
  match nth_error ts i with
  | Some t => if is_wt_entry t then EmptyString else entry_sub t
  | None => EmptyString
  end.

(** The entries of a list of indices that are not wildtype entries. *)
Definition mutant_entries (ts : list entry) (l : list nat) : list entry :=
  flat_map (fun i => match nth_error ts i with
                     | Some t => if is_wt_entry t then [] else [t]
                     | None => []
                     end) l.

(** The entries of the active indices that are not wildtype entries, in the
    order of the indices. *)
Definition active_entries (ts : list entry) (b : list Z) : list entry :=
  mutant_entries ts (flatnonzero b).

(** ** The round trip *)

(** The index of a token of the registry. *)
Definition token_index (bm : BinaryMap) (tok : string) : nat :=
  match sub_to_i bm tok with
  | OK i => i
  | Err _ => 0
  end.

(** The canonical form of a variant string: its tokens in the order of their
    indices, joined by single spaces. *)
Definition canonicalize (bm : BinaryMap) (sub_str : string) : string :=
  join (sorted (token_index bm) Nat.leb (split sub_str)).

(** The token [a] has a smaller index than the token [b], and its site comes
    before the site of [b] in the natural order. *)
Definition token_before (bm : BinaryMap) (a b : string) : Prop :=
  exists wa sa ma wb sb mb ia ib,
    _parse_sub_str (alphabet bm) (sites_as_str bm) a = OK (wa, sa, ma)
    /\ _parse_sub_str (alphabet bm) (sites_as_str bm) b = OK (wb, sb, mb)
    /\ sub_to_i bm a = OK ia /\ sub_to_i bm b = OK ib
    /\ ia < ib /\ site_le sa sb /\ sa <> sb.

(** The entries are in the natural order of their sites. *)
Definition sites_sorted (ts : list entry) : Prop :=
  StronglySorted (fun t u => site_le (entry_site t) (entry_site u)) ts.

(** The entry of a token that parses to [p]. *)
Definition entry_of_parse (p : ascii * site * ascii) : entry :=
  (snd (fst p), fst (fst p), snd p).

(** The entry of a token: at its index, at its site, not a wildtype
    entry. *)
Definition token_entry_at (ts : list entry) (p : site * nat) (t : entry)
  : Prop :=
  nth_error ts (snd p) = Some t /\ entry_site t = fst p
  /\ is_wt_entry t = false.

(** ** The order of the indices with [allowed_subs] *)

(** The substitution [x] has an index in [bm]. *)
Definition in_registry (bm : BinaryMap) (x : string) : Prop :=
  exists i, sub_to_i bm x = OK i.

(** [x] has a smaller index than [y] in [bm]. *)
Definition index_lt (bm : BinaryMap) (x y : string) : Prop :=
  exists i j, sub_to_i bm x = OK i /\ sub_to_i bm y = OK j /\ i < j.

(** The observed substitutions keep in [bm1] the relative order they have
    in [bm0]. *)
Definition observed_order_kept (bm0 bm1 : BinaryMap) : Prop :=
  forall x y, index_lt bm0 x y -> index_lt bm1 x y.

(** "The observed substitutions keep their relative order, and every
    supplied-but-unobserved substitution is appended after all observed
    ones, in the order given": [bm0] is built without [allowed_subs], [bm1]
    with [allowed]. *)
Definition allowed_subs_appended (bm0 bm1 : BinaryMap) (allowed : list string)
  : Prop :=
  observed_order_kept bm0 bm1
  /\ (forall x u, in_registry bm0 x -> In u allowed -> ~ in_registry bm0 u ->
                  index_lt bm1 x u)
  /\ (forall l1 u l2 v l3,
         allowed = l1 ++ u :: l2 ++ v :: l3 ->
         ~ in_registry bm0 u -> ~ in_registry bm0 v -> u <> v ->
         index_lt bm1 u v).

(** Distinct sites are never equivalent in the natural order. *)
Definition sites_antisym (sites : list site) : Prop :=
  forall s u, In s sites -> In u sites -> site_le s u -> site_le u s -> s = u.

(** ** The preconditions of the construction *)

(** The tokens of a variant string parse, are written as the registry writes
    them, and are at distinct sites. *)
Definition variant_ok (alphabet0 : list ascii) (sas : bool) (s : string)
  : Prop :=
  exists ps,
    Forall2 (fun tok p =>
               _parse_sub_str alphabet0 sas tok = OK p
               /\ tok = sub_string (fst (fst p)) (snd (fst p)) (snd p))
      (split s) ps
    /\ NoDup (map parsed_site ps).

(** The site of the entry at an index. *)
Definition site_at (ts : list entry) (i : nat) : site :=
  entry_site (nth i ts (IntSite 0, zero, zero)).

(** ** The examples of the docstring *)

(** The amino acids with the stop codon, and the small alphabet of the
    docstring. *)
Definition AAS_WITHSTOP : list ascii := list_ascii_of_string "ACDEFGHIKLMNPQRSTVWY*".
Definition small_alphabet : list ascii := list_ascii_of_string "ACGKM*".

(** The variants of the expansion example. *)
Definition docstring_variants : list string :=
  [EmptyString; "M1A"; "M1C K3A"; EmptyString; "A2C K3A"; "A2*"]%string.

(** ** Tokens *)

(** A string without whitespace, as the tokens of [str.split()] are. *)
Definition no_space (s : string) : bool :=
  string_forall (fun c => negb (isspace c)) s.

(** A token: not empty, without whitespace. *)
Definition is_token (s : string) : Prop :=
  is_empty s = false /\ no_space s = true.

(** The token parses, its site is a position of the wildtype sequence [w],
    and its wildtype is the character of [w] there. *)
Definition token_fits (alphabet0 : list ascii) (w : list ascii) (tok : string)
  : Prop :=
  exists wt z mut,
    _parse_sub_str alphabet0 false tok = OK (wt, IntSite z, mut)
    /\ (1 <= z <= Z.of_nat (List.length w))%Z
    /\ nth_error w (Z.to_nat (z - 1)) = Some wt.

(** ** The reach of the model of [str] and [int] *)

(** The characters of the string are ASCII ones. *)
Definition is_ascii (s : string) : bool :=
  string_forall (fun c => nat_of_ascii c <? 128) s.

(** The default of [sys.get_int_max_str_digits()], the longest numeral that
    [int] converts. *)
Definition int_max_str_digits : nat := 4300.

(** The substitutions that the construction indexes in observed-only mode:
    [allowed_subs] when it is given, the tokens of the variants otherwise. *)
Definition supplied (substitutions : list string)
    (allowed : option (list string)) : list string :=
  match allowed with
  | Some a => a
  | None => flat_map split substitutions
  end.



(** * Proofs *)

(** ** The error monad *)

Lemma bind_OK {A B : Type} (r : result A) (k : A -> result B) (b : B) :
  bind r k = OK b -> exists a, r = OK a /\ k a = OK b.
Proof.
  destruct r as [a|e]; simpl; intros H; [eauto | discriminate].
Qed.

Lemma bind_Err {A B : Type} (r : result A) (k : A -> result B) (e : exn) :
  bind r k = Err e -> r = Err e \/ exists a, r = OK a /\ k a = Err e.
Proof.
  destruct r as [a|e']; simpl; intros H; [right; eauto | left; congruence].
Qed.

(** Splits a successful [bind] in the hypothesis [H]. *)
Ltac inv_bind H :=
  let a := fresh "a" in
  let Ha := fresh "Hr" in
  apply bind_OK in H; destruct H as (a & Ha & H).


(** An invariant of a loop that ends without exception. *)
Lemma foldM_inv {A S : Type} (P : S -> Prop) (f : S -> A -> result S)
    (l : list A) :
  (forall s a s', In a l -> P s -> f s a = OK s' -> P s') ->
  forall s s', P s -> foldM f l s = OK s' -> P s'.
Proof.
  induction l as [|a l IH]; simpl; intros Hstep s s' Hs H.
  - congruence.
  - inv_bind H. apply (IH (fun s0 a0 s1 Hin => Hstep s0 a0 s1 (or_intror Hin)) a0 s'); auto.
    apply (Hstep s a a0); auto.
Qed.

Lemma mapM_OK_length {A B : Type} (f : A -> result B) (l : list A) (bs : list B) :
  mapM f l = OK bs -> List.length bs = List.length l.
Proof.
  revert bs; induction l as [|a l IH]; simpl; intros bs H.
  - inversion H; reflexivity.
  - inv_bind H. inv_bind H. inversion H; subst; simpl. f_equal; auto.
Qed.

Lemma mapM_OK_Forall2 {A B : Type} (f : A -> result B) (l : list A) (bs : list B) :
  mapM f l = OK bs <-> Forall2 (fun a b => f a = OK b) l bs.
Proof.
  revert bs; induction l as [|a l IH]; simpl; intros bs; split; intros H.
  - inversion H; constructor.
  - inversion H; reflexivity.
  - inv_bind H. inv_bind H. inversion H; subst. constructor; auto.
    apply IH; auto.
  - inversion H as [|? b ? bs' Hab Hrest]; subst.
    rewrite Hab; simpl. apply IH in Hrest. rewrite Hrest; reflexivity.
Qed.

Lemma mapM_total {A B : Type} (f : A -> result B) (g : A -> B) (l : list A) :
  (forall a, In a l -> f a = OK (g a)) -> mapM f l = OK (map g l).
Proof.
  induction l as [|a l IH]; simpl; intros H; [reflexivity|].
  rewrite (H a (or_introl eq_refl)); simpl.
  rewrite IH by auto. reflexivity.
Qed.

(** ** Strings *)

Lemma append_nil_r (s : string) : (s ++ EmptyString)%string = s.
Proof. induction s; simpl; congruence. Qed.

Lemma append_assoc (a b c : string) :
  ((a ++ b) ++ c)%string = (a ++ (b ++ c))%string.
Proof. induction a; simpl; congruence. Qed.

Lemma unsnoc_app (s : string) (c : ascii) : unsnoc (s ++ str1 c) = Some (s, c).
Proof.
  induction s as [|a s IH]; simpl; [reflexivity|].
  rewrite IH; reflexivity.
Qed.

Lemma unsnoc_Some (s r : string) (c : ascii) :
  unsnoc s = Some (r, c) -> s = (r ++ str1 c)%string.
Proof.
  revert r; induction s as [|a s IH]; simpl; intros r H; [discriminate|].
  destruct (unsnoc s) as [[r' l]|] eqn:E.
  - inversion H; subst. simpl. f_equal. apply IH; reflexivity.
  - inversion H; subst. destruct s; [reflexivity|].
    simpl in E. destruct (unsnoc s) as [[? ?]|]; discriminate.
Qed.

Lemma append_inj_r (a b : string) (c d : ascii) :
  (a ++ str1 c)%string = (b ++ str1 d)%string -> a = b /\ c = d.
Proof.
  intros H. assert (E : unsnoc (a ++ str1 c) = unsnoc (b ++ str1 d)) by (rewrite H; reflexivity).
  rewrite !unsnoc_app in E. inversion E; auto.
Qed.

Lemma string_forall_app (p : ascii -> bool) (a b : string) :
  string_forall p (a ++ b) = string_forall p a && string_forall p b.
Proof.
  induction a as [|c a IH]; simpl; [reflexivity|].
  rewrite IH, andb_assoc; reflexivity.
Qed.

(** *** Decimal numerals *)

Lemma uint_digits (d : Decimal.uint) :
  string_forall isdigit (NilEmpty.string_of_uint d) = true.
Proof. induction d; simpl; auto. Qed.

Lemma uint_nonempty (d : Decimal.uint) :
  d <> Decimal.Nil -> is_empty (NilEmpty.string_of_uint d) = false.
Proof. destruct d; simpl; congruence. Qed.

Lemma to_uint_nonnil (p : positive) : Pos.to_uint p <> Decimal.Nil.
Proof.
  intros H. pose proof (DecimalPos.Unsigned.of_to p) as E.
  rewrite H in E. discriminate.
Qed.

Lemma uint_not_minus (d : Decimal.uint) (r : string) :
  NilEmpty.string_of_uint d <> String "-" r.
Proof. destruct d; simpl; congruence. Qed.

Lemma match_site_int_digits (s : string) :
  is_empty s = false -> string_forall isdigit s = true ->
  match_site_int s = true.
Proof.
  intros Hne Hd. unfold match_site_int.
  destruct s as [|c r]; [discriminate|].
  simpl in Hd. apply andb_prop in Hd as [Hc Hr].
  destruct (Ascii.eqb_spec c "-") as [->|Hn]; [discriminate|].
  assert (negb (is_empty (String c r)) && string_forall isdigit (String c r) = true)
    by (simpl; rewrite Hc, Hr; reflexivity).
  destruct c as [[] [] [] [] [] [] [] []]; auto.
Qed.

Lemma match_site_int_str_of_int (z : Z) : match_site_int (str_of_int z) = true.
Proof.
  unfold str_of_int. destruct z as [|p|p]; simpl; [reflexivity| |].
  - assert (Hn := to_uint_nonnil p).
    unfold NilZero.string_of_uint. destruct (Pos.to_uint p) eqn:E; try congruence;
      rewrite <- E; (apply match_site_int_digits; [rewrite E; reflexivity | apply uint_digits]).
  - assert (Hn := to_uint_nonnil p).
    unfold NilZero.string_of_uint.
    destruct (Pos.to_uint p) eqn:E; try congruence; rewrite <- E;
      rewrite uint_nonempty by (rewrite E; congruence);
      rewrite uint_digits; reflexivity.
Qed.

Lemma int_of_str_of_int (z : Z) : int_of_str (str_of_int z) = z.
Proof.
  unfold int_of_str, str_of_int.
  rewrite NilZero.isi.
  - apply DecimalZ.of_to.
  - destruct z; simpl; try discriminate.
    intros H; inversion H as [E]. apply (to_uint_nonnil _ E).
  - destruct z; simpl; try discriminate.
    intros H; inversion H as [E]. apply (to_uint_nonnil _ E).
Qed.

Lemma str_of_int_inj (a b : Z) : str_of_int a = str_of_int b -> a = b.
Proof.
  intros H. rewrite <- (int_of_str_of_int a), <- (int_of_str_of_int b), H.
  reflexivity.
Qed.

(** *** Sites *)

Lemma site_eqb_spec (a b : site) : reflect (a = b) (site_eqb a b).
Proof.
  destruct a as [x|x], b as [y|y]; simpl; try (constructor; congruence).
  - destruct (Z.eqb_spec x y); constructor; congruence.
  - destruct (String.eqb_spec x y); constructor; congruence.
Qed.

Lemma site_eqb_refl (a : site) : site_eqb a a = true.
Proof. destruct (site_eqb_spec a a); congruence. Qed.

Lemma mem_In {A : Type} (eqb : A -> A -> bool) (x : A) (l : list A) :
  (forall a b, reflect (a = b) (eqb a b)) ->
  mem eqb x l = true <-> In x l.
Proof.
  intros Hspec. unfold mem. rewrite existsb_exists. split.
  - intros (y & Hin & E). destruct (Hspec x y); [subst; auto | discriminate].
  - intros Hin. exists x; split; auto. destruct (Hspec x x); congruence.
Qed.

Lemma mem_false {A : Type} (eqb : A -> A -> bool) (x : A) (l : list A) :
  (forall a b, reflect (a = b) (eqb a b)) ->
  mem eqb x l = false <-> ~ In x l.
Proof.
  intros Hspec. rewrite <- (mem_In eqb x l Hspec).
  destruct (mem eqb x l); split; congruence.
Qed.

Lemma char_in_In (c : ascii) (l : list ascii) : char_in c l = true <-> In c l.
Proof. apply (mem_In Ascii.eqb c l Ascii.eqb_spec). Qed.

Lemma Forall2_In_l {A B : Type} (R : A -> B -> Prop) (l : list A) (l' : list B)
    (a : A) :
  Forall2 R l l' -> In a l -> exists b, In b l' /\ R a b.
Proof.
  induction 1 as [|x y l l' Hxy HF IH]; simpl; [tauto|].
  intros [<-|Hin]; [eauto|].
  destruct (IH Hin) as (b & Hb & Hr). eauto.
Qed.

Lemma mapM_map {A B C : Type} (f : B -> result C) (g : A -> B) (l : list A) :
  mapM f (map g l) = mapM (fun a => f (g a)) l.
Proof.
  induction l as [|a l IH]; simpl; [reflexivity|].
  rewrite IH. reflexivity.
Qed.


(** ** Dicts *)

Module PyDictFacts.
Section Facts.
Context {K V : Type} (eqb : K -> K -> bool).
Hypothesis eqb_spec : forall a b, reflect (a = b) (eqb a b).

Lemma get_set_eq (d : PyDict.t) (k : K) (v : V) :
PyDict.get eqb (PyDict.set eqb d k v) k = Some v.
Proof.
induction d as [|[k' v'] d IH]; simpl.
- destruct (eqb_spec k k); congruence.
- destruct (eqb_spec k' k) as [->|Hn]; simpl.
  + destruct (eqb_spec k k); congruence.
  + destruct (eqb_spec k' k); [congruence | exact IH].
Qed.

Lemma get_set_ne (d : PyDict.t) (k k0 : K) (v : V) :
k <> k0 -> PyDict.get eqb (PyDict.set eqb d k v) k0 = PyDict.get eqb d k0.
Proof.
intros Hne. induction d as [|[k' v'] d IH]; simpl.
- destruct (eqb_spec k k0); congruence.
- destruct (eqb_spec k' k) as [->|Hn]; simpl.
  + destruct (eqb_spec k k0); congruence.
  + destruct (eqb_spec k' k0); auto.
Qed.

Lemma get_None (d : PyDict.t (V := V)) (k : K) :
PyDict.get eqb d k = None <-> ~ In k (PyDict.keys d).
Proof.
induction d as [|[k' v'] d IH]; simpl.
- tauto.
- destruct (eqb_spec k' k) as [->|Hn].
  + split; [discriminate | intros H; exfalso; auto].
  + rewrite IH. tauto.
Qed.

Lemma get_Some_In (d : PyDict.t) (k : K) (v : V) :
PyDict.get eqb d k = Some v -> In (k, v) d.
Proof.
induction d as [|[k' v'] d IH]; simpl; [discriminate|].
destruct (eqb_spec k' k) as [->|Hn]; intros H.
- inversion H; auto.
- auto.
Qed.

Lemma In_get (d : PyDict.t) (k : K) (v : V) :
NoDup (PyDict.keys d) -> In (k, v) d -> PyDict.get eqb d k = Some v.
Proof.
induction d as [|[k' v'] d IH]; simpl; intros Hnd Hin; [tauto|].
inversion Hnd as [|? ? Hnotin Hnd']; subst.
destruct Hin as [E|Hin].
- inversion E; subst. destruct (eqb_spec k k); congruence.
- destruct (eqb_spec k' k) as [->|Hn]; auto.
  exfalso. apply Hnotin. apply (in_map fst) in Hin. exact Hin.
Qed.

Lemma set_new (d : PyDict.t) (k : K) (v : V) :
PyDict.get eqb d k = None -> PyDict.set eqb d k v = d ++ [(k, v)].
Proof.
induction d as [|[k' v'] d IH]; simpl; [reflexivity|].
destruct (eqb_spec k' k); [discriminate|].
intros H. rewrite IH by exact H. reflexivity.
Qed.

Lemma keys_set_old (d : PyDict.t) (k : K) (v v0 : V) :
PyDict.get eqb d k = Some v0 ->
PyDict.keys (PyDict.set eqb d k v) = PyDict.keys d.
Proof.
unfold PyDict.keys.
induction d as [|[k' v'] d IH]; simpl; [discriminate|].
destruct (eqb_spec k' k); simpl; [reflexivity|].
intros H. f_equal. apply IH. exact H.
Qed.

Lemma length_set_old (d : PyDict.t) (k : K) (v v0 : V) :
PyDict.get eqb d k = Some v0 ->
List.length (PyDict.set eqb d k v) = List.length d.
Proof.
intros H. pose proof (f_equal (@List.length K) (keys_set_old d k v v0 H)) as E.
unfold PyDict.keys in E. rewrite !length_map in E. exact E.
Qed.

Lemma contains_true (d : PyDict.t (V := V)) (k : K) :
PyDict.contains eqb d k = true <-> In k (PyDict.keys d).
Proof.
unfold PyDict.contains.
destruct (PyDict.get eqb d k) eqn:E.
- split; auto. intros _. apply get_Some_In in E.
  apply (in_map fst) in E. exact E.
- apply get_None in E. split; [discriminate | tauto].
Qed.
End Facts.
End PyDictFacts.

(** The dict [{0: x0, 1: x1, ...}] read at [i]. *)
Lemma get_combine_seq {V : Type} (l : list V) (a i : nat) :
  PyDict.get Nat.eqb (combine (seq a (List.length l)) l) (a + i) = nth_error l i.
Proof.
  revert a i; induction l as [|x l IH]; intros a i; simpl.
  - destruct i; reflexivity.
  - destruct i as [|i].
    + rewrite Nat.add_0_r, Nat.eqb_refl. reflexivity.
    + destruct (Nat.eqb_spec a (a + S i)); [lia|].
      replace (a + S i) with (S a + i) by lia. apply IH.
Qed.

Lemma get_combine_seq0 {V : Type} (l : list V) (i : nat) :
  PyDict.get Nat.eqb (combine (seq 0 (List.length l)) l) i = nth_error l i.
Proof. exact (get_combine_seq l 0 i). Qed.

Lemma keys_combine_seq {V : Type} (l : list V) (a : nat) :
  PyDict.keys (combine (seq a (List.length l)) l) = seq a (List.length l).
Proof.
  unfold PyDict.keys.
  revert a; induction l as [|x l IH]; intros a; simpl; [reflexivity|].
  rewrite IH; reflexivity.
Qed.

(** ** Sorting *)

Section SortingFacts.
Context {A K : Type} (key : A -> K) (leb : K -> K -> bool).

Let le (a b : A) : Prop := leb (key a) (key b) = true.

Lemma insert_sorted_perm (x : A) (l : list A) :
  Permutation (insert_sorted key leb x l) (x :: l).
Proof.
  induction l as [|y l IH]; simpl; [reflexivity|].
  destruct (leb (key x) (key y)); [reflexivity|].
  rewrite IH. apply perm_swap.
Qed.

Lemma sorted_perm (l : list A) : Permutation (sorted key leb l) l.
Proof.
  induction l as [|x l IH]; simpl; [reflexivity|].
  rewrite insert_sorted_perm. constructor. exact IH.
Qed.

Lemma sorted_In (l : list A) (x : A) : In x (sorted key leb l) <-> In x l.
Proof.
  split; apply Permutation_in; [|symmetry]; apply sorted_perm.
Qed.

Lemma sorted_length (l : list A) :
  List.length (sorted key leb l) = List.length l.
Proof. apply Permutation_length, sorted_perm. Qed.

Hypothesis leb_total : forall a b, leb a b = true \/ leb b a = true.
Hypothesis leb_trans :
  forall a b c, leb a b = true -> leb b c = true -> leb a c = true.

Lemma insert_sorted_sorted (x : A) (l : list A) :
  StronglySorted le l -> StronglySorted le (insert_sorted key leb x l).
Proof.
  induction l as [|y l IH]; simpl; intros Hs.
  - constructor; [constructor | constructor].
  - inversion Hs as [|? ? Hs' Hall]; subst.
    destruct (leb (key x) (key y)) eqn:E.
    + constructor; [exact Hs|].
      constructor; [exact E|].
      rewrite Forall_forall in *. intros z Hz. unfold le.
      apply (leb_trans _ (key y)); [exact E | apply Hall; exact Hz].
    + constructor; [apply IH; exact Hs'|].
      rewrite Forall_forall in *. intros z Hz.
      apply (Permutation_in _ (insert_sorted_perm x l)) in Hz.
      destruct Hz as [<-|Hz]; [|apply Hall; exact Hz].
      unfold le. destruct (leb_total (key x) (key y)); congruence.
Qed.

Lemma sorted_sorted (l : list A) : StronglySorted le (sorted key leb l).
Proof.
  induction l as [|x l IH]; simpl; [constructor|].
  apply insert_sorted_sorted; exact IH.
Qed.
End SortingFacts.

Lemma StronglySorted_nth {A : Type} (R : A -> A -> Prop) (l : list A) :
  StronglySorted R l ->
  forall i j a b, i < j -> nth_error l i = Some a -> nth_error l j = Some b ->
                  R a b.
Proof.
  induction 1 as [|x l Hs IH Hall]; intros i j a b Hij Ha Hb.
  - destruct i; discriminate.
  - destruct j as [|j]; [lia|]. simpl in Hb.
    destruct i as [|i]; simpl in Ha.
    + inversion Ha; subst. rewrite Forall_forall in Hall.
      apply Hall. eapply nth_error_In; eauto.
    + apply (IH i j); auto; lia.
Qed.

Lemma StronglySorted_weaken {A : Type} (R Q : A -> A -> Prop) (l : list A) :
  (forall a b, In a l -> In b l -> R a b -> Q a b) ->
  StronglySorted R l -> StronglySorted Q l.
Proof.
  intros H Hs. induction Hs as [|x l Hs IH Hall]; constructor.
  - apply IH. intros a b Ha Hb. apply H; simpl; auto.
  - rewrite Forall_forall in *. intros y Hy. apply H; simpl; auto.
Qed.

Lemma StronglySorted_map {A B : Type} (R : B -> B -> Prop) (f : A -> B)
    (l : list A) :
  StronglySorted (fun a b => R (f a) (f b)) l -> StronglySorted R (map f l).
Proof.
  induction 1 as [|x l Hs IH Hall]; simpl; constructor; auto.
  rewrite Forall_forall in *. intros y Hy.
  apply in_map_iff in Hy as (a & <- & Ha). auto.
Qed.

Lemma StronglySorted_app {A : Type} (R : A -> A -> Prop) (l1 l2 : list A) :
  StronglySorted R l1 -> StronglySorted R l2 ->
  (forall a b, In a l1 -> In b l2 -> R a b) ->
  StronglySorted R (l1 ++ l2).
Proof.
  induction 1 as [|x l Hs IH Hall]; simpl; intros H2 Hc; [exact H2|].
  constructor.
  - apply IH; auto.
  - rewrite Forall_forall in *. intros y Hy.
    apply in_app_or in Hy as [Hy|Hy]; auto.
Qed.

(** A list of blocks in order, each block in order, is in order. *)
Lemma StronglySorted_flat_map {A B : Type} (Q : A -> A -> Prop)
    (R : B -> B -> Prop) (g : A -> list B) (l : list A) :
  StronglySorted Q l ->
  (forall x, In x l -> StronglySorted R (g x)) ->
  (forall x y a b, Q x y -> In a (g x) -> In b (g y) -> R a b) ->
  StronglySorted R (flat_map g l).
Proof.
  induction 1 as [|x l Hs IH Hall]; simpl; intros Hblock Hcross; [constructor|].
  apply StronglySorted_app.
  - apply Hblock; auto.
  - apply IH; auto.
  - intros a b Ha Hb. apply in_flat_map in Hb as (y & Hy & Hb).
    rewrite Forall_forall in Hall. apply (Hcross x y); auto.
Qed.

(** A strictly sorted list has no repetition. *)
Lemma StronglySorted_NoDup {A : Type} (R : A -> A -> Prop) (l : list A) :
  (forall a, ~ R a a) -> StronglySorted R l -> NoDup l.
Proof.
  intros Hirr. induction 1 as [|x l Hs IH Hall]; constructor; auto.
  intros Hin. rewrite Forall_forall in Hall. apply (Hirr x), Hall, Hin.
Qed.

(** ** The natural order *)

Section CompareOrder.
Context {A : Type} (cmp : A -> A -> comparison).
Hypothesis cmp_eq : forall x y, cmp x y = Eq <-> x = y.
Hypothesis cmp_antisym : forall x y, cmp y x = CompOpp (cmp x y).
Hypothesis cmp_trans :
  forall x y z c, cmp x y = c -> cmp y z = c -> cmp x z = c.

Lemma cmp_le_total (x y : A) : cmp x y <> Gt \/ cmp y x <> Gt.
Proof.
  rewrite (cmp_antisym x y).
  destruct (cmp x y); simpl; [left | left | right]; discriminate.
Qed.

Lemma cmp_le_trans (x y z : A) :
  cmp x y <> Gt -> cmp y z <> Gt -> cmp x z <> Gt.
Proof.
  intros H1 H2.
  destruct (cmp x y) eqn:E1; [| |congruence].
  - apply cmp_eq in E1; subst; exact H2.
  - destruct (cmp y z) eqn:E2; [| |congruence].
    + apply cmp_eq in E2; subst. rewrite E1; congruence.
    + rewrite (cmp_trans x y z Lt E1 E2); congruence.
Qed.
End CompareOrder.

Lemma ascii_compare_refl (a : ascii) : Ascii.compare a a = Eq.
Proof. unfold Ascii.compare. apply N.compare_refl. Qed.

Lemma ascii_compare_trans (x y z : ascii) (c : comparison) :
  Ascii.compare x y = c -> Ascii.compare y z = c -> Ascii.compare x z = c.
Proof.
  unfold Ascii.compare. intros H1 H2.
  destruct c.
  - apply N.compare_eq_iff in H1, H2. apply N.compare_eq_iff. congruence.
  - apply N.compare_lt_iff in H1, H2. apply N.compare_lt_iff.
    eapply N.lt_trans; eauto.
  - apply N.compare_gt_iff in H1, H2. apply N.compare_gt_iff.
    eapply N.lt_trans; eauto.
Qed.

Lemma string_compare_refl (s : string) : String.compare s s = Eq.
Proof.
  induction s as [|c s IH]; simpl; [reflexivity|].
  rewrite ascii_compare_refl. exact IH.
Qed.

Lemma string_compare_eq (x y : string) : String.compare x y = Eq <-> x = y.
Proof.
  split; [apply String.compare_eq_iff | intros ->; apply string_compare_refl].
Qed.

Lemma string_compare_trans (x y z : string) (c : comparison) :
  String.compare x y = c -> String.compare y z = c -> String.compare x z = c.
Proof.
  revert y z; induction x as [|a x IH]; intros [|b y] [|d z]; simpl;
    try congruence.
  destruct (Ascii.compare a b) eqn:E1; destruct (Ascii.compare b d) eqn:E2;
    try (intros; subst; congruence).
  - apply Ascii.compare_eq_iff in E1, E2; subst.
    rewrite ascii_compare_refl. apply IH.
  - apply Ascii.compare_eq_iff in E1; subst. rewrite E2. congruence.
  - apply Ascii.compare_eq_iff in E1; subst. rewrite E2. congruence.
  - apply Ascii.compare_eq_iff in E2; subst. rewrite E1. congruence.
  - rewrite (ascii_compare_trans a b d Lt E1 E2). congruence.
  - apply Ascii.compare_eq_iff in E2; subst. rewrite E1. congruence.
  - rewrite (ascii_compare_trans a b d Gt E1 E2). congruence.
Qed.

Lemma string_leb_trans (a b c : string) :
  String.leb a b = true -> String.leb b c = true -> String.leb a c = true.
Proof.
  unfold String.leb. intros H1 H2.
  assert (String.compare a c <> Gt).
  { apply (cmp_le_trans String.compare string_compare_eq
             string_compare_trans a b c).
    - destruct (String.compare a b); congruence.
    - destruct (String.compare b c); congruence. }
  destruct (String.compare a c); congruence.
Qed.

Lemma chunk_compare_eq (x y : chunk) : chunk_compare x y = Eq <-> x = y.
Proof.
  destruct x as [a|a], y as [b|b]; simpl.
  - rewrite string_compare_eq. split; congruence.
  - split; discriminate.
  - split; discriminate.
  - rewrite Z.compare_eq_iff. split; congruence.
Qed.

Lemma chunk_compare_antisym (x y : chunk) :
  chunk_compare y x = CompOpp (chunk_compare x y).
Proof.
  destruct x as [a|a], y as [b|b]; simpl; auto.
  - apply String.compare_antisym.
  - apply Z.compare_antisym.
Qed.

Lemma chunk_compare_trans (x y z : chunk) (c : comparison) :
  chunk_compare x y = c -> chunk_compare y z = c -> chunk_compare x z = c.
Proof.
  destruct x as [a|a], y as [b|b], z as [d|d]; simpl; try congruence.
  - apply string_compare_trans.
  - intros H1 H2. destruct c.
    + apply Z.compare_eq_iff in H1, H2. apply Z.compare_eq_iff. congruence.
    + apply Z.compare_lt_iff in H1, H2. apply Z.compare_lt_iff.
      eapply Z.lt_trans; eauto.
    + apply Z.compare_gt_iff in H1, H2. apply Z.compare_gt_iff.
      eapply Z.lt_trans; eauto.
Qed.

Lemma key_compare_eq (x y : list chunk) : key_compare x y = Eq <-> x = y.
Proof. apply list_compare_refl, chunk_compare_eq. Qed.

Lemma key_compare_antisym (x y : list chunk) :
  key_compare y x = CompOpp (key_compare x y).
Proof.
  apply list_compare_antisym;
    [apply chunk_compare_eq | intros a b; apply chunk_compare_antisym].
Qed.

Lemma key_compare_trans (x y z : list chunk) (c : comparison) :
  key_compare x y = c -> key_compare y z = c -> key_compare x z = c.
Proof.
  apply list_compare_trans;
    [apply chunk_compare_eq | apply chunk_compare_trans
     | intros a b; apply chunk_compare_antisym].
Qed.

Lemma key_leb_iff (x y : list chunk) : key_leb x y = true <-> key_compare x y <> Gt.
Proof. unfold key_leb. destruct (key_compare x y); split; congruence. Qed.

Lemma key_leb_total (x y : list chunk) : key_leb x y = true \/ key_leb y x = true.
Proof.
  rewrite !key_leb_iff.
  apply (cmp_le_total key_compare key_compare_antisym).
Qed.

Lemma key_leb_trans (x y z : list chunk) :
  key_leb x y = true -> key_leb y z = true -> key_leb x z = true.
Proof.
  rewrite !key_leb_iff.
  apply (cmp_le_trans key_compare key_compare_eq key_compare_trans).
Qed.

Lemma item_key_leb_total (a b : list chunk * list chunk) :
  item_key_leb a b = true \/ item_key_leb b a = true.
Proof.
  unfold item_key_leb. rewrite (key_compare_antisym (fst a) (fst b)).
  destruct (key_compare (fst a) (fst b)); simpl; auto.
  apply key_leb_total.
Qed.

Lemma item_key_leb_trans (a b c : list chunk * list chunk) :
  item_key_leb a b = true -> item_key_leb b c = true -> item_key_leb a c = true.
Proof.
  unfold item_key_leb.
  destruct (key_compare (fst a) (fst b)) eqn:E1; try discriminate;
    destruct (key_compare (fst b) (fst c)) eqn:E2; try discriminate.
  - apply key_compare_eq in E1, E2. rewrite E1, E2.
    rewrite (proj2 (key_compare_eq _ _) eq_refl). apply key_leb_trans.
  - apply key_compare_eq in E1. rewrite E1, E2. auto.
  - apply key_compare_eq in E2. rewrite <- E2, E1. auto.
  - rewrite (key_compare_trans _ _ _ Lt E1 E2). auto.
Qed.

Lemma item_key_leb_site (a b : site * ascii) :
  item_key_leb (item_key a) (item_key b) = true -> site_le (fst a) (fst b).
Proof.
  unfold item_key_leb, site_le, key_leb, item_key; simpl.
  destruct (key_compare (site_key (fst a)) (site_key (fst b))); auto.
Qed.

Lemma site_le_trans (a b c : site) : site_le a b -> site_le b c -> site_le a c.
Proof. unfold site_le. apply key_leb_trans. Qed.

Lemma site_le_refl (a : site) : site_le a a.
Proof.
  unfold site_le. apply key_leb_iff.
  rewrite (proj2 (key_compare_eq _ _) eq_refl). discriminate.
Qed.

(** On the [int] sites the natural order is the order of the integers. *)
Lemma site_le_int (a b : Z) : site_le (IntSite a) (IntSite b) <-> (a <= b)%Z.
Proof.
  unfold site_le, key_leb, key_compare; simpl.
  destruct (Z.compare_spec a b); split; intros; try lia; auto; discriminate.
Qed.

Lemma natsorted_sorted (items : list (site * ascii)) :
  StronglySorted (fun a b => site_le (fst a) (fst b)) (natsorted items).
Proof.
  unfold natsorted.
  eapply StronglySorted_weaken;
    [| apply (sorted_sorted item_key item_key_leb item_key_leb_total
               item_key_leb_trans)].
  intros a b _ _. apply item_key_leb_site.
Qed.


(** ** The substitution grammar *)

Lemma is_empty_false (s : string) : is_empty s = false <-> s <> EmptyString.
Proof. destruct s; simpl; split; congruence. Qed.

Lemma match_site_int_iff (mid : string) :
  match_site_int mid = true <-> numeric_site mid.
Proof.
  unfold numeric_site, numeral. split.
  - intros H. destruct mid as [|c r]; [discriminate|].
    destruct (Ascii.eqb_spec c "-") as [->|Hn].
    + simpl in H. apply andb_prop in H as [H1 H2].
      right. exists r. rewrite negb_true_iff in H1. auto.
    + left.
      assert (E : negb (is_empty (String c r)) && string_forall isdigit (String c r) = true).
      { revert H. unfold match_site_int.
        destruct c as [[] [] [] [] [] [] [] []]; auto; congruence. }
      apply andb_prop in E as [_ E]. split; [reflexivity | exact E].
  - intros [[Hne Hd] | (d & -> & Hne & Hd)].
    + apply match_site_int_digits; auto.
    + simpl. rewrite Hne, Hd. reflexivity.
Qed.

Lemma match_site_iff (sites_as_str : bool) (mid : string) :
  match_site sites_as_str mid = true <-> site_form sites_as_str mid.
Proof.
  destruct sites_as_str; simpl.
  - unfold match_site_str. rewrite andb_true_iff, negb_true_iff, is_empty_false.
    tauto.
  - apply match_site_int_iff.
Qed.

Lemma sub_regex_fullmatch_Some (alphabet : list ascii) (sites_as_str : bool)
    (sub : string) (wt mut : ascii) (mid : string) :
  sub_regex_fullmatch alphabet sites_as_str sub = Some (wt, mid, mut) <->
  token_form (site_form sites_as_str) alphabet sub wt mid mut.
Proof.
  unfold sub_regex_fullmatch, token_form. split.
  - destruct sub as [|c rest]; [discriminate|].
    destruct (unsnoc rest) as [[m l]|] eqn:E; [|discriminate].
    destruct (char_in c alphabet && char_in l alphabet
              && match_site sites_as_str m) eqn:B; [|discriminate].
    intros H; inversion H; subst.
    apply andb_prop in B as [B B3]. apply andb_prop in B as [B1 B2].
    apply unsnoc_Some in E. rewrite char_in_In in B1, B2.
    rewrite match_site_iff in B3. subst; auto.
  - intros (-> & H1 & H2 & H3). rewrite unsnoc_app.
    rewrite <- char_in_In in H1, H2. rewrite <- match_site_iff in H3.
    rewrite H1, H2, H3. reflexivity.
Qed.

(** The successful parses. *)
Lemma parse_OK_iff (alphabet : list ascii) (sites_as_str : bool)
    (sub : string) (wt mut : ascii) (s : site) :
  _parse_sub_str alphabet sites_as_str sub = OK (wt, s, mut) <->
  exists mid, token_form (site_form sites_as_str) alphabet sub wt mid mut
              /\ wt <> mut /\ s = site_of_group sites_as_str mid.
Proof.
  unfold _parse_sub_str. destruct alphabet as [|a alphabet].
  - split.
    + destruct (match_site sites_as_str sub); discriminate.
    + intros (mid & (_ & [] & _) & _).
  - set (A := a :: alphabet). split.
    + destruct (sub_regex_fullmatch A sites_as_str sub) as [[[w m] c]|] eqn:E;
        [|discriminate].
      destruct (Ascii.eqb_spec w c); [discriminate|].
      intros H; inversion H; subst.
      exists m. rewrite <- sub_regex_fullmatch_Some. auto.
    + intros (mid & Hf & Hne & ->).
      apply sub_regex_fullmatch_Some in Hf. rewrite Hf.
      destruct (Ascii.eqb_spec wt mut); congruence.
Qed.

(** A parse raises one of the two [ValueError]s of [_parse_sub_str], or
    returns. *)
Lemma parse_cases (alphabet : list ascii) (sites_as_str : bool) (sub : string) :
  _parse_sub_str alphabet sites_as_str sub = raise (MsgInvalidSub sub)
  \/ _parse_sub_str alphabet sites_as_str sub = raise (MsgSameWtMut sub)
  \/ exists t, _parse_sub_str alphabet sites_as_str sub = OK t.
Proof.
  unfold _parse_sub_str. destruct alphabet as [|a alphabet].
  - destruct (match_site sites_as_str sub); auto.
  - destruct (sub_regex_fullmatch _ _ _) as [[[w m] c]|]; auto.
    destruct (Ascii.eqb w c); eauto.
Qed.

Lemma token_form_unique (P Q : string -> Prop) (alphabet : list ascii)
    (sub : string) (wt wt' mut mut' : ascii) (mid mid' : string) :
  token_form P alphabet sub wt mid mut ->
  token_form Q alphabet sub wt' mid' mut' ->
  wt = wt' /\ mid = mid' /\ mut = mut'.
Proof.
  intros (-> & _) (E & _). inversion E as [[E1 E2]].
  apply append_inj_r in E2 as [-> ->]. auto.
Qed.

(** Whether a string has the form is decided by the regex. *)
Lemma token_form_dec (alphabet : list ascii) (sites_as_str : bool)
    (sub : string) :
  (~ exists wt mid mut,
        token_form (site_form sites_as_str) alphabet sub wt mid mut)
  \/ (exists wt mid mut,
        token_form (site_form sites_as_str) alphabet sub wt mid mut).
Proof.
  destruct (sub_regex_fullmatch alphabet sites_as_str sub) as [[[w m] c]|] eqn:E.
  - right. exists w, m, c. apply sub_regex_fullmatch_Some; exact E.
  - left. intros (wt & mid & mut & Hf).
    apply sub_regex_fullmatch_Some in Hf. congruence.
Qed.

Lemma parse_fails_iff (alphabet : list ascii) (sites_as_str : bool)
    (sub : string) :
  parse_fails_exactly site_form alphabet sites_as_str sub.
Proof.
  unfold parse_fails_exactly, parse_fails. split.
  - intros (m & Hm).
    destruct (token_form_dec alphabet sites_as_str sub) as [Hno | (wt & mid & mut & Hf)].
    + left; exact Hno.
    + right. exists wt, mid, mut. split; [exact Hf|].
      destruct (Ascii.eqb_spec wt mut) as [|Hne]; [assumption|].
      exfalso.
      assert (E : _parse_sub_str alphabet sites_as_str sub
                  = OK (wt, site_of_group sites_as_str mid, mut))
        by (apply parse_OK_iff; eauto).
      congruence.
  - intros H.
    destruct (parse_cases alphabet sites_as_str sub) as [E | [E | ([[wt s] mut] & E)]];
      [eexists; exact E | eexists; exact E |].
    exfalso. apply parse_OK_iff in E as (mid & Hf & Hne & _).
    destruct H as [Hno | (wt' & mid' & mut' & Hf' & Heq)].
    + apply Hno; eauto.
    + destruct (token_form_unique _ _ _ _ _ _ _ _ _ _ Hf Hf') as (-> & _ & ->).
      congruence.
Qed.

(** *** Printing a substitution and parsing it back *)

Lemma good_site_int (z : Z) : good_site false (IntSite z).
Proof.
  unfold good_site; simpl. split.
  - apply match_site_int_str_of_int.
  - unfold site_of_group. rewrite int_of_str_of_int. reflexivity.
Qed.

Lemma good_site_group (sites_as_str : bool) (mid : string) :
  match_site sites_as_str mid = true ->
  good_site sites_as_str (site_of_group sites_as_str mid).
Proof.
  destruct sites_as_str; intros H.
  - unfold good_site; simpl. auto.
  - apply good_site_int.
Qed.

Lemma parse_OK_good (alphabet : list ascii) (sites_as_str : bool)
    (sub : string) (wt mut : ascii) (s : site) :
  _parse_sub_str alphabet sites_as_str sub = OK (wt, s, mut) ->
  good_site sites_as_str s /\ In wt alphabet /\ In mut alphabet /\ wt <> mut.
Proof.
  intros H. apply parse_OK_iff in H as (mid & (_ & H1 & H2 & H3) & Hne & ->).
  split; [apply good_site_group, match_site_iff, H3 | auto].
Qed.

Lemma parse_sub_string (alphabet : list ascii) (sites_as_str : bool)
    (wt mut : ascii) (s : site) :
  In wt alphabet -> In mut alphabet -> wt <> mut -> good_site sites_as_str s ->
  _parse_sub_str alphabet sites_as_str (sub_string wt s mut) = OK (wt, s, mut).
Proof.
  intros H1 H2 Hne [Hm Hs]. apply parse_OK_iff.
  exists (site_str s). unfold token_form, sub_string.
  rewrite <- match_site_iff. auto.
Qed.

Lemma parse_sub_string_same (alphabet : list ascii) (sites_as_str : bool)
    (wt : ascii) (s : site) :
  In wt alphabet -> good_site sites_as_str s ->
  _parse_sub_str alphabet sites_as_str (sub_string wt s wt)
  = raise (MsgSameWtMut (sub_string wt s wt)).
Proof.
  intros H1 [Hm Hs]. unfold _parse_sub_str.
  destruct alphabet as [|a alphabet]; [destruct H1|].
  assert (E : sub_regex_fullmatch (a :: alphabet) sites_as_str (sub_string wt s wt)
              = Some (wt, site_str s, wt)).
  { apply sub_regex_fullmatch_Some. unfold token_form, sub_string.
    rewrite <- match_site_iff. auto. }
  rewrite E. rewrite Ascii.eqb_refl. reflexivity.
Qed.

Lemma sub_string_inj (sites_as_str : bool) (wt wt' mut mut' : ascii)
    (s s' : site) :
  good_site sites_as_str s -> good_site sites_as_str s' ->
  sub_string wt s mut = sub_string wt' s' mut' ->
  wt = wt' /\ s = s' /\ mut = mut'.
Proof.
  intros [_ Hs] [_ Hs'] E. unfold sub_string in E.
  inversion E as [[E1 E2]]. apply append_inj_r in E2 as [E2 E3].
  repeat split; auto. rewrite <- Hs, <- Hs', E2. reflexivity.
Qed.

Lemma sub_string_nonempty (wt mut : ascii) (s : site) :
  is_empty (sub_string wt s mut) = false.
Proof. reflexivity. Qed.

(** With string sites a token that parses is printed back as it was. *)
Lemma parse_OK_str_canonical (alphabet : list ascii) (sub : string)
    (wt mut : ascii) (s : site) :
  _parse_sub_str alphabet true sub = OK (wt, s, mut) ->
  sub = sub_string wt s mut.
Proof.
  intros H. apply parse_OK_iff in H as (mid & (-> & _) & _ & ->).
  reflexivity.
Qed.

(** The parse only reads the alphabet and the kind of site. *)
Lemma parse_OK_site_kind (alphabet : list ascii) (sites_as_str : bool)
    (sub : string) (wt mut : ascii) (s : site) :
  _parse_sub_str alphabet sites_as_str sub = OK (wt, s, mut) ->
  if sites_as_str then exists t, s = StrSite t else exists z, s = IntSite z.
Proof.
  intros H. apply parse_OK_iff in H as (mid & _ & _ & ->).
  destruct sites_as_str; simpl; eauto.
Qed.


(** ** The assignment of the indices *)

Lemma combine_snoc {A B : Type} (l1 : list A) (l2 : list B) (a : A) (b : B) :
  List.length l1 = List.length l2 ->
  combine (l1 ++ [a]) (l2 ++ [b]) = combine l1 l2 ++ [(a, b)].
Proof.
  revert l2; induction l1 as [|x l1 IH]; intros [|y l2]; simpl; intros H;
    try discriminate; [reflexivity|].
  rewrite IH by lia. reflexivity.
Qed.

Lemma set_combine_seq {V : Type} (l : list V) (n : nat) (v : V) :
  n = List.length l ->
  PyDict.set Nat.eqb (combine (seq 0 n) l) n v
  = combine (seq 0 (S n)) (l ++ [v]).
Proof.
  intros ->. rewrite PyDictFacts.set_new.
  - rewrite seq_S; simpl. symmetry. apply combine_snoc.
    rewrite length_seq; reflexivity.
  - apply Nat.eqb_spec.
  - apply PyDictFacts.get_None; [apply Nat.eqb_spec|].
    rewrite keys_combine_seq, in_seq. lia.
Qed.

Lemma registry_of_snoc (ts : list entry) (wi : PyDict.t) (s : site)
    (wt mut : ascii) :
  incr_i (assign_index s (sub_string wt s mut) (registry_of ts wi))
  = registry_of (ts ++ [(s, wt, mut)]) wi.
Proof.
  unfold incr_i, assign_index, registry_of; simpl.
  rewrite !length_app, !map_app; simpl.
  replace (List.length ts + 1) with (S (List.length ts)) by lia.
  f_equal.
  apply set_combine_seq. rewrite length_map; reflexivity.
Qed.

Lemma registry_of_set_wt (ts : list entry) (wi : PyDict.t) (s : site) :
  set_wt_index s (registry_of ts wi)
  = registry_of ts (PyDict.set site_eqb wi s (List.length ts)).
Proof. reflexivity. Qed.

(** The inner loop of the observed-only mode. *)
Lemma observed_muts_loop (s : site) (wt : ascii) (ms : list ascii)
    (ts : list entry) (wi : PyDict.t) :
  fold_left (fun r mut => incr_i (assign_index s (sub_string wt s mut) r)) ms
    (registry_of ts wi)
  = registry_of (ts ++ map (fun m => (s, wt, m)) ms) wi.
Proof.
  revert ts; induction ms as [|m ms IH]; intros ts; simpl.
  - rewrite app_nil_r; reflexivity.
  - rewrite registry_of_snoc, IH, <- app_assoc. reflexivity.
Qed.

Lemma observed_sites_loop (alphabet : list ascii) (muts : muts_dict)
    (items : list (site * ascii)) (ts : list entry) (wi : PyDict.t)
    (r : registry) :
  foldM (observed_site_step alphabet muts) items (registry_of ts wi) = OK r ->
  r = registry_of
        (ts ++ flat_map (site_entries (muts_sorted_at alphabet muts)) items) wi
  /\ forall it, In it items ->
                sorted_muts alphabet (muts_at muts (fst it))
                = OK (muts_sorted_at alphabet muts (fst it)).
Proof.
  revert ts; induction items as [|[s wt] items IH]; intros ts; simpl; intros H.
  - inversion H. rewrite app_nil_r. split; [reflexivity | intros ? []].
  - inv_bind H. unfold observed_site_step in Hr. inv_bind Hr.
    inversion Hr; subst a. rewrite observed_muts_loop in H.
    apply IH in H as [-> Hall].
    assert (E : muts_sorted_at alphabet muts s = a0)
      by (unfold muts_sorted_at; rewrite Hr0; reflexivity).
    split.
    + unfold site_entries at 2; simpl. rewrite E, <- app_assoc. reflexivity.
    + intros it [<-|Hin]; simpl; [rewrite E; exact Hr0 | auto].
Qed.

Lemma observed_sites_loop_OK (alphabet : list ascii) (muts : muts_dict)
    (items : list (site * ascii)) (ts : list entry) (wi : PyDict.t) :
  (forall it, In it items ->
              exists l, sorted_muts alphabet (muts_at muts (fst it)) = OK l) ->
  exists r,
    foldM (observed_site_step alphabet muts) items (registry_of ts wi) = OK r.
Proof.
  revert ts; induction items as [|[s wt] items IH]; intros ts Hall; simpl.
  - eauto.
  - destruct (Hall (s, wt) (or_introl eq_refl)) as (l & El). simpl in El.
    unfold observed_site_step. rewrite El; simpl.
    rewrite observed_muts_loop. apply IH. intros it Hin; apply Hall; right; exact Hin.
Qed.

(** *** The expansion *)

Lemma nth_error_snoc {A : Type} (l : list A) (x : A) (i : nat) (y : A) :
  nth_error (l ++ [x]) i = Some y ->
  (i < List.length l /\ nth_error l i = Some y) \/ (i = List.length l /\ y = x).
Proof.
  intros H. destruct (Nat.lt_ge_cases i (List.length l)) as [Hlt|Hge].
  - rewrite nth_error_app1 in H by exact Hlt. auto.
  - rewrite nth_error_app2 in H by exact Hge.
    destruct (i - List.length l) as [|k] eqn:E; simpl in H.
    + inversion H; right; split; [lia | reflexivity].
    + destruct k; discriminate.
Qed.

Lemma wt_indices_ok_snoc_other (ts : list entry) (wi : PyDict.t) (s : site)
    (wt mut : ascii) :
  wt <> mut -> wt_indices_ok ts wi -> wt_indices_ok (ts ++ [(s, wt, mut)]) wi.
Proof.
  intros Hne (Hnd & Ha & Hd). split; [exact Hnd|]. split.
  - intros s0 i H. destruct (Ha s0 i H) as (w & E). exists w.
    rewrite nth_error_app1; [exact E|]. apply nth_error_Some. congruence.
  - intros i s0 w H. apply nth_error_snoc in H as [[_ H] | [_ H]]; [eauto|].
    inversion H; congruence.
Qed.

Lemma keys_set_new_NoDup {V : Type} (d : PyDict.t (K := site) (V := V))
    (k : site) (v : V) :
  NoDup (PyDict.keys d) -> NoDup (PyDict.keys (PyDict.set site_eqb d k v)).
Proof.
  intros Hnd. destruct (PyDict.get site_eqb d k) eqn:E.
  - rewrite (PyDictFacts.keys_set_old site_eqb site_eqb_spec d k v v0 E). exact Hnd.
  - rewrite (PyDictFacts.set_new site_eqb site_eqb_spec d k v E).
    unfold PyDict.keys. rewrite map_app; simpl.
    apply PyDictFacts.get_None in E; [|apply site_eqb_spec].
    apply NoDup_app; [exact Hnd | constructor; [intros [] | constructor] |].
    intros x Hx [<-|[]]. exact (E Hx).
Qed.

Lemma wt_indices_ok_snoc_wt (ts : list entry) (wi : PyDict.t) (s : site)
    (wt : ascii) :
  PyDict.contains site_eqb wi s = false ->
  wt_indices_ok ts wi ->
  wt_indices_ok (ts ++ [(s, wt, wt)]) (PyDict.set site_eqb wi s (List.length ts)).
Proof.
  intros Hc (Hnd & Ha & Hd).
  assert (Hnone : PyDict.get site_eqb wi s = None).
  { unfold PyDict.contains in Hc. destruct (PyDict.get site_eqb wi s); congruence. }
  split; [apply keys_set_new_NoDup; exact Hnd|]. split.
  - intros s0 i H. destruct (site_eqb_spec s s0) as [<-|Hne].
    + rewrite PyDictFacts.get_set_eq in H by apply site_eqb_spec.
      inversion H; subst. exists wt.
      rewrite nth_error_app2, Nat.sub_diag by lia. reflexivity.
    + rewrite PyDictFacts.get_set_ne in H by (auto using site_eqb_spec).
      destruct (Ha s0 i H) as (w & E). exists w.
      rewrite nth_error_app1; [exact E|]. apply nth_error_Some. congruence.
  - intros i s0 w H. apply nth_error_snoc in H as [[_ H] | [-> H]].
    + destruct (site_eqb_spec s s0) as [<-|Hne].
      * apply Hd in H. congruence.
      * rewrite PyDictFacts.get_set_ne by (auto using site_eqb_spec). eauto.
    + inversion H; subst.
      apply PyDictFacts.get_set_eq, site_eqb_spec.
Qed.

(** The inner loop of the expansion. *)
Lemma expand_chars_loop (s : site) (wt : ascii) (cs : list ascii)
    (ts : list entry) (wi : PyDict.t) (r : registry) :
  foldM (expand_char_step s wt) cs (registry_of ts wi) = OK r ->
  exists wi',
    r = registry_of (ts ++ map (fun c => (s, wt, c)) cs) wi'
    /\ (wt_indices_ok ts wi ->
        wt_indices_ok (ts ++ map (fun c => (s, wt, c)) cs) wi').
Proof.
  revert ts wi; induction cs as [|c cs IH]; intros ts wi; simpl; intros H.
  - inversion H. exists wi. rewrite app_nil_r. auto.
  - inv_bind H. unfold expand_char_step in Hr. inv_bind Hr.
    inversion Hr; subst a; clear Hr.
    destruct (Ascii.eqb_spec c wt) as [->|Hne].
    + destruct (PyDict.contains site_eqb
                  (r_wt_indices (assign_index s (sub_string wt s wt) (registry_of ts wi))) s)
        eqn:Hc; [discriminate|].
      inversion Hr0; subst a0; clear Hr0.
      replace (incr_i (set_wt_index s (assign_index s (sub_string wt s wt) (registry_of ts wi))))
        with (registry_of (ts ++ [(s, wt, wt)])
                (PyDict.set site_eqb wi s (List.length ts))) in H
        by (rewrite <- registry_of_snoc; reflexivity).
      apply IH in H as (wi' & E & Hok). exists wi'.
      rewrite <- app_assoc in E, Hok. split; [exact E|].
      intros Hw. apply Hok. apply wt_indices_ok_snoc_wt; auto.
    + inversion Hr0; subst a0; clear Hr0.
      rewrite registry_of_snoc in H.
      apply IH in H as (wi' & E & Hok). exists wi'.
      rewrite <- app_assoc in E, Hok. split; [exact E|].
      intros Hw. apply Hok. apply wt_indices_ok_snoc_other; auto.
Qed.

Lemma expand_sites_loop (alphabet : list ascii) (wts : wts_dict)
    (items : list (site * ascii)) (ts : list entry) (wi : PyDict.t)
    (r : registry) :
  foldM (expand_site_step alphabet wts) items (registry_of ts wi) = OK r ->
  exists wi',
    r = registry_of (ts ++ flat_map (site_entries (fun _ => alphabet)) items) wi'
    /\ (wt_indices_ok ts wi ->
        wt_indices_ok (ts ++ flat_map (site_entries (fun _ => alphabet)) items) wi').
Proof.
  revert ts wi; induction items as [|[s wt] items IH]; intros ts wi; simpl; intros H.
  - inversion H. exists wi. rewrite app_nil_r. auto.
  - inv_bind H.
    assert (Hin : foldM (expand_char_step s wt) alphabet (registry_of ts wi) = OK a).
    { unfold expand_site_step in Hr.
      destruct (PyDict.get site_eqb wts s); [|exact Hr].
      destruct (Ascii.eqb a0 wt); [exact Hr | discriminate]. }
    apply expand_chars_loop in Hin as (wi1 & -> & Hok1).
    apply IH in H as (wi' & E & Hok). exists wi'.
    rewrite <- app_assoc in E, Hok. split; [exact E | auto].
Qed.

Lemma wt_indices_ok_nil : wt_indices_ok [] [].
Proof.
  split; [constructor|]. split.
  - intros s i H; discriminate.
  - intros [|i] s wt H; discriminate.
Qed.


(** ** The inverse dict *)

Section Invert.
Local Abbreviation step :=
  (fun (d : PyDict.t (K := string) (V := nat)) '(i, sub) =>
     PyDict.set String.eqb d sub i).

Lemma length_set_le (d : PyDict.t (K := string) (V := nat)) (k : string) (v : nat) :
  List.length (PyDict.set String.eqb d k v) <= S (List.length d).
Proof.
  destruct (PyDict.get String.eqb d k) eqn:E.
  - rewrite (PyDictFacts.length_set_old String.eqb String.eqb_spec d k v n E). lia.
  - rewrite (PyDictFacts.set_new String.eqb String.eqb_spec d k v E).
    rewrite length_app; simpl; lia.
Qed.

Lemma invert_length_le (l : list (nat * string)) (d : PyDict.t) :
  List.length (fold_left step l d) <= List.length d + List.length l.
Proof.
  revert d; induction l as [|[i sub] l IH]; intros d; simpl; [lia|].
  specialize (IH (PyDict.set String.eqb d sub i)).
  pose proof (length_set_le d sub i). lia.
Qed.

Lemma invert_get (l : list (nat * string)) (d : PyDict.t) (sub : string) (i : nat) :
  PyDict.get String.eqb (fold_left step l d) sub = Some i ->
  In (i, sub) l \/ PyDict.get String.eqb d sub = Some i.
Proof.
  revert d; induction l as [|[j s] l IH]; intros d; simpl; intros H; [auto|].
  apply IH in H as [H|H]; [auto|].
  destruct (String.eqb_spec s sub) as [->|Hne].
  - rewrite PyDictFacts.get_set_eq in H by apply String.eqb_spec.
    inversion H; auto.
  - rewrite PyDictFacts.get_set_ne in H by (auto using String.eqb_spec). auto.
Qed.

(** When no assignment hits a key that is present, the dict holds every
    pair. *)
Lemma invert_full (l : list (nat * string)) (d : PyDict.t) :
  List.length (fold_left step l d) = List.length d + List.length l ->
  NoDup (map snd l)
  /\ (forall i sub, In (i, sub) l -> PyDict.get String.eqb d sub = None)
  /\ (forall i sub, In (i, sub) l ->
                    PyDict.get String.eqb (fold_left step l d) sub = Some i)
  /\ (forall sub i, PyDict.get String.eqb d sub = Some i ->
                    PyDict.get String.eqb (fold_left step l d) sub = Some i).
Proof.
  revert d; induction l as [|[j s] l IH]; intros d; simpl; intros H.
  - repeat split; [constructor | intros ? ? [] | intros ? ? [] | auto].
  - pose proof (invert_length_le l (PyDict.set String.eqb d s j)) as Hle.
    pose proof (length_set_le d s j) as Hle'.
    assert (Hnew : PyDict.get String.eqb d s = None).
    { destruct (PyDict.get String.eqb d s) eqn:E; [|reflexivity].
      rewrite (PyDictFacts.length_set_old String.eqb String.eqb_spec d s j n E) in Hle.
      lia. }
    assert (Hlen : List.length (PyDict.set String.eqb d s j) = S (List.length d)).
    { rewrite (PyDictFacts.set_new String.eqb String.eqb_spec d s j Hnew).
      rewrite length_app; simpl; lia. }
    destruct (IH (PyDict.set String.eqb d s j)) as (Hnd & Hnone & Hall & Hold);
      [lia|].
    assert (Hs : ~ In s (map snd l)).
    { intros Hin. apply in_map_iff in Hin as ([i s'] & E & Hin).
      simpl in E; subst s'. specialize (Hnone i s Hin).
      rewrite PyDictFacts.get_set_eq in Hnone by apply String.eqb_spec.
      discriminate. }
    repeat split.
    + constructor; assumption.
    + intros i sub [E|Hin].
      * inversion E; subst; exact Hnew.
      * specialize (Hnone i sub Hin).
        destruct (String.eqb_spec s sub) as [->|Hne].
        -- rewrite PyDictFacts.get_set_eq in Hnone by apply String.eqb_spec.
           discriminate.
        -- rewrite PyDictFacts.get_set_ne in Hnone by (auto using String.eqb_spec).
           exact Hnone.
    + intros i sub [E|Hin]; [|auto].
      inversion E; subst. apply Hold.
      apply PyDictFacts.get_set_eq, String.eqb_spec.
    + intros sub i Hg. apply Hold.
      destruct (String.eqb_spec s sub) as [->|Hne]; [congruence|].
      rewrite PyDictFacts.get_set_ne by (auto using String.eqb_spec). exact Hg.
Qed.

(** Conversely keys that are all new are all kept. *)
Lemma invert_length (l : list (nat * string)) (d : PyDict.t) :
  NoDup (map snd l) ->
  (forall i sub, In (i, sub) l -> PyDict.get String.eqb d sub = None) ->
  List.length (fold_left step l d) = List.length d + List.length l.
Proof.
  revert d; induction l as [|[j s] l IH]; intros d; simpl; intros Hnd Hnone;
    [lia|].
  inversion Hnd as [|? ? Hs Hnd']; subst.
  rewrite IH; auto.
  - rewrite (PyDictFacts.set_new String.eqb String.eqb_spec d s j)
      by (apply (Hnone j); auto).
    rewrite length_app; simpl; lia.
  - intros i sub Hin.
    rewrite PyDictFacts.get_set_ne; [apply (Hnone i); auto | apply String.eqb_spec |].
    intros ->. apply Hs. apply in_map_iff. exists (i, sub); auto.
Qed.
End Invert.

Lemma map_snd_combine_seq {V : Type} (l : list V) (a : nat) :
  map snd (combine (seq a (List.length l)) l) = l.
Proof.
  revert a; induction l as [|x l IH]; intros a; simpl;
    [reflexivity | rewrite IH; reflexivity].
Qed.

Lemma In_combine_seq {V : Type} (l : list V) (a i : nat) (x : V) :
  In (i, x) (combine (seq a (List.length l)) l) <->
  a <= i /\ nth_error l (i - a) = Some x.
Proof.
  revert a; induction l as [|y l IH]; intros a; simpl.
  - split; [tauto|]. intros [_ H]. destruct (i - a); discriminate.
  - rewrite IH. split.
    + intros [E|[Hle H]].
      * inversion E; subst. rewrite Nat.sub_diag. auto.
      * split; [lia|]. replace (i - a) with (S (i - S a)) by lia. exact H.
    + intros [Hle H]. destruct (i - a) as [|k] eqn:E.
      * left. inversion H; subst. f_equal. lia.
      * right. split; [lia|]. replace (i - S a) with k by lia. exact H.
Qed.

(** The dict [_sub_to_i] against the list of the substitutions. *)
Lemma invert_spec (subs : list string) :
  List.length (invert (combine (seq 0 (List.length subs)) subs))
  = List.length subs ->
  NoDup subs
  /\ forall sub i,
       PyDict.get String.eqb (invert (combine (seq 0 (List.length subs)) subs)) sub
       = Some i <-> nth_error subs i = Some sub.
Proof.
  unfold invert, PyDict.items. intros H.
  destruct (invert_full (combine (seq 0 (List.length subs)) subs) []) as (Hnd & _ & Hall & _).
  { rewrite H. simpl. rewrite length_combine, length_seq. lia. }
  rewrite map_snd_combine_seq in Hnd. split; [exact Hnd|].
  intros sub i. split.
  - intros Hg. apply invert_get in Hg as [Hin|Hg]; [|discriminate].
    apply In_combine_seq in Hin as [_ Hin]. rewrite Nat.sub_0_r in Hin. exact Hin.
  - intros Hn. apply Hall. apply In_combine_seq. rewrite Nat.sub_0_r.
    split; [lia | exact Hn].
Qed.

Lemma invert_length_NoDup (subs : list string) :
  NoDup subs ->
  List.length (invert (combine (seq 0 (List.length subs)) subs))
  = List.length subs.
Proof.
  intros Hnd. unfold invert, PyDict.items.
  rewrite invert_length.
  - simpl. rewrite length_combine, length_seq. lia.
  - rewrite map_snd_combine_seq. exact Hnd.
  - reflexivity.
Qed.

(** ** The order of the alphabet *)

Lemma char_order_fold (l : list (nat * ascii)) (d : PyDict.t) (c : ascii) (k : nat) :
  PyDict.get Ascii.eqb
    (fold_left (fun d '(i, c) => PyDict.set Ascii.eqb d c i) l d) c = Some k ->
  In (k, c) l \/ PyDict.get Ascii.eqb d c = Some k.
Proof.
  revert d; induction l as [|[j a] l IH]; intros d; simpl; intros H; [auto|].
  apply IH in H as [H|H]; [auto|].
  destruct (Ascii.eqb_spec a c) as [->|Hne].
  - rewrite PyDictFacts.get_set_eq in H by apply Ascii.eqb_spec.
    inversion H; auto.
  - rewrite PyDictFacts.get_set_ne in H by (auto using Ascii.eqb_spec). auto.
Qed.

Lemma char_order_fold_In (l : list (nat * ascii)) (d : PyDict.t) (c : ascii) :
  In c (map snd l) \/ In c (PyDict.keys d) ->
  exists k,
    PyDict.get Ascii.eqb
      (fold_left (fun d '(i, c) => PyDict.set Ascii.eqb d c i) l d) c = Some k.
Proof.
  revert d; induction l as [|[j a] l IH]; intros d; simpl; intros H.
  - destruct H as [[]|H].
    apply (PyDictFacts.contains_true Ascii.eqb Ascii.eqb_spec) in H.
    unfold PyDict.contains in H.
    destruct (PyDict.get Ascii.eqb d c); [eauto | discriminate].
  - apply IH. destruct H as [[<-|H]|H]; auto; right.
    + apply (PyDictFacts.contains_true Ascii.eqb Ascii.eqb_spec).
      unfold PyDict.contains.
      rewrite PyDictFacts.get_set_eq by apply Ascii.eqb_spec. reflexivity.
    + apply (PyDictFacts.contains_true Ascii.eqb Ascii.eqb_spec).
      unfold PyDict.contains.
      destruct (Ascii.eqb_spec a c) as [->|Hne].
      * rewrite PyDictFacts.get_set_eq by apply Ascii.eqb_spec. reflexivity.
      * rewrite PyDictFacts.get_set_ne by (auto using Ascii.eqb_spec).
        apply (PyDictFacts.contains_true Ascii.eqb Ascii.eqb_spec) in H.
        exact H.
Qed.

(** The position of a character is an index at which the alphabet holds
    it. *)
Lemma alphabet_pos_nth (alphabet : list ascii) (c : ascii) (k : nat) :
  alphabet_pos alphabet c = Some k -> nth_error alphabet k = Some c.
Proof.
  unfold alphabet_pos, char_order. intros H.
  apply char_order_fold in H as [H|H]; [|discriminate].
  apply In_combine_seq in H as [_ H]. rewrite Nat.sub_0_r in H. exact H.
Qed.

Lemma alphabet_pos_In (alphabet : list ascii) (c : ascii) :
  In c alphabet -> exists k, alphabet_pos alphabet c = Some k.
Proof.
  intros H. unfold alphabet_pos, char_order. apply char_order_fold_In. left.
  rewrite map_snd_combine_seq. exact H.
Qed.

Lemma alphabet_pos_inj (alphabet : list ascii) (a b : ascii) (k : nat) :
  alphabet_pos alphabet a = Some k -> alphabet_pos alphabet b = Some k -> a = b.
Proof.
  intros Ha Hb. apply alphabet_pos_nth in Ha, Hb. congruence.
Qed.

Lemma StronglySorted_strict {A : Type} (R : A -> A -> Prop) (l : list A) :
  StronglySorted R l -> NoDup l ->
  StronglySorted (fun a b => R a b /\ a <> b) l.
Proof.
  induction 1 as [|x l Hs IH Hall]; intros Hnd; constructor;
    inversion Hnd as [|? ? Hx Hnd']; subst; auto.
  rewrite Forall_forall in *. intros y Hy. split; auto. congruence.
Qed.

Lemma nat_leb_total (a b : nat) : (a <=? b) = true \/ (b <=? a) = true.
Proof. rewrite !Nat.leb_le. lia. Qed.

Lemma nat_leb_trans (a b c : nat) :
  (a <=? b) = true -> (b <=? c) = true -> (a <=? c) = true.
Proof. rewrite !Nat.leb_le. lia. Qed.

Lemma sorted_muts_OK (alphabet : list ascii) (l : list ascii) :
  (forall m, In m l -> In m alphabet) ->
  exists ms, sorted_muts alphabet l = OK ms.
Proof.
  intros H. unfold sorted_muts.
  assert (E : exists keyed,
             mapM (fun m => match PyDict.get Ascii.eqb (char_order alphabet) m with
                            | Some k => OK (m, k)
                            | None => Err KeyError
                            end) l = OK keyed).
  { induction l as [|m l IH]; simpl; [eauto|].
    destruct (alphabet_pos_In alphabet m) as (k & Ek); [apply H; simpl; auto|].
    unfold alphabet_pos in Ek. rewrite Ek; simpl.
    destruct IH as (keyed & ->); [intros; apply H; simpl; auto|].
    simpl; eauto. }
  destruct E as (keyed & ->). simpl. eauto.
Qed.

Lemma sorted_muts_spec (alphabet : list ascii) (l ms : list ascii) :
  sorted_muts alphabet l = OK ms ->
  Permutation ms l
  /\ (NoDup l -> StronglySorted (pos_lt alphabet) ms).
Proof.
  unfold sorted_muts. intros H. inv_bind H. inversion H; subst ms; clear H.
  apply mapM_OK_Forall2 in Hr.
  assert (Hfst : map fst a = l /\ forall p, In p a -> alphabet_pos alphabet (fst p) = Some (snd p)).
  { clear - Hr. induction Hr as [|m p l a Hp Hr IH]; simpl.
    - split; [reflexivity | intros ? []].
    - destruct IH as [IH1 IH2].
      destruct (PyDict.get Ascii.eqb (char_order alphabet) m) eqn:E; [|discriminate].
      inversion Hp; subst p; simpl. split; [congruence|].
      intros q [<-|Hq]; auto. }
  destruct Hfst as [Hfst Hpos]. split.
  - rewrite <- Hfst. apply Permutation_map, sorted_perm.
  - intros Hnd.
    set (sa := sorted snd Nat.leb a).
    assert (Hperm : Permutation (map fst sa) (map fst a))
      by apply Permutation_map, sorted_perm.
    assert (Hnd' : NoDup (map fst sa)).
    { apply (Permutation_NoDup (l := map fst a)); [symmetry; exact Hperm|].
      rewrite Hfst; exact Hnd. }
    pose (R0 := fun x y : ascii =>
                  exists kx ky, alphabet_pos alphabet x = Some kx
                                /\ alphabet_pos alphabet y = Some ky /\ kx <= ky).
    assert (S0 : StronglySorted R0 (map fst sa)).
    { apply StronglySorted_map.
      eapply StronglySorted_weaken;
        [| apply (sorted_sorted snd Nat.leb nat_leb_total nat_leb_trans a)].
      intros p q Hp Hq Hle. apply sorted_In in Hp, Hq.
      exists (snd p), (snd q). apply Nat.leb_le in Hle. auto. }
    eapply StronglySorted_weaken; [| apply StronglySorted_strict; eassumption].
    intros x y _ _ [(kx & ky & Hx & Hy & Hle) Hne].
    exists kx, ky. repeat split; auto.
    destruct (Nat.eq_dec kx ky) as [E|E]; [|lia].
    exfalso. apply Hne. apply (alphabet_pos_inj alphabet _ _ kx); congruence.
Qed.


(** ** The loop over the substitutions *)

Lemma In_set_add {A : Type} (eqb : A -> A -> bool) (x y : A) (l : list A) :
  (forall a b, reflect (a = b) (eqb a b)) ->
  In y (set_add eqb x l) <-> y = x \/ In y l.
Proof.
  intros Hspec. unfold set_add. destruct (mem eqb x l) eqn:E.
  - apply (mem_In eqb x l Hspec) in E. split; [auto | intros [->|H]; auto].
  - rewrite in_app_iff; simpl. split; [intros [H|[H|[]]]; auto | intros [H|H]; auto].
Qed.

Lemma NoDup_set_add {A : Type} (eqb : A -> A -> bool) (x : A) (l : list A) :
  (forall a b, reflect (a = b) (eqb a b)) ->
  NoDup l -> NoDup (set_add eqb x l).
Proof.
  intros Hspec Hnd. unfold set_add. destruct (mem eqb x l) eqn:E; [exact Hnd|].
  apply (mem_false eqb x l Hspec) in E.
  apply NoDup_app; [exact Hnd | constructor; [intros [] | constructor] |].
  intros y Hy [<-|[]]. exact (E Hy).
Qed.

Lemma muts_at_set (muts : muts_dict) (s s0 : site) (l : list ascii) :
  muts_at (PyDict.set site_eqb muts s l) s0
  = if site_eqb s s0 then l else muts_at muts s0.
Proof.
  unfold muts_at. destruct (site_eqb_spec s s0) as [<-|Hne].
  - rewrite PyDictFacts.get_set_eq by apply site_eqb_spec. reflexivity.
  - rewrite PyDictFacts.get_set_ne by (auto using site_eqb_spec). reflexivity.
Qed.

Lemma collected_nil (alphabet : list ascii) (sites_as_str : bool) :
  collected alphabet sites_as_str [] [] [].
Proof.
  constructor.
  - constructor.
  - intros sub [].
  - intros s wt H; discriminate.
  - intros s m [].
  - intros s; constructor.
Qed.

Lemma collect_step_inv (alphabet : list ascii) (sites_as_str : bool)
    (done : list string) (wts wts' : wts_dict) (muts muts' : muts_dict)
    (sub : string) :
  collected alphabet sites_as_str done wts muts ->
  collect_step alphabet sites_as_str (wts, muts) sub = OK (wts', muts') ->
  collected alphabet sites_as_str (done ++ [sub]) wts' muts'.
Proof.
  intros [Hk Hs Hw Hm Hn] H. unfold collect_step in H.
  inv_bind H. destruct a as [[wt s] mut]. inv_bind H.
  inversion H; subst wts' muts'; clear H.
  assert (Hget : PyDict.get site_eqb a s = Some wt
                 /\ (forall s0 w, PyDict.get site_eqb wts s0 = Some w ->
                                  PyDict.get site_eqb a s0 = Some w)
                 /\ (forall s0 w, PyDict.get site_eqb a s0 = Some w ->
                                  PyDict.get site_eqb wts s0 = Some w
                                  \/ (s0 = s /\ w = wt))
                 /\ NoDup (PyDict.keys a)).
  { destruct (PyDict.get site_eqb wts s) as [wt0|] eqn:E.
    - destruct (Ascii.eqb_spec wt wt0) as [->|]; [|discriminate].
      inversion Hr0; subst a. auto.
    - inversion Hr0; subst a. repeat split.
      + apply PyDictFacts.get_set_eq, site_eqb_spec.
      + intros s0 w H0. rewrite PyDictFacts.get_set_ne; auto using site_eqb_spec.
        congruence.
      + intros s0 w H0. destruct (site_eqb_spec s s0) as [<-|Hne].
        * rewrite PyDictFacts.get_set_eq in H0 by apply site_eqb_spec.
          inversion H0; auto.
        * rewrite PyDictFacts.get_set_ne in H0 by (auto using site_eqb_spec). auto.
      + apply keys_set_new_NoDup; exact Hk. }
  destruct Hget as (Hg1 & Hg2 & Hg3 & Hg4).
  split.
  - exact Hg4.
  - intros sub0 Hin. apply in_app_or in Hin as [Hin|[<-|[]]].
    + destruct (Hs sub0 Hin) as (w & s0 & m & Hp & Hgw & Him).
      exists w, s0, m. repeat split; auto.
      rewrite muts_at_set. destruct (site_eqb_spec s s0) as [<-|]; auto.
      apply In_set_add; [apply Ascii.eqb_spec | auto].
    + exists wt, s, mut. repeat split; auto.
      rewrite muts_at_set, site_eqb_refl.
      apply In_set_add; [apply Ascii.eqb_spec | auto].
  - intros s0 w H0. apply Hg3 in H0 as [H0|[-> ->]].
    + destruct (Hw s0 w H0) as (sub0 & m & Hin & Hp).
      exists sub0, m. split; [apply in_or_app; auto | exact Hp].
    + exists sub, mut. split; [apply in_or_app; simpl; auto | exact Hr].
  - intros s0 m H0. rewrite muts_at_set in H0.
    destruct (site_eqb_spec s s0) as [<-|Hne].
    + apply In_set_add in H0 as [->|H0]; [| |apply Ascii.eqb_spec].
      * exists sub, wt. split; [apply in_or_app; simpl; auto | exact Hr].
      * destruct (Hm s m H0) as (sub0 & w & Hin & Hp).
        exists sub0, w. split; [apply in_or_app; auto | exact Hp].
    + destruct (Hm s0 m H0) as (sub0 & w & Hin & Hp).
      exists sub0, w. split; [apply in_or_app; auto | exact Hp].
  - intros s0. rewrite muts_at_set. destruct (site_eqb s s0); auto.
    apply NoDup_set_add; [apply Ascii.eqb_spec | auto].
Qed.

Lemma collect_loop (alphabet : list ascii) (sites_as_str : bool)
    (subs done : list string) (wts wts' : wts_dict) (muts muts' : muts_dict) :
  collected alphabet sites_as_str done wts muts ->
  foldM (collect_step alphabet sites_as_str) subs (wts, muts) = OK (wts', muts') ->
  collected alphabet sites_as_str (done ++ subs) wts' muts'.
Proof.
  revert done wts muts; induction subs as [|sub subs IH]; intros done wts muts Hc H.
  - simpl in H. inversion H; subst. rewrite app_nil_r. exact Hc.
  - simpl in H. inv_bind H. destruct a as [wts1 muts1].
    replace (done ++ sub :: subs) with ((done ++ [sub]) ++ subs)
      by (rewrite <- app_assoc; reflexivity).
    apply (IH _ wts1 muts1); [|exact H].
    apply (collect_step_inv _ _ _ wts _ muts); auto.
Qed.

Lemma collect_loop_OK (alphabet : list ascii) (sites_as_str : bool)
    (subs done : list string) (wts : wts_dict) (muts : muts_dict) :
  collected alphabet sites_as_str done wts muts ->
  (forall sub, In sub subs ->
               exists t, _parse_sub_str alphabet sites_as_str sub = OK t) ->
  consistent_wts alphabet sites_as_str (done ++ subs) ->
  exists st, foldM (collect_step alphabet sites_as_str) subs (wts, muts) = OK st.
Proof.
  revert done wts muts; induction subs as [|sub subs IH];
    intros done wts muts Hc Hp Hcons; cbn [foldM]; [eauto|].
  destruct (Hp sub (or_introl eq_refl)) as ([[wt s] mut] & Ep).
  assert (Estep : exists wts1 muts1,
             collect_step alphabet sites_as_str (wts, muts) sub = OK (wts1, muts1)).
  { unfold collect_step. rewrite Ep; simpl.
    destruct (PyDict.get site_eqb wts s) as [wt0|] eqn:E; simpl; [|eauto].
    destruct (col_wts _ _ _ _ _ Hc s wt0 E) as (sub0 & m0 & Hin0 & Ep0).
    assert (wt = wt0).
    { apply (Hcons sub sub0 wt wt0 s mut m0); auto; apply in_or_app; simpl; auto. }
    subst. rewrite Ascii.eqb_refl. simpl. eauto. }
  destruct Estep as (wts1 & muts1 & Estep). rewrite Estep; simpl.
  apply (IH (done ++ [sub])).
  - apply (collect_step_inv _ _ _ wts _ muts); auto.
  - intros; apply Hp; simpl; auto.
  - rewrite <- app_assoc. exact Hcons.
Qed.


(** ** The lookups of a registry *)

Section Lookups.
Variables (bm : BinaryMap) (ts : list entry).
Hypothesis Hreg : registry_holds bm ts.

Lemma get_i_to_sub (i : nat) :
  PyDict.get Nat.eqb (_i_to_sub bm) i = nth_error (map entry_sub ts) i.
Proof.
  rewrite (rh_i_to_sub _ _ Hreg).
  rewrite <- (length_map entry_sub ts). apply get_combine_seq0.
Qed.

Lemma get_sub_to_i (sub : string) (i : nat) :
  PyDict.get String.eqb (_sub_to_i bm) sub = Some i
  <-> nth_error (map entry_sub ts) i = Some sub.
Proof.
  rewrite (rh_sub_to_i _ _ Hreg), (rh_i_to_sub _ _ Hreg).
  rewrite <- (length_map entry_sub ts).
  apply invert_spec, invert_length_NoDup, (rh_nodup _ _ Hreg).
Qed.

Lemma sub_to_i_OK (sub : string) (i : nat) :
  sub_to_i bm sub = OK i <-> nth_error (map entry_sub ts) i = Some sub.
Proof.
  rewrite <- get_sub_to_i. unfold sub_to_i.
  destruct (PyDict.get String.eqb (_sub_to_i bm) sub); split; intros H;
    inversion H; reflexivity.
Qed.

Lemma sub_to_i_cases (sub : string) :
  (exists i, sub_to_i bm sub = OK i)
  \/ sub_to_i bm sub = raise (MsgSubNotInMap sub).
Proof.
  unfold sub_to_i. destruct (PyDict.get String.eqb (_sub_to_i bm) sub); eauto.
Qed.

Lemma sub_to_i_entry (sub : string) (i : nat) :
  sub_to_i bm sub = OK i <->
  exists t, nth_error ts i = Some t /\ entry_sub t = sub.
Proof.
  rewrite sub_to_i_OK, nth_error_map.
  destruct (nth_error ts i) as [t|]; simpl; split.
  - intros H; inversion H; eauto.
  - intros (t' & E & <-). inversion E; reflexivity.
  - discriminate.
  - intros (t' & E & _); discriminate.
Qed.

Lemma sub_to_i_lt (sub : string) (i : nat) :
  sub_to_i bm sub = OK i -> i < binarylength bm.
Proof.
  intros H. apply sub_to_i_entry in H as (t & H & _).
  rewrite (rh_length _ _ Hreg). apply nth_error_Some. congruence.
Qed.


Lemma wt_index_set_spec (i : nat) :
  mem Nat.eqb i (_wt_index_set bm) = true
  <-> exists t, nth_error ts i = Some t /\ is_wt_entry t = true.
Proof.
  rewrite (mem_In Nat.eqb i _ Nat.eqb_spec), (rh_wt_set _ _ Hreg).
  destruct (rh_wt _ _ Hreg) as (Hnd & Ha & Hd).
  unfold PyDict.values. rewrite in_map_iff. split.
  - intros ([s j] & E & Hin). simpl in E; subst j.
    apply (PyDictFacts.In_get site_eqb site_eqb_spec _ _ _ Hnd) in Hin.
    destruct (Ha s i Hin) as (wt & Hn). exists (s, wt, wt). split; auto.
    unfold is_wt_entry; simpl. apply Ascii.eqb_refl.
  - intros ([[s wt] m] & Hn & Hw).
    unfold is_wt_entry, entry_wt, entry_mut in Hw; cbn [fst snd] in Hw.
    apply Ascii.eqb_eq in Hw; subst m.
    exists (s, i). split; [reflexivity|].
    apply (PyDictFacts.get_Some_In site_eqb site_eqb_spec). eauto.
Qed.

Lemma wt_index_set_false (i : nat) (t : entry) :
  nth_error ts i = Some t ->
  mem Nat.eqb i (_wt_index_set bm) = is_wt_entry t.
Proof.
  intros Hn. destruct (is_wt_entry t) eqn:E.
  - apply wt_index_set_spec; eauto.
  - destruct (mem Nat.eqb i (_wt_index_set bm)) eqn:M; [|reflexivity].
    apply wt_index_set_spec in M as (t' & Hn' & E'). congruence.
Qed.

(** [i_to_sub] on the indices of the registry, and beyond them. *)
Lemma i_to_sub_entry (i : nat) (t : entry) :
  nth_error ts i = Some t ->
  i_to_sub bm i = OK (if is_wt_entry t then EmptyString else entry_sub t).
Proof.
  intros Hn. unfold i_to_sub. rewrite (wt_index_set_false i t Hn).
  destruct (is_wt_entry t); [reflexivity|].
  rewrite get_i_to_sub, nth_error_map, Hn. reflexivity.
Qed.

Lemma i_to_sub_out (i : nat) :
  binarylength bm <= i -> i_to_sub bm i = raise (MsgInvalidIndex i).
Proof.
  intros Hle. unfold i_to_sub.
  destruct (mem Nat.eqb i (_wt_index_set bm)) eqn:M.
  - apply wt_index_set_spec in M as (t & Hn & _).
    assert (i < List.length ts) by (apply nth_error_Some; congruence).
    rewrite (rh_length _ _ Hreg) in Hle. lia.
  - rewrite get_i_to_sub.
    assert (E : nth_error (map entry_sub ts) i = None).
    { apply nth_error_None. rewrite length_map, <- (rh_length _ _ Hreg). exact Hle. }
    rewrite E. apply Nat.leb_le in Hle. rewrite Hle. reflexivity.
Qed.

Lemma parse_entry (t : entry) :
  In t ts -> is_wt_entry t = false ->
  _parse_sub_str (alphabet bm) (sites_as_str bm) (entry_sub t)
  = OK (entry_wt t, entry_site t, entry_mut t).
Proof.
  intros Hin Hw. destruct (rh_good _ _ Hreg t Hin) as (Hg & H1 & H2).
  apply parse_sub_string; auto.
  unfold is_wt_entry in Hw. apply Ascii.eqb_neq. exact Hw.
Qed.

Lemma parse_wt_entry (t : entry) :
  In t ts -> is_wt_entry t = true ->
  _parse_sub_str (alphabet bm) (sites_as_str bm) (entry_sub t)
  = raise (MsgSameWtMut (entry_sub t)).
Proof.
  intros Hin Hw. destruct (rh_good _ _ Hreg t Hin) as (Hg & H1 & H2).
  unfold is_wt_entry in Hw. apply Ascii.eqb_eq in Hw.
  destruct t as [[s wt] m].
  unfold entry_sub, entry_wt, entry_mut, entry_site in *; cbn [fst snd] in *.
  subst m. apply parse_sub_string_same; auto.
Qed.

(** A token that parses and has an index: its entry is what it parses
    to. *)
Lemma token_entry (tok : string) (wt mut : ascii) (s : site) (i : nat) :
  _parse_sub_str (alphabet bm) (sites_as_str bm) tok = OK (wt, s, mut) ->
  sub_to_i bm tok = OK i ->
  nth_error ts i = Some (s, wt, mut) /\ tok = sub_string wt s mut.
Proof.
  intros Hp Hi. apply sub_to_i_entry in Hi as (t & Hn & <-).
  assert (Hin : In t ts) by (eapply nth_error_In; eauto).
  destruct (is_wt_entry t) eqn:Hw.
  - rewrite (parse_wt_entry t Hin Hw) in Hp. discriminate.
  - rewrite (parse_entry t Hin Hw) in Hp. inversion Hp; subst.
    destruct t as [[s wt] m]; auto.
Qed.
End Lookups.


(** ** Encoding *)

Lemma set_add_new (s : site) (sites : list site) :
  mem site_eqb s sites = false -> set_add site_eqb s sites = sites ++ [s].
Proof. intros H. unfold set_add. rewrite H. reflexivity. Qed.

Lemma indices_step_OK (bm : BinaryMap) (sub_str tok : string)
    (sites sites' : list site) (idx idx' : list nat) :
  indices_step bm sub_str (sites, idx) tok = OK (sites', idx') <->
  exists p, token_at bm tok p /\ mem site_eqb (fst p) sites = false
            /\ sites' = sites ++ [fst p] /\ idx' = idx ++ [snd p].
Proof.
  unfold indices_step, token_at. split.
  - intros H. inv_bind H. destruct a as [[wt s] mut].
    destruct (mem site_eqb s sites) eqn:M; [discriminate|].
    inv_bind H. inversion H; subst.
    exists (s, a). simpl. rewrite set_add_new by exact M. eauto 8.
  - intros ([s i] & ((wt & mut & Hp) & Hi) & M & -> & ->). simpl in *.
    rewrite Hp; simpl. rewrite M, Hi; simpl.
    rewrite set_add_new by exact M. reflexivity.
Qed.

Lemma indices_loop (bm : BinaryMap) (sub_str : string) (toks : list string)
    (sites0 sites : list site) (idx0 idx : list nat) :
  foldM (indices_step bm sub_str) toks (sites0, idx0) = OK (sites, idx) <->
  exists ps, Forall2 (token_at bm) toks ps
             /\ sites = sites0 ++ map fst ps /\ idx = idx0 ++ map snd ps
             /\ (forall s, In s (map fst ps) -> ~ In s sites0)
             /\ NoDup (map fst ps).
Proof.
  revert sites0 idx0 sites idx; induction toks as [|tok toks IH];
    intros sites0 idx0 sites idx; cbn [foldM].
  - split.
    + intros H; inversion H; subst. exists []. simpl.
      rewrite !app_nil_r.
      split; [constructor|]. split; [reflexivity|]. split; [reflexivity|].
      split; [intros ? [] | constructor].
    + intros (ps & HF & -> & -> & _). inversion HF; subst. simpl.
      rewrite !app_nil_r. reflexivity.
  - split.
    + intros H. inv_bind H. destruct a as [sites1 idx1].
      apply indices_step_OK in Hr as (p & Hp & M & -> & ->).
      apply IH in H as (ps & HF & -> & -> & Hdis & Hnd).
      exists (p :: ps). simpl. rewrite <- !app_assoc. simpl.
      repeat split; auto.
      * intros s [<-|Hin].
        -- apply (mem_false site_eqb _ _ site_eqb_spec). exact M.
        -- intros Hs. apply (Hdis s Hin). apply in_or_app; auto.
      * constructor; auto. intros Hin. apply (Hdis _ Hin).
        apply in_or_app; simpl; auto.
    + intros (ps & HF & -> & -> & Hdis & Hnd).
      inversion HF as [|? p ? ps' Hp HF']; subst. cbn [map] in *.
      inversion Hnd as [|? ? Hp' Hnd']; subst.
      assert (M : mem site_eqb (fst p) sites0 = false).
      { apply (mem_false site_eqb _ _ site_eqb_spec). apply Hdis; simpl; auto. }
      assert (E : indices_step bm sub_str (sites0, idx0) tok
                  = OK (sites0 ++ [fst p], idx0 ++ [snd p]))
        by (apply indices_step_OK; eauto 6).
      rewrite E; simpl.
      replace (sites0 ++ fst p :: map fst ps') with ((sites0 ++ [fst p]) ++ map fst ps')
        by (rewrite <- app_assoc; reflexivity).
      replace (idx0 ++ snd p :: map snd ps') with ((idx0 ++ [snd p]) ++ map snd ps')
        by (rewrite <- app_assoc; reflexivity).
      apply IH. exists ps'. repeat split; auto.
      intros s Hin Hs. apply in_app_or in Hs as [Hs|[<-|[]]].
      * apply (Hdis s); [right; exact Hin | exact Hs].
      * contradiction.
Qed.

Lemma wt_fold (sites : list site) (wi : list (site * nat)) (idx : list nat) :
  fold_left (fun acc '(s, i) => if mem site_eqb s sites then acc else acc ++ [i])
    wi idx
  = idx ++ map snd (filter (fun p => negb (mem site_eqb (fst p) sites)) wi).
Proof.
  revert idx; induction wi as [|[s i] wi IH]; intros idx; simpl.
  - rewrite app_nil_r; reflexivity.
  - rewrite IH. destruct (mem site_eqb s sites); simpl; [reflexivity|].
    rewrite <- app_assoc. reflexivity.
Qed.

(** The result of [sub_str_to_indices]: the indices of the tokens and the
    wildtype indices of the other sites, sorted. *)
Lemma sub_str_to_indices_OK (bm : BinaryMap) (sub_str : string)
    (indices : list nat) :
  sub_str_to_indices bm sub_str = OK indices <->
  exists ps, Forall2 (token_at bm) (split sub_str) ps
             /\ NoDup (map fst ps)
             /\ indices = sorted (fun i => i) Nat.leb
                            (map snd ps ++ unmentioned_wt bm (map fst ps)).
Proof.
  unfold sub_str_to_indices, unmentioned_wt. split.
  - intros H. inv_bind H. destruct a as [sites idx].
    apply indices_loop in Hr as (ps & HF & -> & -> & _ & Hnd).
    simpl in *. rewrite wt_fold in H. inversion H; subst. eauto.
  - intros (ps & HF & Hnd & ->).
    assert (E : foldM (indices_step bm sub_str) (split sub_str) ([], [])
                = OK (map fst ps, map snd ps)).
    { apply indices_loop. exists ps. simpl. repeat split; auto. }
    rewrite E; simpl. rewrite wt_fold. reflexivity.
Qed.

(** *** The exceptions of the encoding *)

Lemma indices_step_Err (bm : BinaryMap) (sub_str tok : string)
    (st : list site * list nat) (e : exn) :
  indices_step bm sub_str st tok = Err e ->
  e = ValueError (MsgInvalidSub tok) \/ e = ValueError (MsgSameWtMut tok)
  \/ e = ValueError (MsgMultipleSubsAtSite sub_str)
  \/ e = ValueError (MsgSubNotInMap tok).
Proof.
  destruct st as [sites idx]. unfold indices_step.
  destruct (parse_cases (alphabet bm) (sites_as_str bm) tok)
    as [E | [E | ([[wt s] mut] & E)]]; rewrite E; simpl.
  - intros H; inversion H; auto.
  - intros H; inversion H; auto.
  - destruct (mem site_eqb s sites).
    + intros H; inversion H; auto.
    + unfold sub_to_i. destruct (PyDict.get String.eqb (_sub_to_i bm) tok); simpl.
      * discriminate.
      * intros H; inversion H; auto.
Qed.

Lemma indices_loop_Err (bm : BinaryMap) (sub_str : string) (toks : list string)
    (st : list site * list nat) (e : exn) :
  foldM (indices_step bm sub_str) toks st = Err e -> exists m, e = ValueError m.
Proof.
  revert st; induction toks as [|tok toks IH]; intros st; cbn [foldM];
    [discriminate|].
  intros H. apply bind_Err in H as [H | (st' & _ & H)]; [|eauto].
  apply indices_step_Err in H as [-> | [-> | [-> | ->]]]; eauto.
Qed.



(** ** The end of the construction *)

Lemma sub_str_to_indices_matrix (substitutions : list string)
    (alphabet0 : list ascii) (sas : bool) (r : registry) (m m' : csr_array)
    (s : string) :
  sub_str_to_indices (object_of substitutions alphabet0 sas r m) s
  = sub_str_to_indices (object_of substitutions alphabet0 sas r m') s.
Proof. reflexivity. Qed.

Lemma object_holds (substitutions : list string) (alphabet0 : list ascii)
    (sas : bool) (ts : list entry) (wi : PyDict.t) (m : csr_array) :
  good_entries alphabet0 sas ts -> wt_indices_ok ts wi ->
  NoDup (map entry_sub ts) ->
  registry_holds (object_of substitutions alphabet0 sas (registry_of ts wi) m) ts.
Proof.
  intros Hg Hw Hnd. constructor; simpl; auto.
  - rewrite length_combine, length_seq, length_map. lia.
Qed.

Lemma finish_OK (substitutions : list string) (alphabet0 : list ascii)
    (sas : bool) (ts : list entry) (wi : PyDict.t) (bm : BinaryMap) :
  good_entries alphabet0 sas ts -> wt_indices_ok ts wi ->
  finish substitutions alphabet0 sas (registry_of ts wi) = OK bm ->
  built substitutions alphabet0 sas ts bm /\ _wt_indices bm = wi.
Proof.
  intros Hg Hw H. unfold finish in H.
  destruct (List.length (invert (r_i_to_sub (registry_of ts wi)))
            =? List.length (r_i_to_sub (registry_of ts wi))) eqn:E;
    [|discriminate].
  simpl in H. inv_bind H. inv_bind H. inversion H; subst bm; clear H.
  apply Nat.eqb_eq in E. simpl in E.
  assert (Hlen : List.length (combine (seq 0 (List.length ts)) (map entry_sub ts))
                 = List.length ts)
    by (rewrite length_combine, length_seq, length_map; lia).
  rewrite Hlen in E.
  assert (Hnd : NoDup (map entry_sub ts)).
  { rewrite <- (length_map entry_sub ts) in E.
    apply invert_spec in E. tauto. }
  split; [|reflexivity].
  constructor; try reflexivity.
  - apply object_holds; auto.
  - exists a. split.
    + apply mapM_OK_Forall2 in Hr. exact Hr.
    + unfold make_csr in Hr0. simpl in Hr0.
      destruct (forallb _ (coords_from 0 a)); [|discriminate].
      inversion Hr0; subst. simpl. rewrite Hlen. reflexivity.
Qed.

Lemma coords_from_In (rows : list (list nat)) (a r c : nat) :
  In (r, c) (coords_from a rows) <->
  a <= r /\ exists row, nth_error rows (r - a) = Some row /\ In c row.
Proof.
  revert a; induction rows as [|row rows IH]; intros a; simpl.
  - split; [tauto|]. intros (_ & row & H & _). destruct (r - a); discriminate.
  - rewrite in_app_iff, in_map_iff, IH. split.
    + intros [(c' & E & Hin) | (Hle & row' & Hn & Hin)].
      * inversion E; subst. split; [lia|]. rewrite Nat.sub_diag.
        exists row. split; [reflexivity | assumption].
      * split; [lia|]. replace (r - a) with (S (r - S a)) by lia.
        exists row'. split; assumption.
    + intros (Hle & row' & Hn & Hin). destruct (r - a) as [|k] eqn:E.
      * left. inversion Hn; subst. exists c. split; [f_equal; lia | exact Hin].
      * right. split; [lia|]. replace (r - S a) with k by lia.
        exists row'. split; assumption.
Qed.

Lemma mapM_succeeds {A B : Type} (f : A -> result B) (P : B -> Prop)
    (l : list A) :
  (forall a, In a l -> exists b, f a = OK b /\ P b) ->
  exists bs, mapM f l = OK bs /\ Forall P bs
             /\ List.length bs = List.length l.
Proof.
  induction l as [|a l IH]; intros H; simpl.
  - exists []. repeat split; constructor.
  - destruct (H a (or_introl eq_refl)) as (b & Eb & Hb).
    destruct IH as (bs & Em & Hall & Hl); [intros; apply H; simpl; auto|].
    rewrite Eb, Em. simpl. exists (b :: bs). repeat split; simpl; auto.
Qed.

Lemma finish_succeeds (substitutions : list string) (alphabet0 : list ascii)
    (sas : bool) (ts : list entry) (wi : PyDict.t) :
  good_entries alphabet0 sas ts -> wt_indices_ok ts wi ->
  NoDup (map entry_sub ts) ->
  (forall s, In s substitutions ->
             exists row,
               sub_str_to_indices
                 (object_of substitutions alphabet0 sas (registry_of ts wi) empty_csr) s
               = OK row /\ forall c, In c row -> c < List.length ts) ->
  exists bm, finish substitutions alphabet0 sas (registry_of ts wi) = OK bm.
Proof.
  intros Hg Hw Hnd Hrows. unfold finish.
  assert (Hlen : List.length (r_i_to_sub (registry_of ts wi)) = List.length ts)
    by (simpl; rewrite length_combine, length_seq, length_map; lia).
  assert (E : List.length (invert (r_i_to_sub (registry_of ts wi)))
              = List.length (r_i_to_sub (registry_of ts wi))).
  { rewrite Hlen. simpl. rewrite <- (length_map entry_sub ts).
    apply invert_length_NoDup. exact Hnd. }
  rewrite E, Nat.eqb_refl. simpl negb. cbv iota.
  set (bm0 := object_of substitutions alphabet0 sas (registry_of ts wi) empty_csr).
  assert (Hm : exists rows,
             mapM (sub_str_to_indices bm0) substitutions = OK rows
             /\ Forall (fun row => forall c, In c row -> c < List.length ts) rows
             /\ List.length rows = List.length substitutions).
  { apply mapM_succeeds. exact Hrows. }
  destruct Hm as (rows & Em & Hall & Hl). rewrite Em. cbn [bind].
  unfold make_csr.
  assert (F : forallb (fun c => (fst c <? List.length substitutions)
                                && (snd c <? List.length (r_i_to_sub (registry_of ts wi))))
                (coords_from 0 rows) = true).
  { apply forallb_forall. intros [r c] Hin. simpl fst; simpl snd.
    apply coords_from_In in Hin as (_ & row & Hn & Hc).
    rewrite Nat.sub_0_r in Hn. rewrite Hlen.
    apply andb_true_intro. split; apply Nat.ltb_lt.
    - rewrite <- Hl. apply nth_error_Some. congruence.
    - rewrite Forall_forall in Hall. apply (Hall row); [|exact Hc].
      eapply nth_error_In; eauto. }
  rewrite F. cbn [bind]. eauto.
Qed.


(** ** The entries of the two modes *)

Lemma natsorted_In (items : list (site * ascii)) (it : site * ascii) :
  In it (natsorted items) <-> In it items.
Proof. apply sorted_In. Qed.

Lemma collected_items (alphabet0 : list ascii) (sas : bool) (subs : list string)
    (wts : wts_dict) (muts : muts_dict) (s : site) (wt : ascii) :
  collected alphabet0 sas subs wts muts ->
  In (s, wt) (PyDict.items wts) <-> PyDict.get site_eqb wts s = Some wt.
Proof.
  intros Hc. split.
  - apply PyDictFacts.In_get; [apply site_eqb_spec | apply (col_keys _ _ _ _ _ Hc)].
  - apply PyDictFacts.get_Some_In, site_eqb_spec.
Qed.

Lemma collected_sorted_muts (alphabet0 : list ascii) (sas : bool)
    (subs : list string) (wts : wts_dict) (muts : muts_dict) (s : site) :
  collected alphabet0 sas subs wts muts ->
  sorted_muts alphabet0 (muts_at muts s) = OK (muts_sorted_at alphabet0 muts s).
Proof.
  intros Hc. destruct (sorted_muts_OK alphabet0 (muts_at muts s)) as (ms & E).
  - intros m Hm. destruct (col_muts _ _ _ _ _ Hc s m Hm) as (sub & wt & _ & Hp).
    apply parse_OK_good in Hp. tauto.
  - unfold muts_sorted_at. rewrite E. reflexivity.
Qed.

Lemma muts_sorted_at_In (alphabet0 : list ascii) (sas : bool)
    (subs : list string) (wts : wts_dict) (muts : muts_dict) (s : site)
    (m : ascii) :
  collected alphabet0 sas subs wts muts ->
  In m (muts_sorted_at alphabet0 muts s) <-> In m (muts_at muts s).
Proof.
  intros Hc. pose proof (collected_sorted_muts _ _ _ _ _ s Hc) as E.
  apply sorted_muts_spec in E as [Hperm _].
  split; apply Permutation_in; [exact Hperm | symmetry; exact Hperm].
Qed.

(** The observed entries are the substitutions of the loop. *)
Lemma observed_entry_iff (alphabet0 : list ascii) (sas : bool)
    (subs : list string) (wts : wts_dict) (muts : muts_dict)
    (s : site) (wt m : ascii) :
  collected alphabet0 sas subs wts muts ->
  In (s, wt, m) (observed_entries alphabet0 wts muts) <->
  exists sub, In sub subs /\ _parse_sub_str alphabet0 sas sub = OK (wt, s, m).
Proof.
  intros Hc. unfold observed_entries. rewrite in_flat_map. split.
  - intros ([s' wt'] & Hit & Hin). unfold site_entries in Hin; simpl in Hin.
    apply in_map_iff in Hin as (m' & E & Hm). inversion E; subst s' wt' m'.
    apply (proj1 (natsorted_In _ _)) in Hit.
    apply (proj1 (collected_items _ _ _ _ _ _ _ Hc)) in Hit.
    apply (proj1 (muts_sorted_at_In _ _ _ _ _ _ _ Hc)) in Hm.
    destruct (col_muts _ _ _ _ _ Hc s m Hm) as (sub & wt' & Hsub & Hp).
    destruct (col_subs _ _ _ _ _ Hc sub Hsub) as (w2 & s2 & m2 & Hp2 & Hg & _).
    rewrite Hp in Hp2. inversion Hp2; subst w2 s2 m2.
    exists sub. split; [exact Hsub|]. congruence.
  - intros (sub & Hsub & Hp).
    destruct (col_subs _ _ _ _ _ Hc sub Hsub) as (w2 & s2 & m2 & Hp2 & Hg & Hm).
    rewrite Hp in Hp2. inversion Hp2; subst w2 s2 m2.
    exists (s, wt). split.
    + apply natsorted_In. apply (collected_items _ _ _ _ _ _ _ Hc). exact Hg.
    + unfold site_entries; simpl. apply in_map_iff. exists m. split; [reflexivity|].
      apply (muts_sorted_at_In _ _ _ _ _ _ _ Hc). exact Hm.
Qed.

Lemma observed_good (alphabet0 : list ascii) (sas : bool)
    (subs : list string) (wts : wts_dict) (muts : muts_dict) :
  collected alphabet0 sas subs wts muts ->
  good_entries alphabet0 sas (observed_entries alphabet0 wts muts)
  /\ forall t, In t (observed_entries alphabet0 wts muts) ->
               is_wt_entry t = false.
Proof.
  intros Hc. split; intros [[s wt] m] Hin;
    apply (observed_entry_iff _ _ _ _ _ _ _ _ Hc) in Hin as (sub & _ & Hp);
    apply parse_OK_good in Hp as (Hg & H1 & H2 & Hne).
  - unfold entry_site, entry_wt, entry_mut; simpl. auto.
  - unfold is_wt_entry, entry_wt, entry_mut; simpl. apply Ascii.eqb_neq. exact Hne.
Qed.

Lemma observed_wt_indices_ok (ts : list entry) :
  (forall t, In t ts -> is_wt_entry t = false) -> wt_indices_ok ts [].
Proof.
  intros H. split; [constructor|]. split.
  - intros s i E; discriminate.
  - intros i s wt Hn. apply nth_error_In in Hn. apply H in Hn.
    unfold is_wt_entry, entry_wt, entry_mut in Hn; simpl in Hn.
    rewrite Ascii.eqb_refl in Hn. discriminate.
Qed.

Lemma StronglySorted_strict_fst {A B : Type} (R : A -> A -> Prop)
    (l : list (A * B)) :
  StronglySorted (fun a b => R (fst a) (fst b)) l -> NoDup (map fst l) ->
  StronglySorted (fun a b => R (fst a) (fst b) /\ fst a <> fst b) l.
Proof.
  induction 1 as [|x l Hs IH Hall]; simpl; intros Hnd; constructor;
    inversion Hnd as [|? ? Hx Hnd']; subst; auto.
  rewrite Forall_forall in *. intros y Hy. split; auto.
  intros E. apply Hx. rewrite E. apply in_map. exact Hy.
Qed.

Lemma observed_sorted (alphabet0 : list ascii) (sas : bool)
    (subs : list string) (wts : wts_dict) (muts : muts_dict) :
  collected alphabet0 sas subs wts muts ->
  StronglySorted (entry_before alphabet0) (observed_entries alphabet0 wts muts).
Proof.
  intros Hc. unfold observed_entries.
  apply (StronglySorted_flat_map
           (fun a b : site * ascii => site_le (fst a) (fst b) /\ fst a <> fst b)).
  - apply StronglySorted_strict_fst.
    + apply natsorted_sorted.
    + apply (Permutation_NoDup (l := PyDict.keys wts)).
      * symmetry. apply Permutation_map. apply sorted_perm.
      * apply (col_keys _ _ _ _ _ Hc).
  - intros [s wt] _. unfold site_entries; simpl.
    apply StronglySorted_map.
    pose proof (collected_sorted_muts _ _ _ _ _ s Hc) as E.
    apply sorted_muts_spec in E as [_ Hs].
    eapply StronglySorted_weaken; [| apply Hs, (col_nodup _ _ _ _ _ Hc)].
    intros a b _ _ Hab. split; [apply site_le_refl | intros _; exact Hab].
  - intros [s1 w1] [s2 w2] a b [Hle Hne] Ha Hb. unfold site_entries in *.
    simpl in *. apply in_map_iff in Ha as (m1 & <- & _), Hb as (m2 & <- & _).
    split; [exact Hle | intros E; simpl in E; contradiction].
Qed.


Lemma NoDup_map_on {A B : Type} (f : A -> B) (l : list A) :
  (forall x y, In x l -> In y l -> f x = f y -> x = y) ->
  NoDup l -> NoDup (map f l).
Proof.
  induction l as [|a l IH]; simpl; intros Hinj Hnd; [constructor|].
  inversion Hnd as [|? ? Ha Hnd']; subst. constructor.
  - intros Hin. apply in_map_iff in Hin as (x & E & Hx).
    apply Ha. rewrite <- (Hinj x a); auto.
  - apply IH; auto.
Qed.

Lemma entry_sub_inj (alphabet0 : list ascii) (sas : bool) (ts : list entry)
    (t u : entry) :
  good_entries alphabet0 sas ts -> In t ts -> In u ts ->
  entry_sub t = entry_sub u -> t = u.
Proof.
  intros Hg Ht Hu E.
  destruct (Hg t Ht) as (Gt & _), (Hg u Hu) as (Gu & _).
  destruct t as [[s wt] m], u as [[s' wt'] m'].
  unfold entry_sub, entry_wt, entry_site, entry_mut in *; cbn [fst snd] in *.
  apply (sub_string_inj sas) in E as (-> & -> & ->); auto.
Qed.

Lemma pos_lt_irrefl (alphabet0 : list ascii) (c : ascii) : ~ pos_lt alphabet0 c c.
Proof. intros (ka & kb & Ha & Hb & Hlt). rewrite Ha in Hb. inversion Hb. lia. Qed.

Lemma observed_NoDup (alphabet0 : list ascii) (sas : bool)
    (subs : list string) (wts : wts_dict) (muts : muts_dict) :
  collected alphabet0 sas subs wts muts ->
  NoDup (map entry_sub (observed_entries alphabet0 wts muts)).
Proof.
  intros Hc. apply NoDup_map_on.
  - intros t u. apply (entry_sub_inj alphabet0 sas).
    apply (observed_good _ _ _ _ _ Hc).
  - apply (StronglySorted_NoDup (entry_before alphabet0)).
    + intros t [_ H]. apply (pos_lt_irrefl alphabet0 (entry_mut t)). auto.
    + apply (observed_sorted _ _ _ _ _ Hc).
Qed.

(** *** The entries of the expansion *)

Lemma enumerate1_In (w : list ascii) (s : site) (wt : ascii) :
  In (s, wt) (enumerate1 w) <->
  exists k, s = IntSite (Z.of_nat (S k)) /\ nth_error w k = Some wt.
Proof.
  unfold enumerate1.
  assert (G : forall a, In (s, wt) (combine (map (fun k => IntSite (Z.of_nat k))
                                                (seq a (List.length w))) w)
                        <-> exists k, s = IntSite (Z.of_nat (a + k))
                                      /\ nth_error w k = Some wt).
  { induction w as [|c w IH]; intros a; simpl.
    - split; [tauto | intros ([|k] & _ & H); discriminate].
    - rewrite IH. split.
      + intros [E | (k & -> & Hk)].
        * inversion E; subst. exists 0. rewrite Nat.add_0_r. auto.
        * exists (S k). split; [f_equal; f_equal; lia | exact Hk].
      + intros ([|k] & -> & Hk); simpl in Hk.
        * left. inversion Hk; subst. rewrite Nat.add_0_r. reflexivity.
        * right. exists k. split; [f_equal; f_equal; lia | exact Hk]. }
  apply (G 1).
Qed.

Lemma expand_entry_iff (alphabet0 w : list ascii) (s : site) (wt c : ascii) :
  In (s, wt, c) (expand_entries alphabet0 w) <->
  (exists k, s = IntSite (Z.of_nat (S k)) /\ nth_error w k = Some wt)
  /\ In c alphabet0.
Proof.
  unfold expand_entries. rewrite in_flat_map. split.
  - intros ([s' wt'] & Hit & Hin). unfold site_entries in Hin; simpl in Hin.
    apply in_map_iff in Hin as (c' & E & Hc). inversion E; subst.
    split; [apply enumerate1_In; exact Hit | exact Hc].
  - intros [Hit Hc]. exists (s, wt). split; [apply enumerate1_In; exact Hit|].
    unfold site_entries; simpl. apply in_map_iff. eauto.
Qed.

Lemma expand_good (alphabet0 w : list ascii) :
  (forall c, In c w -> In c alphabet0) ->
  good_entries alphabet0 false (expand_entries alphabet0 w).
Proof.
  intros Hw [[s wt] c] Hin. apply expand_entry_iff in Hin as [(k & -> & Hk) Hc].
  unfold entry_site, entry_wt, entry_mut; simpl.
  split; [apply good_site_int|]. split; [|exact Hc].
  apply Hw. eapply nth_error_In; eauto.
Qed.

Lemma length_expand_entries (alphabet0 w : list ascii) :
  List.length (expand_entries alphabet0 w)
  = List.length w * List.length alphabet0.
Proof.
  unfold expand_entries, enumerate1. generalize 1.
  induction w as [|c w IH]; intros a; simpl; [reflexivity|].
  rewrite length_app, IH. unfold site_entries; simpl.
  rewrite length_map. reflexivity.
Qed.

(** ** The construction, inverted *)

Section InitInversion.
Context {SO : SetOrder}.

Lemma init_observed_inv (substitutions : list string) (alphabet0 : list ascii)
    (allowed : option (list string)) (sas : bool) (wtseq : option string)
    (bm : BinaryMap) :
  init substitutions alphabet0 allowed sas false wtseq = OK bm ->
  check_alphabet alphabet0 = OK tt /\ wtseq = None
  /\ exists subs wts muts,
       subs_in_variants substitutions allowed = OK subs
       /\ collected alphabet0 sas subs wts muts
       /\ built substitutions alphabet0 sas
            (observed_entries alphabet0 wts muts) bm
       /\ _wt_indices bm = [].
Proof.
  unfold init. intros H. inv_bind H. destruct a.
  inv_bind H. inv_bind H. destruct a0 as [wts muts]. inv_bind H.
  assert (Hc : collected alphabet0 sas a wts muts).
  { apply (collect_loop _ _ a [] [] wts [] muts); [apply collected_nil | exact Hr1]. }
  unfold assign_observed in Hr2. destruct wtseq; [discriminate|].
  change empty_registry with (registry_of [] []) in Hr2.
  apply observed_sites_loop in Hr2 as [-> _]. simpl app in H.
  destruct (observed_good _ _ _ _ _ Hc) as [Hg Hnw].
  apply finish_OK in H as [Hb Hwi]; auto using observed_wt_indices_ok.
  repeat split; auto. exists a, wts, muts. auto.
Qed.

Lemma init_expand_inv (substitutions : list string) (alphabet0 : list ascii)
    (allowed : option (list string)) (sas : bool) (wtseq : option string)
    (bm : BinaryMap) :
  init substitutions alphabet0 allowed sas true wtseq = OK bm ->
  check_alphabet alphabet0 = OK tt /\ sas = false /\ allowed = None
  /\ exists w, wtseq = Some w
       /\ (forall c, In c (list_ascii_of_string w) -> In c alphabet0)
       /\ built substitutions alphabet0 false
            (expand_entries alphabet0 (list_ascii_of_string w)) bm.
Proof.
  unfold init. intros H. inv_bind H. destruct a.
  inv_bind H. inv_bind H. destruct a0 as [wts muts]. inv_bind H.
  unfold assign_expand in Hr2.
  destruct sas; [discriminate|]. destruct allowed; [discriminate|].
  destruct wtseq as [w|]; [|discriminate].
  destruct (forallb (fun c => char_in c alphabet0) (list_ascii_of_string w)) eqn:Hsub;
    [|discriminate].
  simpl negb in Hr2. cbv iota in Hr2.
  destruct (map site_int (PyDict.keys wts)) as [|k ks]; [discriminate|].
  destruct (fold_right Z.min k ks <? 1)%Z; [discriminate|].
  destruct (Z.of_nat (List.length (list_ascii_of_string w)) <? fold_right Z.max k ks)%Z;
    [discriminate|].
  inv_bind Hr2.
  change empty_registry with (registry_of [] []) in Hr2.
  apply expand_sites_loop in Hr2 as (wi & -> & Hok). simpl app in *.
  assert (Hw : forall c, In c (list_ascii_of_string w) -> In c alphabet0).
  { intros c Hc. rewrite forallb_forall in Hsub. apply char_in_In. auto. }
  apply finish_OK in H as [Hb Hwi];
    [| apply expand_good; exact Hw | apply Hok, wt_indices_ok_nil].
  repeat split; auto. exists w. auto.
Qed.
End InitInversion.


Section InitBuilt.
Context {SO : SetOrder}.

(** In either mode a constructed object holds a list of entries. *)
Lemma init_built (substitutions : list string) (alphabet0 : list ascii)
    (allowed : option (list string)) (sas expand : bool)
    (wtseq : option string) (bm : BinaryMap) :
  init substitutions alphabet0 allowed sas expand wtseq = OK bm ->
  exists ts, built substitutions alphabet0 sas ts bm.
Proof.
  destruct expand; intros H.
  - apply init_expand_inv in H as (_ & -> & _ & w & _ & _ & Hb). eauto.
  - apply init_observed_inv in H as (_ & _ & subs & wts & muts & _ & _ & Hb & _).
    eauto.
Qed.

Lemma set_iter_nil : set_iter [] = [].
Proof.
  destruct (set_iter []) as [|x l] eqn:E; [reflexivity|].
  exfalso. apply (proj1 (set_iter_In [] x)). rewrite E. simpl; auto.
Qed.
End InitBuilt.

(** The order of the entries read at two indices. *)
Lemma entry_before_trans_lt (alphabet0 : list ascii) (ts : list entry)
    (i j : nat) (t u : entry) :
  StronglySorted (entry_before alphabet0) ts ->
  i < j -> nth_error ts i = Some t -> nth_error ts j = Some u ->
  entry_before alphabet0 t u.
Proof. intros Hs. apply (StronglySorted_nth _ ts Hs). Qed.

Lemma site_lt_irrefl (s : site) : ~ site_lt s s.
Proof.
  unfold site_lt. rewrite (proj2 (key_compare_eq _ _) eq_refl). discriminate.
Qed.

Lemma site_lt_not_le (a b : site) : site_lt a b -> ~ site_le b a.
Proof.
  unfold site_lt, site_le, key_leb. intros H.
  rewrite (key_compare_antisym (site_key a) (site_key b)), H. simpl. discriminate.
Qed.

Lemma site_le_cases (a b : site) :
  site_le a b ->
  site_lt a b \/ key_compare (site_key a) (site_key b) = Eq.
Proof.
  unfold site_le, site_lt, key_leb.
  destruct (key_compare (site_key a) (site_key b)); auto; discriminate.
Qed.

Lemma pos_lt_asym (alphabet0 : list ascii) (a b : ascii) :
  pos_lt alphabet0 a b -> ~ pos_lt alphabet0 b a.
Proof.
  intros (ka & kb & Ha & Hb & Hlt) (kb' & ka' & Hb' & Ha' & Hlt').
  rewrite Ha in Ha'. rewrite Hb in Hb'. inversion Ha'; inversion Hb'. lia.
Qed.

(** The natural order on two examples of the specification. *)
Lemma natsort_examples :
  site_lt (StrSite "9") (StrSite "10a") /\ site_lt (StrSite "10a") (StrSite "10b").
Proof. split; reflexivity. Qed.


(** ** The exceptions of the construction *)

Lemma foldM_Err {A S : Type} (P : exn -> Prop) (f : S -> A -> result S)
    (l : list A) :
  (forall s a e, In a l -> f s a = Err e -> P e) ->
  forall s e, foldM f l s = Err e -> P e.
Proof.
  induction l as [|a l IH]; simpl; intros Hstep s e H; [discriminate|].
  apply bind_Err in H as [H | (s' & _ & H)].
  - apply (Hstep s a); auto.
  - apply (IH (fun s0 a0 e0 Hin => Hstep s0 a0 e0 (or_intror Hin)) s'); auto.
Qed.


Lemma check_alphabet_Err (alphabet0 : list ascii) (e : exn) :
  check_alphabet alphabet0 = Err e -> is_ValueError e.
Proof.
  induction alphabet0 as [|c l IH]; simpl; [discriminate|].
  destruct (isalpha c || Ascii.eqb c "*" || Ascii.eqb c "-"); [exact IH|].
  intros H; inversion H. eexists; reflexivity.
Qed.

Lemma collect_step_Err (alphabet0 : list ascii) (sas : bool)
    (st : wts_dict * muts_dict) (sub : string) (e : exn) :
  collect_step alphabet0 sas st sub = Err e -> is_ValueError e.
Proof.
  destruct st as [wts muts]. unfold collect_step.
  destruct (parse_cases alphabet0 sas sub) as [E | [E | ([[wt s] mut] & E)]];
    rewrite E; simpl; try (intros H; inversion H; eexists; reflexivity).
  destruct (PyDict.get site_eqb wts s) as [wt0|]; simpl; [|discriminate].
  destruct (Ascii.eqb wt wt0); simpl; [discriminate|].
  intros H; inversion H. eexists; reflexivity.
Qed.

Lemma sub_str_to_indices_Err (bm : BinaryMap) (sub_str : string) (e : exn) :
  sub_str_to_indices bm sub_str = Err e -> is_ValueError e.
Proof.
  unfold sub_str_to_indices. intros H.
  apply bind_Err in H as [H | ([sites idx] & _ & H)]; [|discriminate].
  apply indices_loop_Err in H. exact H.
Qed.

(** *** The expansion raises no [AssertionError] on an alphabet without
    repetition *)




Lemma expand_chars_loop_OK (s : site) (wt : ascii) (cs pre : list ascii)
    (ts0 : list entry) (wi : PyDict.t) :
  NoDup (pre ++ cs) ->
  wt_indices_ok (ts0 ++ map (fun c => (s, wt, c)) pre) wi ->
  (forall t, In t ts0 -> entry_site t <> s) ->
  exists r,
    foldM (expand_char_step s wt) cs
      (registry_of (ts0 ++ map (fun c => (s, wt, c)) pre) wi) = OK r.
Proof.
  revert pre wi; induction cs as [|c cs IH]; intros pre wi Hnd Hok Hsite;
    cbn [foldM]; [eauto|].
  unfold expand_char_step at 1.
  set (ts := ts0 ++ map (fun c => (s, wt, c)) pre) in *.
  assert (Hnd' : NoDup ((pre ++ [c]) ++ cs))
    by (rewrite <- app_assoc; exact Hnd).
  assert (Ets : ts ++ [(s, wt, c)] = ts0 ++ map (fun c => (s, wt, c)) (pre ++ [c])).
  { unfold ts. rewrite map_app, app_assoc. reflexivity. }
  destruct (Ascii.eqb_spec c wt) as [->|Hne].
  - assert (Hc : PyDict.contains site_eqb wi s = false).
    { destruct (PyDict.contains site_eqb wi s) eqn:Hc; [|reflexivity]. exfalso.
      unfold PyDict.contains in Hc.
      destruct (PyDict.get site_eqb wi s) as [i|] eqn:Hg; [|discriminate].
      destruct Hok as (_ & Ha & _). destruct (Ha s i Hg) as (w' & Hn).
      apply nth_error_In in Hn. unfold ts in Hn.
      apply in_app_or in Hn as [Hn|Hn].
      - apply (Hsite _ Hn). reflexivity.
      - apply in_map_iff in Hn as (c' & E & Hin). inversion E; subst.
        apply NoDup_remove_2 in Hnd. apply Hnd. apply in_or_app; auto. }
    change (r_wt_indices (assign_index s (sub_string wt s wt) (registry_of ts wi)))
      with wi.
    rewrite Hc. cbn [bind].
    replace (incr_i (set_wt_index s (assign_index s (sub_string wt s wt) (registry_of ts wi))))
      with (registry_of (ts ++ [(s, wt, wt)])
              (PyDict.set site_eqb wi s (List.length ts)))
      by (rewrite <- registry_of_snoc; reflexivity).
    rewrite Ets. apply IH; auto.
    rewrite <- Ets. apply wt_indices_ok_snoc_wt; auto.
  - cbn [bind]. rewrite registry_of_snoc, Ets. apply IH; auto.
    rewrite <- Ets. apply wt_indices_ok_snoc_other; auto.
Qed.

Lemma expand_sites_loop_OK (alphabet0 : list ascii) (wts : wts_dict)
    (items : list (site * ascii)) (ts : list entry) (wi : PyDict.t) :
  NoDup alphabet0 -> NoDup (map fst items) ->
  (forall t it, In t ts -> In it items -> entry_site t <> fst it) ->
  (forall s wt wt0, In (s, wt) items -> PyDict.get site_eqb wts s = Some wt0 ->
                    wt0 = wt) ->
  wt_indices_ok ts wi ->
  exists r,
    foldM (expand_site_step alphabet0 wts) items (registry_of ts wi) = OK r.
Proof.
  intros HA. revert ts wi; induction items as [|[s wt] items IH];
    intros ts wi Hnd Hsite Hwts Hok; cbn [foldM]; [eauto|].
  inversion Hnd as [|? ? Hs Hnd']; subst.
  assert (Estep : expand_site_step alphabet0 wts (registry_of ts wi) (s, wt)
                  = foldM (expand_char_step s wt) alphabet0 (registry_of ts wi)).
  { unfold expand_site_step.
    destruct (PyDict.get site_eqb wts s) as [wt0|] eqn:G; [|reflexivity].
    rewrite (Hwts s wt wt0) by (simpl; auto). rewrite Ascii.eqb_refl. reflexivity. }
  rewrite Estep.
  destruct (expand_chars_loop_OK s wt alphabet0 [] ts wi) as (r & Er).
  - exact HA.
  - simpl. rewrite app_nil_r. exact Hok.
  - intros t Ht. apply (Hsite t (s, wt)); simpl; auto.
  - simpl in Er. rewrite app_nil_r in Er. rewrite Er. cbn [bind].
    apply expand_chars_loop in Er as (wi' & -> & Hok').
    apply IH; auto.
    + intros t it Ht Hit. apply in_app_or in Ht as [Ht|Ht].
      * apply (Hsite t it); simpl; auto.
      * apply in_map_iff in Ht as (c & <- & _). unfold entry_site; simpl.
        intros E. apply Hs. rewrite E. apply in_map. exact Hit.
    + intros s0 w0 w1 Hin. apply Hwts. simpl; auto.
Qed.

Lemma NoDup_flat_map_disjoint {A B : Type} (g : A -> list B) (l : list A) :
  NoDup l -> (forall x, In x l -> NoDup (g x)) ->
  (forall x y b, In x l -> In y l -> In b (g x) -> In b (g y) -> x = y) ->
  NoDup (flat_map g l).
Proof.
  induction l as [|a l IH]; simpl; intros Hnd Hg Hdis; [constructor|].
  inversion Hnd as [|? ? Ha Hnd']; subst.
  apply NoDup_app.
  - apply Hg; auto.
  - apply IH; auto. intros x y b Hx Hy. apply Hdis; auto.
  - intros b Hb Hb'. apply in_flat_map in Hb' as (y & Hy & Hby).
    apply Ha. rewrite (Hdis a y b); auto.
Qed.

Lemma map_fst_enumerate1 (w : list ascii) :
  map fst (enumerate1 w)
  = map (fun k => IntSite (Z.of_nat k)) (seq 1 (List.length w)).
Proof.
  unfold enumerate1. generalize 1.
  induction w as [|c w IH]; intros a; simpl; [reflexivity|].
  rewrite IH. reflexivity.
Qed.

Lemma enumerate1_NoDup (w : list ascii) : NoDup (map fst (enumerate1 w)).
Proof.
  rewrite map_fst_enumerate1. apply NoDup_map_on; [|apply seq_NoDup].
  intros x y _ _ E. inversion E. lia.
Qed.

Lemma expand_NoDup (alphabet0 w : list ascii) :
  NoDup alphabet0 -> (forall c, In c w -> In c alphabet0) ->
  NoDup (map entry_sub (expand_entries alphabet0 w)).
Proof.
  intros HA Hw. apply NoDup_map_on.
  - intros t u. apply (entry_sub_inj alphabet0 false). apply expand_good, Hw.
  - unfold expand_entries. apply NoDup_flat_map_disjoint.
    + apply (NoDup_map_inv fst). apply enumerate1_NoDup.
    + intros [s wt] _. unfold site_entries; simpl.
      apply NoDup_map_on; [|exact HA]. intros x y _ _ E. inversion E; reflexivity.
    + intros [s1 w1] [s2 w2] b H1 H2 Hb1 Hb2. unfold site_entries in *.
      simpl in *. apply in_map_iff in Hb1 as (c1 & <- & _), Hb2 as (c2 & E & _).
      inversion E; subst.
      apply enumerate1_In in H1 as (k1 & E1 & N1), H2 as (k2 & E2 & N2).
      rewrite E1 in E2. inversion E2.
      assert (k1 = k2) by lia. subst. congruence.
Qed.



Section InitExceptions.
Context {SO : SetOrder}.

End InitExceptions.


(** ** Decoding *)

Lemma flatnonzero_from_In (b : list Z) (a i : nat) :
  In i (flatnonzero_from a b) <-> a <= i /\ active b (i - a).
Proof.
  unfold active. revert a; induction b as [|v b IH]; intros a; simpl.
  - split; [tauto|]. intros (_ & w & H & _). destruct (i - a); discriminate.
  - assert (Hrest : In i (flatnonzero_from (S a) b)
                    <-> S a <= i /\ exists w, nth_error b (i - S a) = Some w /\ w <> 0%Z)
      by apply IH.
    destruct (Z.eqb_spec v 0) as [->|Hv]; simpl; rewrite Hrest; split.
    + intros (Hle & w & Hn & Hw). split; [lia|].
      replace (i - a) with (S (i - S a)) by lia.
      exists w. split; assumption.
    + intros (Hle & w & Hn & Hw). destruct (i - a) as [|k] eqn:E.
      * simpl in Hn. exfalso. apply Hw. congruence.
      * simpl in Hn. split; [lia|]. replace (i - S a) with k by lia. eauto.
    + intros [<- | (Hle & w & Hn & Hw)].
      * split; [lia|]. rewrite Nat.sub_diag.
        exists v. split; [reflexivity | assumption].
      * split; [lia|]. replace (i - a) with (S (i - S a)) by lia.
        exists w. split; assumption.
    + intros (Hle & w & Hn & Hw). destruct (i - a) as [|k] eqn:E.
      * left; lia.
      * simpl in Hn. right. split; [lia|]. replace (i - S a) with k by lia. eauto.
Qed.

Lemma flatnonzero_In (b : list Z) (i : nat) : In i (flatnonzero b) <-> active b i.
Proof.
  unfold flatnonzero. rewrite flatnonzero_from_In, Nat.sub_0_r.
  split; [tauto | intros; split; [lia | assumption]].
Qed.

Lemma flatnonzero_from_sorted (b : list Z) (a : nat) :
  StronglySorted lt (flatnonzero_from a b).
Proof.
  revert a; induction b as [|v b IH]; intros a; simpl; [constructor|].
  destruct (Z.eqb v 0); [apply IH|].
  constructor; [apply IH|]. apply Forall_forall. intros i Hi.
  apply flatnonzero_from_In in Hi. lia.
Qed.

Lemma flatnonzero_sorted (b : list Z) : StronglySorted lt (flatnonzero b).
Proof. apply flatnonzero_from_sorted. Qed.

Lemma flatnonzero_lt (b : list Z) (i : nat) :
  In i (flatnonzero b) -> i < List.length b.
Proof.
  intros H. apply flatnonzero_In in H as (v & Hn & _).
  apply nth_error_Some. congruence.
Qed.

(** [len(l) == len(set(l))] tells that [l] has no repetition. *)
Lemma distinct_In (l : list site) (x : site) :
  In x (distinct site_eqb l) <-> In x l.
Proof.
  induction l as [|y l IH]; simpl; [tauto|].
  destruct (mem site_eqb y l) eqn:M.
  - apply (mem_In site_eqb _ _ site_eqb_spec) in M. rewrite IH.
    split; [auto | intros [<-|H]; auto].
  - simpl. rewrite IH. tauto.
Qed.

Lemma distinct_length_le (l : list site) :
  List.length (distinct site_eqb l) <= List.length l.
Proof.
  induction l as [|y l IH]; simpl; [lia|].
  destruct (mem site_eqb y l); simpl; lia.
Qed.

Lemma distinct_length (l : list site) :
  List.length (distinct site_eqb l) = List.length l <-> NoDup l.
Proof.
  induction l as [|y l IH]; simpl.
  - split; [constructor | reflexivity].
  - pose proof (distinct_length_le l) as Hle.
    destruct (mem site_eqb y l) eqn:M.
    + apply (mem_In site_eqb _ _ site_eqb_spec) in M. split; [lia|].
      intros H; inversion H; contradiction.
    + apply (mem_false site_eqb _ _ site_eqb_spec) in M. simpl. split.
      * intros H. constructor; [exact M | apply IH; lia].
      * intros H. inversion H; subst. f_equal. apply IH. assumption.
Qed.

(** A list with a repetition has two positions with the same element. *)
Lemma not_NoDup_positions (l : list site) :
  ~ NoDup l ->
  exists p q x, p < q /\ nth_error l p = Some x /\ nth_error l q = Some x.
Proof.
  induction l as [|y l IH]; intros H; [exfalso; apply H; constructor|].
  destruct (mem site_eqb y l) eqn:M.
  - apply (mem_In site_eqb _ _ site_eqb_spec) in M.
    apply In_nth_error in M as (q & Hq).
    exists 0, (S q), y. simpl. repeat split; auto; lia.
  - apply (mem_false site_eqb _ _ site_eqb_spec) in M.
    destruct IH as (p & q & x & Hpq & Hp & Hq).
    + intros Hnd. apply H. constructor; assumption.
    + exists (S p), (S q), x. simpl. repeat split; auto; lia.
Qed.

Lemma NoDup_positions (l : list site) (p q : nat) (x : site) :
  NoDup l -> p < q -> nth_error l p = Some x -> nth_error l q = Some x -> False.
Proof.
  intros Hnd Hpq Hp Hq.
  assert (p = q); [|lia].
  apply (proj1 (NoDup_nth_error l) Hnd).
  - apply nth_error_Some. congruence.
  - congruence.
Qed.

Section Decode.
Variables (bm : BinaryMap) (ts : list entry).
Hypothesis Hreg : registry_holds bm ts.

Lemma i_to_sub_sub_at (i : nat) :
  i < List.length ts -> i_to_sub bm i = OK (sub_at ts i).
Proof.
  intros Hlt. unfold sub_at.
  destruct (nth_error ts i) as [t|] eqn:Hn;
    [|apply nth_error_None in Hn; lia].
  apply (i_to_sub_entry bm ts Hreg i t Hn).
Qed.

Lemma filter_sub_at (l : list nat) :
  filter (fun s => negb (is_empty s)) (map (sub_at ts) l)
  = map entry_sub (mutant_entries ts l).
Proof.
  unfold mutant_entries.
  induction l as [|i l IH]; simpl; [reflexivity|].
  rewrite map_app, <- IH.
  destruct (nth_error ts i) as [t|] eqn:Hn.
  - destruct (is_wt_entry t) eqn:Hw.
    + replace (sub_at ts i) with EmptyString
        by (unfold sub_at; rewrite Hn, Hw; reflexivity).
      reflexivity.
    + replace (sub_at ts i) with (entry_sub t)
        by (unfold sub_at; rewrite Hn, Hw; reflexivity).
      reflexivity.
  - replace (sub_at ts i) with EmptyString
      by (unfold sub_at; rewrite Hn; reflexivity).
    reflexivity.
Qed.

Lemma active_entries_In (b : list Z) (t : entry) :
  In t (active_entries ts b) -> In t ts /\ is_wt_entry t = false.
Proof.
  unfold active_entries, mutant_entries. rewrite in_flat_map. intros (i & _ & H).
  destruct (nth_error ts i) as [u|] eqn:Hn; [|destruct H].
  destruct (is_wt_entry u) eqn:Hw; [destruct H|].
  destruct H as [<-|[]]. split; [eapply nth_error_In; eauto | exact Hw].
Qed.

(** [binary_to_sub_str] on a vector of the right length over 0 and 1. *)
Lemma decode_spec (b : list Z) :
  List.length b = binarylength bm -> forallb is_0_or_1 b = true ->
  binary_to_sub_str bm b
  = if List.length (map entry_site (active_entries ts b))
       =? List.length (distinct site_eqb (map entry_site (active_entries ts b)))
    then OK (join (map entry_sub (active_entries ts b)))
    else raise (MsgBinaryMultipleSubs (join (map entry_sub (active_entries ts b)))).
Proof.
  intros Hlen H01. unfold binary_to_sub_str.
  rewrite Hlen, Nat.eqb_refl, H01. simpl negb. cbv iota.
  assert (E1 : mapM (i_to_sub bm) (flatnonzero b) = OK (map (sub_at ts) (flatnonzero b))).
  { apply mapM_total. intros i Hi. apply i_to_sub_sub_at.
    apply flatnonzero_lt in Hi. rewrite <- (rh_length _ _ Hreg). lia. }
  rewrite E1. cbn [bind]. rewrite filter_sub_at. fold (active_entries ts b).
  assert (E2 : mapM (fun sub =>
                       '(_, s, _) <- _parse_sub_str (alphabet bm)
                                       (sites_as_str bm) sub ;; OK s)
                 (map entry_sub (active_entries ts b))
               = OK (map entry_site (active_entries ts b))).
  { rewrite mapM_map. apply mapM_total. intros t Ht.
    apply active_entries_In in Ht as [Ht Hw].
    rewrite (parse_entry bm ts Hreg t Ht Hw). reflexivity. }
  rewrite E2. cbn [bind].
  destruct (List.length (map entry_site (active_entries ts b))
            =? List.length (distinct site_eqb (map entry_site (active_entries ts b))));
    reflexivity.
Qed.
End Decode.

(** *** Two active indices at one site *)

Section Conflicts.
Variables (bm : BinaryMap) (ts : list entry).
Hypothesis Hreg : registry_holds bm ts.

Lemma mutant_entries_In (l : list nat) (t : entry) :
  In t (mutant_entries ts l) <->
  exists i, In i l /\ nth_error ts i = Some t /\ is_wt_entry t = false.
Proof.
  unfold mutant_entries. rewrite in_flat_map. split.
  - intros (i & Hi & H). exists i. split; [exact Hi|].
    destruct (nth_error ts i) as [u|]; [|destruct H].
    destruct (is_wt_entry u) eqn:Hw; [destruct H|].
    destruct H as [<-|[]]. auto.
  - intros (i & Hi & Hn & Hw). exists i. split; [exact Hi|].
    rewrite Hn, Hw. simpl; auto.
Qed.


Lemma NoDup_map_In_inj {A B : Type} (f : A -> B) (l : list A) (x y : A) :
  NoDup (map f l) -> In x l -> In y l -> f x = f y -> x = y.
Proof.
  induction l as [|a l IH]; simpl; intros Hnd Hx Hy E; [tauto|].
  inversion Hnd as [|? ? Ha Hnd']; subst.
  destruct Hx as [<-|Hx], Hy as [<-|Hy]; auto.
  - exfalso. apply Ha. rewrite E. apply in_map. exact Hy.
  - exfalso. apply Ha. rewrite <- E. apply in_map. exact Hx.
Qed.


End Conflicts.


(** ** Lists in a strict order *)

(** Two lists in the same strict order with the same elements are equal. *)
Lemma sorted_unique {A : Type} (R : A -> A -> Prop) (l1 l2 : list A) :
  (forall a b, In a l1 -> In b l1 -> R a b -> R b a -> False) ->
  StronglySorted R l1 -> StronglySorted R l2 ->
  (forall x, In x l1 <-> In x l2) -> l1 = l2.
Proof.
  intros Hasym H1. revert l2 Hasym.
  induction H1 as [|a l1 Hs1 IH Hall1]; intros l2 Hasym H2 Heq.
  - destruct l2 as [|b l2]; [reflexivity|].
    exfalso. apply (proj2 (Heq b)). simpl; auto.
  - destruct H2 as [|b l2 Hs2 Hall2].
    + exfalso. apply (proj1 (Heq a)). simpl; auto.
    + rewrite Forall_forall in Hall1, Hall2.
      assert (Hirr : forall x, In x (a :: l1) -> ~ R x x)
        by (intros x Hx Hr; apply (Hasym x x); auto).
      assert (Eab : a = b).
      { destruct (proj1 (Heq a) (or_introl eq_refl)) as [E|Hin]; [auto|].
        destruct (proj2 (Heq b) (or_introl eq_refl)) as [E|Hin']; [auto|].
        exfalso. apply (Hasym a b); simpl; auto. }
      subst b. f_equal. apply IH; auto.
      * intros x y Hx Hy. apply Hasym; simpl; auto.
      * intros x. split; intros Hx.
        -- destruct (proj1 (Heq x) (or_intror Hx)) as [E|Hin]; [|exact Hin].
           subst x. exfalso. apply (Hirr a); simpl; auto.
        -- destruct (proj2 (Heq x) (or_intror Hx)) as [E|Hin]; [|exact Hin].
           subst x. exfalso. apply (Hirr a); simpl; auto.
Qed.

Lemma sorted_unique_nat (l1 l2 : list nat) :
  StronglySorted lt l1 -> StronglySorted lt l2 ->
  (forall x, In x l1 <-> In x l2) -> l1 = l2.
Proof. apply sorted_unique. intros; lia. Qed.

(** A sort of a list without repeated key is in strict order. *)
Lemma sorted_strict {A : Type} (key : A -> nat) (l : list A) :
  NoDup (map key l) ->
  StronglySorted (fun a b => key a < key b) (sorted key Nat.leb l).
Proof.
  intros Hnd.
  assert (Hnd' : NoDup (map key (sorted key Nat.leb l))).
  { apply (Permutation_NoDup (l := map key l)); [|exact Hnd].
    symmetry. apply Permutation_map, sorted_perm. }
  pose proof (sorted_sorted key Nat.leb nat_leb_total nat_leb_trans l) as Hs.
  revert Hs Hnd'. generalize (sorted key Nat.leb l). intros l'.
  induction 1 as [|a l0 Hs IH Hall]; intros Hnd'; constructor.
  - apply IH. inversion Hnd'; assumption.
  - simpl in Hnd'. inversion Hnd' as [|? ? Ha _]; subst.
    rewrite Forall_forall in *. intros b Hb.
    specialize (Hall b Hb). apply Nat.leb_le in Hall.
    destruct (Nat.eq_dec (key a) (key b)) as [E|E]; [|lia].
    exfalso. apply Ha. rewrite E. apply in_map. exact Hb.
Qed.

Lemma sorted_id_strict (l : list nat) :
  NoDup l -> StronglySorted lt (sorted (fun i => i) Nat.leb l).
Proof.
  intros Hnd. apply (sorted_strict (fun i => i)). rewrite map_id. exact Hnd.
Qed.

(** The vector with ones at the indices [l] has these as its nonzero
    positions. *)
Lemma flatnonzero_indicator (l : list nat) (n : nat) :
  StronglySorted lt l -> (forall i, In i l -> i < n) ->
  flatnonzero (map (fun i => if mem Nat.eqb i l then 1%Z else 0%Z) (seq 0 n)) = l.
Proof.
  intros Hs Hlt. apply sorted_unique_nat; [apply flatnonzero_sorted | exact Hs|].
  intros i. rewrite flatnonzero_In. unfold active. rewrite nth_error_map. split.
  - intros (v & Hn & Hv). rewrite nth_error_seq in Hn.
    destruct (Nat.ltb_spec i n); [|discriminate]. simpl in Hn.
    destruct (mem Nat.eqb i l) eqn:M; [|congruence].
    apply (mem_In Nat.eqb _ _ Nat.eqb_spec). exact M.
  - intros Hi. exists 1%Z. split; [|discriminate].
    rewrite nth_error_seq. destruct (Nat.ltb_spec i n) as [_|Hge];
      [|specialize (Hlt i Hi); lia].
    simpl. apply (mem_In Nat.eqb _ _ Nat.eqb_spec) in Hi. rewrite Hi. reflexivity.
Qed.

Lemma indicator_0_or_1 (l : list nat) (n : nat) :
  forallb is_0_or_1
    (map (fun i => if mem Nat.eqb i l then 1%Z else 0%Z) (seq 0 n)) = true.
Proof.
  apply forallb_forall. intros v Hv. apply in_map_iff in Hv as (i & <- & _).
  destruct (mem Nat.eqb i l); reflexivity.
Qed.

Lemma NoDup_map_determined {A B C : Type} (f : A -> B) (g : A -> C)
    (l : list A) :
  NoDup (map f l) ->
  (forall x y, In x l -> In y l -> g x = g y -> f x = f y) ->
  NoDup (map g l).
Proof.
  induction l as [|a l IH]; simpl; intros Hnd Hdet; [constructor|].
  inversion Hnd as [|? ? Ha Hnd']; subst. constructor.
  - intros Hin. apply in_map_iff in Hin as (x & E & Hx).
    apply Ha. rewrite <- (Hdet x a); auto. apply in_map. exact Hx.
  - apply IH; auto.
Qed.

(** ** The indices of a variant *)

Section Encode.
Variables (bm : BinaryMap) (ts : list entry).
Hypothesis Hreg : registry_holds bm ts.

Lemma token_entries (toks : list string) (ps : list (site * nat)) :
  Forall2 (token_at bm) toks ps ->
  exists tents, Forall2 (token_entry_at ts) ps tents /\ map entry_sub tents = toks.
Proof.
  induction 1 as [|tok [s i] toks ps [(wt & m & Hp) Hi] HF IH].
  - exists []. split; constructor.
  - destruct IH as (tents & HF' & E). simpl in Hp, Hi.
    destruct (token_entry bm ts Hreg tok wt m s i Hp Hi) as [Hn Etok].
    exists ((s, wt, m) :: tents). split.
    + constructor; [|exact HF']. unfold token_entry_at; simpl.
      split; [exact Hn|]. split; [reflexivity|].
      apply parse_OK_good in Hp as (_ & _ & _ & Hne).
      unfold is_wt_entry, entry_wt, entry_mut; simpl. apply Ascii.eqb_neq, Hne.
    + simpl. rewrite E, Etok. reflexivity.
Qed.

Lemma token_indices_NoDup (ps : list (site * nat)) (tents : list entry) :
  Forall2 (token_entry_at ts) ps tents -> NoDup (map fst ps) -> NoDup (map snd ps).
Proof.
  intros HF Hnd. apply (NoDup_map_determined fst snd ps Hnd).
  intros p q Hp Hq E.
  destruct (Forall2_In_l _ _ _ _ HF Hp) as (t & _ & Hn & Hs & _).
  destruct (Forall2_In_l _ _ _ _ HF Hq) as (u & _ & Hn' & Hs' & _).
  rewrite E in Hn. congruence.
Qed.

Lemma mutant_entries_tokens (ps : list (site * nat)) (tents : list entry) :
  Forall2 (token_entry_at ts) ps tents -> mutant_entries ts (map snd ps) = tents.
Proof.
  unfold mutant_entries.
  induction 1 as [|p t ps tents (Hn & _ & Hw) HF IH]; simpl; [reflexivity|].
  rewrite Hn, Hw, IH. reflexivity.
Qed.

Lemma unmentioned_wt_In (sites : list site) (i : nat) :
  In i (unmentioned_wt bm sites) <->
  exists s, PyDict.get site_eqb (_wt_indices bm) s = Some i /\ ~ In s sites.
Proof.
  unfold unmentioned_wt, PyDict.items.
  destruct (rh_wt _ _ Hreg) as (Hnd & _).
  rewrite in_map_iff. split.
  - intros ([s j] & E & Hin). simpl in E; subst j.
    apply filter_In in Hin as [Hin M]. simpl in M.
    apply negb_true_iff in M.
    apply (mem_false site_eqb _ _ site_eqb_spec) in M.
    exists s. split; [|exact M].
    apply (PyDictFacts.In_get site_eqb site_eqb_spec); assumption.
  - intros (s & Hg & Hs). exists (s, i). split; [reflexivity|].
    apply filter_In. split.
    + apply (PyDictFacts.get_Some_In site_eqb site_eqb_spec). exact Hg.
    + simpl. apply negb_true_iff.
      apply (mem_false site_eqb _ _ site_eqb_spec). exact Hs.
Qed.

Lemma wt_index_entry (s : site) (i : nat) :
  PyDict.get site_eqb (_wt_indices bm) s = Some i ->
  exists t, nth_error ts i = Some t /\ entry_site t = s
            /\ is_wt_entry t = true.
Proof.
  intros Hg. destruct (rh_wt _ _ Hreg) as (_ & Ha & _).
  destruct (Ha s i Hg) as (wt & Hn). exists (s, wt, wt).
  split; [exact Hn|]. split; [reflexivity|].
  unfold is_wt_entry, entry_wt, entry_mut; simpl. apply Ascii.eqb_refl.
Qed.

Lemma unmentioned_wt_NoDup (sites : list site) :
  NoDup (unmentioned_wt bm sites).
Proof.
  unfold unmentioned_wt, PyDict.items.
  destruct (rh_wt _ _ Hreg) as (Hnd & _).
  apply (NoDup_map_determined fst snd).
  - assert (G : forall l : list (site * nat),
               NoDup (map fst l) ->
               NoDup (map fst (filter (fun p => negb (mem site_eqb (fst p) sites)) l))).
    { induction l as [|a l IH]; simpl; intros H; [constructor|].
      inversion H as [|? ? Ha H']; subst.
      destruct (negb (mem site_eqb (fst a) sites)); simpl; auto.
      constructor; auto. intros Hin. apply Ha.
      apply in_map_iff in Hin as (x & E & Hx). apply filter_In in Hx as [Hx _].
      rewrite <- E. apply in_map. exact Hx. }
    apply G. exact Hnd.
  - intros [s i] [s' i'] Hp Hq E. simpl in *. subst i'.
    apply filter_In in Hp as [Hp _], Hq as [Hq _].
    apply (PyDictFacts.In_get site_eqb site_eqb_spec _ _ _ Hnd) in Hp, Hq.
    destruct (wt_index_entry s i Hp) as (t & Hn & Hs & _).
    destruct (wt_index_entry s' i Hq) as (t' & Hn' & Hs' & _).
    congruence.
Qed.

Lemma mutant_entries_wt (sites : list site) :
  mutant_entries ts (unmentioned_wt bm sites) = [].
Proof.
  assert (G : forall l, (forall i, In i l ->
                           exists t, nth_error ts i = Some t
                                     /\ is_wt_entry t = true) ->
                        mutant_entries ts l = []).
  { unfold mutant_entries. induction l as [|a l IH]; simpl; intros H; [reflexivity|].
    destruct (H a (or_introl eq_refl)) as (t & Hn & Hw).
    rewrite Hn, Hw. simpl. apply IH. intros; apply H; auto. }
  apply G. intros i Hi. apply unmentioned_wt_In in Hi as (s & Hg & _).
  destruct (wt_index_entry s i Hg) as (t & Hn & _ & Hw). eauto.
Qed.

(** The structure of a successful encoding. *)
Lemma encode_structure (sub_str : string) (indices : list nat) :
  sub_str_to_indices bm sub_str = OK indices ->
  exists ps tents,
    Forall2 (token_at bm) (split sub_str) ps
    /\ NoDup (map fst ps)
    /\ indices = sorted (fun i => i) Nat.leb
                   (map snd ps ++ unmentioned_wt bm (map fst ps))
    /\ Forall2 (token_entry_at ts) ps tents
    /\ map entry_sub tents = split sub_str
    /\ NoDup (map snd ps ++ unmentioned_wt bm (map fst ps))
    /\ StronglySorted lt indices
    /\ (forall i, In i indices -> i < List.length ts)
    /\ Permutation (mutant_entries ts indices) tents.
Proof.
  intros H. apply sub_str_to_indices_OK in H as (ps & HF & Hnd & ->).
  destruct (token_entries _ _ HF) as (tents & HT & Esub).
  exists ps, tents.
  assert (Hraw : NoDup (map snd ps ++ unmentioned_wt bm (map fst ps))).
  { apply NoDup_app.
    - apply (token_indices_NoDup ps tents HT Hnd).
    - apply unmentioned_wt_NoDup.
    - intros i Hi Hi'. apply in_map_iff in Hi as (p & <- & Hp).
      destruct (Forall2_In_l _ _ _ _ HT Hp) as (t & _ & Hn & _ & Hw).
      apply unmentioned_wt_In in Hi' as (s & Hg & _).
      destruct (wt_index_entry s _ Hg) as (t' & Hn' & _ & Hw'). congruence. }
  repeat split; auto.
  - apply sorted_id_strict. exact Hraw.
  - intros i Hi. apply sorted_In in Hi. apply in_app_or in Hi as [Hi|Hi].
    + apply in_map_iff in Hi as (p & <- & Hp).
      destruct (Forall2_In_l _ _ _ _ HT Hp) as (t & _ & Hn & _).
      apply nth_error_Some. congruence.
    + apply unmentioned_wt_In in Hi as (s & Hg & _).
      destruct (wt_index_entry s i Hg) as (t & Hn & _).
      apply nth_error_Some. congruence.
  - unfold mutant_entries at 1.
    rewrite (sorted_perm (fun i => i) Nat.leb
               (map snd ps ++ unmentioned_wt bm (map fst ps))).
    rewrite flat_map_app.
    fold (mutant_entries ts (map snd ps)).
    fold (mutant_entries ts (unmentioned_wt bm (map fst ps))).
    rewrite (mutant_entries_tokens ps tents HT), mutant_entries_wt, app_nil_r.
    reflexivity.
Qed.
End Encode.


(** ** The sites are in order in both modes *)

Lemma enumerate_from_sorted (w : list ascii) (a : nat) :
  StronglySorted (fun x y : site * ascii => site_le (fst x) (fst y))
    (combine (map (fun k => IntSite (Z.of_nat k)) (seq a (List.length w))) w)
  /\ forall it,
       In it (combine (map (fun k => IntSite (Z.of_nat k))
                         (seq a (List.length w))) w) ->
       exists k, a <= k /\ fst it = IntSite (Z.of_nat k).
Proof.
  revert a; induction w as [|c w IH]; intros a; simpl.
  - split; [constructor | intros it []].
  - destruct (IH (S a)) as [Hs Hin]. split.
    + constructor; [exact Hs|]. apply Forall_forall. intros it Hit.
      destruct (Hin it Hit) as (k & Hk & ->). simpl.
      apply site_le_int. lia.
    + intros it [<-|Hit]; [exists a; simpl; auto|].
      destruct (Hin it Hit) as (k & Hk & E). exists k. split; [lia | exact E].
Qed.

Lemma expand_sorted (alphabet0 w : list ascii) :
  sites_sorted (expand_entries alphabet0 w).
Proof.
  unfold sites_sorted, expand_entries.
  apply (StronglySorted_flat_map
           (fun x y : site * ascii => site_le (fst x) (fst y))).
  - apply (enumerate_from_sorted w 1).
  - intros [s wt] _. unfold site_entries; simpl. apply StronglySorted_map.
    induction alphabet0 as [|c l IH]; constructor; auto.
    apply Forall_forall. intros; apply site_le_refl.
  - intros [s1 w1] [s2 w2] a b Hle Ha Hb. unfold site_entries in *; simpl in *.
    apply in_map_iff in Ha as (c1 & <- & _), Hb as (c2 & <- & _). exact Hle.
Qed.

Lemma observed_sites_sorted (alphabet0 : list ascii) (sas : bool)
    (subs : list string) (wts : wts_dict) (muts : muts_dict) :
  collected alphabet0 sas subs wts muts ->
  sites_sorted (observed_entries alphabet0 wts muts).
Proof.
  intros Hc. unfold sites_sorted.
  eapply StronglySorted_weaken; [|apply (observed_sorted _ _ _ _ _ Hc)].
  intros t u _ _ [H _]. exact H.
Qed.

Section InitSorted.
Context {SO : SetOrder}.

Lemma init_built_sorted (substitutions : list string)
    (alphabet0 : list ascii) (allowed : option (list string))
    (sas expand : bool) (wtseq : option string) (bm : BinaryMap) :
  init substitutions alphabet0 allowed sas expand wtseq = OK bm ->
  exists ts, built substitutions alphabet0 sas ts bm /\ sites_sorted ts.
Proof.
  destruct expand; intros H.
  - apply init_expand_inv in H as (_ & -> & _ & w & _ & _ & Hb).
    eexists. split; [exact Hb | apply expand_sorted].
  - apply init_observed_inv in H as (_ & _ & subs & wts & muts & _ & Hc & Hb & _).
    eexists. split; [exact Hb | apply (observed_sites_sorted _ _ _ _ _ Hc)].
Qed.
End InitSorted.

(** ** The round trip *)

Section RoundTrip.
Variables (bm : BinaryMap) (ts : list entry).
Hypothesis Hreg : registry_holds bm ts.
Hypothesis Hsorted : sites_sorted ts.

Lemma token_index_entry (i : nat) (t : entry) :
  nth_error ts i = Some t -> token_index bm (entry_sub t) = i.
Proof.
  intros Hn. unfold token_index.
  assert (E : sub_to_i bm (entry_sub t) = OK i)
    by (apply (sub_to_i_entry bm ts Hreg); eauto).
  rewrite E. reflexivity.
Qed.

(** The entries of increasing indices, as tokens, are in the order
    [token_before]. *)
Lemma mutant_entries_sorted (l : list nat) :
  StronglySorted lt l ->
  NoDup (map entry_site (mutant_entries ts l)) ->
  StronglySorted (token_before bm) (map entry_sub (mutant_entries ts l)).
Proof.
  intros Hs Hnd. apply StronglySorted_map.
  assert (G : StronglySorted
                (fun t u => exists i j, i < j /\ nth_error ts i = Some t
                                        /\ nth_error ts j = Some u
                                        /\ is_wt_entry t = false
                                        /\ is_wt_entry u = false)
                (mutant_entries ts l)).
  { clear Hnd. unfold mutant_entries.
    induction Hs as [|a l Hs IH Hall]; simpl; [constructor|].
    destruct (nth_error ts a) as [t|] eqn:Hn; [|exact IH].
    destruct (is_wt_entry t) eqn:Hw; [exact IH|]. simpl.
    constructor; [exact IH|]. apply Forall_forall. intros u Hu.
    apply (mutant_entries_In ts) in Hu as (j & Hj & Hnj & Hwj).
    rewrite Forall_forall in Hall. exists a, j. auto using Hall. }
  apply StronglySorted_strict in G.
  2:{ apply (NoDup_map_inv entry_site). exact Hnd. }
  eapply StronglySorted_weaken; [|exact G].
  intros t u Ht Hu [(i & j & Hij & Hni & Hnj & Hwi & Hwj) Hne].
  assert (Hti : In t ts) by (eapply nth_error_In; eauto).
  assert (Htj : In u ts) by (eapply nth_error_In; eauto).
  exists (entry_wt t), (entry_site t), (entry_mut t),
    (entry_wt u), (entry_site u), (entry_mut u), i, j.
  split; [apply (parse_entry bm ts Hreg t Hti Hwi)|].
  split; [apply (parse_entry bm ts Hreg u Htj Hwj)|].
  split; [apply (sub_to_i_entry bm ts Hreg); eauto|].
  split; [apply (sub_to_i_entry bm ts Hreg); eauto|].
  split; [exact Hij|].
  split; [apply (StronglySorted_nth _ ts Hsorted i j t u Hij Hni Hnj)|].
  intros E. apply Hne.
  apply (NoDup_map_In_inj entry_site (mutant_entries ts l)); auto.
Qed.

(** Decoding the encoding of a variant string that encodes. *)
Lemma round_trip_indices (sub_str : string) (indices : list nat) :
  sub_str_to_indices bm sub_str = OK indices ->
  exists b toks,
    sub_str_to_binary bm sub_str = OK b
    /\ binary_to_sub_str bm b = OK (join toks)
    /\ toks = sorted (token_index bm) Nat.leb (split sub_str)
    /\ Permutation toks (split sub_str)
    /\ StronglySorted (token_before bm) toks.
Proof.
  intros H. pose proof H as H0.
  apply (encode_structure bm ts Hreg) in H
    as (ps & tents & HF & Hnd & Eidx & HT & Esub & Hraw & Hs & Hlt & Hperm).
  set (b := map (fun i => if mem Nat.eqb i indices then 1%Z else 0%Z)
              (seq 0 (binarylength bm))).
  assert (Hlt' : forall i, In i indices -> i < binarylength bm)
    by (intros i Hi; rewrite (rh_length _ _ Hreg); auto).
  assert (Eb : sub_str_to_binary bm sub_str = OK b).
  { unfold sub_str_to_binary. rewrite H0. cbn [bind].
    replace (forallb (fun i => i <? binarylength bm) indices) with true;
      [reflexivity|].
    symmetry. apply forallb_forall. intros i Hi. apply Nat.ltb_lt. auto. }
  assert (Efnz : flatnonzero b = indices)
    by (apply flatnonzero_indicator; auto).
  assert (Esites : map entry_site tents = map fst ps).
  { clear - HT. induction HT as [|p t ps tents (_ & E & _) HT IH]; simpl;
      [reflexivity | rewrite E, IH; reflexivity]. }
  assert (Hnds : NoDup (map entry_site (mutant_entries ts indices))).
  { apply (Permutation_NoDup (l := map entry_site tents)).
    - symmetry. apply Permutation_map. exact Hperm.
    - rewrite Esites. exact Hnd. }
  set (toks := map entry_sub (mutant_entries ts indices)).
  assert (Hpt : Permutation toks (split sub_str)).
  { unfold toks. rewrite <- Esub. apply Permutation_map. exact Hperm. }
  assert (Hst : StronglySorted (token_before bm) toks)
    by (apply mutant_entries_sorted; auto).
  exists b, toks. split; [exact Eb|]. split; [|split; [|split; assumption]].
  - rewrite (decode_spec bm ts Hreg b).
    + unfold active_entries. rewrite Efnz. fold toks.
      replace (List.length (map entry_site (mutant_entries ts indices))
               =? List.length (distinct site_eqb
                                 (map entry_site (mutant_entries ts indices))))
        with true; [reflexivity|].
      symmetry. apply Nat.eqb_eq. symmetry. apply distinct_length. exact Hnds.
    + unfold b. rewrite length_map, length_seq. reflexivity.
    + apply indicator_0_or_1.
  - assert (Hkey : forall a c, token_before bm a c ->
                               token_index bm a < token_index bm c).
    { intros a c (wa & sa & ma & wb & sb & mb & ia & ib & _ & _ & Ha & Hb & Hlt2 & _).
      unfold token_index. rewrite Ha, Hb. exact Hlt2. }
    assert (Hndk : NoDup (map (token_index bm) (split sub_str))).
    { apply (Permutation_NoDup (l := map (token_index bm) toks));
        [apply Permutation_map; exact Hpt|].
      apply (StronglySorted_NoDup lt); [intros a; lia|].
      apply StronglySorted_map.
      eapply StronglySorted_weaken; [|exact Hst]. intros a c _ _. apply Hkey. }
    apply (sorted_unique (fun a c => token_index bm a < token_index bm c)).
    + intros; lia.
    + eapply StronglySorted_weaken; [|exact Hst]. intros a c _ _. apply Hkey.
    + apply sorted_strict. exact Hndk.
    + intros x. rewrite sorted_In. split; apply Permutation_in;
        [exact Hpt | symmetry; exact Hpt].
Qed.
End RoundTrip.


(** ** The rows of the matrix *)

Lemma zsum_app (l1 l2 : list Z) : zsum (l1 ++ l2) = (zsum l1 + zsum l2)%Z.
Proof. unfold zsum. induction l1 as [|x l IH]; simpl; [reflexivity | lia]. Qed.

Lemma zsum_map_add {A : Type} (f g : A -> Z) (l : list A) :
  zsum (map (fun c => (f c + g c)%Z) l) = (zsum (map f l) + zsum (map g l))%Z.
Proof. unfold zsum. induction l as [|x l IH]; simpl; [reflexivity | lia]. Qed.

Lemma zsum_map_zero {A : Type} (l : list A) : zsum (map (fun _ => 0%Z) l) = 0%Z.
Proof. unfold zsum. induction l as [|x l IH]; simpl; [reflexivity | lia]. Qed.

Lemma zsum_indicator (c0 a n : nat) :
  zsum (map (fun c => if c =? c0 then 1%Z else 0%Z) (seq a n))
  = if (a <=? c0) && (c0 <? a + n) then 1%Z else 0%Z.
Proof.
  revert a; induction n as [|n IH]; intros a; simpl.
  - destruct (Nat.leb_spec a c0), (Nat.ltb_spec c0 (a + 0)); simpl; auto; lia.
  - unfold zsum in *. simpl. rewrite IH.
    destruct (Nat.eqb_spec a c0), (Nat.leb_spec (S a) c0),
      (Nat.ltb_spec c0 (S a + n)), (Nat.leb_spec a c0),
      (Nat.ltb_spec c0 (a + S n)); simpl; auto; lia.
Qed.

(** The sum of a row of the array is the number of coordinates in it. *)
Lemma row_sum (cs : list (nat * nat)) (r ncols : nat) :
  zsum (map (fun c => Z.of_nat (List.length (filter (coord_eqb (r, c)) cs)))
          (seq 0 ncols))
  = Z.of_nat (List.length
                (filter (fun p => (fst p =? r) && (snd p <? ncols)) cs)).
Proof.
  induction cs as [|p cs IH]; simpl.
  - apply zsum_map_zero.
  - rewrite (map_ext _ (fun c : nat =>
                          Z.add (if c =? snd p
                                 then (if fst p =? r then 1%Z else 0%Z)
                                 else 0%Z)
                            (Z.of_nat (List.length (filter (coord_eqb (r, c)) cs))))).
    + rewrite zsum_map_add, IH.
      destruct (Nat.eqb_spec (fst p) r) as [E|E]; cbn [andb].
      * rewrite zsum_indicator. cbn [Nat.leb andb Nat.add].
        destruct (Nat.ltb_spec (snd p) ncols); cbn [List.length];
          [rewrite Nat2Z.inj_succ|]; lia.
      * rewrite (map_ext _ (fun _ => 0%Z))
          by (intros c; destruct (c =? snd p); reflexivity).
        rewrite zsum_map_zero. reflexivity.
    + intros c. unfold coord_eqb at 1. cbn [fst snd].
      destruct (Nat.eqb_spec r (fst p)), (Nat.eqb_spec c (snd p)),
        (Nat.eqb_spec (fst p) r); cbn [andb List.length];
        try congruence; try rewrite Nat2Z.inj_succ; lia.
Qed.

Lemma filter_row_same (l : list nat) (r ncols : nat) :
  (forall c, In c l -> c < ncols) ->
  filter (fun p => (fst p =? r) && (snd p <? ncols))
    (map (fun isub => (r, isub)) l)
  = map (fun isub => (r, isub)) l.
Proof.
  induction l as [|c l IH]; intros Hl; [reflexivity|].
  cbn [map filter fst snd]. rewrite Nat.eqb_refl.
  assert (Hc : c < ncols) by (apply Hl; simpl; auto).
  apply Nat.ltb_lt in Hc. rewrite Hc. cbn [andb].
  rewrite IH by (intros; apply Hl; simpl; auto). reflexivity.
Qed.

Lemma filter_row_other (l : list nat) (a r ncols : nat) :
  a <> r ->
  filter (fun p => (fst p =? r) && (snd p <? ncols))
    (map (fun isub => (a, isub)) l) = [].
Proof.
  intros Hne. induction l as [|c l IH]; [reflexivity|].
  cbn [map filter fst snd]. apply Nat.eqb_neq in Hne. rewrite Hne.
  cbn [andb]. exact IH.
Qed.

Lemma filter_rows_after (rows : list (list nat)) (b r ncols : nat) :
  r < b ->
  filter (fun p => (fst p =? r) && (snd p <? ncols)) (coords_from b rows) = [].
Proof.
  revert b; induction rows as [|x rows IH]; intros b Hb; [reflexivity|].
  cbn [coords_from]. rewrite filter_app, (IH (S b)) by lia.
  rewrite filter_row_other by lia. reflexivity.
Qed.

Lemma coords_from_row (rows : list (list nat)) (a r ncols : nat) (row : list nat) :
  a <= r -> nth_error rows (r - a) = Some row ->
  Forall (fun row => forall c, In c row -> c < ncols) rows ->
  List.length (filter (fun p => (fst p =? r) && (snd p <? ncols))
                 (coords_from a rows))
  = List.length row.
Proof.
  revert a; induction rows as [|row0 rows IH]; intros a Hle Hn Hall.
  - destruct (r - a); discriminate.
  - inversion Hall as [|? ? H0 Hall']; subst. cbn [coords_from].
    rewrite filter_app, length_app.
    destruct (r - a) as [|k] eqn:E.
    + simpl in Hn. inversion Hn; subst row0.
      assert (a = r) by lia. subst a.
      rewrite (filter_row_same row r ncols H0), length_map.
      rewrite (filter_rows_after rows (S r) r ncols) by lia. simpl. lia.
    + simpl in Hn. rewrite filter_row_other by lia.
      rewrite (IH (S a)); auto; [lia|].
      replace (r - S a) with k by lia. exact Hn.
Qed.

(** The rows of [toarray] are the encodings of the variants. *)
Lemma toarray_rows (nrows ncols : nat) (rows : list (list nat)) :
  List.length rows = nrows ->
  Forall (fun row => forall c, In c row -> c < ncols) rows ->
  Forall2 (fun dense row => zsum dense = Z.of_nat (List.length row))
    (toarray {| shape := (nrows, ncols); coords := coords_from 0 rows |}) rows.
Proof.
  intros Hlen Hall. unfold toarray; simpl.
  assert (G : forall (l : list nat) (rs : list (list nat)),
             Forall2 (fun r row => nth_error rows r = Some row) l rs ->
             Forall2 (fun dense row => zsum dense = Z.of_nat (List.length row))
               (map (fun r => map (csr_get {| shape := (nrows, ncols);
                                              coords := coords_from 0 rows |} r)
                                (seq 0 ncols)) l) rs).
  { induction 1 as [|r row l rs Hr HF IH]; simpl; constructor; auto.
    unfold csr_get; simpl. rewrite row_sum.
    rewrite (coords_from_row rows 0 r ncols row); auto; [lia|].
    rewrite Nat.sub_0_r. exact Hr. }
  apply G. subst nrows. clear.
  assert (H : forall pre, Forall2 (fun r row => nth_error (pre ++ rows) r = Some row)
                            (seq (List.length pre) (List.length rows)) rows).
  { induction rows as [|row rows IH]; intros pre; simpl; constructor.
    - rewrite nth_error_app2, Nat.sub_diag by lia. reflexivity.
    - specialize (IH (pre ++ [row])).
      rewrite length_app in IH; simpl in IH.
      replace (List.length pre + 1) with (S (List.length pre)) in IH by lia.
      rewrite <- app_assoc in IH. exact IH. }
  apply (H []).
Qed.


(** * The properties of the specification *)

(** ** An iteration order for the examples *)

Lemma first_seen_spec (l seen : list string) :
  NoDup (first_seen seen l)
  /\ forall x, In x (first_seen seen l) <-> In x l /\ ~ In x seen.
Proof.
  revert seen; induction l as [|a l IH]; intros seen; simpl.
  - split; [constructor | intros x; tauto].
  - destruct (mem String.eqb a seen) eqn:M.
    + apply (mem_In String.eqb a seen String.eqb_spec) in M.
      destruct (IH seen) as [Hnd Hin]. split; [exact Hnd|].
      intros x. rewrite Hin. split; [tauto|].
      intros [[<-|H] Hn]; [contradiction | auto].
    + apply (mem_false String.eqb a seen String.eqb_spec) in M.
      destruct (IH (a :: seen)) as [Hnd Hin]. split.
      * constructor; [|exact Hnd]. rewrite Hin. simpl. tauto.
      * intros x. simpl. rewrite Hin. simpl.
        destruct (String.eqb_spec a x) as [<-|Hne]; tauto.
Qed.

Definition first_seen_order : SetOrder :=
  {| set_iter := first_seen [];
     set_iter_NoDup := fun l => proj1 (first_seen_spec l []);
     set_iter_In := fun l x =>
       conj (fun H => proj1 (proj1 (proj2 (first_seen_spec l []) x) H))
            (fun H => proj2 (proj2 (first_seen_spec l []) x)
                        (conj H (fun F : In x [] => F))) |}.

(** ** C9: the grammar *)

(** C9, as amended. For a token of ASCII characters, no longer in numeric
    mode than the numerals that [int] converts (4300 digits),
    [_parse_sub_str] raises exactly when the token does not have the form
    [wt + site + mut], with [wt] and [mut] in the alphabet and the site
    matching [-?[0-9]+] in numeric mode or being a non-empty remainder
    without a newline in string mode, or when [wt] equals [mut]; the
    exception is one of the two [ValueError]s of the method; and the token
    [L3aT] is refused with numeric sites, whatever the alphabet. *)
Theorem parse_sub_str_fails_exactly (alphabet0 : list ascii)
    (sites_as_str0 : bool) (sub : string) :
  is_ascii sub = true ->
  (sites_as_str0 = false -> String.length sub <= int_max_str_digits) ->
  parse_fails_exactly site_form alphabet0 sites_as_str0 sub
  /\ (forall e, _parse_sub_str alphabet0 sites_as_str0 sub = Err e ->
                e = ValueError (MsgInvalidSub sub)
                \/ e = ValueError (MsgSameWtMut sub))
  /\ _parse_sub_str alphabet0 false "L3aT" = raise (MsgInvalidSub "L3aT").
Proof.
  intros _ _.
  split; [apply parse_fails_iff|]. split.
  - intros e He.
    destruct (parse_cases alphabet0 sites_as_str0 sub) as [E | [E | (t & E)]];
      rewrite E in He; inversion He; auto.
  - unfold _parse_sub_str. destruct alphabet0 as [|a l]; [reflexivity|].
    unfold sub_regex_fullmatch; simpl unsnoc; cbv iota beta.
    replace (match_site false "3a") with false by reflexivity.
    rewrite andb_false_r. reflexivity.
Qed.

(** The token [L3aT] of the specification, on the alphabet of the amino
    acids. *)
Lemma parse_sub_str_fails_exactly_witness :
  parse_fails_exactly site_form AAS_WITHSTOP false "L3aT"
  /\ (forall e, _parse_sub_str AAS_WITHSTOP false "L3aT" = Err e ->
                e = ValueError (MsgInvalidSub "L3aT")
                \/ e = ValueError (MsgSameWtMut "L3aT"))
  /\ _parse_sub_str AAS_WITHSTOP false "L3aT" = raise (MsgInvalidSub "L3aT").
Proof.
  apply (parse_sub_str_fails_exactly AAS_WITHSTOP false "L3aT").
  - reflexivity.
  - intros _. apply Nat.leb_le. vm_compute. reflexivity.
Defined.

(** C9, as stated, fails: with string sites the remainder must not hold a
    newline. The token [M], newline, [A] has the form of the claim, with
    [wt <> mut], and is refused; the constructor meets it as an element of
    [allowed_subs], which is parsed without being split. *)
Lemma parse_newline_site_counterexample :
  ~ parse_fails_exactly site_form_any ["M"; "A"]%char true
      (String "M" (String newline (String "A" EmptyString)))
  /\ __init__ (SO := first_seen_order) [EmptyString] ["M"; "A"]%char
       (Some [String "M" (String newline (String "A" EmptyString))])
       true false None
     = raise (MsgInvalidSub
                (String "M" (String newline (String "A" EmptyString)))).
Proof.
  split; [|reflexivity].
  unfold parse_fails_exactly. intros [H _].
  assert (F : parse_fails ["M"; "A"]%char true
                (String "M" (String newline (String "A" EmptyString)))).
  { eexists. reflexivity. }
  destruct (H F) as [Hno | (wt & mid & mut & (E & _) & Heq)].
  - apply Hno. exists "M"%char, (String newline EmptyString), "A"%char.
    unfold token_form. simpl. repeat split; auto. discriminate.
  - injection E as E1 E2.
    change (String newline (String "A" EmptyString))
      with (String newline EmptyString ++ str1 "A")%string in E2.
    apply append_inj_r in E2 as [_ E2]. congruence.
Qed.

(** ** C10: the expansion without any substitution *)

Section Claims.
Context {SO : SetOrder}.

(** C10. In expansion mode, with a wildtype sequence over a valid
    alphabet, a collection of variants without any substitution makes the
    construction raise the [ValueError] of [min] on an empty sequence. *)
Theorem expand_without_substitutions (substitutions : list string)
    (alphabet0 : list ascii) (wtseq0 : string) :
  check_alphabet alphabet0 = OK tt ->
  (forall s, In s substitutions -> split s = []) ->
  (forall c, In c (list_ascii_of_string wtseq0) -> In c alphabet0) ->
  init substitutions alphabet0 None false true (Some wtseq0)
  = Err (ValueError MsgMinEmptySequence).
Proof.
  intros Ha Hs Hw. unfold init. rewrite Ha. cbn [bind].
  assert (E : flat_map split substitutions = []).
  { induction substitutions as [|s l IH]; simpl; [reflexivity|].
    rewrite (Hs s) by (simpl; auto). apply IH. intros; apply Hs; simpl; auto. }
  unfold subs_in_variants. rewrite E, set_iter_nil. cbn [bind foldM].
  unfold assign_expand.
  assert (F : forallb (fun c => char_in c alphabet0)
                (list_ascii_of_string wtseq0) = true).
  { apply forallb_forall. intros c Hc. apply char_in_In. auto. }
  rewrite F. reflexivity.
Qed.
End Claims.

Lemma expand_without_substitutions_witness :
  init (SO := first_seen_order) [EmptyString; EmptyString] small_alphabet
    None false true (Some "MAKG"%string)
  = Err (ValueError MsgMinEmptySequence).
Proof.
  apply (expand_without_substitutions (SO := first_seen_order)).
  - reflexivity.
  - intros s [<-|[<-|[]]]; reflexivity.
  - intros c Hc. vm_compute in Hc. vm_compute. tauto.
Defined.


(** ** C6: the bijection between substitutions and indices *)

Section IndexBijection.
Context {SO : SetOrder}.

(** C6. For a constructed object: the keys of [_i_to_sub] are the
    contiguous range [0, binarylength), in that order, and [sub_to_i] only
    returns indices of the range; [i_to_sub (sub_to_i s)] is [s] for every
    substitution of the registry that is not a wildtype one, be it told by
    its index (not a wildtype index) or by its form (it parses, so
    [wt <> mut]); [i_to_sub] is the empty string on every wildtype index;
    and every index of the range is the index of the string stored at
    it. *)
Theorem index_bijection (substitutions : list string)
    (alphabet0 : list ascii) (allowed : option (list string))
    (sas expand : bool) (wtseq : option string) (bm : BinaryMap) :
  init substitutions alphabet0 allowed sas expand wtseq = OK bm ->
  PyDict.keys (_i_to_sub bm) = seq 0 (binarylength bm)
  /\ (forall sub i, sub_to_i bm sub = OK i -> i < binarylength bm)
  /\ (forall sub i, sub_to_i bm sub = OK i ->
                    mem Nat.eqb i (_wt_index_set bm) = false ->
                    i_to_sub bm i = OK sub)
  /\ (forall sub i wt s mut,
         _parse_sub_str (alphabet bm) (sites_as_str bm) sub = OK (wt, s, mut) ->
         sub_to_i bm sub = OK i -> i_to_sub bm i = OK sub)
  /\ (forall s i, PyDict.get site_eqb (_wt_indices bm) s = Some i ->
                  i < binarylength bm /\ i_to_sub bm i = OK EmptyString)
  /\ (forall i, i < binarylength bm ->
                exists sub, PyDict.get Nat.eqb (_i_to_sub bm) i = Some sub
                            /\ sub_to_i bm sub = OK i).
Proof.
  intros H. apply init_built in H as (ts & [_ _ _ Hreg _]).
  split.
  { rewrite (rh_i_to_sub _ _ Hreg), (rh_length _ _ Hreg).
    rewrite <- (length_map entry_sub ts). apply keys_combine_seq. }
  split; [intros sub i; apply (sub_to_i_lt bm ts Hreg)|].
  assert (Hround : forall sub i, sub_to_i bm sub = OK i ->
                                 mem Nat.eqb i (_wt_index_set bm) = false ->
                                 i_to_sub bm i = OK sub).
  { intros sub i Hi Hw.
    apply (sub_to_i_entry bm ts Hreg) in Hi as (t & Hn & <-).
    rewrite (i_to_sub_entry bm ts Hreg i t Hn).
    rewrite <- (wt_index_set_false bm ts Hreg i t Hn), Hw. reflexivity. }
  split; [exact Hround|]. split.
  { intros sub i wt s mut Hp Hi. apply Hround; [exact Hi|].
    destruct (token_entry bm ts Hreg sub wt mut s i Hp Hi) as [Hn _].
    rewrite (wt_index_set_false bm ts Hreg i _ Hn).
    apply parse_OK_good in Hp as (_ & _ & _ & Hne).
    unfold is_wt_entry, entry_wt, entry_mut; simpl. apply Ascii.eqb_neq, Hne. }
  split.
  { intros s i Hg.
    destruct (rh_wt _ _ Hreg) as (_ & Ha & _).
    destruct (Ha s i Hg) as (wt & Hn). split.
    - rewrite (rh_length _ _ Hreg). apply nth_error_Some. congruence.
    - rewrite (i_to_sub_entry bm ts Hreg i _ Hn).
      unfold is_wt_entry, entry_wt, entry_mut; simpl.
      rewrite Ascii.eqb_refl. reflexivity. }
  intros i Hlt. rewrite (rh_length _ _ Hreg) in Hlt.
  destruct (nth_error ts i) as [t|] eqn:Hn;
    [|apply nth_error_None in Hn; lia].
  exists (entry_sub t). split.
  - rewrite (get_i_to_sub bm ts Hreg), nth_error_map, Hn. reflexivity.
  - apply (sub_to_i_entry bm ts Hreg). eauto.
Qed.
End IndexBijection.

Lemma index_bijection_witness :
  exists bm,
    init (SO := first_seen_order) docstring_variants small_alphabet None
      false true (Some "MAKG"%string) = OK bm
    /\ PyDict.keys (_i_to_sub bm) = seq 0 (binarylength bm)
    /\ (forall sub i wt s mut,
           _parse_sub_str (alphabet bm) (sites_as_str bm) sub = OK (wt, s, mut) ->
           sub_to_i bm sub = OK i -> i_to_sub bm i = OK sub).
Proof.
  destruct (init (SO := first_seen_order) docstring_variants small_alphabet
              None false true (Some "MAKG"%string)) as [bm|e] eqn:E;
    [|vm_compute in E; discriminate].
  exists bm. split; [reflexivity|].
  destruct (index_bijection (SO := first_seen_order) _ _ _ _ _ _ _ E)
    as (H1 & _ & _ & H4 & _).
  split; assumption.
Defined.


(** ** The order of the indices in observed-only mode *)

(** The entry stored at an index, read back from the string. *)
Lemma stored_entry (bm : BinaryMap) (ts : list entry) (i : nat) (sub : string)
    (wt mut : ascii) (s : site) :
  registry_holds bm ts ->
  PyDict.get Nat.eqb (_i_to_sub bm) i = Some sub ->
  _parse_sub_str (alphabet bm) (sites_as_str bm) sub = OK (wt, s, mut) ->
  nth_error ts i = Some (s, wt, mut).
Proof.
  intros Hreg Hg Hp.
  rewrite (get_i_to_sub bm ts Hreg), nth_error_map in Hg.
  destruct (nth_error ts i) as [t|] eqn:Hn; [|discriminate].
  simpl in Hg. inversion Hg; subst sub.
  assert (Hin : In t ts) by (eapply nth_error_In; eauto).
  destruct (is_wt_entry t) eqn:Hw.
  - rewrite (parse_wt_entry bm ts Hreg t Hin Hw) in Hp. discriminate.
  - rewrite (parse_entry bm ts Hreg t Hin Hw) in Hp. inversion Hp; subst.
    destruct t as [[s wt] m]; reflexivity.
Qed.

Section ObservedOrder.
Context {SO : SetOrder}.

(** After the loops of observed-only mode the indices are 0, 1, 2, ...
    without gap; every index holds a substitution [wt + site + mut] that
    parses back and whose site is the entry of the list [binary_sites]; of
    two indices
    [i < j] the site of [i] is not after the site of [j] in the natural
    order, and at one site the wildtype is the same and the mutant
    character of [i] comes before that of [j] in the alphabet; there is
    no wildtype index. The natural order is the numeric one on [int]
    sites, negative ones included, and puts [9] before [10a] before
    [10b]. *)
Lemma init_observed_order (substitutions : list string)
    (alphabet0 : list ascii) (allowed : option (list string)) (sas : bool)
    (wtseq : option string) (bm : BinaryMap) :
  init substitutions alphabet0 allowed sas false wtseq = OK bm ->
  PyDict.keys (_i_to_sub bm) = seq 0 (binarylength bm)
  /\ (forall i, i < binarylength bm ->
        exists wt s mut,
          PyDict.get Nat.eqb (_i_to_sub bm) i = Some (sub_string wt s mut)
          /\ nth_error (binary_sites bm) i = Some s
          /\ _parse_sub_str alphabet0 sas (sub_string wt s mut)
             = OK (wt, s, mut))
  /\ (forall i j subi subj wti si mi wtj sj mj,
        i < j ->
        PyDict.get Nat.eqb (_i_to_sub bm) i = Some subi ->
        PyDict.get Nat.eqb (_i_to_sub bm) j = Some subj ->
        _parse_sub_str alphabet0 sas subi = OK (wti, si, mi) ->
        _parse_sub_str alphabet0 sas subj = OK (wtj, sj, mj) ->
        site_le si sj
        /\ (si = sj -> wti = wtj /\ pos_lt alphabet0 mi mj))
  /\ _wt_indices bm = [] /\ _wt_index_set bm = []
  /\ (forall a b, site_le (IntSite a) (IntSite b) <-> (a <= b)%Z)
  /\ site_lt (StrSite "9") (StrSite "10a")
  /\ site_lt (StrSite "10a") (StrSite "10b").
Proof.
  intros H.
  apply init_observed_inv in H
    as (_ & _ & subs & wts & muts & _ & Hc & [Ea Es _ Hreg _] & Hwi).
  set (ts := observed_entries alphabet0 wts muts) in *.
  destruct (observed_good _ _ _ _ _ Hc) as [Hg Hnw]. fold ts in Hg, Hnw.
  pose proof (observed_sorted _ _ _ _ _ Hc) as Hsorted. fold ts in Hsorted.
  split.
  { rewrite (rh_i_to_sub _ _ Hreg), (rh_length _ _ Hreg).
    rewrite <- (length_map entry_sub ts). apply keys_combine_seq. }
  split.
  { intros i Hlt. rewrite (rh_length _ _ Hreg) in Hlt.
    destruct (nth_error ts i) as [t|] eqn:Hn;
      [|apply nth_error_None in Hn; lia].
    assert (Hin : In t ts) by (eapply nth_error_In; eauto).
    exists (entry_wt t), (entry_site t), (entry_mut t). split; [|split].
    - rewrite (get_i_to_sub bm ts Hreg), nth_error_map, Hn. reflexivity.
    - rewrite (rh_sites _ _ Hreg), nth_error_map, Hn. reflexivity.
    - rewrite <- Ea, <- Es. apply (parse_entry bm ts Hreg t Hin (Hnw t Hin)). }
  split.
  { intros i j subi subj wti si mi wtj sj mj Hij Hgi Hgj Hpi Hpj.
    rewrite <- Ea, <- Es in Hpi, Hpj.
    pose proof (stored_entry bm ts i subi wti mi si Hreg Hgi Hpi) as Hi.
    pose proof (stored_entry bm ts j subj wtj mj sj Hreg Hgj Hpj) as Hj.
    destruct (entry_before_trans_lt alphabet0 ts i j _ _ Hsorted Hij Hi Hj)
      as [Hle Hpos].
    unfold entry_site, entry_mut in Hle, Hpos; simpl in Hle, Hpos.
    split; [exact Hle|]. intros E. split; [|auto]. subst sj.
    apply nth_error_In in Hi, Hj. fold ts in Hi, Hj.
    apply (observed_entry_iff _ _ _ _ _ _ _ _ Hc) in Hi as (s1 & Hs1 & Hp1).
    apply (observed_entry_iff _ _ _ _ _ _ _ _ Hc) in Hj as (s2 & Hs2 & Hp2).
    destruct (col_subs _ _ _ _ _ Hc s1 Hs1) as (w1 & t1 & m1 & Hq1 & G1 & _).
    destruct (col_subs _ _ _ _ _ Hc s2 Hs2) as (w2 & t2 & m2 & Hq2 & G2 & _).
    rewrite Hp1 in Hq1. rewrite Hp2 in Hq2.
    inversion Hq1; inversion Hq2; subst. congruence. }
  split; [exact Hwi|]. split; [rewrite (rh_wt_set _ _ Hreg), Hwi; reflexivity|].
  split; [exact site_le_int|]. exact natsort_examples.
Qed.
End ObservedOrder.


(** ** Two substitutions at one site *)




Section SameSite.
Context {SO : SetOrder}.

End SameSite.


(** ** C2: the exceptions of the decoding *)


Section DecodeFails.
Context {SO : SetOrder}.

End DecodeFails.




(** ** C1: the round trip *)

Section RoundTripClaim.
Context {SO : SetOrder}.

(** C1. For every variant string [sub_str] used to build an object, in
    either mode, [sub_str_to_binary] returns a vector and
    [binary_to_sub_str] on that vector returns the canonical form of
    [sub_str]: the tokens of [sub_str], joined by single spaces, in the
    order of their indices in the registry. That order is a permutation of
    the tokens in which every token comes before the tokens of a larger
    index, and these are the tokens of a later site in the natural order
    of the sites. *)
Theorem round_trip (substitutions : list string) (alphabet0 : list ascii)
    (allowed : option (list string)) (sas expand : bool)
    (wtseq : option string) (bm : BinaryMap) (sub_str : string) :
  init substitutions alphabet0 allowed sas expand wtseq = OK bm ->
  In sub_str substitutions ->
  exists b,
    sub_str_to_binary bm sub_str = OK b
    /\ binary_to_sub_str bm b = OK (canonicalize bm sub_str)
    /\ exists toks,
        canonicalize bm sub_str = join toks
        /\ Permutation toks (split sub_str)
        /\ StronglySorted (token_before bm) toks.
Proof.
  intros H Hin.
  apply init_built_sorted in H as (ts & [_ _ _ Hreg (rows & HF & _)] & Hs).
  destruct (Forall2_In_l _ _ _ _ HF Hin) as (row & _ & Hrow).
  destruct (round_trip_indices bm ts Hreg Hs sub_str row Hrow)
    as (b & toks & Eb & Ed & Et & Hp & Hst).
  exists b. split; [exact Eb|].
  unfold canonicalize. rewrite <- Et. split; [exact Ed|].
  exists toks. auto.
Qed.
End RoundTripClaim.

Lemma round_trip_witness :
  exists bm b,
    init (SO := first_seen_order) ["K3A M1C"; "M1A"]%string small_alphabet None
      false false None = OK bm
    /\ sub_str_to_binary bm "K3A M1C" = OK b
    /\ binary_to_sub_str bm b = OK (canonicalize bm "K3A M1C")
    /\ canonicalize bm "K3A M1C" = "M1C K3A"%string.
Proof.
  destruct (init (SO := first_seen_order) ["K3A M1C"; "M1A"]%string
              small_alphabet None false false None) as [bm|e] eqn:E;
    [|vm_compute in E; discriminate].
  destruct (round_trip (SO := first_seen_order) _ _ _ _ _ _ bm
              "K3A M1C"%string E) as (b & Eb & Ed & _); [simpl; auto|].
  exists bm, b. split; [reflexivity|]. split; [exact Eb|]. split; [exact Ed|].
  vm_compute in E. injection E as <-. vm_compute. reflexivity.
Defined.


(** ** C5: the rows of the expansion *)

Lemma Forall2_In_r {A B : Type} (R : A -> B -> Prop) (l : list A) (l' : list B)
    (b : B) :
  Forall2 R l l' -> In b l' -> exists a, In a l /\ R a b.
Proof.
  induction 1 as [|x y l l' Hxy HF IH]; simpl; [tauto|].
  intros [<-|Hin]; [eauto|].
  destruct (IH Hin) as (a & Ha & Hr). eauto.
Qed.

(** The sites [a], [a+1], ... are in strict natural order. *)
Lemma int_sites_sorted (a n : nat) :
  StronglySorted (fun s u => site_le s u /\ s <> u)
    (map (fun k => IntSite (Z.of_nat k)) (seq a n)).
Proof.
  revert a; induction n as [|n IH]; intros a; simpl; constructor; [apply IH|].
  apply Forall_forall. intros u Hu.
  apply in_map_iff in Hu as (k & <- & Hk). apply in_seq in Hk. split.
  - apply site_le_int. lia.
  - intros E. injection E as E. lia.
Qed.

(** The elements of a sorted list at increasing positions are sorted. *)
Lemma StronglySorted_at {A : Type} (R : A -> A -> Prop) (ts : list A) (d : A)
    (l : list nat) :
  StronglySorted R ts -> StronglySorted lt l ->
  (forall i, In i l -> i < List.length ts) ->
  StronglySorted R (map (fun i => nth i ts d) l).
Proof.
  intros Hs Hl Hlt. induction Hl as [|i l Hl IH Hall]; simpl; constructor.
  - apply IH. intros; apply Hlt; simpl; auto.
  - apply Forall_forall. intros u Hu. apply in_map_iff in Hu as (j & <- & Hj).
    rewrite Forall_forall in Hall.
    apply (StronglySorted_nth R ts Hs i j); [auto | |];
      apply nth_error_nth'; apply Hlt; simpl; auto.
Qed.

Section ExpandRows.
Variables (bm : BinaryMap) (alphabet0 w : list ascii).
Local Abbreviation ts := (expand_entries alphabet0 w).
Hypothesis Hreg : registry_holds bm ts.
Hypothesis Hw : forall c, In c w -> In c alphabet0.

Local Abbreviation d := (IntSite 0, zero, zero).

(** Every site of the wildtype sequence has a wildtype index, and only
    these. *)
Lemma expand_wt_index (k : nat) (wt : ascii) :
  nth_error w k = Some wt ->
  exists i, PyDict.get site_eqb (_wt_indices bm) (IntSite (Z.of_nat (S k)))
            = Some i.
Proof.
  intros Hn.
  assert (Hin : In (IntSite (Z.of_nat (S k)), wt, wt) ts).
  { apply expand_entry_iff. split; [eauto|].
    apply Hw. eapply nth_error_In; eauto. }
  apply In_nth_error in Hin as (i & Hi). exists i.
  destruct (rh_wt _ _ Hreg) as (_ & _ & Hd). eapply Hd; eauto.
Qed.

Lemma expand_site_range (t : entry) :
  In t ts -> exists k, entry_site t = IntSite (Z.of_nat (S k))
                       /\ k < List.length w.
Proof.
  destruct t as [[s wt] c]. intros Hin.
  apply expand_entry_iff in Hin as ((k & -> & Hn) & _).
  exists k. split; [reflexivity|]. apply nth_error_Some. congruence.
Qed.

Lemma site_at_nth (i : nat) :
  i < List.length ts ->
  nth_error (binary_sites bm) i = Some (site_at ts i).
Proof.
  intros Hlt. rewrite (rh_sites _ _ Hreg), nth_error_map.
  rewrite (nth_error_nth' ts d Hlt). reflexivity.
Qed.

(** The encoding holds one index for every site of the wildtype sequence,
    in the order of the sites. *)
Lemma expand_one_per_site (sub_str : string) (indices : list nat) :
  sub_str_to_indices bm sub_str = OK indices ->
  map (site_at ts) indices
  = map (fun k => IntSite (Z.of_nat k)) (seq 1 (List.length w)).
Proof.
  intros H.
  apply (encode_structure bm ts Hreg) in H
    as (ps & tents & HF & Hnd & Eidx & HT & Esub & Hraw & Hs & Hlt & Hperm).
  assert (Hcases : forall i, In i indices ->
            (exists p, In p ps /\ snd p = i /\ site_at ts i = fst p)
            \/ (exists s, PyDict.get site_eqb (_wt_indices bm) s = Some i
                          /\ ~ In s (map fst ps) /\ site_at ts i = s)).
  { intros i Hi. rewrite Eidx in Hi. apply sorted_In in Hi.
    apply in_app_or in Hi as [Hi|Hi].
    - left. apply in_map_iff in Hi as (p & <- & Hp). exists p.
      destruct (Forall2_In_l _ _ _ _ HT Hp) as (t & _ & Hn & Hst & _).
      repeat split; auto. unfold site_at.
      rewrite (nth_error_nth ts _ d Hn). exact Hst.
    - right. apply (unmentioned_wt_In bm ts Hreg) in Hi as (s & Hg & Hns).
      exists s. destruct (wt_index_entry bm ts Hreg s i Hg) as (t & Hn & Hst & _).
      repeat split; auto. unfold site_at.
      rewrite (nth_error_nth ts _ d Hn). exact Hst. }
  symmetry.
  apply (sorted_unique (fun s u => site_le s u /\ s <> u)).
  - intros a b Ha Hb [Hab Hne] [Hba _].
    apply in_map_iff in Ha as (ka & <- & _).
    apply in_map_iff in Hb as (kb & <- & _).
    apply site_le_int in Hab, Hba. apply Hne. f_equal. lia.
  - apply int_sites_sorted.
  - apply StronglySorted_strict.
    + unfold site_at. rewrite <- (map_map (fun i => nth i ts d) entry_site).
      apply StronglySorted_map.
      apply StronglySorted_at; auto. apply expand_sorted.
    + apply (NoDup_map_determined (fun i => i) (site_at ts)).
      * rewrite map_id. apply (StronglySorted_NoDup lt); [intros a; lia | exact Hs].
      * intros x y Hx Hy E.
        destruct (Hcases x Hx) as [(p & Hp & Ex & Sx)|(s & Hg & Hns & Sx)],
                 (Hcases y Hy) as [(q & Hq & Ey & Sy)|(s' & Hg' & Hns' & Sy)].
        -- assert (p = q)
             by (apply (NoDup_map_In_inj fst ps); auto; congruence).
           congruence.
        -- exfalso. apply Hns'. rewrite <- Sy, <- E, Sx. apply in_map, Hp.
        -- exfalso. apply Hns. rewrite <- Sx, E, Sy. apply in_map, Hq.
        -- assert (s = s') by congruence. subst s'. congruence.
  - intros s. split.
    + intros Hin. apply in_map_iff in Hin as (k & <- & Hk).
      apply in_seq in Hk. destruct k as [|k]; [lia|].
      destruct (nth_error w k) as [wt|] eqn:Hn;
        [|apply nth_error_None in Hn; lia].
      destruct (in_dec (fun a b => match site_eqb_spec a b with
                                   | ReflectT _ e => left e
                                   | ReflectF _ ne => right ne
                                   end)
                  (IntSite (Z.of_nat (S k))) (map fst ps)) as [Hm|Hm].
      * apply in_map_iff in Hm as (p & Ep & Hp).
        destruct (Forall2_In_l _ _ _ _ HT Hp) as (t & _ & Hnt & Hst & _).
        apply in_map_iff. exists (snd p). split.
        -- unfold site_at. rewrite (nth_error_nth ts _ d Hnt). congruence.
        -- rewrite Eidx. apply sorted_In, in_or_app. left. apply in_map, Hp.
      * destruct (expand_wt_index k wt Hn) as (i & Hg).
        destruct (wt_index_entry bm ts Hreg _ i Hg) as (t & Hnt & Hst & _).
        apply in_map_iff. exists i. split.
        -- unfold site_at. rewrite (nth_error_nth ts _ d Hnt). exact Hst.
        -- rewrite Eidx. apply sorted_In, in_or_app. right.
           apply (unmentioned_wt_In bm ts Hreg). eauto.
    + intros Hin. apply in_map_iff in Hin as (i & <- & Hi).
      assert (Hent : In (nth i ts d) ts) by (apply nth_In, Hlt, Hi).
      destruct (expand_site_range _ Hent) as (k & E & Hk).
      unfold site_at. rewrite E. apply in_map_iff. exists (S k).
      split; [reflexivity|]. apply in_seq. lia.
Qed.
End ExpandRows.

Lemma length_list_ascii_of_string (s : string) :
  List.length (list_ascii_of_string s) = String.length s.
Proof. induction s as [|c s IH]; simpl; [reflexivity | rewrite IH; reflexivity]. Qed.

Section ExpandClaim.
Context {SO : SetOrder}.

(** C5. In expansion mode, with the wildtype sequence [w] of length [n]:
    [binarylength] is [n] times the size of the alphabet; every site
    [1..n] has a wildtype index, and it is an index at that site; for
    every variant string that [sub_str_to_indices] encodes, the sites of
    the returned indices are exactly [1, 2, ..., n], one index for each
    site, the index of each token of the string is among them and is not
    a wildtype index, and the wildtype index of every site that no token
    mentions is among them; and the rows of [binary_variants] are one for
    each variant string, each of them encoded, each summing to [n]. *)
Theorem expansion_rows (substitutions : list string) (alphabet0 : list ascii)
    (allowed : option (list string)) (sas : bool) (wtseq : option string)
    (bm : BinaryMap) :
  init substitutions alphabet0 allowed sas true wtseq = OK bm ->
  exists w,
    wtseq = Some w
    /\ binarylength bm = String.length w * List.length alphabet0
    /\ (forall k, 1 <= k <= String.length w ->
          exists i,
            PyDict.get site_eqb (_wt_indices bm) (IntSite (Z.of_nat k)) = Some i
            /\ nth_error (binary_sites bm) i = Some (IntSite (Z.of_nat k)))
    /\ (forall sub_str indices,
          sub_str_to_indices bm sub_str = OK indices ->
          map (fun i => nth_error (binary_sites bm) i) indices
          = map (fun k => Some (IntSite (Z.of_nat k))) (seq 1 (String.length w))
          /\ (forall tok, In tok (split sub_str) ->
                exists i, sub_to_i bm tok = OK i /\ In i indices
                          /\ not_wt_index bm i)
          /\ (forall s i,
                PyDict.get site_eqb (_wt_indices bm) s = Some i ->
                (forall tok wt mut,
                    In tok (split sub_str) ->
                    _parse_sub_str (alphabet bm) (sites_as_str bm) tok
                    <> OK (wt, s, mut)) ->
                In i indices))
    /\ Forall2 (fun sub_str row =>
                  (exists indices, sub_str_to_indices bm sub_str = OK indices)
                  /\ zsum row = Z.of_nat (String.length w))
         substitutions (toarray (binary_variants bm)).
Proof.
  intros H.
  apply init_expand_inv in H as (_ & -> & _ & w & -> & Hw & Hb).
  destruct Hb as [_ _ _ Hreg (rows & HF & Ebv)].
  set (cs := list_ascii_of_string w) in *.
  assert (Elen : List.length cs = String.length w)
    by apply length_list_ascii_of_string.
  exists w. split; [reflexivity|]. split.
  { rewrite (rh_length _ _ Hreg), length_expand_entries, Elen. reflexivity. }
  split.
  { intros k Hk. destruct k as [|k]; [lia|].
    destruct (nth_error cs k) as [wt|] eqn:Hn;
      [|apply nth_error_None in Hn; lia].
    destruct (expand_wt_index bm alphabet0 cs Hreg Hw k wt Hn) as (i & Hg).
    exists i. split; [exact Hg|].
    destruct (wt_index_entry bm _ Hreg _ i Hg) as (t & Hnt & Hst & _).
    rewrite (rh_sites _ _ Hreg), nth_error_map, Hnt. cbn [option_map]. rewrite Hst. reflexivity. }
  assert (Hsites : forall sub_str indices,
             sub_str_to_indices bm sub_str = OK indices ->
             map (fun i => nth_error (binary_sites bm) i) indices
             = map (fun k => Some (IntSite (Z.of_nat k)))
                 (seq 1 (String.length w))).
  { intros sub_str indices Hi.
    pose proof (expand_one_per_site bm alphabet0 cs Hreg Hw _ _ Hi) as E.
    apply (encode_structure bm _ Hreg) in Hi
      as (_ & _ & _ & _ & _ & _ & _ & _ & _ & Hlt & _).
    rewrite <- Elen, <- (map_map (fun k => IntSite (Z.of_nat k)) Some), <- E.
    rewrite map_map. apply map_ext_in. intros i Hin.
    apply (site_at_nth bm alphabet0 cs Hreg). auto. }
  split.
  { intros sub_str indices Hi. split; [apply (Hsites sub_str); exact Hi|].
    apply (sub_str_to_indices_OK bm) in Hi as (ps & HFp & Hnd & ->).
    destruct (token_entries bm _ Hreg _ _ HFp) as (tents & HT & _).
    split.
    - intros tok Htok.
      destruct (Forall2_In_l _ _ _ _ HFp Htok) as (p & Hp & _ & Hsi).
      exists (snd p). split; [exact Hsi|]. split.
      + apply sorted_In, in_or_app. left. apply in_map, Hp.
      + destruct (Forall2_In_l _ _ _ _ HT Hp) as (t & _ & Hn & _ & Hwt).
        unfold not_wt_index.
        rewrite (wt_index_set_false bm _ Hreg _ t Hn). exact Hwt.
    - intros s i Hg Hno. apply sorted_In, in_or_app. right.
      apply (unmentioned_wt_In bm _ Hreg). exists s. split; [exact Hg|].
      intros Hin. apply in_map_iff in Hin as (p & <- & Hp).
      destruct (Forall2_In_r _ _ _ _ HFp Hp) as (tok & Htok & (wt & mut & Hpar) & _).
      apply (Hno tok wt mut Htok Hpar). }
  rewrite Ebv.
  assert (Hrows : Forall (fun row => forall c, In c row ->
                                      c < List.length (expand_entries alphabet0 cs))
                    rows).
  { apply Forall_forall. intros row Hrow.
    destruct (Forall2_In_r _ _ _ _ HF Hrow) as (s & _ & Hs).
    apply (encode_structure bm _ Hreg) in Hs
      as (_ & _ & _ & _ & _ & _ & _ & _ & _ & Hlt & _).
    exact Hlt. }
  assert (Hl : List.length rows = List.length substitutions)
    by (symmetry; eapply Forall2_length; eauto).
  pose proof (toarray_rows _ _ rows Hl Hrows) as HT.
  revert HT HF.
  generalize (toarray
                {| shape := (List.length substitutions,
                             List.length (expand_entries alphabet0 cs));
                   coords := coords_from 0 rows |}).
  intros dense HT HF. clear Hl Hrows Ebv. revert dense HT.
  induction HF as [|s row substitutions' rows' Hs HF IH]; intros dense HT;
    inversion HT as [|dn r dense' rows'' Hz HT']; subst; constructor.
  - split; [eauto|]. rewrite Hz. f_equal.
    apply (Hsites s) in Hs. apply (f_equal (@List.length _)) in Hs.
    rewrite !length_map, length_seq in Hs. exact Hs.
  - apply IH. exact HT'.
Qed.
End ExpandClaim.

Lemma expansion_rows_witness :
  exists bm,
    init (SO := first_seen_order) docstring_variants small_alphabet None
      false true (Some "MAKG"%string) = OK bm
    /\ binarylength bm = 24
    /\ Forall (fun row => zsum row = 4%Z) (toarray (binary_variants bm)).
Proof.
  destruct (init (SO := first_seen_order) docstring_variants small_alphabet
              None false true (Some "MAKG"%string)) as [bm|e] eqn:E;
    [|vm_compute in E; discriminate].
  exists bm. split; [reflexivity|].
  destruct (expansion_rows (SO := first_seen_order) _ _ _ _ _ _ E)
    as (w & Ew & Hlen & _ & _ & Hrows).
  injection Ew as <-. split; [exact Hlen|].
  clear - Hrows. induction Hrows as [|s row l l' [_ Hz] _ IH]; constructor; auto.
Defined.


(** ** C3: the order of the indices with [allowed_subs] *)

(** Two entries keep their order from one sorted list to another. *)
Lemma entry_order_kept (alphabet0 : list ascii) (ts0 ts1 : list entry)
    (i0 j0 i1 j1 : nat) (t u : entry) :
  StronglySorted (entry_before alphabet0) ts0 ->
  StronglySorted (entry_before alphabet0) ts1 ->
  nth_error ts0 i0 = Some t -> nth_error ts0 j0 = Some u -> i0 < j0 ->
  nth_error ts1 i1 = Some t -> nth_error ts1 j1 = Some u ->
  (site_le (entry_site u) (entry_site t) -> entry_site t = entry_site u) ->
  i1 < j1.
Proof.
  intros H0 H1 Ht0 Hu0 Hlt Ht1 Hu1 Hanti.
  destruct (entry_before_trans_lt _ _ _ _ _ _ H0 Hlt Ht0 Hu0) as [Hle Hpos].
  destruct (Nat.lt_trichotomy i1 j1) as [L|[E|G]]; [exact L| |]; exfalso.
  - subst j1. assert (t = u) by congruence. subst u.
    apply (pos_lt_irrefl alphabet0 (entry_mut t)). auto.
  - destruct (entry_before_trans_lt _ _ _ _ _ _ H1 G Hu1 Ht1) as [Hle' Hpos'].
    pose proof (Hanti Hle') as E.
    apply (pos_lt_asym alphabet0 (entry_mut t) (entry_mut u)); auto.
Qed.

(** The sites of numeric mode are never equivalent in the natural order. *)
Lemma good_site_int_antisym (s u : site) :
  good_site false s -> good_site false u ->
  site_le s u -> site_le u s -> s = u.
Proof.
  intros Gs Gu Hsu Hus.
  destruct Gs as [_ Es], Gu as [_ Eu]. unfold site_of_group in Es, Eu.
  rewrite <- Es, <- Eu in Hsu, Hus. rewrite <- Es, <- Eu.
  apply site_le_int in Hsu, Hus. f_equal. lia.
Qed.

Section AllowedSubs.
Context {SO : SetOrder}.

Lemma subs_in_variants_Some (substitutions allowed subs : list string) :
  subs_in_variants substitutions (Some allowed) = OK subs ->
  subs = set_iter allowed
  /\ forall x, In x (flat_map split substitutions) -> In x allowed.
Proof.
  unfold subs_in_variants.
  destruct (sorted _ _ _) as [|e l] eqn:E; [|discriminate].
  intros H. inversion H. split; [reflexivity|].
  intros x Hx.
  destruct (mem String.eqb x allowed) eqn:M;
    [apply (mem_In String.eqb x allowed String.eqb_spec); exact M|].
  exfalso.
  assert (Hin : In x (sorted (fun s => s) String.leb
                        (filter (fun s => negb (mem String.eqb s allowed))
                           (set_iter (flat_map split substitutions))))).
  { apply sorted_In, filter_In. split; [apply set_iter_In; exact Hx|].
    rewrite M. reflexivity. }
  rewrite E in Hin. exact Hin.
Qed.

(** C3, as amended. With [allowed_subs] a superset of the substitutions of
    the variants, every supplied substitution gets an index; the indices
    follow one order for all of them, observed or not: the natural order
    of the sites, then the position of the mutant character in the
    alphabet; and where distinct sites are never equivalent in the natural
    order, which is so with numeric sites, two substitutions of the object
    built without [allowed_subs] keep their relative order. *)
Theorem allowed_subs_index_order (substitutions : list string)
    (alphabet0 : list ascii) (allowed : list string) (sas : bool)
    (bm0 bm1 : BinaryMap) :
  init substitutions alphabet0 None sas false None = OK bm0 ->
  init substitutions alphabet0 (Some allowed) sas false None = OK bm1 ->
  (forall sub wt s mut,
      In sub allowed ->
      _parse_sub_str alphabet0 sas sub = OK (wt, s, mut) ->
      in_registry bm1 (sub_string wt s mut))
  /\ (forall x y wx sx mx wy sy my,
         index_lt bm1 x y ->
         _parse_sub_str alphabet0 sas x = OK (wx, sx, mx) ->
         _parse_sub_str alphabet0 sas y = OK (wy, sy, my) ->
         site_le sx sy /\ (sx = sy -> pos_lt alphabet0 mx my))
  /\ (sites_antisym (binary_sites bm1) -> observed_order_kept bm0 bm1)
  /\ (sas = false -> sites_antisym (binary_sites bm1)).
Proof.
  intros H0 H1.
  apply init_observed_inv in H0
    as (_ & _ & subs0 & wts0 & muts0 & E0 & Hc0 & [Ea0 Es0 _ Hreg0 _] & _).
  apply init_observed_inv in H1
    as (_ & _ & subs1 & wts1 & muts1 & E1 & Hc1 & [Ea1 Es1 _ Hreg1 _] & _).
  inversion E0; subst subs0; clear E0.
  apply subs_in_variants_Some in E1 as [-> Hsup].
  set (ts0 := observed_entries alphabet0 wts0 muts0) in *.
  set (ts1 := observed_entries alphabet0 wts1 muts1) in *.
  pose proof (observed_sorted _ _ _ _ _ Hc0) as Hs0. fold ts0 in Hs0.
  pose proof (observed_sorted _ _ _ _ _ Hc1) as Hs1. fold ts1 in Hs1.
  destruct (observed_good _ _ _ _ _ Hc1) as [Hg1 Hnw1]. fold ts1 in Hg1, Hnw1.
  assert (Hinc : forall t, In t ts0 -> In t ts1).
  { intros [[s wt] m] Hin.
    apply (observed_entry_iff _ _ _ _ _ _ _ _ Hc0) in Hin as (sub & Hsub & Hp).
    apply (observed_entry_iff _ _ _ _ _ _ _ _ Hc1). exists sub.
    split; [|exact Hp]. apply set_iter_In, Hsup.
    apply (proj1 (set_iter_In _ _)) in Hsub. exact Hsub. }
  split.
  { intros sub wt s mut Hin Hp.
    assert (Hent : In (s, wt, mut) ts1).
    { apply (observed_entry_iff _ _ _ _ _ _ _ _ Hc1). exists sub.
      split; [apply set_iter_In; exact Hin | exact Hp]. }
    apply In_nth_error in Hent as (i & Hi). exists i.
    apply (sub_to_i_entry bm1 ts1 Hreg1). exists (s, wt, mut). auto. }
  split.
  { intros x y wx sx mx wy sy my (i & j & Hi & Hj & Hlt) Hx Hy.
    rewrite <- Ea1, <- Es1 in Hx, Hy.
    destruct (token_entry bm1 ts1 Hreg1 x wx mx sx i Hx Hi) as [Hni _].
    destruct (token_entry bm1 ts1 Hreg1 y wy my sy j Hy Hj) as [Hnj _].
    apply (entry_before_trans_lt _ _ _ _ _ _ Hs1 Hlt Hni Hnj). }
  split.
  { intros Hanti x y (i0 & j0 & Hi & Hj & Hlt).
    apply (sub_to_i_entry bm0 ts0 Hreg0) in Hi as (t & Hnt & <-).
    apply (sub_to_i_entry bm0 ts0 Hreg0) in Hj as (u & Hnu & <-).
    assert (Ht1 : In t ts1) by (apply Hinc; eapply nth_error_In; eauto).
    assert (Hu1 : In u ts1) by (apply Hinc; eapply nth_error_In; eauto).
    pose proof Ht1 as Ht1'. pose proof Hu1 as Hu1'.
    apply In_nth_error in Ht1' as (i1 & Hi1).
    apply In_nth_error in Hu1' as (j1 & Hj1).
    exists i1, j1.
    split; [apply (sub_to_i_entry bm1 ts1 Hreg1); eauto|].
    split; [apply (sub_to_i_entry bm1 ts1 Hreg1); eauto|].
    apply (entry_order_kept alphabet0 ts0 ts1 i0 j0 i1 j1 t u); auto.
    intros Hle'. apply Hanti; auto.
    - rewrite (rh_sites _ _ Hreg1). apply in_map, Ht1.
    - rewrite (rh_sites _ _ Hreg1). apply in_map, Hu1.
    - destruct (entry_before_trans_lt _ _ _ _ _ _ Hs0 Hlt Hnt Hnu) as [Hle _].
      exact Hle. }
  intros -> s u Hs Hu.
  rewrite (rh_sites _ _ Hreg1) in Hs, Hu.
  apply in_map_iff in Hs as (t & <- & Ht). apply in_map_iff in Hu as (t' & <- & Ht').
  apply good_site_int_antisym; [apply (Hg1 t Ht) | apply (Hg1 t' Ht')].
Qed.
End AllowedSubs.

(** The supplied substitution [A2C] is not observed, and its index is before
    that of the observed [K3A]. *)
Lemma allowed_subs_not_appended_counterexample :
  exists bm0 bm1,
    init (SO := first_seen_order) ["M1A K3A"%string] small_alphabet None
      false false None = OK bm0
    /\ init (SO := first_seen_order) ["M1A K3A"%string] small_alphabet
         (Some ["M1A"; "K3A"; "A2C"]%string) false false None = OK bm1
    /\ all_subs bm1 = OK ["M1A"; "A2C"; "K3A"]%string
    /\ ~ allowed_subs_appended bm0 bm1 ["M1A"; "K3A"; "A2C"]%string.
Proof.
  destruct (init (SO := first_seen_order) ["M1A K3A"%string] small_alphabet None
              false false None) as [bm0|e] eqn:E0;
    [|vm_compute in E0; discriminate].
  destruct (init (SO := first_seen_order) ["M1A K3A"%string] small_alphabet
              (Some ["M1A"; "K3A"; "A2C"]%string) false false None)
    as [bm1|e] eqn:E1; [|vm_compute in E1; discriminate].
  exists bm0, bm1. split; [reflexivity|]. split; [reflexivity|].
  vm_compute in E0. injection E0 as <-.
  vm_compute in E1. injection E1 as <-.
  split; [vm_compute; reflexivity|].
  intros (_ & H & _).
  destruct (H "K3A"%string "A2C"%string) as (i & j & Hi & Hj & Hlt).
  - exists 1. vm_compute. reflexivity.
  - simpl; auto.
  - intros (i & Hi). vm_compute in Hi. discriminate.
  - vm_compute in Hi, Hj. injection Hi as <-. injection Hj as <-. lia.
Qed.

Lemma allowed_subs_index_order_witness :
  exists bm0 bm1,
    init (SO := first_seen_order) ["M1A K3A"%string] small_alphabet None
      false false None = OK bm0
    /\ init (SO := first_seen_order) ["M1A K3A"%string] small_alphabet
         (Some ["M1A"; "K3A"; "A2C"]%string) false false None = OK bm1
    /\ observed_order_kept bm0 bm1.
Proof.
  destruct (init (SO := first_seen_order) ["M1A K3A"%string] small_alphabet None
              false false None) as [bm0|e] eqn:E0;
    [|vm_compute in E0; discriminate].
  destruct (init (SO := first_seen_order) ["M1A K3A"%string] small_alphabet
              (Some ["M1A"; "K3A"; "A2C"]%string) false false None)
    as [bm1|e] eqn:E1; [|vm_compute in E1; discriminate].
  exists bm0, bm1. split; [reflexivity|]. split; [reflexivity|].
  destruct (allowed_subs_index_order (SO := first_seen_order) _ _ _ _ _ _ E0 E1)
    as (_ & _ & Hkept & Hanti).
  apply Hkept, Hanti. reflexivity.
Defined.


(** ** The test against [allowed_subs] *)

Lemma filter_none {A : Type} (f : A -> bool) (l : list A) :
  (forall x, In x l -> f x = false) -> filter f l = [].
Proof.
  induction l as [|a l IH]; intros H; simpl; [reflexivity|].
  rewrite (H a (or_introl eq_refl)). apply IH. intros; apply H; simpl; auto.
Qed.

Section AllowedCheck.
Context {SO : SetOrder}.



Lemma subs_in_variants_superset (substitutions allowed : list string) :
  (forall x, In x (flat_map split substitutions) -> In x allowed) ->
  subs_in_variants substitutions (Some allowed) = OK (set_iter allowed).
Proof.
  intros H. unfold subs_in_variants. rewrite filter_none; [reflexivity|].
  intros x Hx. apply (proj1 (set_iter_In _ _)) in Hx.
  apply H in Hx. apply (mem_In String.eqb x allowed String.eqb_spec) in Hx.
  rewrite Hx. reflexivity.
Qed.

(** The construction in observed-only mode succeeds when its
    preconditions hold. *)
Lemma init_observed_succeeds (substitutions : list string)
    (alphabet0 : list ascii) (allowed : option (list string)) (sas : bool)
    (subs : list string) :
  check_alphabet alphabet0 = OK tt ->
  subs_in_variants substitutions allowed = OK subs ->
  (forall x, In x (flat_map split substitutions) -> In x subs) ->
  (forall sub, In sub subs ->
               exists t, _parse_sub_str alphabet0 sas sub = OK t) ->
  consistent_wts alphabet0 sas subs ->
  (forall s, In s substitutions -> variant_ok alphabet0 sas s) ->
  exists bm, init substitutions alphabet0 allowed sas false None = OK bm.
Proof.
  intros Ha Esubs Hused Hparse Hcons Hvar.
  unfold init. rewrite Ha. cbn [bind]. rewrite Esubs. cbn [bind].
  destruct (collect_loop_OK alphabet0 sas subs [] [] []
              (collected_nil _ _) Hparse Hcons) as ([wts muts] & Ec).
  match goal with
  | |- context [bind ?c _] => replace c with (OK (wts, muts) : result _)
  end.
  cbn [bind].
  pose proof (collect_loop _ _ _ [] _ _ _ _ (collected_nil _ _) Ec) as Hc.
  simpl app in Hc.
  unfold assign_observed.
  change empty_registry with (registry_of [] []).
  destruct (observed_sites_loop_OK alphabet0 muts
              (natsorted (PyDict.items wts)) [] []) as (r & Er).
  { intros it _. apply sorted_muts_OK. intros m Hm.
    destruct (col_muts _ _ _ _ _ Hc _ _ Hm) as (sub & wt & _ & Hp).
    apply parse_OK_good in Hp. tauto. }
  rewrite Er. cbn [bind].
  apply observed_sites_loop in Er as [-> _]. simpl app.
  set (ts := observed_entries alphabet0 wts muts).
  destruct (observed_good _ _ _ _ _ Hc) as [Hg Hnw]. fold ts in Hg, Hnw.
  pose proof (observed_NoDup _ _ _ _ _ Hc) as Hnd. fold ts in Hnd.
  pose proof (observed_wt_indices_ok ts Hnw) as Hwi.
  apply finish_succeeds; auto.
  intros s Hs.
  set (bm0 := object_of substitutions alphabet0 sas (registry_of ts []) empty_csr).
  assert (Hreg : registry_holds bm0 ts) by (apply object_holds; auto).
  destruct (Hvar s Hs) as (ps0 & HF & Hsites).
  assert (Htoks : forall tok, In tok (split s) -> In tok subs).
  { intros tok Htok. apply Hused, in_flat_map. eauto. }
  assert (Hps : exists ps, Forall2 (token_at bm0) (split s) ps
                           /\ map fst ps = map parsed_site ps0).
  { clear Hsites. revert HF Htoks. generalize (split s). intros toks0 HF.
    induction HF as [|tok [[wt st] mut] toks ps0 [Hp Etok] HF IH]; intros Htoks.
    - exists []. split; constructor.
    - destruct IH as (ps & HFp & Emap);
        [intros; apply Htoks; simpl; auto|].
      assert (Hent : In (st, wt, mut) ts).
      { apply (observed_entry_iff _ _ _ _ _ _ _ _ Hc). exists tok.
        split; [apply Htoks; simpl; auto | exact Hp]. }
      apply In_nth_error in Hent as (i & Hi).
      exists ((st, i) :: ps). split.
      + constructor; [|exact HFp]. split.
        * exists wt, mut. exact Hp.
        * apply (sub_to_i_entry bm0 ts Hreg). exists (st, wt, mut).
          split; [exact Hi|]. cbn [fst snd] in Etok. symmetry. exact Etok.
      + simpl. rewrite Emap. reflexivity. }
  destruct Hps as (ps & HFp & Emap).
  assert (Erow : sub_str_to_indices bm0 s
                 = OK (sorted (fun i => i) Nat.leb
                         (map snd ps ++ unmentioned_wt bm0 (map fst ps)))).
  { apply sub_str_to_indices_OK. exists ps. rewrite Emap. auto. }
  eexists. split; [exact Erow|].
  apply (encode_structure bm0 ts Hreg) in Erow
    as (_ & _ & _ & _ & _ & _ & _ & _ & _ & Hlt & _).
  exact Hlt.
Qed.
End AllowedCheck.


(** * Further properties of the class *)

(** ** The lookups *)

(** The entries that are not wildtype entries, read at all the indices. *)
Lemma mutant_entries_all (ts : list entry) (a : nat) (pre : list entry) :
  List.length pre = a ->
  mutant_entries (pre ++ ts) (seq a (List.length ts))
  = filter (fun t => negb (is_wt_entry t)) ts.
Proof.
  revert a pre; induction ts as [|t ts IH]; intros a pre Hlen; [reflexivity|].
  cbn [List.length seq]. unfold mutant_entries. cbn [flat_map].
  rewrite nth_error_app2 by lia. replace (a - List.length pre) with 0 by lia.
  cbn [nth_error filter].
  replace (pre ++ t :: ts) with ((pre ++ [t]) ++ ts)
    by (rewrite <- app_assoc; reflexivity).
  fold (mutant_entries ((pre ++ [t]) ++ ts) (seq (S a) (List.length ts))).
  rewrite (IH (S a) (pre ++ [t])) by (rewrite length_app; simpl; lia).
  destruct (is_wt_entry t); reflexivity.
Qed.

Section Lookup.
Variables (bm : BinaryMap) (ts : list entry).
Hypothesis Hreg : registry_holds bm ts.

Lemma all_subs_entries :
  all_subs bm
  = OK (map entry_sub (filter (fun t => negb (is_wt_entry t)) ts)).
Proof.
  unfold all_subs. rewrite (rh_length _ _ Hreg).
  rewrite (mapM_total (i_to_sub bm) (sub_at ts)).
  - cbn [bind]. rewrite (filter_sub_at ts).
    pose proof (mutant_entries_all ts 0 [] eq_refl) as E. cbn [app] in E.
    rewrite E. reflexivity.
  - intros i Hi. apply in_seq in Hi.
    apply (i_to_sub_sub_at bm ts Hreg). lia.
Qed.

Lemma entry_sub_inj_reg (t u : entry) :
  In t ts -> In u ts -> entry_sub t = entry_sub u -> t = u.
Proof.
  intros Ht Hu E. apply (NoDup_map_In_inj entry_sub ts); auto.
  apply (rh_nodup _ _ Hreg).
Qed.

Lemma all_subs_In (x : string) :
  In x (map entry_sub (filter (fun t => negb (is_wt_entry t)) ts))
  <-> exists i, sub_to_i bm x = OK i /\ not_wt_index bm i.
Proof.
  rewrite in_map_iff. split.
  - intros (t & <- & Hin). apply filter_In in Hin as [Hin Hw].
    apply In_nth_error in Hin as (i & Hi). exists i. split.
    + apply (sub_to_i_entry bm ts Hreg). eauto.
    + unfold not_wt_index. rewrite (wt_index_set_false bm ts Hreg i t Hi).
      apply negb_true_iff. exact Hw.
  - intros (i & Hi & Hw).
    apply (sub_to_i_entry bm ts Hreg) in Hi as (t & Hn & <-).
    exists t. split; [reflexivity|]. apply filter_In.
    split; [eapply nth_error_In; eauto|].
    unfold not_wt_index in Hw.
    rewrite (wt_index_set_false bm ts Hreg i t Hn) in Hw. rewrite Hw. reflexivity.
Qed.

Lemma all_subs_sorted :
  StronglySorted (index_lt bm)
    (map entry_sub (filter (fun t => negb (is_wt_entry t)) ts)).
Proof.
  apply StronglySorted_map.
  assert (G : forall pre l, ts = pre ++ l ->
              StronglySorted
                (fun a b => index_lt bm (entry_sub a) (entry_sub b))
                (filter (fun t => negb (is_wt_entry t)) l)).
  { intros pre l; revert pre; induction l as [|t l IH]; intros pre E;
      [constructor|].
    assert (Hrest : StronglySorted
                      (fun a b => index_lt bm (entry_sub a) (entry_sub b))
                      (filter (fun t => negb (is_wt_entry t)) l)).
    { apply (IH (pre ++ [t])). rewrite <- app_assoc. exact E. }
    cbn [filter]. destruct (negb (is_wt_entry t)); [|exact Hrest].
    constructor; [exact Hrest|]. apply Forall_forall. intros u Hu.
    apply filter_In in Hu as [Hu _]. apply In_nth_error in Hu as (j & Hj).
    exists (List.length pre), (S (List.length pre + j)).
    split; [|split; [|lia]]; apply (sub_to_i_entry bm ts Hreg).
    - exists t. split; [|reflexivity]. rewrite E.
      rewrite nth_error_app2 by lia. rewrite Nat.sub_diag. reflexivity.
    - exists u. split; [|reflexivity]. rewrite E.
      rewrite nth_error_app2 by lia.
      replace (S (List.length pre + j) - List.length pre) with (S j) by lia.
      exact Hj. }
  apply (G [] ts). reflexivity.
Qed.
End Lookup.

Section LookupProperties.
Context {SO : SetOrder}.

(** X1. On a constructed object [i_to_sub] returns on every index below
    [binarylength], and raises the [ValueError] "invalid i" on every index
    from [binarylength] on; the [ValueError] "unexpected error" of its
    handler is never raised. *)
Theorem i_to_sub_bounds (substitutions : list string)
    (alphabet0 : list ascii) (allowed : option (list string))
    (sas expand : bool) (wtseq : option string) (bm : BinaryMap) (i : nat) :
  init substitutions alphabet0 allowed sas expand wtseq = OK bm ->
  (i < binarylength bm -> exists sub, i_to_sub bm i = OK sub)
  /\ (binarylength bm <= i -> i_to_sub bm i = raise (MsgInvalidIndex i))
  /\ i_to_sub bm i <> raise (MsgUnexpectedIndex i).
Proof.
  intros H. apply init_built in H as (ts & [_ _ _ Hreg _]).
  assert (H1 : i < binarylength bm -> i_to_sub bm i = OK (sub_at ts i)).
  { intros Hlt. apply (i_to_sub_sub_at bm ts Hreg).
    rewrite <- (rh_length _ _ Hreg). exact Hlt. }
  pose proof (i_to_sub_out bm ts Hreg i) as H2.
  split; [eauto|]. split; [exact H2|].
  destruct (Nat.lt_ge_cases i (binarylength bm)) as [Hlt|Hge].
  - rewrite (H1 Hlt). discriminate.
  - rewrite (H2 Hge). discriminate.
Qed.

(** X2. [all_subs] of a constructed object returns, without repetition
    and in the order of their indices, exactly the substitutions that have
    an index which is not a wildtype index; [i_to_sub] gives each of them
    back from its index. *)
Theorem all_subs_lists_registry (substitutions : list string)
    (alphabet0 : list ascii) (allowed : option (list string))
    (sas expand : bool) (wtseq : option string) (bm : BinaryMap) :
  init substitutions alphabet0 allowed sas expand wtseq = OK bm ->
  exists l,
    all_subs bm = OK l
    /\ NoDup l
    /\ StronglySorted (index_lt bm) l
    /\ (forall x, In x l <->
                  exists i, sub_to_i bm x = OK i /\ not_wt_index bm i)
    /\ (forall x, In x l ->
                  exists i, sub_to_i bm x = OK i /\ i_to_sub bm i = OK x).
Proof.
  intros H. apply init_built in H as (ts & [_ _ _ Hreg _]).
  exists (map entry_sub (filter (fun t => negb (is_wt_entry t)) ts)).
  split; [apply (all_subs_entries bm ts Hreg)|].
  split.
  { apply NoDup_map_on.
    - intros t u Ht Hu. apply filter_In in Ht as [Ht _], Hu as [Hu _].
      apply (entry_sub_inj_reg bm ts Hreg); auto.
    - apply NoDup_filter. apply (NoDup_map_inv entry_sub).
      apply (rh_nodup _ _ Hreg). }
  split; [apply (all_subs_sorted bm ts Hreg)|].
  split; [apply (all_subs_In bm ts Hreg)|].
  intros x Hx. apply (all_subs_In bm ts Hreg) in Hx as (i & Hi & Hw).
  exists i. split; [exact Hi|].
  apply (sub_to_i_entry bm ts Hreg) in Hi as (t & Hn & <-).
  rewrite (i_to_sub_entry bm ts Hreg i t Hn).
  unfold not_wt_index in Hw.
  rewrite (wt_index_set_false bm ts Hreg i t Hn) in Hw. rewrite Hw. reflexivity.
Qed.

(** The list [binary_sites] filled by the loops has one entry for
    every index; the entry at the index of a substitution is the site of
    the substitution, the entry at a wildtype index is the site of that
    wildtype; and the sites stand in the natural order. *)
Lemma init_sites_list_parallel (substitutions : list string)
    (alphabet0 : list ascii) (allowed : option (list string))
    (sas expand : bool) (wtseq : option string) (bm : BinaryMap) :
  init substitutions alphabet0 allowed sas expand wtseq = OK bm ->
  List.length (binary_sites bm) = binarylength bm
  /\ (forall sub i wt s mut,
         sub_to_i bm sub = OK i ->
         _parse_sub_str (alphabet bm) (sites_as_str bm) sub = OK (wt, s, mut) ->
         nth_error (binary_sites bm) i = Some s)
  /\ (forall s i, PyDict.get site_eqb (_wt_indices bm) s = Some i ->
                  nth_error (binary_sites bm) i = Some s)
  /\ StronglySorted site_le (binary_sites bm).
Proof.
  intros H. apply init_built_sorted in H as (ts & [_ _ _ Hreg _] & Hs).
  rewrite (rh_sites _ _ Hreg), (rh_length _ _ Hreg), length_map.
  split; [reflexivity|]. split.
  { intros sub i wt s mut Hi Hp.
    destruct (token_entry bm ts Hreg sub wt mut s i Hp Hi) as [Hn _].
    rewrite nth_error_map, Hn. reflexivity. }
  split.
  { intros s i Hg.
    destruct (wt_index_entry bm ts Hreg s i Hg) as (t & Hn & Hst & _).
    rewrite nth_error_map, Hn. cbn [option_map]. rewrite Hst. reflexivity. }
  apply StronglySorted_map. exact Hs.
Qed.
End LookupProperties.


(** ** The encoding of a variant string *)

(** The pairs of the loop of [sub_str_to_indices], and the triples the
    tokens parse to. *)
Lemma token_at_parsed (bm : BinaryMap) (toks : list string)
    (ps : list (site * nat)) :
  Forall2 (token_at bm) toks ps ->
  exists ps0, tokens_parse bm toks ps0 /\ map parsed_site ps0 = map fst ps.
Proof.
  induction 1 as [|tok [s i] toks ps [(wt & mut & Hp) _] _ (ps0 & HF & E)].
  - exists []. split; constructor.
  - exists ((wt, s, mut) :: ps0). split; [constructor; assumption|].
    simpl. rewrite E. reflexivity.
Qed.

Lemma parsed_token_at (bm : BinaryMap) (toks : list string)
    (ps0 : list (ascii * site * ascii)) :
  tokens_parse bm toks ps0 ->
  (forall tok, In tok toks -> in_registry bm tok) ->
  exists ps, Forall2 (token_at bm) toks ps /\ map fst ps = map parsed_site ps0.
Proof.
  induction 1 as [|tok [[wt s] mut] toks ps0 Hp _ IH]; intros Hreg.
  - exists []. split; constructor.
  - destruct IH as (ps & HF & E); [intros; apply Hreg; simpl; auto|].
    destruct (Hreg tok (or_introl eq_refl)) as (i & Hi).
    exists ((s, i) :: ps). split.
    + constructor; [|exact HF]. split; [exists wt, mut; exact Hp | exact Hi].
    + simpl. rewrite E. reflexivity.
Qed.

(** X4. [sub_str_to_indices] returns exactly when every token of the string
    parses, the sites of the tokens are all different, and every token has
    an index in the map; when it raises, it raises a [ValueError] about a
    token of the string: the token is invalid for the alphabet, has the same
    wildtype and mutant, is at a site that an earlier token has, or is not
    in the map. *)
Theorem sub_str_to_indices_succeeds_iff (bm : BinaryMap) (sub_str : string) :
  ((exists indices, sub_str_to_indices bm sub_str = OK indices) <->
   exists ps0,
     tokens_parse bm (split sub_str) ps0
     /\ NoDup (map parsed_site ps0)
     /\ forall tok, In tok (split sub_str) -> in_registry bm tok)
  /\ (forall e, sub_str_to_indices bm sub_str = Err e ->
        exists tok,
          In tok (split sub_str)
          /\ (e = ValueError (MsgInvalidSub tok)
              \/ e = ValueError (MsgSameWtMut tok)
              \/ e = ValueError (MsgMultipleSubsAtSite sub_str)
              \/ e = ValueError (MsgSubNotInMap tok))).
Proof.
  split; [split|].
  - intros (indices & H).
    apply sub_str_to_indices_OK in H as (ps & HF & Hnd & _).
    destruct (token_at_parsed bm _ _ HF) as (ps0 & HF0 & E).
    exists ps0. split; [exact HF0|]. split; [rewrite E; exact Hnd|].
    intros tok Htok.
    destruct (Forall2_In_l _ _ _ _ HF Htok) as (p & _ & _ & Hi).
    exists (snd p). exact Hi.
  - intros (ps0 & HF0 & Hnd & Hreg).
    destruct (parsed_token_at bm _ _ HF0 Hreg) as (ps & HF & E).
    eexists. apply sub_str_to_indices_OK. exists ps.
    split; [exact HF|]. split; [rewrite E; exact Hnd | reflexivity].
  - intros e H. unfold sub_str_to_indices in H.
    apply bind_Err in H as [H | ([sites idx] & _ & H)]; [|discriminate].
    refine (foldM_Err
              (fun e => exists tok,
                   In tok (split sub_str)
                   /\ (e = ValueError (MsgInvalidSub tok)
                       \/ e = ValueError (MsgSameWtMut tok)
                       \/ e = ValueError (MsgMultipleSubsAtSite sub_str)
                       \/ e = ValueError (MsgSubNotInMap tok)))
              (indices_step bm sub_str) (split sub_str) _ _ e H).
    intros st tok e0 Hin Hstep. exists tok.
    split; [exact Hin | apply (indices_step_Err bm sub_str tok st e0 Hstep)].
Qed.

(** ** The binary vector *)

Lemma zsum_flatnonzero (b : list Z) (a : nat) :
  forallb is_0_or_1 b = true ->
  zsum b = Z.of_nat (List.length (flatnonzero_from a b)).
Proof.
  revert a; induction b as [|x b IH]; intros a H; [reflexivity|].
  simpl in H. apply andb_true_iff in H as [Hx Hb].
  unfold zsum in *. cbn [fold_right flatnonzero_from].
  rewrite (IH (S a) Hb). unfold is_0_or_1 in Hx.
  apply orb_true_iff in Hx as [Hx|Hx]; apply Z.eqb_eq in Hx; subst x.
  - reflexivity.
  - cbn [Z.eqb List.length]. lia.
Qed.

Lemma is_0_or_1_In (b : list Z) :
  forallb is_0_or_1 b = true -> forall v, In v b -> v = 0%Z \/ v = 1%Z.
Proof.
  intros H v Hv. rewrite forallb_forall in H. specialize (H v Hv).
  unfold is_0_or_1 in H.
  apply orb_true_iff in H as [H|H]; apply Z.eqb_eq in H; auto.
Qed.

Section BinaryVector.
Variables (bm : BinaryMap) (ts : list entry).
Hypothesis Hreg : registry_holds bm ts.

(** [sub_str_to_binary] after [sub_str_to_indices]. *)
Lemma sub_str_to_binary_OK (sub_str : string) (indices : list nat) :
  sub_str_to_indices bm sub_str = OK indices ->
  sub_str_to_binary bm sub_str
  = OK (map (fun i => if mem Nat.eqb i indices then 1%Z else 0%Z)
          (seq 0 (binarylength bm)))
  /\ StronglySorted lt indices
  /\ forall i, In i indices -> i < binarylength bm.
Proof.
  intros H. pose proof H as H0.
  apply (encode_structure bm ts Hreg) in H
    as (_ & _ & _ & _ & _ & _ & _ & _ & Hs & Hlt & _).
  rewrite (rh_length _ _ Hreg).
  split; [|split; assumption].
  unfold sub_str_to_binary. rewrite H0. cbn [bind].
  rewrite (rh_length _ _ Hreg).
  replace (forallb (fun i => i <? List.length ts) indices) with true;
    [reflexivity|].
  symmetry. apply forallb_forall. intros i Hi. apply Nat.ltb_lt. auto.
Qed.
End BinaryVector.

Section EncodingProperties.
Context {SO : SetOrder}.

(** X5. On a constructed object [sub_str_to_binary] returns exactly when
    [sub_str_to_indices] does, and raises the same [ValueError] otherwise:
    the assignment [binrep[indices] = 1] never meets an index out of
    range. The vector returned has the length [binarylength], holds only
    0 and 1, its nonzero positions are the indices of
    [sub_str_to_indices], in increasing order, and its sum is their
    number. *)
Theorem sub_str_to_binary_vector (substitutions : list string)
    (alphabet0 : list ascii) (allowed : option (list string))
    (sas expand : bool) (wtseq : option string) (bm : BinaryMap)
    (sub_str : string) :
  init substitutions alphabet0 allowed sas expand wtseq = OK bm ->
  (forall indices,
      sub_str_to_indices bm sub_str = OK indices ->
      exists b,
        sub_str_to_binary bm sub_str = OK b
        /\ List.length b = binarylength bm
        /\ (forall v, In v b -> v = 0%Z \/ v = 1%Z)
        /\ flatnonzero b = indices
        /\ StronglySorted lt indices
        /\ zsum b = Z.of_nat (List.length indices))
  /\ (forall e, sub_str_to_indices bm sub_str = Err e ->
                sub_str_to_binary bm sub_str = Err e /\ is_ValueError e).
Proof.
  intros H. apply init_built in H as (ts & [_ _ _ Hreg _]). split.
  - intros indices Hi.
    destruct (sub_str_to_binary_OK bm ts Hreg _ _ Hi) as (Eb & Hs & Hlt).
    eexists. split; [exact Eb|].
    pose proof (indicator_0_or_1 indices (binarylength bm)) as H01.
    pose proof (flatnonzero_indicator indices (binarylength bm) Hs Hlt) as Ef.
    split; [rewrite length_map, length_seq; reflexivity|].
    split; [apply is_0_or_1_In; exact H01|].
    split; [exact Ef|]. split; [exact Hs|].
    rewrite (zsum_flatnonzero _ 0 H01).
    unfold flatnonzero in Ef. rewrite Ef. reflexivity.
  - intros e He. split; [|apply (sub_str_to_indices_Err bm sub_str e He)].
    unfold sub_str_to_binary. rewrite He. reflexivity.
Qed.
End EncodingProperties.


(** ** The matrix of the variants *)

Lemma filter_coord_other (l : list nat) (a r c : nat) :
  a <> r -> filter (coord_eqb (r, c)) (map (fun isub => (a, isub)) l) = [].
Proof.
  intros Hne. induction l as [|x l IH]; [reflexivity|].
  cbn [map filter]. unfold coord_eqb at 1. cbn [fst snd].
  replace (r =? a) with false by (symmetry; apply Nat.eqb_neq; congruence).
  cbn [andb]. exact IH.
Qed.

Lemma filter_coord_same (l : list nat) (r c : nat) :
  NoDup l ->
  List.length (filter (coord_eqb (r, c)) (map (fun isub => (r, isub)) l))
  = if mem Nat.eqb c l then 1 else 0.
Proof.
  induction 1 as [|x l Hx Hnd IH]; [reflexivity|].
  unfold mem in *. cbn [map filter existsb]. unfold coord_eqb at 1. cbn [fst snd].
  rewrite Nat.eqb_refl. cbn [andb].
  destruct (Nat.eqb_spec c x) as [->|Hne].
  - cbn [orb List.length]. rewrite IH.
    replace (existsb (Nat.eqb x) l) with false; [reflexivity|].
    symmetry. apply (mem_false Nat.eqb x l Nat.eqb_spec). exact Hx.
  - cbn [orb]. exact IH.
Qed.

Lemma filter_coords_after (rows : list (list nat)) (a r c : nat) :
  r < a -> filter (coord_eqb (r, c)) (coords_from a rows) = [].
Proof.
  revert a; induction rows as [|x rows IH]; intros a Ha; [reflexivity|].
  cbn [coords_from]. rewrite filter_app, (IH (S a)) by lia.
  rewrite filter_coord_other by lia. reflexivity.
Qed.

(** An entry of the matrix is 1 where the row of the variant holds the
    column, 0 elsewhere. *)
Lemma coords_from_entry (rows : list (list nat)) (a r c : nat) (row : list nat) :
  a <= r -> nth_error rows (r - a) = Some row -> NoDup row ->
  List.length (filter (coord_eqb (r, c)) (coords_from a rows))
  = if mem Nat.eqb c row then 1 else 0.
Proof.
  revert a; induction rows as [|row0 rows IH]; intros a Hle Hn Hnd.
  - destruct (r - a); discriminate.
  - cbn [coords_from]. rewrite filter_app, length_app.
    destruct (r - a) as [|k] eqn:E.
    + simpl in Hn. inversion Hn; subst row0.
      assert (a = r) by lia. subst a.
      rewrite (filter_coord_same row r c Hnd).
      rewrite (filter_coords_after rows (S r) r c) by lia. simpl. lia.
    + simpl in Hn. rewrite filter_coord_other by lia.
      rewrite (IH (S a)); auto; [lia|].
      replace (r - S a) with k by lia. exact Hn.
Qed.

Lemma toarray_indicator (nrows ncols : nat) (rows : list (list nat)) :
  List.length rows = nrows -> Forall (@NoDup nat) rows ->
  toarray {| shape := (nrows, ncols); coords := coords_from 0 rows |}
  = map (fun row => map (fun i => if mem Nat.eqb i row then 1%Z else 0%Z)
                      (seq 0 ncols)) rows.
Proof.
  intros Hlen Hnd. unfold toarray. cbn [shape fst snd].
  apply nth_error_ext. intros r.
  rewrite !nth_error_map.
  destruct (nth_error rows r) as [row|] eqn:Hr.
  - assert (Hlt : r < nrows)
      by (rewrite <- Hlen; apply nth_error_Some; congruence).
    rewrite nth_error_seq. apply Nat.ltb_lt in Hlt. rewrite Hlt.
    cbn [option_map Nat.add]. f_equal. apply map_ext. intros c.
    unfold csr_get. cbn [coords].
    rewrite (coords_from_entry rows 0 r c row); [| lia | rewrite Nat.sub_0_r; exact Hr |].
    + destruct (mem Nat.eqb c row); reflexivity.
    + rewrite Forall_forall in Hnd. apply Hnd. eapply nth_error_In; eauto.
  - assert (Hge : nrows <= r) by (rewrite <- Hlen; apply nth_error_None; exact Hr).
    replace (nth_error (seq 0 nrows) r) with (@None nat); [reflexivity|].
    symmetry. apply nth_error_None. rewrite length_seq. exact Hge.
Qed.

Section MatrixProperties.
Context {SO : SetOrder}.

Lemma init_nvariants (substitutions : list string) (alphabet0 : list ascii)
    (allowed : option (list string)) (sas expand : bool)
    (wtseq : option string) (bm : BinaryMap) :
  init substitutions alphabet0 allowed sas expand wtseq = OK bm ->
  nvariants bm = List.length substitutions.
Proof.
  unfold init. intros H. inv_bind H. inv_bind H. inv_bind H.
  destruct a1 as [wts muts]. inv_bind H.
  unfold finish in H.
  destruct (negb _); [discriminate|]. inv_bind H. inv_bind H.
  inversion H. reflexivity.
Qed.

(** X6. The matrix [binary_variants] of a constructed object has one row
    for every variant and one column for every index, and its row for a
    variant is the vector that [sub_str_to_binary] returns for the
    substitution string of the variant; [nvariants] is the number of the
    variants. *)
Theorem binary_variants_rows (substitutions : list string)
    (alphabet0 : list ascii) (allowed : option (list string))
    (sas expand : bool) (wtseq : option string) (bm : BinaryMap) :
  init substitutions alphabet0 allowed sas expand wtseq = OK bm ->
  shape (binary_variants bm) = (nvariants bm, binarylength bm)
  /\ nvariants bm = List.length substitutions
  /\ substitution_variants bm = substitutions
  /\ Forall2 (fun sub_str row => sub_str_to_binary bm sub_str = OK row)
       substitutions (toarray (binary_variants bm)).
Proof.
  intros H. pose proof (init_nvariants _ _ _ _ _ _ _ H) as Hn.
  apply init_built in H as (ts & [_ _ Hv Hreg (rows & HF & Ebv)]).
  rewrite Ebv, Hn, (rh_length _ _ Hreg). cbn [shape].
  split; [reflexivity|]. split; [reflexivity|]. split; [exact Hv|].
  rewrite toarray_indicator.
  - clear Ebv Hv Hn.
    induction HF as [|s row l rows' Hs HF IH]; cbn [map]; constructor;
      [|exact IH].
    destruct (sub_str_to_binary_OK bm ts Hreg _ _ Hs) as (Eb & _).
    rewrite Eb, (rh_length _ _ Hreg). reflexivity.
  - symmetry. eapply Forall2_length; eauto.
  - apply Forall_forall. intros row Hrow.
    destruct (Forall2_In_r _ _ _ _ HF Hrow) as (s & _ & Hs).
    destruct (sub_str_to_binary_OK bm ts Hreg _ _ Hs) as (_ & Hsorted & _).
    apply (StronglySorted_NoDup lt); [intros a; lia | exact Hsorted].
Qed.
End MatrixProperties.

(** ** The order of the tokens *)

Lemma Forall2_Permutation {A B : Type} (R : A -> B -> Prop) (l1 l1' : list A) :
  Permutation l1 l1' ->
  forall l2, Forall2 R l1 l2 ->
             exists l2', Permutation l2 l2' /\ Forall2 R l1' l2'.
Proof.
  induction 1 as [|x l1 l1' Hp IH|x y l1|l1 l1' l1'' H1 IH1 H2 IH2]; intros l2 HF.
  - inversion HF; subst. exists []. split; constructor.
  - inversion HF as [|? b ? l2r Hxb HFr]; subst.
    destruct (IH _ HFr) as (l2' & Hp' & HF').
    exists (b :: l2'). split; [constructor; exact Hp' | constructor; assumption].
  - inversion HF as [|? b ? l2r Hyb HFr]; subst.
    inversion HFr as [|? c ? l2s Hxc HFs]; subst.
    exists (c :: b :: l2s). split; [apply perm_swap|].
    constructor; [exact Hxc|]. constructor; assumption.
  - destruct (IH1 _ HF) as (m & Hpm & HFm).
    destruct (IH2 _ HFm) as (m' & Hpm' & HFm').
    exists m'. split; [eapply Permutation_trans; eauto | exact HFm'].
Qed.

(** Two sorted lists of numbers with the same elements are one list. *)
Lemma sorted_le_unique (l1 l2 : list nat) :
  StronglySorted le l1 -> StronglySorted le l2 -> Permutation l1 l2 -> l1 = l2.
Proof.
  intros H1. revert l2. induction H1 as [|a l1 Hs1 IH Ha]; intros l2 H2 Hp.
  - apply Permutation_nil in Hp. subst. reflexivity.
  - destruct H2 as [|b l2 Hs2 Hb].
    + symmetry in Hp. apply Permutation_nil in Hp. discriminate.
    + rewrite Forall_forall in Ha, Hb.
      assert (a = b).
      { assert (Hab : In a (b :: l2))
          by (apply (Permutation_in _ Hp); simpl; auto).
        assert (Hba : In b (a :: l1))
          by (apply (Permutation_in _ (Permutation_sym Hp)); simpl; auto).
        destruct Hab as [E|Hab]; [congruence|].
        destruct Hba as [E|Hba]; [congruence|].
        specialize (Ha b Hba). specialize (Hb a Hab). lia. }
      subst b. f_equal. apply IH; [exact Hs2|].
      apply (Permutation_cons_inv Hp).
Qed.

Lemma sorted_nat_Permutation (l1 l2 : list nat) :
  Permutation l1 l2 ->
  sorted (fun i => i) Nat.leb l1 = sorted (fun i => i) Nat.leb l2.
Proof.
  intros Hp. apply sorted_le_unique.
  - eapply StronglySorted_weaken;
      [|apply (sorted_sorted (fun i : nat => i) Nat.leb nat_leb_total nat_leb_trans)].
    intros a b _ _ H. apply Nat.leb_le. exact H.
  - eapply StronglySorted_weaken;
      [|apply (sorted_sorted (fun i : nat => i) Nat.leb nat_leb_total nat_leb_trans)].
    intros a b _ _ H. apply Nat.leb_le. exact H.
  - eapply Permutation_trans; [apply sorted_perm|].
    eapply Permutation_trans; [exact Hp|]. symmetry. apply sorted_perm.
Qed.

Lemma unmentioned_wt_Permutation (bm : BinaryMap) (l1 l2 : list site) :
  Permutation l1 l2 -> unmentioned_wt bm l1 = unmentioned_wt bm l2.
Proof.
  intros Hp. unfold unmentioned_wt. f_equal. apply filter_ext. intros [s i].
  cbn [fst]. f_equal.
  destruct (mem site_eqb s l1) eqn:M1, (mem site_eqb s l2) eqn:M2; auto.
  - apply (mem_In site_eqb s l1 site_eqb_spec) in M1.
    apply (mem_false site_eqb s l2 site_eqb_spec) in M2.
    exfalso. apply M2. apply (Permutation_in _ Hp). exact M1.
  - apply (mem_In site_eqb s l2 site_eqb_spec) in M2.
    apply (mem_false site_eqb s l1 site_eqb_spec) in M1.
    exfalso. apply M1. apply (Permutation_in _ (Permutation_sym Hp)). exact M2.
Qed.

Lemma indices_Permutation (bm : BinaryMap) (s1 s2 : string)
    (indices : list nat) :
  Permutation (split s1) (split s2) ->
  sub_str_to_indices bm s1 = OK indices ->
  sub_str_to_indices bm s2 = OK indices.
Proof.
  intros Hp H. apply sub_str_to_indices_OK in H as (ps & HF & Hnd & ->).
  destruct (Forall2_Permutation _ _ _ Hp _ HF) as (ps' & Hpp & HF').
  apply sub_str_to_indices_OK. exists ps'. split; [exact HF'|].
  split.
  - apply (Permutation_NoDup (l := map fst ps)); [|exact Hnd].
    apply Permutation_map. exact Hpp.
  - rewrite (unmentioned_wt_Permutation bm (map fst ps) (map fst ps'))
      by (apply Permutation_map; exact Hpp).
    apply sorted_nat_Permutation. apply Permutation_app_tail.
    apply Permutation_map. exact Hpp.
Qed.

(** X7. The indices that [sub_str_to_indices] returns do not depend on the
    order of the tokens, nor on the whitespace between them: two strings
    with the same tokens, in any order, have the same encoding, and so the
    same vector. *)
Theorem sub_str_to_indices_token_order (bm : BinaryMap)
    (s1 s2 : string) (indices : list nat) :
  Permutation (split s1) (split s2) ->
  sub_str_to_indices bm s1 = OK indices ->
  sub_str_to_indices bm s2 = OK indices
  /\ sub_str_to_binary bm s2 = sub_str_to_binary bm s1.
Proof.
  intros Hp H. pose proof (indices_Permutation bm s1 s2 indices Hp H) as H2.
  split; [exact H2|]. unfold sub_str_to_binary. rewrite H, H2. reflexivity.
Qed.


(** ** Splitting and joining *)

Lemma no_space_app (a b : string) :
  no_space (a ++ b) = no_space a && no_space b.
Proof. apply string_forall_app. Qed.

Lemma is_empty_app (a b : string) :
  is_empty (a ++ b) = is_empty a && is_empty b.
Proof. destruct a; reflexivity. Qed.

Lemma split_from_token (tok cur r : string) :
  no_space tok = true ->
  split_from cur (tok ++ r) = split_from (cur ++ tok) r.
Proof.
  revert cur; induction tok as [|c t IH]; intros cur H.
  - rewrite append_nil_r. reflexivity.
  - unfold no_space in H. cbn [string_forall] in H.
    apply andb_true_iff in H as [Hc Ht]. apply negb_true_iff in Hc.
    cbn [append split_from]. rewrite Hc. rewrite (IH _ Ht).
    rewrite append_assoc. reflexivity.
Qed.

(** The tokens of [split] are not empty and hold no whitespace. *)
Lemma split_from_is_token (s cur tok : string) :
  no_space cur = true -> In tok (split_from cur s) -> is_token tok.
Proof.
  revert cur; induction s as [|c r IH]; intros cur Hcur Hin; cbn [split_from] in Hin.
  - destruct (is_empty cur) eqn:E; [destruct Hin|].
    destruct Hin as [<-|[]]. split; assumption.
  - destruct (isspace c) eqn:Hc.
    + destruct (is_empty cur) eqn:E.
      * apply (IH EmptyString); [reflexivity | exact Hin].
      * destruct Hin as [<-|Hin]; [split; assumption|].
        apply (IH EmptyString); [reflexivity | exact Hin].
    + apply (IH (cur ++ str1 c)%string); [|exact Hin].
      rewrite no_space_app, Hcur. unfold no_space, str1. cbn [string_forall].
      rewrite Hc. reflexivity.
Qed.

Lemma split_is_token (s tok : string) : In tok (split s) -> is_token tok.
Proof. apply split_from_is_token. reflexivity. Qed.

(** [" ".join(toks).split()] gives the tokens back. *)
Lemma split_join (toks : list string) :
  (forall tok, In tok toks -> is_token tok) -> split (join toks) = toks.
Proof.
  unfold split, join. induction toks as [|x toks IH]; intros H; [reflexivity|].
  destruct (H x (or_introl eq_refl)) as [Hne Hns].
  destruct toks as [|y toks].
  - cbn [concat]. rewrite <- (append_nil_r x) at 1.
    rewrite (split_from_token x EmptyString EmptyString Hns).
    cbn [append split_from]. rewrite Hne. reflexivity.
  - cbn [concat].
    rewrite (split_from_token x EmptyString _ Hns).
    cbn [append split_from].
    replace (isspace " ") with true by reflexivity. rewrite Hne.
    f_equal. apply IH. intros tok Hin. apply H. right. exact Hin.
Qed.

(** *** The substitutions of numeric sites hold no whitespace *)

Lemma isdigit_not_space (c : ascii) : isdigit c = true -> isspace c = false.
Proof.
  destruct c as [[] [] [] [] [] [] [] []]; vm_compute; intros H;
    first [reflexivity | discriminate H].
Qed.

Lemma alphabet_char_not_space (c : ascii) :
  isalpha c || Ascii.eqb c "*" || Ascii.eqb c "-" = true -> isspace c = false.
Proof.
  destruct c as [[] [] [] [] [] [] [] []]; vm_compute; intros H;
    first [reflexivity | discriminate H].
Qed.

Lemma digits_no_space (s : string) :
  string_forall isdigit s = true -> no_space s = true.
Proof.
  unfold no_space. induction s as [|c r IH]; cbn [string_forall]; [reflexivity|].
  intros H. apply andb_true_iff in H as [Hc Hr].
  rewrite (isdigit_not_space c Hc), (IH Hr). reflexivity.
Qed.

Lemma match_site_int_no_space (s : string) :
  match_site_int s = true -> no_space s = true.
Proof.
  unfold match_site_int. intros H.
  assert (G : forall t, negb (is_empty t) && string_forall isdigit t = true ->
                        no_space t = true).
  { intros t Ht. apply andb_true_iff in Ht as [_ Ht]. apply digits_no_space, Ht. }
  destruct s as [|c r]; [reflexivity|].
  destruct (Ascii.eqb_spec c "-") as [->|Hn].
  - apply G in H. unfold no_space in *. cbn [string_forall]. rewrite H. reflexivity.
  - apply G. destruct c as [[] [] [] [] [] [] [] []]; try exact H; congruence.
Qed.

Lemma check_alphabet_In (alphabet0 : list ascii) (c : ascii) :
  check_alphabet alphabet0 = OK tt -> In c alphabet0 ->
  isalpha c || Ascii.eqb c "*" || Ascii.eqb c "-" = true.
Proof.
  induction alphabet0 as [|a l IH]; cbn [check_alphabet]; intros H Hin;
    [destruct Hin|].
  destruct (isalpha a || Ascii.eqb a "*" || Ascii.eqb a "-") eqn:E;
    [|discriminate].
  destruct Hin as [<-|Hin]; [exact E | apply IH; assumption].
Qed.

Lemma sub_string_is_token (alphabet0 : list ascii) (wt mut : ascii) (s : site) :
  check_alphabet alphabet0 = OK tt -> In wt alphabet0 -> In mut alphabet0 ->
  good_site false s -> is_token (sub_string wt s mut).
Proof.
  intros Ha Hwt Hmut [Hm _]. split; [reflexivity|].
  unfold sub_string, no_space. cbn [string_forall].
  rewrite (alphabet_char_not_space wt (check_alphabet_In _ _ Ha Hwt)).
  cbn [negb andb]. fold (no_space (site_str s ++ str1 mut)).
  rewrite no_space_app. cbn [match_site] in Hm.
  rewrite (match_site_int_no_space _ Hm).
  unfold no_space, str1. cbn [string_forall].
  rewrite (alphabet_char_not_space mut (check_alphabet_In _ _ Ha Hmut)).
  reflexivity.
Qed.


(** ** Encoding and decoding are inverse *)

Lemma sorted_of_sorted (l : list nat) :
  StronglySorted lt l -> sorted (fun i => i) Nat.leb l = l.
Proof.
  intros Hs. apply sorted_unique_nat; [|exact Hs|apply sorted_In].
  apply sorted_id_strict. apply (StronglySorted_NoDup lt); [intros a; lia | exact Hs].
Qed.

Lemma map_const_repeat {A : Type} (l : list A) (z : Z) :
  map (fun _ => z) l = repeat z (List.length l).
Proof. induction l as [|a l IH]; simpl; [reflexivity | rewrite IH; reflexivity]. Qed.

(** A vector of 0 and 1 is the indicator of its nonzero positions. *)
Lemma indicator_flatnonzero_from (b : list Z) (a : nat) (pre : list nat) :
  forallb is_0_or_1 b = true ->
  (forall i, In i pre -> i < a) ->
  map (fun i => if mem Nat.eqb i (pre ++ flatnonzero_from a b) then 1%Z else 0%Z)
    (seq a (List.length b)) = b.
Proof.
  revert a pre; induction b as [|x b IH]; intros a pre H Hpre; [reflexivity|].
  cbn [forallb] in H. apply andb_true_iff in H as [Hx Hb].
  cbn [List.length seq map flatnonzero_from].
  assert (Hnot : mem Nat.eqb a pre = false).
  { apply (mem_false Nat.eqb a pre Nat.eqb_spec). intros Hin.
    specialize (Hpre a Hin). lia. }
  unfold is_0_or_1 in Hx.
  apply orb_true_iff in Hx as [Hx|Hx]; apply Z.eqb_eq in Hx; subst x;
    cbn [Z.eqb].
  - f_equal.
    + replace (mem Nat.eqb a (pre ++ flatnonzero_from (S a) b)) with false;
        [reflexivity|].
      symmetry. apply (mem_false Nat.eqb _ _ Nat.eqb_spec). intros Hin.
      apply in_app_or in Hin as [Hin|Hin].
      * specialize (Hpre a Hin). lia.
      * apply flatnonzero_from_In in Hin. lia.
    + apply IH; [exact Hb|]. intros i Hi. specialize (Hpre i Hi). lia.
  - f_equal.
    + replace (mem Nat.eqb a (pre ++ a :: flatnonzero_from (S a) b)) with true;
        [reflexivity|].
      symmetry. apply (mem_In Nat.eqb _ _ Nat.eqb_spec).
      apply in_or_app. right. left. reflexivity.
    + replace (pre ++ a :: flatnonzero_from (S a) b)
        with ((pre ++ [a]) ++ flatnonzero_from (S a) b)
        by (rewrite <- app_assoc; reflexivity).
      apply IH; [exact Hb|]. intros i Hi.
      apply in_app_or in Hi as [Hi|[<-|[]]]; [specialize (Hpre i Hi)|]; lia.
Qed.

Lemma indicator_flatnonzero (b : list Z) :
  forallb is_0_or_1 b = true ->
  map (fun i => if mem Nat.eqb i (flatnonzero b) then 1%Z else 0%Z)
    (seq 0 (List.length b)) = b.
Proof.
  intros H. apply (indicator_flatnonzero_from b 0 [] H). intros i [].
Qed.

(** What [binary_to_sub_str] has checked when it returns. *)
Lemma binary_to_sub_str_checked (bm : BinaryMap) (b : list Z) (str : string) :
  binary_to_sub_str bm b = OK str ->
  List.length b = binarylength bm /\ forallb is_0_or_1 b = true.
Proof.
  unfold binary_to_sub_str. intros H.
  destruct (Nat.eqb_spec (List.length b) (binarylength bm)) as [E|E];
    [|discriminate].
  destruct (forallb is_0_or_1 b); [auto | discriminate].
Qed.

Section Inverse.
Variables (bm : BinaryMap) (ts : list entry).
Hypothesis Hreg : registry_holds bm ts.

(** The pairs of the loop of [sub_str_to_indices] on the substitutions at
    the indices [l]. *)
Lemma mutant_token_at (l : list nat) :
  (forall t, In t ts -> is_wt_entry t = false) ->
  (forall i, In i l -> i < List.length ts) ->
  exists ps,
    Forall2 (token_at bm) (map entry_sub (mutant_entries ts l)) ps
    /\ map fst ps = map entry_site (mutant_entries ts l)
    /\ map snd ps = l.
Proof.
  intros Hnw. induction l as [|i l IH]; intros Hlt.
  - exists []. repeat split; constructor.
  - destruct IH as (ps & HF & E1 & E2); [intros; apply Hlt; simpl; auto|].
    assert (Hi : i < List.length ts) by (apply Hlt; simpl; auto).
    destruct (nth_error ts i) as [t|] eqn:Hn;
      [|apply nth_error_None in Hn; lia].
    assert (Hin : In t ts) by (eapply nth_error_In; eauto).
    pose proof (Hnw t Hin) as Hw.
    exists ((entry_site t, i) :: ps).
    unfold mutant_entries. cbn [flat_map]. rewrite Hn, Hw. cbn [app map].
    fold (mutant_entries ts l). split; [|split].
    + constructor; [|exact HF]. split; cbn [fst snd].
      * exists (entry_wt t), (entry_mut t).
        apply (parse_entry bm ts Hreg t Hin Hw).
      * apply (sub_to_i_entry bm ts Hreg). eauto.
    + cbn [fst]. rewrite E1. reflexivity.
    + cbn [snd]. rewrite E2. reflexivity.
Qed.
End Inverse.

Section InverseProperties.
Context {SO : SetOrder}.

(** The substitutions of an object built without [allowed_subs] in
    observed-only mode are tokens of its variants. *)
Lemma observed_entry_token (substitutions : list string)
    (alphabet0 : list ascii) (sas : bool)
    (bm : BinaryMap) (ts : list entry) (wts : wts_dict) (muts : muts_dict) :
  built substitutions alphabet0 sas ts bm ->
  ts = observed_entries alphabet0 wts muts ->
  collected alphabet0 sas (set_iter (flat_map split substitutions)) wts muts ->
  forall t, In t ts -> In (entry_sub t) (flat_map split substitutions).
Proof.
  intros [Ea Es _ Hreg (rows & HF & _)] -> Hc [[s wt] m] Hin.
  apply (observed_entry_iff _ _ _ _ _ _ _ _ Hc) in Hin as (sub & Hsub & Hp).
  apply (proj1 (set_iter_In _ _)) in Hsub.
  pose proof Hsub as Hsub'. apply in_flat_map in Hsub' as (v & Hv & Htok).
  destruct (Forall2_In_l _ _ _ _ HF Hv) as (row & _ & Hrow).
  apply sub_str_to_indices_OK in Hrow as (ps & HFp & _).
  destruct (Forall2_In_l _ _ _ _ HFp Htok) as (p & _ & _ & Hi).
  rewrite <- Ea, <- Es in Hp.
  destruct (token_entry bm _ Hreg sub wt m s (snd p) Hp Hi) as [_ E].
  unfold entry_sub, entry_wt, entry_site, entry_mut. cbn [fst snd].
  rewrite <- E. exact Hsub.
Qed.

(** X8. Every variant string that [sub_str_to_indices] encodes on a
    constructed object, be it one of the variants of the object or a new
    one, makes the round trip: [binary_to_sub_str] on the vector of
    [sub_str_to_binary] returns the tokens of the string in the order of
    their indices, joined by single spaces. *)
Theorem round_trip_any_variant (substitutions : list string)
    (alphabet0 : list ascii) (allowed : option (list string))
    (sas expand : bool) (wtseq : option string) (bm : BinaryMap)
    (sub_str : string) (indices : list nat) :
  init substitutions alphabet0 allowed sas expand wtseq = OK bm ->
  sub_str_to_indices bm sub_str = OK indices ->
  exists b,
    sub_str_to_binary bm sub_str = OK b
    /\ binary_to_sub_str bm b = OK (canonicalize bm sub_str)
    /\ Permutation (split (canonicalize bm sub_str)) (split sub_str).
Proof.
  intros H Hi.
  apply init_built_sorted in H as (ts & [_ _ _ Hreg _] & Hs).
  destruct (round_trip_indices bm ts Hreg Hs sub_str indices Hi)
    as (b & toks & Eb & Ed & Et & Hp & _).
  exists b. split; [exact Eb|]. unfold canonicalize. rewrite <- Et.
  split; [exact Ed|]. rewrite split_join; [exact Hp|].
  intros tok Htok. apply (split_is_token sub_str).
  apply (Permutation_in _ Hp). exact Htok.
Qed.

(** X9. A variant string without any token, the wildtype, is encoded by
    every constructed object: the nonzero positions of its vector are the
    wildtype indices, so the vector is all zeros in observed-only mode;
    and [binary_to_sub_str] on that vector returns the empty string. *)
Theorem wildtype_encoding (substitutions : list string)
    (alphabet0 : list ascii) (allowed : option (list string))
    (sas expand : bool) (wtseq : option string) (bm : BinaryMap)
    (sub_str : string) :
  init substitutions alphabet0 allowed sas expand wtseq = OK bm ->
  split sub_str = [] ->
  exists b,
    sub_str_to_binary bm sub_str = OK b
    /\ (forall i, In i (flatnonzero b) <->
                  exists s, PyDict.get site_eqb (_wt_indices bm) s = Some i)
    /\ (expand = false -> b = repeat 0%Z (binarylength bm))
    /\ binary_to_sub_str bm b = OK EmptyString.
Proof.
  intros H Hsplit. pose proof H as H0.
  apply init_built_sorted in H as (ts & [_ _ _ Hreg _] & Hs).
  assert (Hi : sub_str_to_indices bm sub_str
               = OK (sorted (fun i => i) Nat.leb (unmentioned_wt bm []))).
  { apply sub_str_to_indices_OK. exists []. rewrite Hsplit.
    split; [constructor|]. split; [constructor | reflexivity]. }
  destruct (sub_str_to_binary_OK bm ts Hreg _ _ Hi) as (Eb & Hsorted & Hlt).
  destruct (round_trip_indices bm ts Hreg Hs sub_str _ Hi)
    as (b & toks & Eb' & Ed & Et & _).
  exists b. split; [exact Eb'|].
  pose proof (flatnonzero_indicator _ (binarylength bm) Hsorted Hlt) as Ef.
  assert (Eb0 : b = map (fun i =>
                           if mem Nat.eqb i
                                (sorted (fun i => i) Nat.leb (unmentioned_wt bm []))
                           then 1%Z else 0%Z) (seq 0 (binarylength bm)))
    by congruence.
  rewrite <- Eb0 in Ef.
  split; [|split].
  - intros i. rewrite Ef, sorted_In, (unmentioned_wt_In bm ts Hreg).
    split; [intros (s & Hg & _); eauto | intros (s & Hg); exists s; auto].
  - intros ->. apply init_observed_inv in H0 as (_ & _ & _ & _ & _ & _ & _ & _ & Hwi).
    rewrite Eb0. unfold unmentioned_wt. rewrite Hwi. cbn [PyDict.items filter map].
    change (sorted (fun i : nat => i) Nat.leb []) with (@nil nat).
    cbn [mem existsb].
    rewrite (map_const_repeat (seq 0 (binarylength bm)) 0%Z), length_seq.
    reflexivity.
  - rewrite Ed, Et, Hsplit. reflexivity.
Qed.

(** X10. [binary_to_sub_str] inverts [sub_str_to_binary] on the vectors it
    returns: the string decoded from the vector of a variant string
    encodes to the same vector. *)
Theorem encode_decode_encode (substitutions : list string)
    (alphabet0 : list ascii) (allowed : option (list string))
    (sas expand : bool) (wtseq : option string) (bm : BinaryMap)
    (sub_str : string) (b : list Z) :
  init substitutions alphabet0 allowed sas expand wtseq = OK bm ->
  sub_str_to_binary bm sub_str = OK b ->
  exists str,
    binary_to_sub_str bm b = OK str
    /\ sub_str_to_binary bm str = OK b.
Proof.
  intros H Hb.
  apply init_built_sorted in H as (ts & [_ _ _ Hreg _] & Hs).
  destruct (sub_str_to_indices bm sub_str) as [indices|e] eqn:Hi.
  2:{ unfold sub_str_to_binary in Hb. rewrite Hi in Hb. discriminate. }
  destruct (round_trip_indices bm ts Hreg Hs sub_str indices Hi)
    as (b' & toks & Eb & Ed & _ & Hp & _).
  rewrite Hb in Eb. inversion Eb; subst b'.
  exists (join toks). split; [exact Ed|].
  assert (Hsplit : split (join toks) = toks).
  { apply split_join. intros tok Htok. apply (split_is_token sub_str).
    apply (Permutation_in _ Hp). exact Htok. }
  assert (Hi' : sub_str_to_indices bm (join toks) = OK indices).
  { apply (indices_Permutation bm sub_str); [|exact Hi].
    rewrite Hsplit. symmetry. exact Hp. }
  unfold sub_str_to_binary in *. rewrite Hi'. rewrite Hi in Hb. exact Hb.
Qed.

(** X11. In observed-only mode, with numeric sites or without
    [allowed_subs], [sub_str_to_binary] inverts [binary_to_sub_str]: the
    string decoded from any vector that decodes encodes back to that
    vector. *)
Theorem decode_then_encode (substitutions : list string)
    (alphabet0 : list ascii) (allowed : option (list string))
    (sas : bool) (wtseq : option string) (bm : BinaryMap)
    (b : list Z) (str : string) :
  init substitutions alphabet0 allowed sas false wtseq = OK bm ->
  sas = false \/ allowed = None ->
  binary_to_sub_str bm b = OK str ->
  sub_str_to_binary bm str = OK b.
Proof.
  intros H Hmode Hd.
  apply init_observed_inv in H
    as (Ha & _ & subs & wts & muts & Esubs & Hc & Hb & Hwi).
  pose proof Hb as [Ea Es _ Hreg _].
  set (ts := observed_entries alphabet0 wts muts) in *.
  destruct (observed_good _ _ _ _ _ Hc) as [Hg Hnw]. fold ts in Hg, Hnw.
  destruct (binary_to_sub_str_checked bm b str Hd) as [Hlen H01].
  rewrite (decode_spec bm ts Hreg b Hlen H01) in Hd.
  destruct (Nat.eqb_spec
              (List.length (map entry_site (active_entries ts b)))
              (List.length (distinct site_eqb
                              (map entry_site (active_entries ts b)))))
    as [E|E]; [|discriminate].
  inversion Hd; subst str; clear Hd.
  symmetry in E. apply distinct_length in E.
  assert (Htok : forall t, In t ts -> is_token (entry_sub t)).
  { intros t Ht. destruct Hmode as [->| ->].
    - destruct (Hg t Ht) as (G & Hwt & Hmut).
      apply (sub_string_is_token alphabet0); auto.
    - inversion Esubs; subst subs.
      pose proof (observed_entry_token _ _ _ _ _ _ _ Hb eq_refl Hc t Ht) as Hin.
      apply in_flat_map in Hin as (v & _ & Hin).
      apply (split_is_token v). exact Hin. }
  unfold active_entries in *.
  assert (Hlt : forall i, In i (flatnonzero b) -> i < List.length ts).
  { intros i Hi. apply flatnonzero_lt in Hi.
    rewrite Hlen, (rh_length _ _ Hreg) in Hi. exact Hi. }
  destruct (mutant_token_at bm ts Hreg (flatnonzero b) Hnw Hlt)
    as (ps & HF & E1 & E2).
  assert (Hsplit : split (join (map entry_sub (mutant_entries ts (flatnonzero b))))
                   = map entry_sub (mutant_entries ts (flatnonzero b))).
  { apply split_join. intros tok Hin. apply in_map_iff in Hin as (t & <- & Ht).
    apply Htok. apply mutant_entries_In in Ht as (i & _ & Hn & _).
    eapply nth_error_In; eauto. }
  assert (Hi : sub_str_to_indices bm
                 (join (map entry_sub (mutant_entries ts (flatnonzero b))))
               = OK (flatnonzero b)).
  { apply sub_str_to_indices_OK. exists ps. rewrite Hsplit.
    split; [exact HF|]. split; [rewrite E1; exact E|].
    unfold unmentioned_wt. rewrite Hwi. cbn [PyDict.items filter map].
    rewrite app_nil_r, E2. symmetry. apply sorted_of_sorted.
    apply flatnonzero_sorted. }
  destruct (sub_str_to_binary_OK bm ts Hreg _ _ Hi) as (Eb & _).
  rewrite Eb, <- Hlen. f_equal. apply indicator_flatnonzero. exact H01.
Qed.
End InverseProperties.


(** ** When the construction succeeds *)

Section Variants.
Variables (bm : BinaryMap) (ts : list entry).
Hypothesis Hreg : registry_holds bm ts.

(** A variant string that the object encodes is well formed. *)
Lemma encoded_variant_ok (s : string) (row : list nat) :
  sub_str_to_indices bm s = OK row ->
  variant_ok (alphabet bm) (sites_as_str bm) s.
Proof.
  intros H. apply sub_str_to_indices_OK in H as (ps & HF & Hnd & _).
  assert (G : exists ps0,
             Forall2 (fun tok p =>
                        _parse_sub_str (alphabet bm) (sites_as_str bm) tok = OK p
                        /\ tok = sub_string (fst (fst p)) (snd (fst p)) (snd p))
               (split s) ps0
             /\ map parsed_site ps0 = map fst ps).
  { clear Hnd. induction HF as [|tok [st i] toks ps [(wt & mut & Hp) Hi] _ IH].
    - exists []. split; constructor.
    - destruct IH as (ps0 & HF0 & E). cbn [fst snd] in Hp, Hi.
      destruct (token_entry bm ts Hreg tok wt mut st i Hp Hi) as [_ Etok].
      exists ((wt, st, mut) :: ps0). split.
      + constructor; [|exact HF0]. split; [exact Hp | exact Etok].
      + simpl. rewrite E. reflexivity. }
  destruct G as (ps0 & HF0 & E). exists ps0. split; [exact HF0|].
  rewrite E. exact Hnd.
Qed.

(** A well-formed variant string whose substitutions the registry holds
    is encoded. *)
Lemma variant_ok_encodes (s : string) :
  variant_ok (alphabet bm) (sites_as_str bm) s ->
  (forall tok wt st mut,
      In tok (split s) ->
      _parse_sub_str (alphabet bm) (sites_as_str bm) tok = OK (wt, st, mut) ->
      In (st, wt, mut) ts) ->
  exists row, sub_str_to_indices bm s = OK row
              /\ forall c, In c row -> c < List.length ts.
Proof.
  intros (ps0 & HF & Hsites) Hent.
  assert (Hps : exists ps, Forall2 (token_at bm) (split s) ps
                           /\ map fst ps = map parsed_site ps0).
  { clear Hsites. revert HF Hent. generalize (split s). intros toks HF.
    induction HF as [|tok [[wt st] mut] toks ps0 [Hp Etok] HF IH]; intros Hent.
    - exists []. split; constructor.
    - destruct IH as (ps & HFp & Emap);
        [intros tok' wt' st' mut' Hin; apply Hent; right; exact Hin|].
      pose proof (Hent tok wt st mut (or_introl eq_refl) Hp) as Hin.
      apply In_nth_error in Hin as (i & Hi).
      exists ((st, i) :: ps). split.
      + constructor; [|exact HFp]. split.
        * exists wt, mut. exact Hp.
        * apply (sub_to_i_entry bm ts Hreg). exists (st, wt, mut).
          split; [exact Hi|]. cbn [fst snd] in Etok. symmetry. exact Etok.
      + simpl. rewrite Emap. reflexivity. }
  destruct Hps as (ps & HFp & Emap).
  assert (Erow : sub_str_to_indices bm s
                 = OK (sorted (fun i => i) Nat.leb
                         (map snd ps ++ unmentioned_wt bm (map fst ps)))).
  { apply sub_str_to_indices_OK. exists ps. rewrite Emap. auto. }
  eexists. split; [exact Erow|].
  apply (encode_structure bm ts Hreg) in Erow
    as (_ & _ & _ & _ & _ & _ & _ & _ & _ & Hlt & _).
  exact Hlt.
Qed.
End Variants.

Section Criteria.
Context {SO : SetOrder}.

(** The variants of a constructed object are well formed. *)
Lemma built_variants_ok (substitutions : list string) (alphabet0 : list ascii)
    (sas : bool) (ts : list entry) (bm : BinaryMap) :
  built substitutions alphabet0 sas ts bm ->
  forall s, In s substitutions -> variant_ok alphabet0 sas s.
Proof.
  intros [Ea Es _ Hreg (rows & HF & _)] s Hs.
  destruct (Forall2_In_l _ _ _ _ HF Hs) as (row & _ & Hrow).
  rewrite <- Ea, <- Es. apply (encoded_variant_ok bm ts Hreg s row Hrow).
Qed.


End Criteria.

(** *** The expansion *)

Lemma fold_min_ge (k : Z) (ks : list Z) (m : Z) :
  (forall z, In z (k :: ks) -> (m <= z)%Z) -> (m <= fold_right Z.min k ks)%Z.
Proof.
  induction ks as [|x ks IH]; intros H; simpl.
  - apply H. simpl; auto.
  - apply Z.min_glb; [apply H; simpl; auto|].
    apply IH. intros z [<-|Hz]; apply H; simpl; auto.
Qed.

Lemma fold_max_le (k : Z) (ks : list Z) (m : Z) :
  (forall z, In z (k :: ks) -> (z <= m)%Z) -> (fold_right Z.max k ks <= m)%Z.
Proof.
  induction ks as [|x ks IH]; intros H; simpl.
  - apply H. simpl; auto.
  - apply Z.max_lub; [apply H; simpl; auto|].
    apply IH. intros z [<-|Hz]; apply H; simpl; auto.
Qed.

Lemma wtseq_check_succeeds (w : list ascii) (items : list (site * ascii)) :
  (forall s wt, In (s, wt) items ->
                nth_error w (Z.to_nat (site_int s - 1)) = Some wt) ->
  foldM (wtseq_check w) items tt = OK tt.
Proof.
  induction items as [|[s wt] items IH]; intros H; cbn [foldM]; [reflexivity|].
  unfold wtseq_check at 1. rewrite (H s wt (or_introl eq_refl)).
  rewrite Ascii.eqb_refl. cbn [bind]. apply IH.
  intros s' wt' Hin. apply H. right. exact Hin.
Qed.

Section Expansion.
Context {SO : SetOrder}.

Lemma expand_no_tokens (substitutions : list string)
    (alphabet0 : list ascii) (allowed : option (list string)) (sas : bool)
    (wtseq : option string) (bm : BinaryMap) :
  init substitutions alphabet0 allowed sas true wtseq = OK bm ->
  flat_map split substitutions <> [].
Proof.
  intros H E. unfold init in H. inv_bind H. destruct a.
  inv_bind H. inv_bind H. destruct a0 as [wts muts]. inv_bind H.
  unfold assign_expand in Hr2.
  destruct sas; [discriminate|]. destruct allowed; [discriminate|].
  destruct wtseq as [w|]; [|discriminate].
  unfold subs_in_variants in Hr0. rewrite E, set_iter_nil in Hr0.
  inversion Hr0; subst a. cbn [foldM] in Hr1. inversion Hr1; subst wts.
  destruct (negb _); discriminate.
Qed.

Lemma expansion_succeeds_iff (substitutions : list string)
    (alphabet0 : list ascii) (wtseq0 : string) :
  (exists bm,
      init substitutions alphabet0 None false true (Some wtseq0) = OK bm) <->
  check_alphabet alphabet0 = OK tt
  /\ NoDup alphabet0
  /\ (forall c, In c (list_ascii_of_string wtseq0) -> In c alphabet0)
  /\ flat_map split substitutions <> []
  /\ (forall tok, In tok (flat_map split substitutions) ->
                  token_fits alphabet0 (list_ascii_of_string wtseq0) tok)
  /\ (forall s, In s substitutions -> variant_ok alphabet0 false s).
Proof.
  set (w := list_ascii_of_string wtseq0).
  split.
  - intros (bm & H). pose proof (expand_no_tokens _ _ _ _ _ _ H) as Hne.
    apply init_expand_inv in H as (Ha & _ & _ & w0 & Ew & Hw & Hb).
    inversion Ew; subst w0; clear Ew. fold w in Hw, Hb.
    pose proof Hb as [Ea Es _ Hreg (rows & HF & _)].
    assert (Hfits : forall tok, In tok (flat_map split substitutions) ->
                                token_fits alphabet0 w tok).
    { intros tok Htok. apply in_flat_map in Htok as (v & Hv & Htok).
      destruct (Forall2_In_l _ _ _ _ HF Hv) as (row & _ & Hrow).
      apply sub_str_to_indices_OK in Hrow as (ps & HFp & _).
      destruct (Forall2_In_l _ _ _ _ HFp Htok) as (p & _ & (wt & mut & Hp) & Hi).
      destruct (token_entry bm _ Hreg tok wt mut (fst p) (snd p) Hp Hi) as [Hn _].
      apply nth_error_In in Hn.
      apply expand_entry_iff in Hn as ((k & Es' & Hk) & _).
      rewrite Ea, Es, Es' in Hp.
      exists wt, (Z.of_nat (S k)), mut. split; [exact Hp|].
      assert (k < List.length w) by (apply nth_error_Some; congruence).
      split; [lia|].
      replace (Z.to_nat (Z.of_nat (S k) - 1)) with k by lia. exact Hk. }
    split; [exact Ha|]. split.
    { destruct (flat_map split substitutions) as [|tok l] eqn:E; [congruence|].
      destruct (Hfits tok (or_introl eq_refl)) as (wt & z & mut & _ & Hz & Hn).
      pose proof (rh_nodup _ _ Hreg) as Hnd.
      unfold expand_entries, enumerate1 in Hnd.
      destruct w as [|c w']; [destruct (Z.to_nat (z - 1)); discriminate|].
      cbn [List.length seq map combine flat_map] in Hnd.
      rewrite map_app in Hnd. apply NoDup_app_remove_r in Hnd.
      unfold site_entries in Hnd. cbn [fst snd] in Hnd.
      rewrite map_map in Hnd.
      apply (NoDup_map_inv _ _ Hnd). }
    split; [exact Hw|]. split; [exact Hne|]. split; [exact Hfits|].
    apply (built_variants_ok _ _ _ _ _ Hb).
  - intros (Ha & Hnd & Hw & Hne & Hfits & Hvar).
    set (subs := set_iter (flat_map split substitutions)).
    assert (Hsubs : forall sub, In sub subs -> token_fits alphabet0 w sub).
    { intros sub Hsub. apply Hfits. apply set_iter_In. exact Hsub. }
    unfold init. rewrite Ha. cbn [bind subs_in_variants]. fold subs.
    destruct (collect_loop_OK alphabet0 false subs [] [] [] (collected_nil _ _))
      as ([wts muts] & Ec).
    { intros sub Hsub. destruct (Hsubs sub Hsub) as (wt & z & mut & Hp & _). eauto. }
    { intros s1 s2 w1 w2 s m1 m2 H1 H2 P1 P2. cbn [app] in H1, H2.
      destruct (Hsubs s1 H1) as (wa & za & ma & Pa & _ & Na).
      destruct (Hsubs s2 H2) as (wb & zb & mb & Pb & _ & Nb).
      rewrite P1 in Pa. rewrite P2 in Pb.
      inversion Pa; inversion Pb; subst. congruence. }
    match goal with
    | |- context [bind ?c _] => replace c with (OK (wts, muts) : result _)
    end.
    cbn [bind].
    pose proof (collect_loop _ _ _ [] _ _ _ _ (collected_nil _ _) Ec) as Hc.
    cbn [app] in Hc.
    assert (Hkey : forall s wt, PyDict.get site_eqb wts s = Some wt ->
               exists z, s = IntSite z
                         /\ (1 <= z <= Z.of_nat (List.length w))%Z
                         /\ nth_error w (Z.to_nat (z - 1)) = Some wt).
    { intros s wt Hg.
      destruct (col_wts _ _ _ _ _ Hc s wt Hg) as (sub & mut & Hsub & Hp).
      destruct (Hsubs sub Hsub) as (wt' & z & mut' & Hp' & Hz & Hn).
      rewrite Hp in Hp'. inversion Hp'; subst. eauto. }
    assert (Hitems : forall s wt, In (s, wt) (PyDict.items wts) ->
                                  PyDict.get site_eqb wts s = Some wt).
    { intros s wt Hin.
      apply (PyDictFacts.In_get site_eqb site_eqb_spec); [|exact Hin].
      apply (col_keys _ _ _ _ _ Hc). }
    unfold assign_expand. fold w.
    replace (forallb (fun c => char_in c alphabet0) w) with true.
    2:{ symmetry. apply forallb_forall. intros c Hc'. apply char_in_In. auto. }
    cbn [negb].
    destruct (map site_int (PyDict.keys wts)) as [|k ks] eqn:Ek.
    { exfalso. apply Hne.
      destruct (flat_map split substitutions) as [|tok l] eqn:E; [reflexivity|].
      assert (Htok : In tok subs) by (apply set_iter_In; simpl; auto).
      destruct (col_subs _ _ _ _ _ Hc tok Htok) as (wt & s & mut & _ & Hg & _).
      apply (PyDictFacts.get_Some_In site_eqb site_eqb_spec) in Hg.
      apply (in_map fst) in Hg. unfold PyDict.keys in Ek.
      apply (in_map site_int) in Hg. rewrite Ek in Hg. destruct Hg. }
    assert (Hrange : forall z, In z (k :: ks) ->
                               (1 <= z <= Z.of_nat (List.length w))%Z).
    { intros z Hz. rewrite <- Ek in Hz.
      apply in_map_iff in Hz as (s & <- & Hs).
      unfold PyDict.keys in Hs. apply in_map_iff in Hs as ([s' wt] & <- & Hin).
      destruct (Hkey s' wt (Hitems _ _ Hin)) as (z & -> & Hz & _). exact Hz. }
    replace (fold_right Z.min k ks <? 1)%Z with false.
    2:{ symmetry. apply Z.ltb_ge. apply fold_min_ge.
        intros z Hz. apply Hrange. exact Hz. }
    replace (Z.of_nat (List.length w) <? fold_right Z.max k ks)%Z with false.
    2:{ symmetry. apply Z.ltb_ge. apply fold_max_le.
        intros z Hz. apply Hrange. exact Hz. }
    rewrite wtseq_check_succeeds.
    2:{ intros s wt Hin.
        destruct (Hkey s wt (Hitems _ _ Hin)) as (z & -> & _ & Hn). exact Hn. }
    cbn [bind]. change empty_registry with (registry_of [] []).
    destruct (expand_sites_loop_OK alphabet0 wts (enumerate1 w) [] [])
      as (r & Er); auto using enumerate1_NoDup, wt_indices_ok_nil.
    { intros s wt wt0 Hin Hg.
      apply enumerate1_In in Hin as (k0 & -> & Hk0).
      destruct (Hkey _ _ Hg) as (z & Ez & _ & Hn).
      injection Ez as Ez.
      assert (Ek0 : Z.to_nat (z - 1) = k0) by lia.
      rewrite Ek0 in Hn. congruence. }
    rewrite Er. cbn [bind].
    apply expand_sites_loop in Er as (wi & -> & Hok). cbn [app] in *.
    fold (expand_entries alphabet0 w) in *.
    pose proof (Hok wt_indices_ok_nil) as Hwi.
    pose proof (expand_good alphabet0 w Hw) as Hg.
    pose proof (expand_NoDup alphabet0 w Hnd Hw) as Hndts.
    apply finish_succeeds; auto.
    intros s Hs.
    set (bm0 := object_of substitutions alphabet0 false
                  (registry_of (expand_entries alphabet0 w) wi) empty_csr).
    assert (Hreg : registry_holds bm0 (expand_entries alphabet0 w))
      by (apply object_holds; auto).
    apply (variant_ok_encodes bm0 _ Hreg s); [apply Hvar, Hs|].
    intros tok wt st mut Htok Hp. cbn [alphabet sites_as_str bm0 object_of] in Hp.
    destruct (Hfits tok) as (wt' & z & mut' & Hp' & Hz & Hn);
      [apply in_flat_map; eauto|].
    rewrite Hp in Hp'. inversion Hp'; subst.
    apply expand_entry_iff. split.
    + exists (Z.to_nat (z - 1)). split; [f_equal; lia | exact Hn].
    + apply parse_OK_good in Hp. tauto.
Qed.

(** X13. In expansion mode, with a wildtype sequence and neither
    [sites_as_str] nor [allowed_subs], the construction returns an object
    exactly when the alphabet is valid and without repeated character, the
    characters of the wildtype sequence are in the alphabet, the variants
    hold at least one token, every token parses to a site between 1 and
    the length of the wildtype sequence with the wildtype that the
    sequence has there, and every variant has its tokens at distinct
    sites, each written as [wt + site + mut] prints it. *)
Theorem expansion_construction_succeeds_iff (substitutions : list string)
    (alphabet0 : list ascii) (wtseq0 : string) :
  (exists bm,
      init substitutions alphabet0 None false true (Some wtseq0) = OK bm) <->
  check_alphabet alphabet0 = OK tt
  /\ NoDup alphabet0
  /\ (forall c, In c (list_ascii_of_string wtseq0) -> In c alphabet0)
  /\ flat_map split substitutions <> []
  /\ (forall tok, In tok (flat_map split substitutions) ->
                  token_fits alphabet0 (list_ascii_of_string wtseq0) tok)
  /\ (forall s, In s substitutions -> variant_ok alphabet0 false s).
Proof. apply expansion_succeeds_iff. Qed.

(** X14. Expansion mode needs its arguments: a construction with
    [expand] that returns an object was given no [sites_as_str], no
    [allowed_subs] and a wildtype sequence; and a construction without
    [expand] that returns an object was given no wildtype sequence. *)
Theorem expand_arguments (substitutions : list string)
    (alphabet0 : list ascii) (allowed : option (list string))
    (sas expand : bool) (wtseq : option string) (bm : BinaryMap) :
  init substitutions alphabet0 allowed sas expand wtseq = OK bm ->
  (expand = true -> sas = false /\ allowed = None /\ exists w, wtseq = Some w)
  /\ (expand = false -> wtseq = None).
Proof.
  intros H. split; intros ->.
  - apply init_expand_inv in H as (_ & Hs & Ha & w & Ew & _). eauto.
  - apply init_observed_inv in H as (_ & Hw & _). exact Hw.
Qed.
End Expansion.


(** ** The exceptions of the construction *)

Section ConstructionErrors.
Context {SO : SetOrder}.

(** The loop over the substitutions, when they parse and agree on the
    wildtypes. *)
Lemma collect_succeeds (alphabet0 : list ascii) (sas : bool)
    (l : list string) :
  (forall tok, In tok l -> exists t, _parse_sub_str alphabet0 sas tok = OK t) ->
  consistent_wts alphabet0 sas l ->
  exists st,
    foldM (collect_step alphabet0 sas) (set_iter l) ([], []) = OK st.
Proof.
  intros Hp Hc.
  apply (collect_loop_OK alphabet0 sas (set_iter l) [] [] []
           (collected_nil _ _)).
  - intros sub Hsub. apply Hp, set_iter_In, Hsub.
  - intros s1 s2 w1 w2 s m1 m2 H1 H2. cbn [app] in H1, H2.
    apply Hc; apply set_iter_In; assumption.
Qed.

(** X15. With a valid alphabet and tokens that parse and agree on the
    wildtype of every site, the arguments of the expansion are checked in
    this order, each with a [ValueError] of its own: [expand] with
    [sites_as_str]; [expand] without a wildtype sequence; and a wildtype
    sequence without [expand]. *)
Theorem expand_argument_errors (substitutions : list string)
    (alphabet0 : list ascii) (sas : bool) (wtseq : option string)
    (w : string) :
  check_alphabet alphabet0 = OK tt ->
  (forall tok, In tok (flat_map split substitutions) ->
               exists t, _parse_sub_str alphabet0 sas tok = OK t) ->
  consistent_wts alphabet0 sas (flat_map split substitutions) ->
  (sas = true ->
   init substitutions alphabet0 None sas true wtseq
   = raise MsgExpandSitesAsStr)
  /\ (sas = false ->
      init substitutions alphabet0 None sas true None = raise MsgWtseqNotStr)
  /\ init substitutions alphabet0 None sas false (Some w)
     = raise MsgWtseqNotNone.
Proof.
  intros Ha Hp Hc.
  destruct (collect_succeeds alphabet0 sas _ Hp Hc) as ([wts muts] & Ec).
  assert (E : forall expand wtseq',
             init substitutions alphabet0 None sas expand wtseq'
             = r <- (if expand
                     then assign_expand alphabet0 sas None wtseq' wts
                     else assign_observed alphabet0 wtseq' wts muts) ;;
               finish substitutions alphabet0 sas r).
  { intros expand wtseq'. unfold init. rewrite Ha.
    cbn [bind subs_in_variants].
    match goal with
    | |- context [bind ?c _] => replace c with (OK (wts, muts) : result _)
    end.
    reflexivity. }
  split; [|split].
  - intros ->. rewrite E. reflexivity.
  - intros ->. rewrite E. reflexivity.
  - rewrite E. reflexivity.
Qed.

(** X16. A token of the variants that does not parse, or two tokens with
    different wildtypes at one site, make the construction raise a
    [ValueError], whatever the mode and the other arguments. *)
Theorem construction_rejects_bad_tokens (substitutions : list string)
    (alphabet0 : list ascii) (allowed : option (list string))
    (sas expand : bool) (wtseq : option string) :
  (exists tok, In tok (flat_map split substitutions)
               /\ parse_fails alphabet0 sas tok)
  \/ (exists t1 t2 wt1 wt2 s mut1 mut2,
         In t1 (flat_map split substitutions)
         /\ In t2 (flat_map split substitutions)
         /\ _parse_sub_str alphabet0 sas t1 = OK (wt1, s, mut1)
         /\ _parse_sub_str alphabet0 sas t2 = OK (wt2, s, mut2)
         /\ wt1 <> wt2) ->
  exists m,
    init substitutions alphabet0 allowed sas expand wtseq
    = Err (ValueError m).
Proof.
  intros Hbad. unfold init.
  destruct (check_alphabet alphabet0) as [[]|e] eqn:Ha.
  2:{ apply check_alphabet_Err in Ha as (m & ->). exists m. reflexivity. }
  cbn [bind].
  destruct (subs_in_variants substitutions allowed) as [subs|e] eqn:Es.
  2:{ unfold subs_in_variants in Es. destruct allowed as [a|]; [|discriminate].
      destruct (sorted _ _ _); [discriminate|]. inversion Es.
      eexists. reflexivity. }
  cbn [bind].
  assert (Hin : forall tok, In tok (flat_map split substitutions) ->
                            In tok subs).
  { intros tok Htok. destruct allowed as [a|].
    - apply subs_in_variants_Some in Es as [-> Hsup].
      apply set_iter_In, Hsup, Htok.
    - inversion Es. apply set_iter_In. exact Htok. }
  destruct (foldM (collect_step alphabet0 sas) subs ([], []))
    as [[wts muts]|e] eqn:Ec.
  - exfalso.
    pose proof (collect_loop _ _ _ [] _ _ _ _ (collected_nil _ _) Ec) as Hc.
    cbn [app] in Hc.
    destruct Hbad as [(tok & Htok & (m & Hm))
                     |(t1 & t2 & w1 & w2 & s & m1 & m2 & H1 & H2 & P1 & P2 & Hne)].
    + destruct (col_subs _ _ _ _ _ Hc tok (Hin _ Htok))
        as (wt & s & mut & Hp & _). congruence.
    + destruct (col_subs _ _ _ _ _ Hc t1 (Hin _ H1)) as (wa & sa & ma & Pa & Ga & _).
      destruct (col_subs _ _ _ _ _ Hc t2 (Hin _ H2)) as (wb & sb & mb & Pb & Gb & _).
      rewrite P1 in Pa. rewrite P2 in Pb.
      inversion Pa; inversion Pb; subst. congruence.
  - assert (He : is_ValueError e).
    { revert Ec. apply foldM_Err. intros st a e0 _. apply collect_step_Err. }
    destruct He as (m & ->). exists m. reflexivity.
Qed.
End ConstructionErrors.


(** ** The iteration order of the sets *)

(** With numeric sites two entries are never each before the other. *)
Lemma entry_before_asym (alphabet0 : list ascii) (t u : entry) :
  good_site false (entry_site t) -> good_site false (entry_site u) ->
  entry_before alphabet0 t u -> entry_before alphabet0 u t -> False.
Proof.
  intros Gt Gu [Htu Ptu] [Hut Put].
  pose proof (good_site_int_antisym _ _ Gt Gu Htu Hut) as E.
  apply (pos_lt_asym alphabet0 (entry_mut t) (entry_mut u)); auto.
Qed.

(** The wildtypes of the variants are only read by an assertion of the
    expansion. *)
Lemma expand_sites_loop_indep (alphabet0 : list ascii) (wts1 wts2 : wts_dict)
    (items : list (site * ascii)) (r r1 r2 : registry) :
  foldM (expand_site_step alphabet0 wts1) items r = OK r1 ->
  foldM (expand_site_step alphabet0 wts2) items r = OK r2 ->
  r1 = r2.
Proof.
  revert r; induction items as [|[s wt] items IH]; intros r H1 H2;
    cbn [foldM] in H1, H2; [congruence|].
  inv_bind H1. inv_bind H2.
  assert (E : forall wts x,
             expand_site_step alphabet0 wts r (s, wt) = OK x ->
             foldM (expand_char_step s wt) alphabet0 r = OK x).
  { intros wts x H. unfold expand_site_step in H.
    destruct (PyDict.get site_eqb wts s); [|exact H].
    destruct (Ascii.eqb a1 wt); [exact H | discriminate]. }
  apply E in Hr, Hr0. assert (a = a0) by congruence. subst a0.
  apply (IH a); assumption.
Qed.

Lemma subs_in_variants_In (SO : SetOrder) (substitutions : list string)
    (allowed : option (list string)) (subs : list string) :
  subs_in_variants substitutions allowed = OK subs ->
  (forall x, In x subs <->
             In x (match allowed with
                   | Some a => a
                   | None => flat_map split substitutions
                   end))
  /\ forall x, In x (flat_map split substitutions) -> In x subs.
Proof.
  destruct allowed as [a|]; intros H.
  - apply subs_in_variants_Some in H as [-> Hsup]. split.
    + intros x. apply set_iter_In.
    + intros x Hx. apply set_iter_In, Hsup, Hx.
  - inversion H. split; intros x; [apply set_iter_In | apply set_iter_In].
Qed.

(** The construction in observed-only mode, step by step. *)
Lemma init_observed_steps (SO : SetOrder) (substitutions : list string)
    (alphabet0 : list ascii) (allowed : option (list string)) (sas : bool)
    (wtseq : option string) (bm : BinaryMap) :
  init substitutions alphabet0 allowed sas false wtseq = OK bm ->
  exists subs wts muts,
    check_alphabet alphabet0 = OK tt
    /\ subs_in_variants substitutions allowed = OK subs
    /\ collected alphabet0 sas subs wts muts
    /\ wtseq = None
    /\ finish substitutions alphabet0 sas
         (registry_of (observed_entries alphabet0 wts muts) []) = OK bm.
Proof.
  unfold init. intros H. inv_bind H. destruct a.
  inv_bind H. inv_bind H. destruct a0 as [wts muts]. inv_bind H.
  assert (Hc : collected alphabet0 sas a wts muts).
  { apply (collect_loop _ _ a [] [] wts [] muts); [apply collected_nil | exact Hr1]. }
  unfold assign_observed in Hr2. destruct wtseq; [discriminate|].
  change empty_registry with (registry_of [] []) in Hr2.
  apply observed_sites_loop in Hr2 as [-> _]. cbn [app] in H.
  exists a, wts, muts. auto.
Qed.

(** The construction in expansion mode, step by step. *)
Lemma init_expand_steps (SO : SetOrder) (substitutions : list string)
    (alphabet0 : list ascii) (allowed : option (list string)) (sas : bool)
    (wtseq : option string) (bm : BinaryMap) :
  init substitutions alphabet0 allowed sas true wtseq = OK bm ->
  exists w wts r,
    wtseq = Some w
    /\ foldM (expand_site_step alphabet0 wts)
         (enumerate1 (list_ascii_of_string w)) empty_registry = OK r
    /\ finish substitutions alphabet0 sas r = OK bm.
Proof.
  unfold init. intros H.
  apply bind_OK in H as (u & _ & H).
  apply bind_OK in H as (subs & _ & H).
  apply bind_OK in H as ([wts muts] & _ & H).
  apply bind_OK in H as (r & Hr & H).
  unfold assign_expand in Hr.
  destruct sas; [discriminate|]. destruct allowed; [discriminate|].
  destruct wtseq as [w|]; [|discriminate].
  destruct (negb _); [discriminate|].
  destruct (map site_int (PyDict.keys wts)); [discriminate|].
  destruct (_ <? 1)%Z; [discriminate|]. destruct (_ <? _)%Z; [discriminate|].
  apply bind_OK in Hr as (u' & _ & Hr).
  exists w, wts, r. auto.
Qed.

(** The entries of observed-only mode with numeric sites are determined by
    the set of the substitutions. *)
Lemma observed_entries_determined (alphabet0 : list ascii)
    (subs1 subs2 : list string) (wts1 wts2 : wts_dict) (muts1 muts2 : muts_dict) :
  collected alphabet0 false subs1 wts1 muts1 ->
  collected alphabet0 false subs2 wts2 muts2 ->
  (forall x, In x subs1 <-> In x subs2) ->
  observed_entries alphabet0 wts1 muts1 = observed_entries alphabet0 wts2 muts2.
Proof.
  intros Hc1 Hc2 Heq.
  destruct (observed_good _ _ _ _ _ Hc1) as [Hg1 _].
  apply (sorted_unique (entry_before alphabet0)).
  - intros t u Ht Hu. apply entry_before_asym; [apply (Hg1 t Ht) | apply (Hg1 u Hu)].
  - apply (observed_sorted _ _ _ _ _ Hc1).
  - apply (observed_sorted _ _ _ _ _ Hc2).
  - intros [[s wt] m].
    rewrite (observed_entry_iff _ _ _ _ _ _ _ _ Hc1).
    rewrite (observed_entry_iff _ _ _ _ _ _ _ _ Hc2).
    split; intros (sub & Hsub & Hp); exists sub; split; auto; apply Heq; auto.
Qed.

(** X17. With numeric sites the object that the construction returns does
    not depend on the order in which Python iterates over the sets of
    substitutions: a construction that returns an object under one
    iteration order returns the same object under any other. *)
Theorem construction_independent_of_set_order (SO1 SO2 : SetOrder)
    (substitutions : list string) (alphabet0 : list ascii)
    (allowed : option (list string)) (expand : bool) (wtseq : option string)
    (bm : BinaryMap) :
  init (SO := SO1) substitutions alphabet0 allowed false expand wtseq = OK bm ->
  init (SO := SO2) substitutions alphabet0 allowed false expand wtseq = OK bm.
Proof.
  intros H1. destruct expand.
  - pose proof H1 as H0.
    apply (init_expand_inv (SO := SO1)) in H0 as (_ & _ & Eal & w & Ew & _).
    subst allowed wtseq.
    destruct (proj2 (expansion_succeeds_iff (SO := SO2) substitutions alphabet0 w)
                (proj1 (expansion_succeeds_iff (SO := SO1) substitutions alphabet0 w)
                   (ex_intro _ bm H1))) as (bm2 & H2).
    rewrite H2. f_equal.
    destruct (init_expand_steps SO1 _ _ _ _ _ _ H1) as (w1 & wts1 & r1 & E1 & L1 & F1).
    destruct (init_expand_steps SO2 _ _ _ _ _ _ H2) as (w2 & wts2 & r2 & E2 & L2 & F2).
    inversion E1; subst w1. inversion E2; subst w2.
    assert (r1 = r2) by (eapply expand_sites_loop_indep; eauto).
    subst r2. congruence.
  - destruct (init_observed_steps SO1 _ _ _ _ _ _ H1)
      as (subs1 & wts1 & muts1 & Ha & Es1 & Hc1 & -> & Hf1).
    destruct (subs_in_variants_In SO1 _ _ _ Es1) as [Hin1 Hused1].
    assert (Hsup : forall a, allowed = Some a ->
                             forall x, In x (flat_map split substitutions) -> In x a).
    { intros a -> x Hx. apply Hin1, Hused1, Hx. }
    assert (Es2 : exists subs2,
               subs_in_variants (SO := SO2) substitutions allowed = OK subs2).
    { destruct allowed as [a|]; [|eexists; reflexivity].
      eexists. apply (subs_in_variants_superset (SO := SO2)). apply (Hsup a eq_refl). }
    destruct Es2 as (subs2 & Es2).
    destruct (subs_in_variants_In SO2 _ _ _ Es2) as [Hin2 Hused2].
    assert (Heq : forall x, In x subs1 <-> In x subs2)
      by (intros x; rewrite Hin1, Hin2; reflexivity).
    destruct (init_observed_succeeds (SO := SO2) substitutions alphabet0 allowed
                false subs2 Ha Es2 Hused2) as (bm2 & H2).
    + intros sub Hsub. apply Heq in Hsub.
      destruct (col_subs _ _ _ _ _ Hc1 sub Hsub) as (wt & s & mut & Hp & _). eauto.
    + intros s1 s2 w1 w2 s m1 m2 I1 I2 P1 P2. apply Heq in I1, I2.
      destruct (col_subs _ _ _ _ _ Hc1 s1 I1) as (wa & sa & ma & Pa & Ga & _).
      destruct (col_subs _ _ _ _ _ Hc1 s2 I2) as (wb & sb & mb & Pb & Gb & _).
      rewrite P1 in Pa. rewrite P2 in Pb.
      inversion Pa; inversion Pb; subst. congruence.
    + apply (init_built (SO := SO1)) in H1 as (ts & Hb).
      apply (built_variants_ok _ _ _ _ _ Hb).
    + rewrite H2. f_equal.
      destruct (init_observed_steps SO2 _ _ _ _ _ _ H2)
        as (subs2' & wts2 & muts2 & _ & Es2' & Hc2 & _ & Hf2).
      rewrite Es2 in Es2'. inversion Es2'; subst subs2'.
      rewrite (observed_entries_determined _ _ _ _ _ _ _ Hc1 Hc2 Heq) in Hf1.
      congruence.
Qed.


(** ** Printing and parsing a substitution *)

(** X18. The string [wt + site + mut] that the construction prints for a
    substitution parses back to its three parts, for every site in numeric
    mode (negative ones too) and for every site that the regex accepts in
    string mode; a token that parses is printed from its parts as a string
    that parses to the same parts, which in string mode is the token
    itself; and the string printed for equal wildtype and mutant is
    refused. *)
Theorem parse_print_round_trip (alphabet0 : list ascii) (sas : bool) :
  (forall wt mut z,
      In wt alphabet0 -> In mut alphabet0 -> wt <> mut ->
      _parse_sub_str alphabet0 false (sub_string wt (IntSite z) mut)
      = OK (wt, IntSite z, mut))
  /\ (forall wt mut s,
         In wt alphabet0 -> In mut alphabet0 -> wt <> mut ->
         good_site sas s ->
         _parse_sub_str alphabet0 sas (sub_string wt s mut) = OK (wt, s, mut))
  /\ (forall sub wt s mut,
         _parse_sub_str alphabet0 sas sub = OK (wt, s, mut) ->
         _parse_sub_str alphabet0 sas (sub_string wt s mut) = OK (wt, s, mut)
         /\ (sas = true -> sub_string wt s mut = sub))
  /\ (forall wt s,
         In wt alphabet0 -> good_site sas s ->
         _parse_sub_str alphabet0 sas (sub_string wt s wt)
         = raise (MsgSameWtMut (sub_string wt s wt))).
Proof.
  split; [|split; [|split]].
  - intros wt mut z Hwt Hmut Hne.
    apply parse_sub_string; auto. apply good_site_int.
  - intros wt mut s Hwt Hmut Hne Hg. apply parse_sub_string; auto.
  - intros sub wt s mut Hp. pose proof Hp as Hp0.
    apply parse_OK_good in Hp as (Hg & Hwt & Hmut & Hne).
    split; [apply parse_sub_string; auto|].
    intros ->. symmetry. apply (parse_OK_str_canonical alphabet0). exact Hp0.
  - intros wt s Hwt Hg. apply parse_sub_string_same; auto.
Qed.

(** ** The contents of the registry *)

Lemma nth_error_flat_map_blocks {A B : Type} (g : A -> list B) (n : nat)
    (l : list A) (k j : nat) (x : A) :
  (forall a, In a l -> List.length (g a) = n) ->
  nth_error l k = Some x -> j < n ->
  nth_error (flat_map g l) (k * n + j) = nth_error (g x) j.
Proof.
  revert k; induction l as [|a l IH]; intros k Hlen Hk Hj.
  - destruct k; discriminate.
  - cbn [flat_map]. destruct k as [|k].
    + cbn [nth_error] in Hk. inversion Hk; subst a. cbn [Nat.mul Nat.add].
      apply nth_error_app1. rewrite (Hlen x (or_introl eq_refl)). exact Hj.
    + cbn [nth_error] in Hk.
      rewrite nth_error_app2 by (rewrite (Hlen a (or_introl eq_refl)); simpl; lia).
      rewrite (Hlen a (or_introl eq_refl)).
      replace (S k * n + j - n) with (k * n + j) by (simpl; lia).
      apply IH; auto. intros a' Ha'. apply Hlen. right. exact Ha'.
Qed.

Lemma nth_error_enumerate_from (w : list ascii) (a k : nat) (wt : ascii) :
  nth_error w k = Some wt ->
  nth_error (combine (map (fun i => IntSite (Z.of_nat i)) (seq a (List.length w))) w) k
  = Some (IntSite (Z.of_nat (a + k)), wt).
Proof.
  revert a k; induction w as [|c w IH]; intros a k Hk.
  - destruct k; discriminate.
  - cbn [List.length seq map combine]. destruct k as [|k].
    + cbn [nth_error] in *. inversion Hk. rewrite Nat.add_0_r. reflexivity.
    + cbn [nth_error] in *. rewrite (IH (S a) k Hk).
      replace (S a + k) with (a + S k) by lia. reflexivity.
Qed.

(** The entry of the expansion at the index [k * n + j]: site [k + 1],
    character [j] of the alphabet. *)
Lemma nth_error_expand_entries (alphabet0 w : list ascii) (k j : nat)
    (wt c : ascii) :
  nth_error w k = Some wt -> nth_error alphabet0 j = Some c ->
  nth_error (expand_entries alphabet0 w) (k * List.length alphabet0 + j)
  = Some (IntSite (Z.of_nat (S k)), wt, c).
Proof.
  intros Hk Hj. unfold expand_entries.
  rewrite (nth_error_flat_map_blocks _ (List.length alphabet0) _ k j
             (IntSite (Z.of_nat (S k)), wt)).
  - unfold site_entries. cbn [fst snd]. rewrite nth_error_map, Hj. reflexivity.
  - intros it _. unfold site_entries. apply length_map.
  - unfold enumerate1. apply (nth_error_enumerate_from w 1 k wt Hk).
  - apply nth_error_Some. congruence.
Qed.

Lemma filter_all {A : Type} (f : A -> bool) (l : list A) :
  (forall x, In x l -> f x = true) -> filter f l = l.
Proof.
  induction l as [|a l IH]; intros H; cbn [filter]; [reflexivity|].
  rewrite (H a (or_introl eq_refl)). f_equal. apply IH.
  intros x Hx. apply H. right. exact Hx.
Qed.

Section RegistryContents.
Context {SO : SetOrder}.

(** X19. In expansion mode the registry holds, for every site of the
    wildtype sequence and every character of the alphabet, the string
    [wt + site + char], observed or not, at the index
    [(site - 1) * len(alphabet) + position of the character]; nothing
    else has an index. The string of the wildtype character itself, such
    as [M1M], has the wildtype index of the site, on which [i_to_sub]
    returns the empty string and not that string. *)
Theorem expansion_registry (substitutions : list string)
    (alphabet0 : list ascii) (allowed : option (list string)) (sas : bool)
    (wtseq : option string) (bm : BinaryMap) :
  init substitutions alphabet0 allowed sas true wtseq = OK bm ->
  exists w,
    wtseq = Some w
    /\ (forall k j wt c,
           nth_error (list_ascii_of_string w) k = Some wt ->
           nth_error alphabet0 j = Some c ->
           sub_to_i bm (sub_string wt (IntSite (Z.of_nat (S k))) c)
           = OK (k * List.length alphabet0 + j))
    /\ (forall x, in_registry bm x ->
                  exists k j wt c,
                    nth_error (list_ascii_of_string w) k = Some wt
                    /\ nth_error alphabet0 j = Some c
                    /\ x = sub_string wt (IntSite (Z.of_nat (S k))) c)
    /\ (forall k wt,
           nth_error (list_ascii_of_string w) k = Some wt ->
           exists i,
             sub_to_i bm (sub_string wt (IntSite (Z.of_nat (S k))) wt) = OK i
             /\ PyDict.get site_eqb (_wt_indices bm) (IntSite (Z.of_nat (S k)))
                = Some i
             /\ i_to_sub bm i = OK EmptyString).
Proof.
  intros H.
  apply init_expand_inv in H as (_ & _ & _ & w & -> & Hw & [_ _ _ Hreg _]).
  set (cs := list_ascii_of_string w) in *.
  exists w. split; [reflexivity|].
  assert (Hidx : forall k j wt c,
             nth_error cs k = Some wt -> nth_error alphabet0 j = Some c ->
             sub_to_i bm (sub_string wt (IntSite (Z.of_nat (S k))) c)
             = OK (k * List.length alphabet0 + j)).
  { intros k j wt c Hk Hj. apply (sub_to_i_entry bm _ Hreg).
    exists (IntSite (Z.of_nat (S k)), wt, c).
    split; [apply nth_error_expand_entries; assumption | reflexivity]. }
  split; [exact Hidx|]. split.
  - intros x (i & Hi).
    apply (sub_to_i_entry bm _ Hreg) in Hi as ([[s wt] c] & Hn & <-).
    apply nth_error_In in Hn.
    apply expand_entry_iff in Hn as ((k & -> & Hk) & Hc).
    apply In_nth_error in Hc as (j & Hj).
    exists k, j, wt, c. auto.
  - intros k wt Hk.
    assert (Hc : In wt alphabet0) by (apply Hw; eapply nth_error_In; eauto).
    apply In_nth_error in Hc as (j & Hj).
    exists (k * List.length alphabet0 + j).
    split; [apply Hidx; assumption|].
    pose proof (nth_error_expand_entries alphabet0 cs k j wt wt Hk Hj) as Hn.
    destruct (rh_wt _ _ Hreg) as (_ & _ & Hd).
    split; [apply (Hd _ _ wt Hn)|].
    rewrite (i_to_sub_entry bm _ Hreg _ _ Hn).
    unfold is_wt_entry, entry_wt, entry_mut. cbn [fst snd].
    rewrite Ascii.eqb_refl. reflexivity.
Qed.

(** X20. In observed-only mode without [allowed_subs] the map holds
    exactly the tokens of the variants: a string has an index if and only
    if it is a token of some variant, [all_subs] lists these tokens once
    each, and [binarylength] is their number. *)
Theorem observed_registry_is_tokens (substitutions : list string)
    (alphabet0 : list ascii) (sas : bool) (wtseq : option string)
    (bm : BinaryMap) :
  init substitutions alphabet0 None sas false wtseq = OK bm ->
  (forall x, in_registry bm x <-> In x (flat_map split substitutions))
  /\ exists l,
       all_subs bm = OK l
       /\ NoDup l
       /\ (forall x, In x l <-> In x (flat_map split substitutions))
       /\ List.length l = binarylength bm.
Proof.
  intros H.
  apply init_observed_inv in H
    as (_ & _ & subs & wts & muts & Esubs & Hc & Hb & _).
  inversion Esubs; subst subs; clear Esubs.
  pose proof Hb as [_ _ _ Hreg (rows & HF & _)].
  set (ts := observed_entries alphabet0 wts muts) in *.
  destruct (observed_good _ _ _ _ _ Hc) as [_ Hnw]. fold ts in Hnw.
  assert (Hiff : forall x, in_registry bm x <->
                           In x (flat_map split substitutions)).
  { intros x. split.
    - intros (i & Hi).
      apply (sub_to_i_entry bm ts Hreg) in Hi as (t & Hn & <-).
      apply (observed_entry_token _ _ _ _ _ _ _ Hb eq_refl Hc).
      eapply nth_error_In; eauto.
    - intros Hx. apply in_flat_map in Hx as (v & Hv & Htok).
      destruct (Forall2_In_l _ _ _ _ HF Hv) as (row & _ & Hrow).
      apply sub_str_to_indices_OK in Hrow as (ps & HFp & _).
      destruct (Forall2_In_l _ _ _ _ HFp Htok) as (p & _ & _ & Hi).
      exists (snd p). exact Hi. }
  split; [exact Hiff|].
  exists (map entry_sub ts).
  assert (Ef : filter (fun t => negb (is_wt_entry t)) ts = ts).
  { apply filter_all. intros t Ht. rewrite (Hnw t Ht). reflexivity. }
  split; [rewrite (all_subs_entries bm ts Hreg), Ef; reflexivity|].
  split; [apply (rh_nodup _ _ Hreg)|]. split.
  - intros x. rewrite <- Hiff. split.
    + intros Hx. apply in_map_iff in Hx as (t & <- & Ht).
      apply In_nth_error in Ht as (i & Hi). exists i.
      apply (sub_to_i_entry bm ts Hreg). eauto.
    + intros (i & Hi).
      apply (sub_to_i_entry bm ts Hreg) in Hi as (t & Hn & <-).
      apply in_map. eapply nth_error_In; eauto.
  - rewrite length_map, (rh_length _ _ Hreg). reflexivity.
Qed.
End RegistryContents.


(** ** The properties on the examples of the docstring *)

(** A second iteration order: the reverse of the order of first
    occurrence. *)
Definition last_seen_order : SetOrder :=
  {| set_iter := fun l => rev (first_seen [] l);
     set_iter_NoDup := fun l => NoDup_rev (proj1 (first_seen_spec l []));
     set_iter_In := fun l x =>
       conj (fun H => proj1 (set_iter_In (SetOrder := first_seen_order) l x)
                        (proj2 (in_rev _ x) H))
            (fun H => proj1 (in_rev _ x)
                        (proj2 (set_iter_In (SetOrder := first_seen_order) l x) H)) |}.

Ltac docstring_object bm E :=
  match goal with
  | |- context [init ?a ?b ?c ?d ?e ?f] =>
      destruct (init a b c d e f) as [bm|?] eqn:E;
      [|vm_compute in E; discriminate]
  end.

Lemma i_to_sub_bounds_witness :
  exists bm,
    init (SO := first_seen_order) docstring_variants small_alphabet None
      false true (Some "MAKG"%string) = OK bm
    /\ i_to_sub bm 24 = raise (MsgInvalidIndex 24)
    /\ exists sub, i_to_sub bm 23 = OK sub.
Proof.
  docstring_object bm E. exists bm. split; [reflexivity|].
  destruct (i_to_sub_bounds (SO := first_seen_order) _ _ _ _ _ _ bm 24 E)
    as (_ & H & _).
  destruct (i_to_sub_bounds (SO := first_seen_order) _ _ _ _ _ _ bm 23 E)
    as (H' & _ & _).
  vm_compute in E. injection E as <-.
  split; [apply H; vm_compute; lia | apply H'; vm_compute; lia].
Defined.

Lemma all_subs_lists_registry_witness :
  exists bm l,
    init (SO := first_seen_order) docstring_variants small_alphabet None
      false false None = OK bm
    /\ all_subs bm = OK l /\ NoDup l /\ StronglySorted (index_lt bm) l.
Proof.
  docstring_object bm E.
  destruct (all_subs_lists_registry (SO := first_seen_order) _ _ _ _ _ _ bm E)
    as (l & H1 & H2 & H3 & _).
  exists bm, l. auto.
Defined.

Lemma sub_str_to_binary_vector_witness :
  exists bm,
    init (SO := first_seen_order) docstring_variants small_alphabet None
      false false None = OK bm
    /\ (forall e, sub_str_to_indices bm "M1A M1C" = Err e ->
                  sub_str_to_binary bm "M1A M1C" = Err e /\ is_ValueError e)
    /\ (forall indices,
           sub_str_to_indices bm "M1C K3A" = OK indices ->
           exists b, sub_str_to_binary bm "M1C K3A" = OK b
                     /\ zsum b = Z.of_nat (List.length indices)).
Proof.
  docstring_object bm E. exists bm. split; [reflexivity|]. split.
  - apply (sub_str_to_binary_vector (SO := first_seen_order) _ _ _ _ _ _ bm
             "M1A M1C"%string E).
  - intros indices Hi.
    destruct (sub_str_to_binary_vector (SO := first_seen_order) _ _ _ _ _ _ bm
                "M1C K3A"%string E) as [H _].
    destruct (H indices Hi) as (b & Hb & _ & _ & _ & _ & Hz). eauto.
Defined.

Lemma binary_variants_rows_witness :
  exists bm,
    init (SO := first_seen_order) docstring_variants small_alphabet None
      false false None = OK bm
    /\ nvariants bm = 6
    /\ Forall2 (fun sub_str row => sub_str_to_binary bm sub_str = OK row)
         docstring_variants (toarray (binary_variants bm)).
Proof.
  docstring_object bm E. exists bm. split; [reflexivity|].
  destruct (binary_variants_rows (SO := first_seen_order) _ _ _ _ _ _ bm E)
    as (_ & H2 & _ & H4).
  auto.
Defined.

Lemma sub_str_to_indices_token_order_witness :
  exists bm,
    init (SO := first_seen_order) docstring_variants small_alphabet None
      false false None = OK bm
    /\ sub_str_to_indices bm "K3A   M1C" = OK [1; 4].
Proof.
  docstring_object bm E. exists bm. split; [reflexivity|].
  apply (sub_str_to_indices_token_order bm "M1C K3A" "K3A   M1C" [1; 4]).
  - vm_compute. apply perm_swap.
  - vm_compute in E. injection E as <-. vm_compute. reflexivity.
Defined.

Lemma round_trip_any_variant_witness :
  exists bm b,
    init (SO := first_seen_order) docstring_variants small_alphabet None
      false false None = OK bm
    /\ sub_str_to_binary bm "K3A M1A" = OK b
    /\ binary_to_sub_str bm b = OK (canonicalize bm "K3A M1A").
Proof.
  docstring_object bm E.
  destruct (round_trip_any_variant (SO := first_seen_order) _ _ _ _ _ _ bm
              "K3A M1A"%string [0; 4] E) as (b & H1 & H2 & _).
  - vm_compute in E. injection E as <-. vm_compute. reflexivity.
  - exists bm, b. auto.
Defined.

Lemma wildtype_encoding_witness :
  exists bm b,
    init (SO := first_seen_order) docstring_variants small_alphabet None
      false false None = OK bm
    /\ sub_str_to_binary bm "  " = OK b
    /\ b = repeat 0%Z (binarylength bm)
    /\ binary_to_sub_str bm b = OK EmptyString.
Proof.
  docstring_object bm E.
  destruct (wildtype_encoding (SO := first_seen_order) _ _ _ _ _ _ bm
              "  "%string E eq_refl) as (b & H1 & _ & H3 & H4).
  exists bm, b. auto.
Defined.

Lemma encode_decode_encode_witness :
  exists bm str,
    init (SO := first_seen_order) docstring_variants small_alphabet None
      false true (Some "MAKG"%string) = OK bm
    /\ sub_str_to_binary bm str = sub_str_to_binary bm "K3A M1C".
Proof.
  docstring_object bm E.
  destruct (sub_str_to_binary bm "K3A M1C") as [b|e] eqn:Eb.
  2:{ vm_compute in E. injection E as <-. vm_compute in Eb. discriminate. }
  destruct (encode_decode_encode (SO := first_seen_order) _ _ _ _ _ _ bm
              "K3A M1C"%string b E Eb) as (str & _ & H).
  exists bm, str. split; [reflexivity|]. rewrite Eb. exact H.
Defined.

Lemma decode_then_encode_witness :
  exists bm,
    init (SO := first_seen_order) docstring_variants small_alphabet None
      false false None = OK bm
    /\ sub_str_to_binary bm "M1A A2C" = OK [1; 0; 1; 0; 0]%Z.
Proof.
  docstring_object bm E. exists bm. split; [reflexivity|].
  apply (decode_then_encode (SO := first_seen_order) _ _ _ _ _ bm _ _ E).
  - left. reflexivity.
  - vm_compute in E. injection E as <-. vm_compute. reflexivity.
Defined.

Lemma expand_arguments_witness :
  exists bm,
    init (SO := first_seen_order) docstring_variants small_alphabet None
      false true (Some "MAKG"%string) = OK bm
    /\ exists w, Some "MAKG"%string = Some w.
Proof.
  docstring_object bm E. exists bm. split; [reflexivity|].
  destruct (expand_arguments (SO := first_seen_order) _ _ _ _ _ _ bm E)
    as [H _].
  destruct (H eq_refl) as (_ & _ & Hw). exact Hw.
Defined.

Lemma docstring_tokens_parse (tok : string) :
  In tok (flat_map split docstring_variants) ->
  exists t, _parse_sub_str small_alphabet false tok = OK t.
Proof.
  intros H.
  change (flat_map split docstring_variants)
    with ["M1A"; "M1C"; "K3A"; "A2C"; "K3A"; "A2*"]%string in H.
  cbn [In] in H.
  repeat (destruct H as [<-|H]; [eexists; vm_compute; reflexivity|]). destruct H.
Qed.

Lemma docstring_tokens_consistent :
  consistent_wts small_alphabet false (flat_map split docstring_variants).
Proof.
  intros s1 s2 w1 w2 s m1 m2 H1 H2.
  change (flat_map split docstring_variants)
    with ["M1A"; "M1C"; "K3A"; "A2C"; "K3A"; "A2*"]%string in H1, H2.
  cbn [In] in H1, H2.
  repeat (destruct H1 as [<-|H1]);
    try (destruct H1);
    repeat (destruct H2 as [<-|H2]);
    try (destruct H2);
    vm_compute; intros P1 P2; congruence.
Qed.

Lemma expand_argument_errors_witness :
  init (SO := first_seen_order) docstring_variants small_alphabet None
    false true None = raise MsgWtseqNotStr
  /\ init (SO := first_seen_order) docstring_variants small_alphabet None
       false false (Some "MAKG"%string) = raise MsgWtseqNotNone.
Proof.
  destruct (expand_argument_errors (SO := first_seen_order) docstring_variants
              small_alphabet false None "MAKG"%string eq_refl
              docstring_tokens_parse docstring_tokens_consistent)
    as (_ & H2 & H3).
  split; [apply H2; reflexivity | exact H3].
Defined.

Lemma construction_rejects_bad_tokens_witness :
  exists m,
    init (SO := first_seen_order) ["M1A"; "A1C"]%string small_alphabet None
      false false None = Err (ValueError m).
Proof.
  apply (construction_rejects_bad_tokens (SO := first_seen_order)).
  right. exists "M1A"%string, "A1C"%string, "M"%char, "A"%char, (IntSite 1),
           "A"%char, "C"%char.
  repeat split; try reflexivity; try (simpl; tauto). discriminate.
Defined.

Lemma construction_independent_of_set_order_witness :
  exists bm,
    init (SO := first_seen_order) docstring_variants small_alphabet None
      false false None = OK bm
    /\ init (SO := last_seen_order) docstring_variants small_alphabet None
         false false None = OK bm.
Proof.
  destruct (init (SO := first_seen_order) docstring_variants small_alphabet
              None false false None) as [bm|e] eqn:E;
    [|vm_compute in E; discriminate].
  exists bm. split; [reflexivity|].
  apply (construction_independent_of_set_order first_seen_order last_seen_order).
  exact E.
Defined.

Lemma expansion_registry_witness :
  exists bm,
    init (SO := first_seen_order) docstring_variants small_alphabet None
      false true (Some "MAKG"%string) = OK bm
    /\ sub_to_i bm "K3*" = OK 17
    /\ sub_to_i bm "M1M" = OK 4.
Proof.
  docstring_object bm E. exists bm. split; [reflexivity|].
  destruct (expansion_registry (SO := first_seen_order) _ _ _ _ _ bm E)
    as (w & Ew & Hidx & _).
  injection Ew as <-. split.
  - apply (Hidx 2 5 "K"%char "*"%char); reflexivity.
  - apply (Hidx 0 4 "M"%char "M"%char); reflexivity.
Defined.

Lemma observed_registry_is_tokens_witness :
  exists bm,
    init (SO := first_seen_order) docstring_variants small_alphabet None
      false false None = OK bm
    /\ in_registry bm "A2*"
    /\ ~ in_registry bm "M1K".
Proof.
  docstring_object bm E. exists bm. split; [reflexivity|].
  destruct (observed_registry_is_tokens (SO := first_seen_order) _ _ _ _ bm E)
    as (Hiff & _).
  split.
  - apply Hiff. vm_compute. tauto.
  - intros H. apply Hiff in H. vm_compute in H.
    repeat (destruct H as [H|H]; [discriminate H|]). destruct H.
Defined.


(** ** The rows of the matrix, decoded and counted *)

(** The number of the characters of an alphabet other than one of them. *)
Lemma length_filter_other (l : list ascii) (x : ascii) :
  NoDup l -> In x l ->
  List.length (filter (fun c => negb (Ascii.eqb x c)) l) = List.length l - 1.
Proof.
  induction 1 as [|a l Ha Hnd IH]; intros Hin; [destruct Hin|].
  cbn [filter]. destruct (Ascii.eqb_spec x a) as [->|Hne]; cbn [negb].
  - rewrite filter_all; [simpl; lia|].
    intros c Hc. apply negb_true_iff, Ascii.eqb_neq. intros ->. contradiction.
  - destruct Hin as [E|Hin]; [congruence|].
    cbn [List.length]. rewrite (IH Hin).
    destruct l; [destruct Hin | simpl; lia].
Qed.

Lemma length_mutant_expand (alphabet0 : list ascii)
    (items : list (site * ascii)) :
  NoDup alphabet0 -> (forall it, In it items -> In (snd it) alphabet0) ->
  List.length (filter (fun t => negb (is_wt_entry t))
                 (flat_map (site_entries (fun _ => alphabet0)) items))
  = List.length items * (List.length alphabet0 - 1).
Proof.
  intros Hnd. induction items as [|[s wt] items IH]; intros H; [reflexivity|].
  cbn [flat_map]. rewrite filter_app, length_app, IH
    by (intros it Hit; apply H; right; exact Hit).
  unfold site_entries. cbn [fst snd List.length Nat.mul].
  f_equal.
  assert (E : forall l,
             filter (fun t => negb (is_wt_entry t)) (map (fun m => (s, wt, m)) l)
             = map (fun m => (s, wt, m))
                 (filter (fun c => negb (Ascii.eqb wt c)) l)).
  { induction l as [|c l IHl]; [reflexivity|].
    cbn [map filter]. unfold is_wt_entry at 1, entry_wt, entry_mut.
    cbn [fst snd]. rewrite IHl. destruct (Ascii.eqb wt c); reflexivity. }
  rewrite E, length_map. apply length_filter_other; [exact Hnd|].
  apply (H (s, wt)). left. reflexivity.
Qed.

Section RowProperties.
Context {SO : SetOrder}.

(** X21. The rows of the matrix decode to the variants: for every
    variant of a constructed object, [binary_to_sub_str] on its row of
    [binary_variants] returns the canonical form of its substitution
    string. *)
Theorem binary_variants_rows_decode (substitutions : list string)
    (alphabet0 : list ascii) (allowed : option (list string))
    (sas expand : bool) (wtseq : option string) (bm : BinaryMap) :
  init substitutions alphabet0 allowed sas expand wtseq = OK bm ->
  Forall2 (fun sub_str row =>
             binary_to_sub_str bm row = OK (canonicalize bm sub_str))
    substitutions (toarray (binary_variants bm)).
Proof.
  intros H.
  apply init_built_sorted in H as (ts & [_ _ _ Hreg (rows & HF & Ebv)] & Hs).
  rewrite Ebv, toarray_indicator.
  - clear Ebv. induction HF as [|s row l rows' Hrow HF IH]; cbn [map];
      [constructor | constructor; [|exact IH]].
    destruct (round_trip_indices bm ts Hreg Hs s row Hrow)
      as (b & toks & Eb & Ed & Et & _).
    destruct (sub_str_to_binary_OK bm ts Hreg _ _ Hrow) as (Eb' & _).
    rewrite Eb' in Eb. inversion Eb as [Eb0].
    rewrite (rh_length _ _ Hreg) in Eb0. rewrite Eb0.
    unfold canonicalize. rewrite <- Et. exact Ed.
  - symmetry. eapply Forall2_length; eauto.
  - apply Forall_forall. intros row Hrow.
    destruct (Forall2_In_r _ _ _ _ HF Hrow) as (s & _ & Hsr).
    destruct (sub_str_to_binary_OK bm ts Hreg _ _ Hsr) as (_ & Hsorted & _).
    apply (StronglySorted_NoDup lt); [intros a; lia | exact Hsorted].
Qed.

(** X22. In observed-only mode a variant string is encoded by as many
    indices as it has tokens, and every row of the matrix sums to the
    number of the substitutions of its variant. *)
Theorem observed_row_sums (substitutions : list string)
    (alphabet0 : list ascii) (allowed : option (list string)) (sas : bool)
    (wtseq : option string) (bm : BinaryMap) :
  init substitutions alphabet0 allowed sas false wtseq = OK bm ->
  (forall sub_str indices,
      sub_str_to_indices bm sub_str = OK indices ->
      List.length indices = List.length (split sub_str))
  /\ Forall2 (fun sub_str row =>
                zsum row = Z.of_nat (List.length (split sub_str)))
       substitutions (toarray (binary_variants bm)).
Proof.
  intros H.
  apply init_observed_inv in H
    as (_ & _ & subs & wts & muts & _ & _ & [_ _ _ Hreg (rows & HF & Ebv)] & Hwi).
  assert (Hlen : forall sub_str indices,
             sub_str_to_indices bm sub_str = OK indices ->
             List.length indices = List.length (split sub_str)).
  { intros sub_str indices Hi.
    apply sub_str_to_indices_OK in Hi as (ps & HFp & _ & ->).
    unfold unmentioned_wt. rewrite Hwi. cbn [PyDict.items filter map].
    rewrite sorted_length, app_nil_r, length_map.
    symmetry. eapply Forall2_length; eauto. }
  split; [exact Hlen|].
  rewrite Ebv.
  assert (Hrows : Forall (fun row => forall c, In c row ->
                     c < List.length (observed_entries alphabet0 wts muts)) rows).
  { apply Forall_forall. intros row Hrow.
    destruct (Forall2_In_r _ _ _ _ HF Hrow) as (s & _ & Hs).
    apply (encode_structure bm _ Hreg) in Hs
      as (_ & _ & _ & _ & _ & _ & _ & _ & _ & Hlt & _).
    exact Hlt. }
  assert (Hl : List.length rows = List.length substitutions)
    by (symmetry; eapply Forall2_length; eauto).
  pose proof (toarray_rows _ _ rows Hl Hrows) as HT.
  revert HT HF.
  generalize (toarray
                {| shape := (List.length substitutions,
                             List.length (observed_entries alphabet0 wts muts));
                   coords := coords_from 0 rows |}).
  intros dense HT HF. clear Hl Hrows Ebv. revert dense HT.
  induction HF as [|s row substitutions' rows' Hs HF IH]; intros dense HT;
    inversion HT as [|dn r dense' rows'' Hz HT']; subst; constructor.
  - rewrite Hz. f_equal. apply (Hlen s row Hs).
  - apply IH. exact HT'.
Qed.

(** X23. In expansion mode [all_subs] lists
    [len(wtseq) * (len(alphabet) - 1)] substitutions: every character of
    the alphabet but the wildtype one, at every site. *)
Theorem expansion_all_subs_count (substitutions : list string)
    (alphabet0 : list ascii) (allowed : option (list string)) (sas : bool)
    (wtseq : option string) (bm : BinaryMap) :
  init substitutions alphabet0 allowed sas true wtseq = OK bm ->
  exists w l,
    wtseq = Some w
    /\ all_subs bm = OK l
    /\ List.length l = String.length w * (List.length alphabet0 - 1).
Proof.
  intros H. pose proof H as H0.
  apply init_expand_inv in H as (_ & Hsas & Hal & w & Ew & Hw & [_ _ _ Hreg _]).
  subst sas allowed wtseq.
  destruct (proj1 (expansion_succeeds_iff substitutions alphabet0 w)
              (ex_intro _ bm H0)) as (_ & Hnd & _).
  exists w. eexists. split; [reflexivity|].
  split; [apply (all_subs_entries bm _ Hreg)|].
  rewrite length_map. unfold expand_entries.
  rewrite length_mutant_expand; [|exact Hnd|].
  - unfold enumerate1.
    rewrite length_combine, length_map, length_seq, Nat.min_id.
    rewrite length_list_ascii_of_string. reflexivity.
  - intros [s wt] Hit. apply enumerate1_In in Hit as (k & _ & Hk).
    apply Hw. eapply nth_error_In; eauto.
Qed.

(** X24. With [allowed_subs] the map holds exactly the supplied
    substitutions, each as [wt + site + mut] prints it: a string has an
    index if and only if it is the printed form of a supplied
    substitution; and every token of the variants is supplied. *)
Theorem allowed_registry (substitutions : list string)
    (alphabet0 : list ascii) (allowed : list string) (sas : bool)
    (wtseq : option string) (bm : BinaryMap) :
  init substitutions alphabet0 (Some allowed) sas false wtseq = OK bm ->
  (forall x, in_registry bm x <->
             exists sub wt s mut,
               In sub allowed
               /\ _parse_sub_str alphabet0 sas sub = OK (wt, s, mut)
               /\ x = sub_string wt s mut)
  /\ (forall sub, In sub allowed ->
                  exists t, _parse_sub_str alphabet0 sas sub = OK t)
  /\ (forall tok, In tok (flat_map split substitutions) -> In tok allowed).
Proof.
  intros H.
  apply init_observed_inv in H
    as (_ & _ & subs & wts & muts & Esubs & Hc & [_ _ _ Hreg _] & _).
  apply subs_in_variants_Some in Esubs as [-> Hsup].
  split; [|split; [|exact Hsup]].
  - intros x. split.
    + intros (i & Hi).
      apply (sub_to_i_entry bm _ Hreg) in Hi as ([[s wt] m] & Hn & <-).
      apply nth_error_In in Hn.
      apply (observed_entry_iff _ _ _ _ _ _ _ _ Hc) in Hn as (sub & Hsub & Hp).
      exists sub, wt, s, m. split; [apply set_iter_In; exact Hsub|]. auto.
    + intros (sub & wt & s & m & Hsub & Hp & ->).
      assert (Hent : In (s, wt, m) (observed_entries alphabet0 wts muts)).
      { apply (observed_entry_iff _ _ _ _ _ _ _ _ Hc). exists sub.
        split; [apply set_iter_In; exact Hsub | exact Hp]. }
      apply In_nth_error in Hent as (i & Hi). exists i.
      apply (sub_to_i_entry bm _ Hreg). exists (s, wt, m). auto.
  - intros sub Hsub. apply set_iter_In in Hsub.
    destruct (col_subs _ _ _ _ _ Hc sub Hsub) as (wt & s & mut & Hp & _). eauto.
Qed.
End RowProperties.

Lemma binary_variants_rows_decode_witness :
  exists bm,
    init (SO := first_seen_order) docstring_variants small_alphabet None
      false true (Some "MAKG"%string) = OK bm
    /\ Forall2 (fun sub_str row =>
                  binary_to_sub_str bm row = OK (canonicalize bm sub_str))
         docstring_variants (toarray (binary_variants bm)).
Proof.
  docstring_object bm E. exists bm. split; [reflexivity|].
  apply (binary_variants_rows_decode (SO := first_seen_order) _ _ _ _ _ _ bm E).
Defined.

Lemma observed_row_sums_witness :
  exists bm,
    init (SO := first_seen_order) docstring_variants small_alphabet None
      false false None = OK bm
    /\ Forall2 (fun sub_str row =>
                  zsum row = Z.of_nat (List.length (split sub_str)))
         docstring_variants (toarray (binary_variants bm)).
Proof.
  docstring_object bm E. exists bm. split; [reflexivity|].
  apply (observed_row_sums (SO := first_seen_order) _ _ _ _ _ bm E).
Defined.

Lemma expansion_all_subs_count_witness :
  exists bm l,
    init (SO := first_seen_order) docstring_variants small_alphabet None
      false true (Some "MAKG"%string) = OK bm
    /\ all_subs bm = OK l /\ List.length l = 20.
Proof.
  docstring_object bm E.
  destruct (expansion_all_subs_count (SO := first_seen_order) _ _ _ _ _ bm E)
    as (w & l & Ew & Hl & Hlen).
  injection Ew as <-. exists bm, l. auto.
Defined.

Lemma allowed_registry_witness :
  exists bm,
    init (SO := first_seen_order) ["M1A K3A"%string] small_alphabet
      (Some ["M1A"; "K3A"; "A2C"]%string) false false None = OK bm
    /\ in_registry bm "A2C".
Proof.
  docstring_object bm E. exists bm. split; [reflexivity|].
  destruct (allowed_registry (SO := first_seen_order) _ _ _ _ _ bm E)
    as (Hiff & _).
  apply Hiff. exists "A2C"%string, "A"%char, (IntSite 2), "C"%char.
  repeat split; simpl; tauto.
Defined.


(** ** The array of the sites and the whole of [__init__] *)

Lemma finish_binary_sites (substitutions : list string) (alphabet0 : list ascii)
    (sas : bool) (r : registry) (bm : BinaryMap) :
  finish substitutions alphabet0 sas r = OK bm ->
  binary_sites bm = r_binary_sites r.
Proof.
  unfold finish. destruct (negb _); [discriminate|]. intros H.
  apply bind_OK in H as (rows & _ & H). apply bind_OK in H as (m & _ & H).
  inversion H. reflexivity.
Qed.


Lemma np_array_OK (sas : bool) (sites l : list site) :
  np_array sas sites = OK l <->
  l = map np_site sites /\ (sas = false -> forallb site_fits sites = true).
Proof.
  unfold np_array. destruct sas.
  - split.
    + intros H. inversion H. split; [reflexivity | discriminate].
    + intros [-> _]. reflexivity.
  - destruct (forallb site_fits sites); split.
    + intros H. inversion H. auto.
    + intros [-> _]. reflexivity.
    + discriminate.
    + intros [_ H]. specialize (H eq_refl). discriminate.
Qed.


Lemma array_finish_OK (substitutions : list string) (alphabet0 : list ascii)
    (sas : bool) (r : registry) (bm' : BinaryMap) :
  array_finish substitutions alphabet0 sas r = OK bm' <->
  exists bm sites,
    finish substitutions alphabet0 sas r = OK bm
    /\ np_array sas (binary_sites bm) = OK sites
    /\ bm' = with_binary_sites bm sites.
Proof.
  unfold array_finish. split.
  - intros H. apply bind_OK in H as (sites & Hs & H).
    apply bind_OK in H as (bm & Hb & H). inversion H.
    exists bm, sites. rewrite (finish_binary_sites _ _ _ _ _ Hb). auto.
  - intros (bm & sites & Hb & Hs & ->).
    rewrite (finish_binary_sites _ _ _ _ _ Hb) in Hs.
    rewrite Hs. cbn [bind]. rewrite Hb. reflexivity.
Qed.


(** The object with the array has the maps and the matrix of the object
    with the list. *)
Lemma with_binary_sites_built (substitutions : list string)
    (alphabet0 : list ascii) (sas : bool) (bm : BinaryMap) (sites : list site) :
  alphabet (with_binary_sites bm sites) = alphabet bm
  /\ sites_as_str (with_binary_sites bm sites) = sites_as_str bm
  /\ _i_to_sub (with_binary_sites bm sites) = _i_to_sub bm
  /\ _sub_to_i (with_binary_sites bm sites) = _sub_to_i bm
  /\ _wt_indices (with_binary_sites bm sites) = _wt_indices bm
  /\ _wt_index_set (with_binary_sites bm sites) = _wt_index_set bm
  /\ binarylength (with_binary_sites bm sites) = binarylength bm
  /\ binary_variants (with_binary_sites bm sites) = binary_variants bm
  /\ binary_sites (with_binary_sites bm sites) = sites.
Proof. repeat split. Qed.

(** The methods do not read [binary_sites]. *)
Lemma with_binary_sites_methods (bm : BinaryMap) (sites : list site) :
  (forall s, sub_str_to_indices (with_binary_sites bm sites) s
             = sub_str_to_indices bm s)
  /\ (forall s, sub_str_to_binary (with_binary_sites bm sites) s
                = sub_str_to_binary bm s)
  /\ (forall b, binary_to_sub_str (with_binary_sites bm sites) b
                = binary_to_sub_str bm b)
  /\ (forall i, i_to_sub (with_binary_sites bm sites) i = i_to_sub bm i)
  /\ (forall sub, sub_to_i (with_binary_sites bm sites) sub = sub_to_i bm sub)
  /\ all_subs (with_binary_sites bm sites) = all_subs bm.
Proof. repeat split. Qed.

(** A site of the kind of the mode is read back from the array as it is
    when it is an [int]. *)
Lemma np_site_int (s : site) : good_site false s -> np_site s = s.
Proof.
  intros [_ H]. unfold site_of_group in H. rewrite <- H. reflexivity.
Qed.


Section Constructor.
Context {SO : SetOrder}.

(** [__init__] returns the object of [init] with the array of the sites
    for [binary_sites]. *)
Lemma constructor_OK (substitutions : list string) (alphabet0 : list ascii)
    (allowed : option (list string)) (sas expand : bool)
    (wtseq : option string) (bm' : BinaryMap) :
  __init__ substitutions alphabet0 allowed sas expand wtseq = OK bm' <->
  exists bm sites,
    init substitutions alphabet0 allowed sas expand wtseq = OK bm
    /\ np_array sas (binary_sites bm) = OK sites
    /\ bm' = with_binary_sites bm sites.
Proof.
  unfold __init__, init.
  destruct (check_alphabet alphabet0) as [[]|e0]; cbn [bind];
    [|split; [discriminate | intros (? & ? & F & _); discriminate]].
  destruct (subs_in_variants substitutions allowed) as [subs|e0]; cbn [bind];
    [|split; [discriminate | intros (? & ? & F & _); discriminate]].
  match goal with
  | |- context [foldM ?f ?l ?s] =>
      destruct (foldM f l s) as [[wts muts]|e0]
  end; cbn [bind];
    [|split; [discriminate | intros (? & ? & F & _); discriminate]].
  match goal with
  | |- context [bind ?c _] => destruct c as [r|e0]
  end; cbn [bind];
    [|split; [discriminate | intros (? & ? & F & _); discriminate]].
  apply array_finish_OK.
Qed.




End Constructor.

(** *** The exceptions of the construction *)



Section ConstructorExceptions.
Context {SO : SetOrder}.


End ConstructorExceptions.


(** * The properties of the whole construction *)

Lemma map_np_site_int (ts : list entry) :
  (forall t, In t ts -> good_site false (entry_site t)) ->
  map np_site (map entry_site ts) = map entry_site ts.
Proof.
  intros H. rewrite map_map. apply map_ext_in. intros t Ht.
  apply np_site_int, H, Ht.
Qed.

Section WholeConstruction.
Context {SO : SetOrder}.

(** ** C4: the order of the indices in observed-only mode *)

(** C4. In observed-only mode the indices are 0, 1, 2, ... without gap;
    every substitution that the construction is given (the tokens of the
    variants, or [allowed_subs]) parses and has an index, which holds it
    as [wt + site + mut] prints it; every index holds such a
    substitution, which parses back and whose site is the entry of the
    array [binary_sites] (an [int], or the [str] without trailing NUL
    characters); of two indices [i < j] the site of [i] is not after the
    site of [j] in the natural order, and at one site the wildtype is the
    same and the mutant character of [i] comes before that of [j] in the
    alphabet; there is no wildtype index. The natural order is the
    numeric one on [int] sites, negative ones included, and puts [9]
    before [10a] before [10b]. *)
Theorem observed_index_order (substitutions : list string)
    (alphabet0 : list ascii) (allowed : option (list string)) (sas : bool)
    (wtseq : option string) (bm : BinaryMap) :
  __init__ substitutions alphabet0 allowed sas false wtseq = OK bm ->
  PyDict.keys (_i_to_sub bm) = seq 0 (binarylength bm)
  /\ (forall sub, In sub (supplied substitutions allowed) ->
        exists wt s mut i,
          _parse_sub_str alphabet0 sas sub = OK (wt, s, mut)
          /\ i < binarylength bm
          /\ PyDict.get Nat.eqb (_i_to_sub bm) i = Some (sub_string wt s mut))
  /\ (forall i, i < binarylength bm ->
        exists sub wt s mut,
          In sub (supplied substitutions allowed)
          /\ _parse_sub_str alphabet0 sas sub = OK (wt, s, mut)
          /\ PyDict.get Nat.eqb (_i_to_sub bm) i = Some (sub_string wt s mut)
          /\ nth_error (binary_sites bm) i = Some (np_site s)
          /\ _parse_sub_str alphabet0 sas (sub_string wt s mut)
             = OK (wt, s, mut))
  /\ (forall i j subi subj wti si mi wtj sj mj,
        i < j ->
        PyDict.get Nat.eqb (_i_to_sub bm) i = Some subi ->
        PyDict.get Nat.eqb (_i_to_sub bm) j = Some subj ->
        _parse_sub_str alphabet0 sas subi = OK (wti, si, mi) ->
        _parse_sub_str alphabet0 sas subj = OK (wtj, sj, mj) ->
        site_le si sj
        /\ (si = sj -> wti = wtj /\ pos_lt alphabet0 mi mj))
  /\ _wt_indices bm = [] /\ _wt_index_set bm = []
  /\ (forall a b, site_le (IntSite a) (IntSite b) <-> (a <= b)%Z)
  /\ site_lt (StrSite "9") (StrSite "10a")
  /\ site_lt (StrSite "10a") (StrSite "10b").
Proof.
  intros H. apply constructor_OK in H as (bm0 & sites & H & Hs & ->).
  apply np_array_OK in Hs as [-> _].
  pose proof (init_observed_order _ _ _ _ _ _ H)
    as (K1 & _ & K3 & K4 & K5 & K6).
  apply init_observed_inv in H
    as (_ & _ & subs & wts & muts & Esubs & Hc & [Ea Es _ Hreg _] & _).
  destruct (subs_in_variants_In SO _ _ _ Esubs) as [Hin _].
  set (ts := observed_entries alphabet0 wts muts) in *.
  destruct (observed_good _ _ _ _ _ Hc) as [Hg Hnw]. fold ts in Hg, Hnw.
  cbn [_i_to_sub binarylength binary_sites _wt_indices _wt_index_set
         with_binary_sites].
  split; [exact K1|]. split; [|split].
  - intros sub Hsub. apply Hin in Hsub.
    destruct (col_subs _ _ _ _ _ Hc sub Hsub) as (wt & s & mut & Hp & _).
    assert (Hent : In (s, wt, mut) ts).
    { apply (observed_entry_iff _ _ _ _ _ _ _ _ Hc). eauto. }
    apply In_nth_error in Hent as (i & Hi).
    exists wt, s, mut, i. split; [exact Hp|]. split.
    + rewrite (rh_length _ _ Hreg). apply nth_error_Some.
      unfold entry. rewrite Hi. discriminate.
    + rewrite (get_i_to_sub bm0 ts Hreg), nth_error_map. unfold entry.
      rewrite Hi. reflexivity.
  - intros i Hlt. rewrite (rh_length _ _ Hreg) in Hlt.
    destruct (nth_error ts i) as [[[s wt] mut]|] eqn:Hn;
      [|apply nth_error_None in Hn; lia].
    assert (Hent : In (s, wt, mut) ts) by (eapply nth_error_In; eauto).
    pose proof Hent as Hent'.
    apply (observed_entry_iff _ _ _ _ _ _ _ _ Hc) in Hent'
      as (sub & Hsub & Hp).
    exists sub, wt, s, mut. split; [apply Hin; exact Hsub|].
    split; [exact Hp|]. split; [|split].
    + rewrite (get_i_to_sub bm0 ts Hreg), nth_error_map, Hn. reflexivity.
    + rewrite (rh_sites _ _ Hreg), !nth_error_map, Hn. reflexivity.
    + rewrite <- Ea, <- Es.
      apply (parse_entry bm0 ts Hreg (s, wt, mut) Hent (Hnw _ Hent)).
  - split; [exact K3|]. split; [exact K4|]. split; [exact K5|]. exact K6.
Qed.

(** ** C7: two substitutions at one site *)


(** ** C8: the test against [allowed_subs] *)


(** ** The array of the sites *)

(** X3. The array [binary_sites] of a constructed object has one entry for
    every index; the entry at the index of a substitution is the site of
    the substitution as the array gives it back, an [int] or the [str]
    without trailing NUL characters; the entry at a wildtype index is the
    site of that wildtype; the array is the image of a list of sites in
    the natural order; and in numeric mode the array itself is in that
    order, with every entry in the range of a C long. *)
Theorem binary_sites_parallel (substitutions : list string)
    (alphabet0 : list ascii) (allowed : option (list string))
    (sas expand : bool) (wtseq : option string) (bm : BinaryMap) :
  __init__ substitutions alphabet0 allowed sas expand wtseq = OK bm ->
  List.length (binary_sites bm) = binarylength bm
  /\ (forall sub i wt s mut,
         sub_to_i bm sub = OK i ->
         _parse_sub_str (alphabet bm) (sites_as_str bm) sub = OK (wt, s, mut) ->
         nth_error (binary_sites bm) i = Some (np_site s))
  /\ (forall s i, PyDict.get site_eqb (_wt_indices bm) s = Some i ->
                  nth_error (binary_sites bm) i = Some s)
  /\ (exists sites,
         binary_sites bm = map np_site sites
         /\ StronglySorted site_le sites)
  /\ (sas = false ->
      StronglySorted site_le (binary_sites bm)
      /\ forall s, In s (binary_sites bm) ->
                   exists z, s = IntSite z /\ fits_c_long z = true).
Proof.
  intros H. apply constructor_OK in H as (bm0 & sites & H & Hs & ->).
  apply np_array_OK in Hs as [-> Hfit].
  pose proof (init_sites_list_parallel _ _ _ _ _ _ _ H)
    as (K1 & K2 & K3 & K4).
  assert (Hwt : sas = true -> _wt_indices bm0 = []).
  { intros ->. destruct expand.
    - apply init_expand_inv in H as (_ & F & _). discriminate.
    - apply init_observed_inv in H as (_ & _ & ? & ? & ? & _ & _ & _ & E).
      exact E. }
  apply init_built_sorted in H as (ts & [_ Es _ Hreg _] & Hsorted).
  cbn [binary_sites binarylength _wt_indices alphabet sites_as_str
         with_binary_sites].
  split; [rewrite length_map; exact K1|]. split; [|split; [|split]].
  - intros sub i wt s mut Hi Hp.
    change (sub_to_i (with_binary_sites bm0 (map np_site (binary_sites bm0)))
              sub) with (sub_to_i bm0 sub) in Hi.
    rewrite nth_error_map, (K2 sub i wt s mut Hi Hp). reflexivity.
  - intros s i Hg. rewrite nth_error_map, (K3 s i Hg). cbn [option_map].
    destruct sas.
    + rewrite (Hwt eq_refl) in Hg. discriminate.
    + destruct (wt_index_entry bm0 ts Hreg s i Hg) as (t & Hn & <- & _).
      apply nth_error_In in Hn.
      rewrite np_site_int; [reflexivity|].
      rewrite <- Es. apply (rh_good _ _ Hreg t Hn).
  - exists (binary_sites bm0). split; [reflexivity | exact K4].
  - intros ->. specialize (Hfit eq_refl).
    rewrite (rh_sites _ _ Hreg) in *.
    assert (Hgood : forall t, In t ts -> good_site false (entry_site t)).
    { intros t Ht. rewrite <- Es. apply (rh_good _ _ Hreg t Ht). }
    rewrite (map_np_site_int ts Hgood). split; [exact K4|].
    intros s Hs. rewrite forallb_forall in Hfit. pose proof (Hfit s Hs) as Hf.
    apply in_map_iff in Hs as (t & <- & Ht).
    destruct (Hgood t Ht) as [_ Hg]. unfold site_of_group in Hg.
    rewrite <- Hg in Hf |- *. eexists. split; [reflexivity | exact Hf].
Qed.

(** ** When the construction succeeds *)

End WholeConstruction.

(** The variants of the docstring, in observed-only mode: [M1A] has an
    index. *)
Lemma observed_index_order_witness :
  exists bm,
    __init__ (SO := first_seen_order) docstring_variants AAS_WITHSTOP None
      false false None = OK bm
    /\ PyDict.keys (_i_to_sub bm) = seq 0 (binarylength bm)
    /\ (exists i, i < binarylength bm
                  /\ PyDict.get Nat.eqb (_i_to_sub bm) i = Some "M1A"%string)
    /\ _wt_indices bm = [].
Proof.
  destruct (__init__ (SO := first_seen_order) docstring_variants AAS_WITHSTOP
              None false false None) as [bm|e] eqn:E;
    [|vm_compute in E; discriminate].
  exists bm. split; [reflexivity|].
  destruct (observed_index_order (SO := first_seen_order) _ _ _ _ _ _ E)
    as (H1 & H2 & _ & _ & H5 & _).
  split; [exact H1|]. split; [|exact H5].
  destruct (H2 "M1A"%string) as (wt & s & mut & i & Hp & Hi & Hg).
  { vm_compute. auto. }
  vm_compute in Hp. inversion Hp; subst wt s mut.
  exists i. split; [exact Hi | exact Hg].
Defined.




(** The expansion of the docstring. *)
Lemma binary_sites_parallel_witness :
  exists bm,
    __init__ (SO := first_seen_order) docstring_variants small_alphabet None
      false true (Some "MAKG"%string) = OK bm
    /\ List.length (binary_sites bm) = binarylength bm
    /\ StronglySorted site_le (binary_sites bm).
Proof.
  destruct (__init__ (SO := first_seen_order) docstring_variants
              small_alphabet None false true (Some "MAKG"%string))
    as [bm|e] eqn:E; [|vm_compute in E; discriminate].
  exists bm. split; [reflexivity|].
  destruct (binary_sites_parallel (SO := first_seen_order) _ _ _ _ _ _ bm E)
    as (H1 & _ & _ & _ & H5).
  split; [exact H1 | apply (H5 eq_refl)].
Defined.
